(** * Z202 (repeated statement blocks) of drace: a shallow embedding

    Source: [src/drace/darkian/z200/z202.py].

    The first part embeds the source: the canonicalizer and
    [canonical_block_dump] with the functions of [ast] and [hashlib]
    that they call, the sequence extractor [collect_sequences] with its
    [BodyWalker], the triviality filter, and [check] with its greedy
    selection and its messages. The second part states and proves the
    properties.

    Python integers are [Z], Python lists are [list], Python dictionaries
    are association lists in insertion order (their iteration order is
    observable in [check]), and the set [occupied_lines] is a [gset Z].
    The canonicalizer changes the tree in place; the extractor threads
    the tree through its windows, so that each window sees what the
    windows before it have left. *)

From Stdlib Require Import ZArith Lia Bool Ascii String DecimalString.
From Stdlib Require DecimalZ.
From stdpp Require Import base decidable list gmap strings sorting.

Open Scope string_scope.
Open Scope Z_scope.

Set Warnings "-register-all,-clear-no-such-hyp".

(** ** Python built-ins used by the source *)

Module Py.

  (** [sub in s] on strings. *)
Fixpoint str_in (sub s : string) : bool :=
    String.prefix sub s ||
    match s with
    | EmptyString => false
    | String _ s' => str_in sub s'
    end.

  (** [s.count(sub)] for a non-empty [sub]: occurrences are counted from
      the left and do not overlap; [skip] is the number of characters of
      the last match that are still to be stepped over. *)
Fixpoint count_from (sub s : string) (skip : nat) : nat :=
    match s with
    | EmptyString => 0%nat
    | String _ s' =>
        match skip with
        | S k => count_from sub s' k
        | O =>
            if String.prefix sub s
            then S (count_from sub s' (String.length sub - 1))
            else count_from sub s' 0
        end
    end.

Definition str_count (s sub : string) : nat := count_from sub s 0.

  (** [repr] of a Python [int]: decimal digits with a leading minus sign
      for negative numbers. *)
Definition repr_int (z : Z) : string := NilZero.string_of_int (Z.to_int z).

  (** [sep.join(xs)]. *)
Fixpoint join (sep : string) (xs : list string) : string :=
    match xs with
    | [] => EmptyString
    | [x] => x
    | x :: rest => x ++ sep ++ join sep rest
    end.

  (** Stable insertion sort: [sorted(l, key=...)] and [list.sort] keep
      the relative order of elements that compare equal. [leb x y] says
      that [x] may stay in front of [y]. *)
Section Sort.
Context {A : Type} (leb : A -> A -> bool).

Fixpoint insert_sorted (x : A) (l : list A) : list A :=
      match l with
      | [] => [x]
      | y :: l' => if leb x y then x :: y :: l' else y :: insert_sorted x l'
      end.

Definition sort_by (l : list A) : list A := foldr insert_sorted [] l.
End Sort.

  (** Tuples of two integers compare lexicographically. *)
Definition pair_leb (a b : Z * Z) : bool :=
    (a.1 <? b.1) || ((a.1 =? b.1) && (a.2 <=? b.2)).

  (** [sorted(matches)] on a list of integer pairs. *)
Definition sorted (l : list (Z * Z)) : list (Z * Z) := sort_by pair_leb l.

  (** [range(a, b)] as the list of its members. *)
Definition range (a b : Z) : list Z := seqZ a (b - a).

  (** [d[k] = v] on a dictionary kept in insertion order: an existing key
      keeps its position and takes the new value, a new key goes last. *)
Fixpoint dict_set {K V : Type} `{EqDecision K} (k : K) (v : V)
      (d : list (K * V)) : list (K * V) :=
    match d with
    | [] => [(k, v)]
    | (k', v') :: d' =>
        if decide (k = k') then (k, v) :: d' else (k', v') :: dict_set k v d'
    end.

Fixpoint dict_get {K V : Type} `{EqDecision K} (k : K)
      (d : list (K * V)) : option V :=
    match d with
    | [] => None
    | (k', v') :: d' => if decide (k = k') then Some v' else dict_get k d'
    end.

End Py.

(** ** Syntax trees

    The source works on the objects of Python's [ast] module through
    their generic interface only: the class name of a node, its
    [_fields] in order, and the location attributes. A node is therefore
    a class name with the list of its fields; a field holds a node, a
    list, a plain value, or nothing. *)

Module Ast.

  (** Plain values held by fields: identifiers and strings, integers,
      and the value of a [Constant] node. Floating-point and complex
      literals are outside this embedding. Strings are sequences of code
      points below 256. *)
Inductive constant :=
  | CNone
  | CBool (b : bool)
  | CInt (z : Z)
  | CStr (s : string)
  | CBytes (s : string)
  | CEllipsis.

  (** The attributes [lineno] and [end_lineno]; [None] is an attribute
      that is not set (for [end_lineno]: not set, or set to [None]).
      Column offsets are written and copied by the library but never read
      by the source, so they are left out. *)
Record location := Loc {
    lineno : option Z;
    end_lineno : option Z;
  }.

  (** [Node cls fields attrs]: an instance of the class [cls]; [fields]
      lists every name of [cls._fields], in order, with its value;
      [attrs] is [None] for a class without location attributes
      ([Module], [Load], [arguments], ...).

      [Unset] as a field value is an attribute that is not set, or an
      optional field holding [None]: [ast.dump] omits both alike. A
      [None] at a place where it is shown ([Constant(None)], a key of
      [Dict]) is [Const CNone]. *)
Inductive obj :=
  | Node (cls : string) (fields : list (string * obj)) (attrs : option location)
  | PyList (items : list obj)
  | Const (c : constant)
  | Unset.

Definition is_node (o : obj) : bool :=
    match o with Node _ _ _ => true | _ => false end.

Definition cls_of (o : obj) : option string :=
    match o with Node cls _ _ => Some cls | _ => None end.

Definition attrs_of (o : obj) : option location :=
    match o with Node _ _ a => a | _ => None end.

  (** [hasattr(o, "lineno")]. *)
Definition has_lineno (o : obj) : bool :=
    match attrs_of o with
    | Some l => match lineno l with Some _ => true | None => false end
    | None => false
    end.

Fixpoint get_field (name : string) (fields : list (string * obj)) : obj :=
    match fields with
    | [] => Unset
    | (f, v) :: fields' => if String.eqb f name then v else get_field name fields'
    end.

  (** [node.name = v] for a name of [_fields]. *)
Fixpoint set_field (name : string) (v : obj) (fields : list (string * obj))
      : list (string * obj) :=
    match fields with
    | [] => []
    | (f, w) :: fields' =>
        if String.eqb f name then (f, v) :: fields'
        else (f, w) :: set_field name v fields'
    end.

Definition fields_of (o : obj) : list (string * obj) :=
    match o with Node _ fields _ => fields | _ => [] end.

  (** Exceptions the source can run into. The last two are not Python
      exceptions. [Unsupported] marks a tree that is outside the
      embedding: an identifier field or a [Constant] value that holds
      something other than a plain value, or a statement list that is not
      a list. [OutOfFuel] is the recursion bound of the tree walk being
      reached; [collect_sequences] supplies a bound that is never reached
      (lemma [collect_sequences_fuel]). *)
Inductive exn := AttributeError | IndexError | Unsupported | OutOfFuel.

Inductive res (A : Type) :=
  | Ok (a : A)
  | Raise (e : exn).
Arguments Ok {A} a.
Arguments Raise {A} e.

  (** Stateful, fallible computations. *)
Definition M (S A : Type) : Type := S -> res (A * S).

Definition ret {S A : Type} (a : A) : M S A := fun s => Ok (a, s).

Definition raise {S A : Type} (e : exn) : M S A := fun _ => Raise e.

Definition bind {S A B : Type} (m : M S A) (k : A -> M S B) : M S B :=
    fun s => match m s with
             | Ok (a, s') => k a s'
             | Raise e => Raise e
             end.

Definition mapM {S A B : Type} (f : A -> M S B) : list A -> M S (list B) :=
    fix go (l : list A) : M S (list B) :=
      match l with
      | [] => ret []
      | x :: l' => bind (f x) (fun y => bind (go l') (fun ys => ret (y :: ys)))
      end.

  (** [node.<name>] for a name that has to be set. *)
Definition attr {S : Type} (name : string) (o : obj) : M S obj :=
    match get_field name (fields_of o) with
    | Unset => raise AttributeError
    | v => ret v
    end.

  (** [node.<name>] for a field that holds an identifier. *)
Definition attr_str {S : Type} (name : string) (o : obj) : M S string :=
    match get_field name (fields_of o) with
    | Unset => raise AttributeError
    | Const (CStr s) => ret s
    | _ => raise Unsupported
    end.

End Ast.

Notation "'let*' x ':=' m 'in' k" := (Ast.bind m (fun x => k))
  (at level 10, x pattern, m at level 100, k at level 200).

(** ** [repr] of plain values *)

Module Repr.
Import Ast.

Definition hex_digit (n : N) : ascii :=
    ascii_of_N (if (n <? 10)%N then 48 + n else 87 + n)%N.

  (** The escape [\xHH]. *)
Definition escape_x (c : ascii) : string :=
    let n := N_of_ascii c in
    String "\" (String "x" (String (hex_digit (n / 16))
                           (String (hex_digit (n mod 16)) EmptyString))).

  (** [str.isprintable] on the code points below 256. *)
Definition printable (c : ascii) : bool :=
    let n := N_of_ascii c in
    ((32 <=? n) && (n <? 127) || (161 <=? n) && negb (n =? 173))%N.

Definition squote : ascii := "'".
Definition dquote : ascii := "034".
Definition backslash : ascii := "\".

Fixpoint has_char (c : ascii) (s : string) : bool :=
    match s with
    | EmptyString => false
    | String d s' => Ascii.eqb c d || has_char c s'
    end.

  (** Single quotes, unless the text has a single quote and no double
      quote. *)
Definition quote_for (s : string) : ascii :=
    if has_char squote s && negb (has_char dquote s) then dquote else squote.

Definition escape_common (quote c : ascii) : option string :=
    if Ascii.eqb c quote || Ascii.eqb c backslash
    then Some (String backslash (String c EmptyString))
    else if Ascii.eqb c "009" then Some "\t"
    else if Ascii.eqb c "010" then Some "\n"
    else if Ascii.eqb c "013" then Some "\r"
    else None.

Definition repr_str_char (quote c : ascii) : string :=
    match escape_common quote c with
    | Some e => e
    | None => if printable c then String c EmptyString else escape_x c
    end.

Definition repr_bytes_char (quote c : ascii) : string :=
    match escape_common quote c with
    | Some e => e
    | None =>
        let n := N_of_ascii c in
        if ((32 <=? n) && (n <? 127))%N then String c EmptyString
        else escape_x c
    end.

Fixpoint concat_map (f : ascii -> string) (s : string) : string :=
    match s with
    | EmptyString => EmptyString
    | String c s' => (f c ++ concat_map f s')%string
    end.

Definition repr_str (s : string) : string :=
    let q := quote_for s in
    String q (concat_map (repr_str_char q) s ++ String q EmptyString).

Definition repr_bytes (s : string) : string :=
    let q := quote_for s in
    String "b" (String q (concat_map (repr_bytes_char q) s
                          ++ String q EmptyString)).

Definition repr (c : constant) : string :=
    match c with
    | CNone => "None"
    | CBool true => "True"
    | CBool false => "False"
    | CInt z => Py.repr_int z
    | CStr s => repr_str s
    | CBytes s => repr_bytes s
    | CEllipsis => "Ellipsis"
    end.

End Repr.

(** ** The canonicalizer *)

Module Canonicalizer.
Import Ast.

  (** The instance attributes set by [__init__]. *)
Record state := State {
    name_map : gmap string string;
    const_map : gmap string string;
    _n_name : Z;
    _n_const : Z;
  }.

Definition init : state :=
    {| name_map := ∅; const_map := ∅; _n_name := 0; _n_const := 0 |}.

Definition _map_name (name : string) : M state string :=
    fun self =>
      match name_map self !! name with
      | Some p => Ok (p, self)
      | None =>
          let p := ("_N" ++ Py.repr_int (_n_name self))%string in
          Ok (p, {| name_map := <[name := p]> (name_map self);
                    const_map := const_map self;
                    _n_name := _n_name self + 1;
                    _n_const := _n_const self |})
      end.

Definition _map_const (value : constant) : M state string :=
    fun self =>
      let key := Repr.repr value in
      match const_map self !! key with
      | Some p => Ok (p, self)
      | None =>
          let p := ("_C" ++ Py.repr_int (_n_const self))%string in
          Ok (p, {| name_map := name_map self;
                    const_map := <[key := p]> (const_map self);
                    _n_name := _n_name self;
                    _n_const := _n_const self + 1 |})
      end.

  (** The second half of [visit_Attribute]: the attribute name is looked
      up under the key [attr::<name>] in [name_map] and numbered by the
      counter [_n_name]. *)
Definition _map_attr (attr_name : string) : M state string :=
    fun self =>
      let attr_key := ("attr::" ++ attr_name)%string in
      match name_map self !! attr_key with
      | Some p => Ok (p, self)
      | None =>
          let p := ("_A" ++ Py.repr_int (_n_name self))%string in
          Ok (p, {| name_map := <[attr_key := p]> (name_map self);
                    const_map := const_map self;
                    _n_name := _n_name self + 1;
                    _n_const := _n_const self |})
      end.

  (** [ast.copy_location(new, old)] where [new] has just been built, of a
      class with location attributes. *)
Definition copy_location (old : obj) : option location :=
    match attrs_of old with
    | Some l => Some l
    | None => Some (Loc None None)
    end.

Definition str (s : string) : obj := Const (CStr s).

Section Visit.
    (** [self.visit], for the recursive calls. *)
Variable visit : obj -> M state obj.

Definition visit_item (item : obj) : M state obj :=
      match item with
      | Node _ _ _ => visit item
      | _ => ret item
      end.

Definition visit_field (fv : string * obj) : M state (string * obj) :=
      match fv.2 with
      | PyList items =>
          let* items' := mapM visit_item items in ret (fv.1, PyList items')
      | Node _ _ _ =>
          let* new_node := visit fv.2 in ret (fv.1, new_node)
      | _ => ret fv
      end.

    (** [NodeTransformer.generic_visit]: the fields are visited in order
        and the node, changed in place, is returned. No visit method of
        [Canonicalizer] returns [None] or a list, so nothing is deleted
        or spliced. *)
Definition generic_visit (cls : string) (fields : list (string * obj))
        (attrs : option location) : M state obj :=
      let* fields' := mapM visit_field fields in
      ret (Node cls fields' attrs).

Definition visit_Name (node : obj) : M state obj :=
      let* id := attr_str "id" node in
      let* new_id := _map_name id in
      let* ctx := attr "ctx" node in
      ret (Node "Name" [("id", str new_id); ("ctx", ctx)] (copy_location node)).

Definition visit_arg (node : obj) : M state obj :=
      let* arg := attr_str "arg" node in
      let* new_arg := _map_name arg in
      ret (Node "arg" [("arg", str new_arg); ("annotation", Unset);
                       ("type_comment", Unset)] (copy_location node)).

Definition visit_FunctionDef (cls : string) (fields : list (string * obj))
        (attrs : option location) : M state obj :=
      let* node := generic_visit cls fields attrs in
      ret (Node cls (set_field "returns" Unset
                      (set_field "decorator_list" (PyList [])
                        (set_field "name" (str "_fn") (fields_of node))))
                attrs).

Definition visit_ClassDef (cls : string) (fields : list (string * obj))
        (attrs : option location) : M state obj :=
      let* node := generic_visit cls fields attrs in
      ret (Node cls (set_field "decorator_list" (PyList [])
                      (set_field "bases" (PyList [])
                        (set_field "name" (str "_cls") (fields_of node))))
                attrs).

Definition visit_Attribute (cls : string) (fields : list (string * obj))
        (attrs : option location) : M state obj :=
      let* node := generic_visit cls fields attrs in
      let* attr_name := attr_str "attr" node in
      let* placeholder := _map_attr attr_name in
      let* value := attr "value" node in
      let* ctx := attr "ctx" node in
      ret (Node "Attribute" [("value", value); ("attr", str placeholder);
                             ("ctx", ctx)] (copy_location node)).

Definition visit_Constant (node : obj) : M state obj :=
      match get_field "value" (fields_of node) with
      | Unset => raise AttributeError
      | Const c =>
          let* placeholder := _map_const c in
          ret (Node "Constant" [("value", str placeholder); ("kind", Unset)]
                    (copy_location node))
      | _ => raise Unsupported
      end.
End Visit.

  (** [NodeVisitor.visit]: dispatch on the class name, with
      [generic_visit] as the default. *)
Fixpoint visit (node : obj) : M state obj :=
    match node with
    | Node cls fields attrs =>
        if String.eqb cls "Name" then visit_Name node
        else if String.eqb cls "arg" then visit_arg node
        else if String.eqb cls "FunctionDef" then
          visit_FunctionDef visit cls fields attrs
        else if String.eqb cls "ClassDef" then
          visit_ClassDef visit cls fields attrs
        else if String.eqb cls "Attribute" then
          visit_Attribute visit cls fields attrs
        else if String.eqb cls "Constant" then visit_Constant node
        else generic_visit visit cls fields attrs
    | _ => ret node
    end.

End Canonicalizer.

(** ** Library functions of [ast] called by [canonical_block_dump] *)

Module AstLib.
Import Ast.

  (** [ast.fix_missing_locations]: the inner function [_fix], with the
      line numbers inherited from the parent. *)
Fixpoint _fix (node : obj) (lineno_ end_lineno_ : Z) : obj :=
    match node with
    | Node cls fields attrs =>
        let '(attrs', ln, en) :=
          match attrs with
          | None => (None, lineno_, end_lineno_)
          | Some l =>
              let ln := default lineno_ (lineno l) in
              let en := default end_lineno_ (end_lineno l) in
              (Some (Loc (Some ln) (Some en)), ln, en)
          end in
        let fix_item (item : obj) : obj :=
          match item with
          | Node _ _ _ => _fix item ln en
          | _ => item
          end in
        let fix_field (fv : string * obj) : string * obj :=
          match fv.2 with
          | Node _ _ _ => (fv.1, _fix fv.2 ln en)
          | PyList items => (fv.1, PyList (map fix_item items))
          | _ => fv
          end in
        Node cls (map fix_field fields) attrs'
    | _ => node
    end.

Definition fix_missing_locations (node : obj) : obj := _fix node 1 1.

  (** [ast.dump(node, annotate_fields=False, include_attributes=False)],
      the inner function [_format] (CPython 3.9 to 3.12): a field that is
      not set, or optional and [None], is left out, and the fields after
      it are written [name=value]. *)
Fixpoint _format (node : obj) : string :=
    match node with
    | Node cls fields _ =>
        let args :=
          (fix go (keywords : bool) (fs : list (string * obj)) : list string :=
             match fs with
             | [] => []
             | (name, Unset) :: fs' => go true fs'
             | (name, value) :: fs' =>
                 (if keywords then name ++ "=" ++ _format value
                  else _format value)%string :: go keywords fs'
             end) false fields in
        (cls ++ "(" ++ Py.join ", " args ++ ")")%string
    | PyList [] => "[]"
    | PyList items => ("[" ++ Py.join ", " (map _format items) ++ "]")%string
    | Const c => Repr.repr c
    | Unset => "None"
    end.

Definition dump (node : obj) : string := _format node.

End AstLib.

(** ** SHA-256 ([hashlib.sha256(...).hexdigest()]) *)

Module Sha256.

(** Words are numbers below [2 ^ 32]; [w32] drops the higher bits. *)
Definition mask32 : Z := Eval vm_compute in 2 ^ 32 - 1.
Definition w32 (x : Z) : Z := Z.land x mask32.
Definition rotr (n x : Z) : Z :=
    Z.lor (Z.shiftr x n) (w32 (Z.shiftl x (32 - n))).
Definition ch (x y z : Z) : Z :=
    Z.lxor (Z.land x y) (Z.land (Z.lxor x mask32) z).
Definition maj (x y z : Z) : Z :=
    Z.lxor (Z.lxor (Z.land x y) (Z.land x z)) (Z.land y z).
Definition bsig0 (x : Z) : Z :=
    Z.lxor (Z.lxor (rotr 2 x) (rotr 13 x)) (rotr 22 x).
Definition bsig1 (x : Z) : Z :=
    Z.lxor (Z.lxor (rotr 6 x) (rotr 11 x)) (rotr 25 x).
Definition ssig0 (x : Z) : Z :=
    Z.lxor (Z.lxor (rotr 7 x) (rotr 18 x)) (Z.shiftr x 3).
Definition ssig1 (x : Z) : Z :=
    Z.lxor (Z.lxor (rotr 17 x) (rotr 19 x)) (Z.shiftr x 10).

(** The first 64 primes. *)
Definition primes : list Z :=
  [2; 3; 5; 7; 11; 13; 17; 19; 23; 29; 31; 37; 41; 43; 47; 53; 59; 61; 67;
   71; 73; 79; 83; 89; 97; 101; 103; 107; 109; 113; 127; 131; 137; 139;
   149; 151; 157; 163; 167; 173; 179; 181; 191; 193; 197; 199; 211; 223;
   227; 229; 233; 239; 241; 251; 257; 263; 269; 271; 277; 281; 283; 293;
   307; 311].

(** Integer cube root of a number below 2 ^ 108, one bit at a time. *)
Definition icbrt (n : Z) : Z :=
  foldl (fun r b => let r' := r + 2 ^ b in if r' ^ 3 <=? n then r' else r)
        0 (reverse (seqZ 0 36)).

(** The round constants: the first 32 bits of the fractional parts of
    the cube roots of the first 64 primes. *)
Definition K : list Z :=
  Eval vm_compute in map (fun p => w32 (icbrt (p * 2 ^ 96))) primes.

(** The initial hash value: the first 32 bits of the fractional parts of
    the square roots of the first 8 primes. *)
Definition H0 : list Z :=
  Eval vm_compute in map (fun p => w32 (Z.sqrt (p * 2 ^ 64))) (take 8 primes).

(** The message followed by the byte 0x80, zero bytes up to 56 modulo
      64, and the bit length on eight bytes, most significant first. *)
Definition be_bytes (n : nat) (x : Z) : list Z :=
    map (fun i => Z.shiftr x (8 * Z.of_nat i) mod 256) (rev (seq 0 n)).

Definition pad (msg : list Z) : list Z :=
    let len := Z.of_nat (length msg) in
    let zeros := Z.to_nat ((55 - len) mod 64) in
    (msg ++ [0x80] ++ replicate zeros 0 ++ be_bytes 8 (8 * len))%list.

Definition be_word (bs : list Z) : Z :=
    foldl (fun acc b => acc * 256 + b) 0 bs.

  (** The big-endian words of a list of bytes, four bytes each. *)
Fixpoint words (n : nat) (bs : list Z) : list Z :=
    match n with
    | O => []
    | S n' => be_word (take 4 bs) :: words n' (drop 4 bs)
    end.

  (** The message schedule, most recent word first: [extend k ws] adds
      [k] words to [ws]. *)
Fixpoint extend (k : nat) (ws : list Z) : list Z :=
    match k with
    | O => ws
    | S k' =>
        let w := w32 (ssig1 (ws !!! 1%nat) + ws !!! 6%nat
                      + ssig0 (ws !!! 14%nat) + ws !!! 15%nat) in
        extend k' (w :: ws)
    end.

Definition schedule (block : list Z) : list Z :=
    rev (extend 48 (rev (words 16 block))).

Definition round (st : list Z) (kw : Z * Z) : list Z :=
    match st with
    | [a; b; c; d; e; f; g; h] =>
        let t1 := h + bsig1 e + ch e f g + kw.1 + kw.2 in
        let t2 := bsig0 a + maj a b c in
        [w32 (t1 + t2); a; b; c; w32 (d + t1); e; f; g]
    | _ => st
    end.

Definition compress (hs : list Z) (block : list Z) : list Z :=
    let st := foldl round hs (zip K (schedule block)) in
    zip_with (fun x y => w32 (x + y)) hs st.

Fixpoint blocks (n : nat) (bs : list Z) : list (list Z) :=
    match n with
    | O => []
    | S n' => take 64 bs :: blocks n' (drop 64 bs)
    end.

Definition digest (msg : list Z) : list Z :=
    let padded := pad msg in
    foldl compress H0 (blocks (length padded / 64) padded).

Definition hex_byte (b : Z) : string :=
    String (Repr.hex_digit (Z.to_N (b / 16)))
           (String (Repr.hex_digit (Z.to_N (b mod 16))) EmptyString).

Definition hexdigest (msg : list Z) : string :=
    foldr (fun b acc => (hex_byte b ++ acc)%string) EmptyString
          (concat (map (be_bytes 4) (digest msg))).

  (** [s.encode("utf-8")] for code points below 256. *)
Fixpoint utf8 (s : string) : list Z :=
    match s with
    | EmptyString => []
    | String c s' =>
        let n := Z.of_N (N_of_ascii c) in
        if n <? 128 then n :: utf8 s'
        else Z.lor 0xC0 (Z.shiftr n 6) :: Z.lor 0x80 (Z.land n 0x3F) :: utf8 s'
    end.

Definition sha256_hex (s : string) : string := hexdigest (utf8 s).

End Sha256.

(** ** [canonical_block_dump] *)

Module Block.
Import Ast.

  (** The synthetic [ast.Module(body=stmts, type_ignores=[])]. *)
Definition module_of (stmts : list obj) : obj :=
    Node "Module" [("body", PyList stmts); ("type_ignores", PyList [])] None.

  (** The module after [canon.visit] and [ast.fix_missing_locations]. *)
Definition canonical_module (stmts : list obj) : res obj :=
    match Canonicalizer.visit (module_of stmts) Canonicalizer.init with
    | Ok (module2, _) => Ok (AstLib.fix_missing_locations module2)
    | Raise e => Raise e
    end.

  (** [canonical_block_dump]: the pair [(hash, dumped)] that the source
      returns. *)
Definition canonical_block_dump (stmts : list obj) : res (string * string) :=
    match canonical_module stmts with
    | Ok module2 =>
        let dumped := AstLib.dump module2 in
        Ok (Sha256.sha256_hex dumped, dumped)
    | Raise e => Raise e
    end.

  (** The list [stmts] after the call. [NodeTransformer] rewrites the
      module's [body] list in place, and that list is the argument
      itself; [fix_missing_locations] then fills in the locations. *)
Definition block_after (stmts : list obj) : list obj :=
    match canonical_module stmts with
    | Ok module2 =>
        match get_field "body" (fields_of module2) with
        | PyList items => items
        | _ => stmts
        end
    | Raise _ => stmts
    end.

  (** What the call leaves of an element [old] of [stmts], given the
      element [new] that took its place in the list. Every visit method
      but four hands back the node it was given, changed in place, so the
      two are one object. [visit_Name], [visit_arg] and [visit_Constant]
      build a new node and leave the old one alone. [visit_Attribute]
      first runs [generic_visit] on the old node and then builds a new
      one that shares its [value] and [ctx]. *)
Definition in_place (old new : obj) : obj :=
    match old with
    | Node cls fields attrs =>
        if String.eqb cls "Name" || String.eqb cls "arg"
           || String.eqb cls "Constant" then old
        else if String.eqb cls "Attribute" then
          Node cls (set_field "ctx" (get_field "ctx" (fields_of new))
                     (set_field "value" (get_field "value" (fields_of new))
                        fields)) attrs
        else new
    | _ => old
    end.

End Block.

(** ** Triviality filter *)

Module Filter.

  (** The loop of [_is_trivial_by_line_ranges] over the sorted list: at
      index [i] the body first tests [end - start == 1], then looks at
      [matches[i + 1][0]]; the [IndexError] at the last index is
      swallowed. *)
Fixpoint scan (matches : list (Z * Z)) : bool :=
    match matches with
    | [] => false
    | (start, end_) :: rest =>
        if end_ - start =? 1 then true
        else match rest with
             | (next, _) :: _ =>
                 if bool_decide (next ∈ Py.range start (end_ + 1)) then true
                 else scan rest
             | [] => scan rest
             end
    end.

Definition _is_trivial_by_line_ranges (matches : list (Z * Z)) : bool :=
    if (length matches <? 2)%nat then false
    else scan (Py.sorted matches).

  (** Modelled from the spec: [utils.any_in] lives in [drace/utils], which
      is not part of the sources at hand. Section 4.4 of the specification
      reads the call [utils.any_in("keyword(", "Constant(", eq=dumped)] as
      "at least one keyword-argument or literal-constant node", that is,
      one of the needles occurs in the string. *)
Definition any_in (needles : list string) (eq : string) : bool :=
    existsb (fun n => Py.str_in n eq) needles.

Definition _is_argparse_like (dumped : string) : bool :=
    (2 <=? Py.str_count dumped "Call(Attribute(Name(")%nat
    && any_in ["keyword("; "Constant("] dumped.

Definition is_trivial_dump (dumped : string) (ranges : list (Z * Z)) : bool :=
    if (String.length dumped <? 50)%nat then true
    else if Py.str_in "Return(" dumped then true
    else if _is_argparse_like dumped then true
    else if _is_trivial_by_line_ranges ranges then true
    else false.

End Filter.

(** ** Candidate groups, greedy selection and reporting ([check]) *)

Module Selector.

  (** One located window: [(start_lineno, end_lineno, dumped)]. *)
Definition occurrence : Type := Z * Z * string.

  (** The dictionary returned by [collect_sequences]: hash to the list of
      occurrences, in insertion order. *)
Definition sequences : Type := list (string * list occurrence).

Definition span (o : occurrence) : Z * Z := (o.1.1, o.1.2).

Record candidate := {
    cand_hash : string;
    cand_occurrences : list occurrence;
    cand_count : nat;
    cand_length : Z;
    cand_sample_dump : string;
  }.

Record selection := {
    sel_hash : string;
    sel_primary : Z * Z;
    sel_matches : list (Z * Z);
    sel_count : nat;
    sel_length : Z;
  }.

Record issue := {
    issue_file : string;
    issue_line : Z;
    issue_col : Z;
    issue_code : string;
    issue_msg : string;
  }.

  (** The [seen] dictionary of [check] and the list [occ_unique] read off
      it: one entry per [(start, end)] key, at the position of the first
      occurrence with that key, carrying the dump written last. *)
Definition seen_of (occ : list occurrence) : list (Z * Z * string) :=
    foldl (fun seen o => Py.dict_set (span o) o.2 seen) [] occ.

Definition occ_unique_of (occ : list occurrence) : list occurrence :=
    seen_of occ.

  (** [min(...)] and [max(...)] of a non-empty sequence given as head and
      tail. *)
Definition min_of (x : Z) (l : list Z) : Z := foldl Z.min x l.
Definition max_of (x : Z) (l : list Z) : Z := foldl Z.max x l.

  (** Body of the first loop of [check] for one item [(h, occ)] of
      [seqs]: [None] stands for [continue]. *)
Definition candidate_of (item : string * list occurrence) : option candidate :=
    let '(h, occ) := item in
    let occ_unique := occ_unique_of occ in
    if (length occ_unique <? 3)%nat then None
    else
      let line_ranges := map span occ_unique in
      match occ_unique with
      | [] => None
      | o0 :: rest =>
          let dumped0 := o0.2 in
          if Filter.is_trivial_dump dumped0 line_ranges then None
          else
            let first_start := min_of o0.1.1 (map (fun o => o.1.1) rest) in
            let first_end := max_of o0.1.2 (map (fun o => o.1.2) rest) in
            let length_ := first_end - first_start + 1 in
            Some {| cand_hash := h;
                    cand_occurrences := occ_unique;
                    cand_count := length occ_unique;
                    cand_length := length_;
                    cand_sample_dump := dumped0 |}
      end.

Definition candidates_of (seqs : sequences) : list candidate :=
    omap candidate_of seqs.

  (** [candidates.sort(key=lambda c: (c["count"], c["length"]),
      reverse=True)]: descending in the key, and stable. [key_geb a b]
      holds when the key of [a] is at least the key of [b]. *)
Definition key_geb (a b : candidate) : bool :=
    (cand_count b <? cand_count a)%nat
    || ((cand_count a =? cand_count b)%nat && (cand_length b <=? cand_length a)).

Definition rank (cands : list candidate) : list candidate :=
    Py.sort_by key_geb cands.

Definition range_overlaps_with_occupied (occupied_lines : gset Z)
      (start end_ : Z) : bool :=
    existsb (fun ln => bool_decide (ln ∈ occupied_lines))
            (Py.range start (end_ + 1)).

  (** [for ln in range(s, e + 1): occupied_lines.add(ln)], for every
      accepted occurrence. *)
Definition occupy (occupied_lines : gset Z) (occs : list (Z * Z)) : gset Z :=
    foldl (fun acc se => foldl (fun acc' ln => {[ln]} ∪ acc') acc
                               (Py.range se.1 (se.2 + 1)))
          occupied_lines occs.

Section Greedy.
    (** A Python [set] is iterated in an order that the language does not
        fix. [set_order l] is the order in which the set built from the
        list [l] is iterated; the theorems assume no more of it than that
        it enumerates the distinct members of [l]. *)
Variable set_order : list (Z * Z) -> list (Z * Z).

    (** [sorted({(s, e) for s, e, d in cand["occurrences"]},
        key=lambda t: t[0])]. *)
Definition occs_of (cand : candidate) : list (Z * Z) :=
      Py.sort_by (fun a b => a.1 <=? b.1)
                 (set_order (map span (cand_occurrences cand))).

    (** One iteration of the greedy loop; the state is [selected] and
        [occupied_lines]. *)
Definition select_step (st : list selection * gset Z) (cand : candidate)
        : list selection * gset Z :=
      let '(selected, occupied_lines) := st in
      let occs := occs_of cand in
      let non_overlapping_occs :=
        List.filter (fun se => negb (range_overlaps_with_occupied
                                      occupied_lines se.1 se.2)) occs in
      if (length non_overlapping_occs <? 2)%nat then st
      else
        match non_overlapping_occs with
        | [] => st
        | primary :: _ =>
            ((selected ++ [ {| sel_hash := cand_hash cand;
                              sel_primary := primary;
                              sel_matches := non_overlapping_occs;
                              sel_count := length non_overlapping_occs;
                              sel_length := cand_length cand |} ])%list,
             occupy occupied_lines non_overlapping_occs)
        end.

Definition greedy (cands : list candidate) : list selection * gset Z :=
      foldl select_step ([], ∅) cands.

    (** [selected] at the end of the greedy loop of [check], as a function
        of the dictionary [seqs] that [collect_sequences] returned. *)
Definition select (seqs : sequences) : list selection :=
      (greedy (rank (candidates_of seqs))).1.
End Greedy.

Definition limit : nat := 8.

Definition repr_pair (se : Z * Z) : string :=
    ("(" ++ Py.repr_int se.1 ++ ", " ++ Py.repr_int se.2 ++ ")")%string.

Definition repr_pairs (l : list (Z * Z)) : string :=
    ("[" ++ Py.join ", " (map repr_pair l) ++ "]")%string.

  (** The last loop of [check]: one finding per selected group. *)
Definition report (file : string) (s : selection) : issue :=
    let start := (sel_primary s).1 in
    let matches := sel_matches s in
    let display_matches :=
      if (length matches <=? limit)%nat then matches else take limit matches in
    let message :=
      ("repeated block detected ("
       ++ Py.repr_int (Z.of_nat (sel_count s)) ++ " "
       ++ "occurrences). Consider extracting a "
       ++ "function for the block at lines "
       ++ repr_pairs display_matches)%string in
    let message :=
      if (limit <? length matches)%nat
      then (message ++ " (and "
            ++ Py.repr_int (Z.of_nat (length matches - limit))
            ++ " more occurrences)")%string
      else message in
    {| issue_file := file; issue_line := start; issue_col := 1;
       issue_code := "Z202"; issue_msg := message |}.

  (** [check] after its first line: everything that follows
      [seqs = collect_sequences(tree)]. *)
Definition check_seqs (set_order : list (Z * Z) -> list (Z * Z))
      (seqs : sequences) (file : string) : list issue :=
    map (report file) (select set_order seqs).

End Selector.

(** ** The sequence extractor ([collect_sequences]) *)

Module BodyWalker.
Import Ast.
Import Selector.

  (** [sequences.setdefault(h, []).append(o)]. *)
Definition setdefault_append (h : string) (o : occurrence)
      (seqs : sequences) : sequences :=
    Py.dict_set h (default [] (Py.dict_get h seqs) ++ [o])%list seqs.

  (** Monadic left fold: a [for] loop whose body may raise. *)
Definition foldM {A B : Type} (f : B -> A -> res B) : list A -> B -> res B :=
    fix go (l : list A) (b : B) : res B :=
      match l with
      | [] => Ok b
      | x :: l' => match f b x with Ok b' => go l' b' | Raise e => Raise e end
      end.

Section Walk.
Variables min_len max_len : nat.

    (** The body of the inner loop of [_walk_body] for the window of
        [length_] statements at offset [i]. The state is the statement
        list, whose members the canonicalizer changes in place, and the
        dictionary [sequences]. *)
Definition window (length_ : nat) (st : list obj * sequences) (i : nat)
        : res (list obj * sequences) :=
      let '(stmts, seqs) := st in
      let block := take length_ (drop i stmts) in
      match block with
      | [] => Raise IndexError
      | b0 :: _ =>
          if negb (has_lineno b0) then Ok st
          else
            match Block.canonical_block_dump block with
            | Raise e => Raise e
            | Ok (h, dumped) =>
                let block' := Block.block_after block in
                match head block', last block' with
                | Some first, Some last_ =>
                    match attrs_of first ≫= lineno,
                          attrs_of last_ ≫= lineno with
                    | Some start, Some last_lineno =>
                        let end_ :=
                          default last_lineno (attrs_of last_ ≫= end_lineno) in
                        Ok ((take i stmts
                             ++ zip_with Block.in_place block block'
                             ++ drop (i + length_) stmts)%list,
                            setdefault_append h (start, end_, dumped) seqs)
                    | _, _ => Raise AttributeError
                    end
                | _, _ => Raise IndexError
                end
            end
      end.

    (** [range(max_len, min_len - 1, -1)]. *)
Definition lengths : list nat := rev (seq min_len (S max_len - min_len)).

Definition walk_length (n : nat) (st : list obj * sequences)
        (length_ : nat) : res (list obj * sequences) :=
      if (n <? length_)%nat then Ok st
      else foldM (window length_) (seq 0 (n - length_ + 1)) st.

Definition _walk_body (stmts : list obj) : M sequences (list obj) :=
      fun seqs => foldM (walk_length (length stmts)) lengths (stmts, seqs).

    (** [self._walk_body(node.<name>)], with the effect on the node. *)
Definition walk_field (name : string) (node : obj) : M sequences obj :=
      let* body := attr name node in
      match body with
      | PyList stmts =>
          let* stmts' := _walk_body stmts in
          ret (Node (default EmptyString (cls_of node))
                    (set_field name (PyList stmts') (fields_of node))
                    (attrs_of node))
      | _ => raise Unsupported
      end.

Section Visit.
Variable visit : obj -> M sequences obj.

Definition visit_item (item : obj) : M sequences obj :=
        match item with
        | Node _ _ _ => visit item
        | _ => ret item
        end.

Definition visit_field (fv : string * obj) : M sequences (string * obj) :=
        match fv.2 with
        | PyList items =>
            let* items' := mapM visit_item items in ret (fv.1, PyList items')
        | Node _ _ _ =>
            let* node' := visit fv.2 in ret (fv.1, node')
        | _ => ret fv
        end.

      (** [NodeVisitor.generic_visit]; the node is handed back with the
          changes made to its children. *)
Definition generic_visit (node : obj) : M sequences obj :=
        match node with
        | Node cls fields attrs =>
            let* fields' := mapM visit_field fields in
            ret (Node cls fields' attrs)
        | _ => raise AttributeError
        end.

Definition _walk_and_visit (node : obj) (orelse : bool) : M sequences obj :=
        let* node := walk_field "body" node in
        let* node := (if orelse then walk_field "orelse" node else ret node) in
        generic_visit node.

      (** [for h in node.handlers: self._walk_body(h.body)]. *)
Definition walk_handlers (node : obj) : M sequences obj :=
        let* handlers := attr "handlers" node in
        match handlers with
        | PyList hs =>
            let* hs' := mapM (walk_field "body") hs in
            ret (Node (default EmptyString (cls_of node))
                      (set_field "handlers" (PyList hs') (fields_of node))
                      (attrs_of node))
        | _ => raise Unsupported
        end.

Definition visit_Try (node : obj) : M sequences obj :=
        let* node := walk_field "body" node in
        let* node := walk_field "orelse" node in
        let* node := walk_field "finalbody" node in
        let* node := walk_handlers node in
        generic_visit node.

      (** [NodeVisitor.visit] with the visit methods that [BodyWalker]
          defines. *)
Definition dispatch (node : obj) : M sequences obj :=
        match cls_of node with
        | None => raise AttributeError
        | Some cls =>
            if String.eqb cls "FunctionDef" then _walk_and_visit node false
            else if String.eqb cls "If" then _walk_and_visit node true
            else if String.eqb cls "For" then _walk_and_visit node true
            else if String.eqb cls "While" then _walk_and_visit node true
            else if String.eqb cls "With" then _walk_and_visit node false
            else if String.eqb cls "Try" then visit_Try node
            else if String.eqb cls "Module" then _walk_and_visit node false
            else generic_visit node
        end.
End Visit.

    (** The children that are visited are children of the node as the
        canonicalizer has left it, so the recursion is bounded by [fuel]
        rather than structural. *)
Fixpoint visit (fuel : nat) (node : obj) : M sequences obj :=
      match fuel with
      | O => raise OutOfFuel
      | S fuel' => dispatch (visit fuel') node
      end.
End Walk.

(** The depth of nesting of nodes. *)
Fixpoint height (o : obj) : nat :=
  match o with
  | Node _ fields _ =>
      S (foldr Nat.max 0%nat (map (fun fv => height fv.2) fields))
  | PyList items => foldr Nat.max 0%nat (map height items)
  | _ => 0%nat
  end.

Definition collect_sequences_with (tree : obj) (min_len max_len : nat)
      : res sequences :=
    match visit min_len max_len (S (height tree)) tree [] with
    | Ok (_, seqs) => Ok seqs
    | Raise e => Raise e
    end.

  (** [collect_sequences(tree)] with the default window lengths. *)
Definition collect_sequences (tree : obj) : res sequences :=
    collect_sequences_with tree 2 6.

End BodyWalker.

(** ** [check] *)

Definition check (set_order : list (Z * Z) -> list (Z * Z))
    (tree : Ast.obj) (file : string) : Ast.res (list Selector.issue) :=
  match BodyWalker.collect_sequences tree with
  | Ast.Ok seqs => Ast.Ok (Selector.check_seqs set_order seqs file)
  | Ast.Raise e => Ast.Raise e
  end.

(** ** Concrete trees

    The nodes [ast.parse] builds (CPython 3.9 to 3.11), with every name
    of [_fields] in order. The numbers are [lineno] and [end_lineno]. *)

Module Syntax.
Import Ast.

Definition at_ (ln en : Z) : option location := Some (Loc (Some ln) (Some en)).

Definition Load_ : obj := Node "Load" [] None.
Definition Store_ : obj := Node "Store" [] None.
Definition Del_ : obj := Node "Del" [] None.
Definition Add_ : obj := Node "Add" [] None.

Definition Name_ (id : string) (ctx : obj) (ln : Z) : obj :=
  Node "Name" [("id", Const (CStr id)); ("ctx", ctx)] (at_ ln ln).

Definition Constant_ (value : constant) (ln en : Z) : obj :=
  Node "Constant" [("value", Const value); ("kind", Unset)] (at_ ln en).

Definition Attribute_ (value : obj) (attr : string) (ctx : obj) (ln en : Z)
    : obj :=
  Node "Attribute" [("value", value); ("attr", Const (CStr attr)); ("ctx", ctx)]
       (at_ ln en).

Definition Call_ (func : obj) (args : list obj) (ln en : Z) : obj :=
  Node "Call" [("func", func); ("args", PyList args); ("keywords", PyList [])]
       (at_ ln en).

Definition BinOp_ (left op right : obj) (ln en : Z) : obj :=
  Node "BinOp" [("left", left); ("op", op); ("right", right)] (at_ ln en).

Definition List_ (elts : list obj) (ctx : obj) (ln en : Z) : obj :=
  Node "List" [("elts", PyList elts); ("ctx", ctx)] (at_ ln en).

Definition Assign_ (targets : list obj) (value : obj) (ln en : Z) : obj :=
  Node "Assign" [("targets", PyList targets); ("value", value);
                 ("type_comment", Unset)] (at_ ln en).

Definition Expr_ (value : obj) (ln en : Z) : obj :=
  Node "Expr" [("value", value)] (at_ ln en).

Definition Delete_ (targets : list obj) (ln en : Z) : obj :=
  Node "Delete" [("targets", PyList targets)] (at_ ln en).

Definition Assert_ (test : obj) (ln en : Z) : obj :=
  Node "Assert" [("test", test); ("msg", Unset)] (at_ ln en).

Definition Pass_ (ln en : Z) : obj := Node "Pass" [] (at_ ln en).

Definition Global_ (names : list string) (ln en : Z) : obj :=
  Node "Global" [("names", PyList (map (fun n => Const (CStr n)) names))]
       (at_ ln en).

Definition alias_ (name : string) (ln en : Z) : obj :=
  Node "alias" [("name", Const (CStr name)); ("asname", Unset)] (at_ ln en).

Definition Import_ (names : list obj) (ln en : Z) : obj :=
  Node "Import" [("names", PyList names)] (at_ ln en).

Definition If_ (test : obj) (body orelse : list obj) (ln en : Z) : obj :=
  Node "If" [("test", test); ("body", PyList body); ("orelse", PyList orelse)]
       (at_ ln en).

Definition arg_ (name : string) (ln en : Z) : obj :=
  Node "arg" [("arg", Const (CStr name)); ("annotation", Unset);
              ("type_comment", Unset)] (at_ ln en).

Definition arguments_ (args : list obj) : obj :=
  Node "arguments"
       [("posonlyargs", PyList []); ("args", PyList args); ("vararg", Unset);
        ("kwonlyargs", PyList []); ("kw_defaults", PyList []);
        ("kwarg", Unset); ("defaults", PyList [])] None.

Definition def_fields (name : string) (args body : list obj)
    : list (string * obj) :=
  [("name", Const (CStr name)); ("args", arguments_ args);
   ("body", PyList body); ("decorator_list", PyList []); ("returns", Unset);
   ("type_comment", Unset)].

Definition FunctionDef_ (name : string) (args body : list obj) (ln en : Z)
    : obj :=
  Node "FunctionDef" (def_fields name args body) (at_ ln en).

Definition AsyncFunctionDef_ (name : string) (args body : list obj)
    (ln en : Z) : obj :=
  Node "AsyncFunctionDef" (def_fields name args body) (at_ ln en).

Definition Module_ (body : list obj) : obj :=
  Node "Module" [("body", PyList body); ("type_ignores", PyList [])] None.

End Syntax.

(** * Properties *)

Open Scope list_scope.

(** ** Sorting *)

Section SortFacts.
Context {A : Type} (leb : A -> A -> bool).

Lemma insert_sorted_perm x l : Py.insert_sorted leb x l ≡ₚ x :: l.
Proof.
    induction l as [|y l IH]; simpl; [done|].
    destruct (leb x y); [done|].
    rewrite IH. apply Permutation_swap.
Qed.

Lemma sort_by_perm l : Py.sort_by leb l ≡ₚ l.
Proof.
    induction l as [|x l IH]; simpl; [done|].
    by rewrite insert_sorted_perm, IH.
Qed.

Lemma sort_by_length l : length (Py.sort_by leb l) = length l.
Proof. by rewrite sort_by_perm. Qed.

Hypothesis leb_total : forall x y, leb x y = true \/ leb y x = true.
Hypothesis leb_trans :
    forall x y z, leb x y = true -> leb y z = true -> leb x z = true.

Lemma insert_sorted_sorted x l :
    StronglySorted (fun a b => leb a b = true) l ->
    StronglySorted (fun a b => leb a b = true) (Py.insert_sorted leb x l).
Proof.
    induction 1 as [|y l Hs IH Hy]; simpl.
    - repeat constructor.
    - destruct (leb x y) eqn:E.
      + constructor; [by constructor|].
        constructor; [done|].
        eapply Forall_impl; [exact Hy|]. intros z Hz. eauto.
      + constructor; [done|].
        rewrite insert_sorted_perm. constructor; [|done].
        destruct (leb_total x y); congruence.
Qed.

Lemma sort_by_sorted l :
    StronglySorted (fun a b => leb a b = true) (Py.sort_by leb l).
Proof.
    induction l; simpl; [constructor|]. by apply insert_sorted_sorted.
Qed.
End SortFacts.

(** ** Line ranges *)

(** The source lines of an occurrence: the inclusive range
    [start .. end]. *)
Definition lines (se : Z * Z) (ln : Z) : Prop := se.1 <= ln <= se.2.

(** Two occurrences share no source line. *)
Definition disjoint (a b : Z * Z) : Prop :=
  forall ln, ~ (lines a ln /\ lines b ln).

(** No two members of a list of occurrences share a source line. *)
Fixpoint pairwise_disjoint (l : list (Z * Z)) : Prop :=
  match l with
  | [] => True
  | a :: l' => Forall (disjoint a) l' /\ pairwise_disjoint l'
  end.

Lemma disjoint_sym a b : disjoint a b -> disjoint b a.
Proof. unfold disjoint. intros H ln [? ?]. by apply (H ln). Qed.

Lemma pairwise_disjoint_app l1 l2 :
  pairwise_disjoint (l1 ++ l2) <->
  pairwise_disjoint l1 /\ pairwise_disjoint l2 /\
  Forall (fun a => Forall (disjoint a) l2) l1.
Proof.
  induction l1 as [|a l1 IH]; simpl.
  - intuition.
  - rewrite Forall_app, IH, Forall_cons. intuition.
Qed.

Lemma pairwise_disjoint_perm l1 l2 :
  l1 ≡ₚ l2 -> pairwise_disjoint l1 -> pairwise_disjoint l2.
Proof.
  induction 1 as [|x l1 l2 Hp IH|x y l|l1 l2 l3 H1 IH1 H2 IH2]; simpl.
  - done.
  - intros [Hx Hl]. split; [by rewrite <- Hp|auto].
  - intros [Hy [Hx Hl]]. apply Forall_cons in Hy as [Hyx Hy].
    repeat split; try done. constructor; [by apply disjoint_sym|done].
  - auto.
Qed.

Lemma pairwise_disjoint_sublist l1 l2 :
  sublist l1 l2 -> pairwise_disjoint l2 -> pairwise_disjoint l1.
Proof.
  induction 1 as [|x l1 l2 Hs IH|x l1 l2 Hs IH]; simpl.
  - done.
  - intros [Hx Hl]. split; [|auto].
    eapply Forall_forall. intros y Hy.
    eapply Forall_forall in Hx; [exact Hx|]. by eapply elem_of_sublist.
  - intros [_ Hl]. auto.
Qed.

(** The index form of [pairwise_disjoint]. *)
Lemma pairwise_disjoint_lookup l :
  pairwise_disjoint l <->
  forall i j a b, i <> j -> l !! i = Some a -> l !! j = Some b -> disjoint a b.
Proof.
  induction l as [|x l [IH1 IH2]]; simpl.
  - split; [|done]. intros _ i j a b _ Hi. by rewrite lookup_nil in Hi.
  - split.
    + intros [Hx Hl] i j a b Hij Hi Hj.
      destruct i as [|i], j as [|j]; simpl in *; simplify_eq.
      * eapply Forall_forall in Hx; [exact Hx|]. by eapply list_elem_of_lookup_2.
      * apply disjoint_sym.
        eapply Forall_forall in Hx; [exact Hx|]. by eapply list_elem_of_lookup_2.
      * eapply (IH1 Hl i j); eauto.
    + intros H. split.
      * apply Forall_forall. intros y Hy.
        apply list_elem_of_lookup in Hy as [j Hj].
        by apply (H 0%nat (S j)).
      * apply IH2. intros i j a b Hij Hi Hj. by apply (H (S i) (S j)); [lia|..].
Qed.

(** ** Triviality by line ranges *)

Section FilterFacts.
Import Filter.

Lemma in_range start end_ x :
    bool_decide (x ∈ Py.range start (end_ + 1)) = true <-> start <= x <= end_.
Proof.
    rewrite bool_decide_eq_true. unfold Py.range.
    rewrite elem_of_seqZ. lia.
Qed.

Lemma scan_true_iff (l : list (Z * Z)) :
    scan l = true <->
    exists i s e, l !! i = Some (s, e) /\
      (e - s = 1 \/
       exists s' e', l !! S i = Some (s', e') /\ s <= s' <= e).
Proof.
    induction l as [|[s e] l IH].
    - simpl. split; [done|]. intros (i & ? & ? & Hi & _).
      by rewrite lookup_nil in Hi.
    - cbn [scan]. destruct (e - s =? 1) eqn:E1.
      { split; [intros _|done]. exists 0%nat, s, e. split; [done|]. left. lia. }
      assert (scan l = true <->
              exists i s0 e0, (((s, e) :: l) !! S i = Some (s0, e0)) /\
                (e0 - s0 = 1 \/
                 exists s' e', ((s, e) :: l) !! S (S i) = Some (s', e')
                               /\ s0 <= s' <= e0)) as IH' by exact IH.
      destruct l as [|[s' e'] l'].
      + rewrite IH'. split.
        * intros (i & ? & ? & Hi & _). by destruct i.
        * intros (i & s0 & e0 & Hi & H). destruct i as [|i]; [|by destruct i].
          simpl in Hi. simplify_eq. destruct H as [|(? & ? & ? & _)]; [lia|done].
      + destruct (bool_decide (s' ∈ Py.range s (e + 1))) eqn:E2.
        * apply in_range in E2. split; [intros _|done].
          exists 0%nat, s, e. split; [done|]. right. by exists s', e'.
        * rewrite IH'. split.
          -- intros (i & s0 & e0 & Hi & H). by exists (S i), s0, e0.
          -- intros (i & s0 & e0 & Hi & H). destruct i as [|i].
             ++ simpl in Hi. simplify_eq. exfalso.
                destruct H as [|(s2 & e2 & Hn & Hr)]; [lia|].
                simpl in Hn. simplify_eq.
                apply in_range in Hr. congruence.
             ++ by exists i, s0, e0.
Qed.

Lemma pair_leb_total x y : Py.pair_leb x y = true \/ Py.pair_leb y x = true.
Proof. unfold Py.pair_leb. destruct x, y; simpl. lia. Qed.

Lemma pair_leb_trans x y z :
    Py.pair_leb x y = true -> Py.pair_leb y z = true -> Py.pair_leb x z = true.
Proof. unfold Py.pair_leb. destruct x, y, z; simpl. lia. Qed.

  (** A list in ascending order of start lines on which [scan] finds
      nothing has pairwise disjoint ranges. *)
Lemma scan_false_disjoint (l : list (Z * Z)) :
    StronglySorted (fun a b => a.1 <= b.1) l ->
    scan l = false -> pairwise_disjoint l.
Proof.
    induction 1 as [|[s e] l Hs IH Hx]; [done|].
    cbn [scan]. destruct (e - s =? 1) eqn:E1; [done|].
    destruct l as [|[s' e'] l'].
    - intros _. simpl. split; constructor.
    - destruct (bool_decide (s' ∈ Py.range s (e + 1))) eqn:E2; [done|].
      intros Hscan. simpl. split; [|by apply IH].
      assert (e < s') as Hlt.
      { apply Forall_cons in Hx as [Hx _]. simpl in Hx.
        destruct (decide (s' <= e)); [|lia].
        exfalso. assert (bool_decide (s' ∈ Py.range s (e + 1)) = true)
          by (apply in_range; lia). congruence. }
      inversion Hs as [|? ? _ Hall]; subst.
      constructor.
      + intros ln [[? ?] [? ?]]. simpl in *. lia.
      + eapply Forall_impl; [exact Hall|]. intros [s2 e2] H2.
        intros ln [[? ?] [? ?]]. simpl in *. lia.
Qed.

Lemma sorted_by_start (l : list (Z * Z)) :
    StronglySorted (fun a b => a.1 <= b.1) (Py.sorted l).
Proof.
    pose proof (sort_by_sorted Py.pair_leb pair_leb_total pair_leb_trans l) as H.
    unfold Py.sorted. induction H as [|x l' Hs IH Hx]; constructor; [done|].
    eapply Forall_impl; [exact Hx|]. intros y. unfold Py.pair_leb. lia.
Qed.

  (** A group that the line-range test lets through has pairwise
      disjoint occurrences. *)
Lemma not_trivial_disjoint (l : list (Z * Z)) :
    (2 <= length l)%nat ->
    _is_trivial_by_line_ranges l = false -> pairwise_disjoint l.
Proof.
    unfold _is_trivial_by_line_ranges. intros Hlen.
    destruct (length l <? 2)%nat eqn:E; [apply Nat.ltb_lt in E; lia|].
    intros Hscan. eapply pairwise_disjoint_perm; [apply sort_by_perm|].
    apply scan_false_disjoint; [apply sorted_by_start|done].
Qed.
End FilterFacts.

(** C5 (as amended). For a group of at least two occurrences, sorted in
    ascending order, the line-range test answers [True] exactly when some
    occurrence has [end - start = 1], that is, spans two lines, or when
    the start line of the occurrence that follows lies within its
    inclusive range; groups of fewer than two occurrences are never
    rejected. *)
Theorem trivial_by_line_ranges_characterised (matches : list (Z * Z)) :
  Filter._is_trivial_by_line_ranges matches = true <->
  (2 <= length matches)%nat /\
  exists i s e, Py.sorted matches !! i = Some (s, e) /\
    (e - s = 1 \/
     exists s' e', Py.sorted matches !! S i = Some (s', e') /\ s <= s' <= e).
Proof.
  unfold Filter._is_trivial_by_line_ranges.
  destruct (length matches <? 2)%nat eqn:E.
  - apply Nat.ltb_lt in E. split; [done|]. intros [? _]. lia.
  - apply Nat.ltb_ge in E. rewrite scan_true_iff. tauto.
Qed.

(** C5, the example of the claim: three consecutive one-line blocks are
    not rejected by the line-range test. *)
Lemma three_one_line_blocks_not_trivial :
  Filter._is_trivial_by_line_ranges [(10, 10); (11, 11); (12, 12)] = false.
Proof. reflexivity. Qed.

(** The third example of the docstring: three consecutive two-line blocks
    are rejected. *)
Example docstring_example_3 :
  Filter._is_trivial_by_line_ranges [(36, 37); (38, 39); (40, 41)] = true.
Proof. reflexivity. Qed.

(** ** Candidate groups *)

Section CandidateFacts.
Import Selector.

Lemma remove_dups_sublist {A} `{EqDecision A} (l : list A) :
    sublist (remove_dups l) l.
Proof.
    induction l as [|x l IH]; simpl; [constructor|].
    case_match; by constructor.
Qed.

Lemma dict_set_keys {K V} `{EqDecision K} (k : K) (v : V) d :
    (d.*1) = (Py.dict_set k v d).*1 /\ k ∈ d.*1 \/
    (Py.dict_set k v d).*1 = d.*1 ++ [k] /\ k ∉ d.*1.
Proof.
    induction d as [|[k' v'] d IH]; simpl.
    - right. split; [done|]. apply not_elem_of_nil.
    - destruct (decide (k = k')) as [->|Hne]; simpl.
      + left. split; [done|]. apply elem_of_cons. by left.
      + destruct IH as [[IH ?]|[IH ?]].
        * left. split; [by f_equal|]. apply elem_of_cons. by right.
        * right. split; [by f_equal|].
          rewrite elem_of_cons. intuition.
Qed.

Lemma dict_set_keys_NoDup {K V} `{EqDecision K} (k : K) (v : V) d :
    NoDup d.*1 -> NoDup (Py.dict_set k v d).*1.
Proof.
    intros Hd. destruct (dict_set_keys k v d) as [[<- _]|[-> Hk]]; [done|].
    apply NoDup_app. split_and!; [done| |apply NoDup_singleton].
    intros x Hx ->%list_elem_of_singleton. done.
Qed.

Lemma dict_set_keys_elem {K V} `{EqDecision K} (k : K) (v : V) d x :
    x ∈ (Py.dict_set k v d).*1 <-> x = k \/ x ∈ d.*1.
Proof.
    destruct (dict_set_keys k v d) as [[<- Hk]|[-> Hk]].
    - split; [by right|]. by intros [->|].
    - rewrite elem_of_app, list_elem_of_singleton. tauto.
Qed.

Lemma seen_fold_keys (occ : list occurrence) acc :
    NoDup acc.*1 ->
    let seen := foldl (fun seen o => Py.dict_set (span o) o.2 seen) acc occ in
    NoDup seen.*1 /\ forall k, k ∈ seen.*1 <-> k ∈ acc.*1 \/ k ∈ map span occ.
Proof.
    revert acc. induction occ as [|o occ IH]; intros acc Hacc; simpl.
    - split; [done|]. intros k. rewrite elem_of_nil. tauto.
    - destruct (IH (Py.dict_set (span o) o.2 acc)) as [Hnd Hk];
        [by apply dict_set_keys_NoDup|].
      split; [done|]. intros k. rewrite Hk, dict_set_keys_elem, elem_of_cons.
      tauto.
Qed.

Lemma span_fst (o : occurrence) : span o = o.1.
Proof. by destruct o as [[? ?] ?]. Qed.

Lemma map_span_fst (l : list occurrence) : map span l = l.*1.
Proof. induction l as [|o l IH]; simpl; [done|]. by rewrite span_fst, IH. Qed.

  (** [occ_unique] holds each distinct [(start, end)] once. *)
Lemma occ_unique_spans (occ : list occurrence) :
    map span (occ_unique_of occ) ≡ₚ remove_dups (map span occ).
Proof.
    unfold occ_unique_of, seen_of.
    destruct (seen_fold_keys occ []) as [Hnd Hk]; [constructor|].
    rewrite map_span_fst. apply NoDup_Permutation.
    - done.
    - apply NoDup_remove_dups.
    - intros k. rewrite Hk, elem_of_remove_dups. simpl.
      rewrite elem_of_nil. tauto.
Qed.

Lemma occ_unique_NoDup (occ : list occurrence) :
    NoDup (map span (occ_unique_of occ)).
Proof. rewrite occ_unique_spans. apply NoDup_remove_dups. Qed.

Lemma candidate_of_Some h occ c :
    candidate_of (h, occ) = Some c ->
    cand_hash c = h /\ cand_occurrences c = occ_unique_of occ /\
    cand_count c = length (occ_unique_of occ) /\
    (3 <= length (occ_unique_of occ))%nat /\
    (exists o0 rest, occ_unique_of occ = o0 :: rest /\
       Filter.is_trivial_dump o0.2 (map span (occ_unique_of occ)) = false).
Proof.
    unfold candidate_of.
    destruct (length (occ_unique_of occ) <? 3)%nat eqn:E; [done|].
    apply Nat.ltb_ge in E.
    destruct (occ_unique_of occ) as [|o0 rest] eqn:Eo; [done|].
    destruct (Filter.is_trivial_dump _ _) eqn:Et; [done|].
    intros [= <-]. simpl. split_and!; try done. by exists o0, rest.
Qed.

Lemma is_trivial_dump_false dumped ranges :
    Filter.is_trivial_dump dumped ranges = false ->
    Filter._is_trivial_by_line_ranges ranges = false.
Proof.
    unfold Filter.is_trivial_dump. repeat case_match; done.
Qed.

  (** The occurrences of a candidate group are pairwise disjoint: the
      line-range test has let them through. *)
Lemma candidate_disjoint h occ c :
    candidate_of (h, occ) = Some c ->
    pairwise_disjoint (map span (cand_occurrences c)).
Proof.
    intros (_ & -> & _ & Hlen & o0 & rest & _ & Ht)%candidate_of_Some.
    apply not_trivial_disjoint.
    - rewrite length_map. lia.
    - by eapply is_trivial_dump_false.
Qed.
End CandidateFacts.

(** ** The greedy loop *)

Section GreedyFacts.
Import Selector.

Variable set_order : list (Z * Z) -> list (Z * Z).
Hypothesis set_order_perm : forall l, set_order l ≡ₚ remove_dups l.

Lemma overlaps_false (occupied : gset Z) s e :
    range_overlaps_with_occupied occupied s e = false <->
    forall ln, s <= ln <= e -> ln ∉ occupied.
Proof.
    unfold range_overlaps_with_occupied, Py.range.
    rewrite <- not_true_iff_false, existsb_exists. split.
    - intros H ln Hln Hin. apply H. exists ln. split.
      + apply list_elem_of_In, elem_of_seqZ. lia.
      + by apply bool_decide_eq_true.
    - intros H (ln & Hin%list_elem_of_In%elem_of_seqZ & Hocc%bool_decide_eq_true).
      apply (H ln); [lia|done].
Qed.

Lemma occupy_range (occupied : gset Z) (l : list Z) (ln : Z) :
    ln ∈ foldl (fun acc' x => {[x]} ∪ acc') occupied l <->
    ln ∈ occupied \/ ln ∈ l.
Proof.
    revert occupied. induction l as [|x l IH]; intros occupied; simpl.
    - rewrite elem_of_nil. tauto.
    - rewrite IH, elem_of_cons, elem_of_union, elem_of_singleton. tauto.
Qed.

Lemma occupy_spec (occupied : gset Z) (occs : list (Z * Z)) (ln : Z) :
    ln ∈ occupy occupied occs <->
    ln ∈ occupied \/ exists se, se ∈ occs /\ lines se ln.
Proof.
    unfold occupy. revert occupied.
    induction occs as [|se occs IH]; intros occupied; simpl.
    - split; [by left|]. intros [?|(? & []%elem_of_nil & _)]. done.
    - rewrite IH, occupy_range. unfold Py.range. rewrite elem_of_seqZ.
      split.
      + intros [[?|?]|(x & ? & ?)].
        * by left.
        * right. exists se. split; [by left|]. unfold lines. lia.
        * right. exists x. split; [by right|done].
      + intros [?|(x & [->|?]%elem_of_cons & Hl)].
        * left. by left.
        * left. right. unfold lines in Hl. lia.
        * right. by exists x.
Qed.

Lemma filter_sublist {A} (f : A -> bool) (l : list A) :
    sublist (List.filter f l) l.
Proof.
    induction l as [|x l IH]; simpl; [constructor|].
    destruct (f x); by constructor.
Qed.

Lemma occs_of_perm c :
    occs_of set_order c ≡ₚ remove_dups (map span (cand_occurrences c)).
Proof. unfold occs_of. by rewrite sort_by_perm, set_order_perm. Qed.

Lemma occs_of_elem c se :
    se ∈ occs_of set_order c <-> se ∈ map span (cand_occurrences c).
Proof. by rewrite occs_of_perm, elem_of_remove_dups. Qed.

Lemma occs_of_disjoint c :
    pairwise_disjoint (map span (cand_occurrences c)) ->
    pairwise_disjoint (occs_of set_order c).
Proof.
    intros H. eapply pairwise_disjoint_perm; [symmetry; apply occs_of_perm|].
    eapply pairwise_disjoint_sublist; [apply remove_dups_sublist|done].
Qed.

  (** All occurrences accepted so far. *)
Definition accepted (selected : list selection) : list (Z * Z) :=
    concat (map sel_matches selected).

  (** The invariant of the greedy loop: the accepted occurrences are
      pairwise disjoint, and [occupied_lines] holds exactly their
      lines. *)
Definition greedy_inv (st : list selection * gset Z) : Prop :=
    pairwise_disjoint (accepted st.1) /\
    forall ln, ln ∈ st.2 <-> exists se, se ∈ accepted st.1 /\ lines se ln.

Lemma accepted_snoc selected s :
    accepted (selected ++ [s]) = accepted selected ++ sel_matches s.
Proof.
    unfold accepted. rewrite map_app, concat_app. simpl.
    by rewrite app_nil_r.
Qed.

Lemma select_step_inv st c :
    pairwise_disjoint (map span (cand_occurrences c)) ->
    greedy_inv st -> greedy_inv (select_step set_order st c).
Proof.
    intros Hc [Hpw Hocc]. destruct st as [selected occupied].
    unfold select_step. simpl in *.
    set (keep := List.filter _ _).
    assert (pairwise_disjoint keep) as Hk1.
    { eapply pairwise_disjoint_sublist; [apply filter_sublist|].
      by apply occs_of_disjoint. }
    assert (forall b, b ∈ keep -> forall ln, lines b ln -> ln ∉ occupied) as Hk2.
    { intros b Hb ln Hln.
      apply list_elem_of_In, filter_In in Hb as [_ Hb].
      apply negb_true_iff in Hb.
      by apply (proj1 (overlaps_false occupied b.1 b.2) Hb ln). }
    clearbody keep.
    destruct (length keep <? 2)%nat; [by split|].
    destruct keep as [|primary rest]; [by split|].
    set (k := primary :: rest) in *.
    split; cbn [fst snd]; rewrite accepted_snoc; cbn [sel_matches].
    - apply pairwise_disjoint_app. split_and!; [done|done|].
      apply Forall_forall. intros a Ha. apply Forall_forall. intros b Hb.
      intros ln [Hla Hlb]. apply (Hk2 b Hb ln Hlb).
      apply Hocc. by exists a.
    - intros ln. rewrite occupy_spec, Hocc. split.
      + intros [(se & ? & ?)|(se & ? & ?)]; exists se;
          (split; [apply elem_of_app; auto|done]).
      + intros (se & [?|?]%elem_of_app & ?); [left|right]; by exists se.
Qed.

Lemma greedy_fold_inv cands st :
    Forall (fun c => pairwise_disjoint (map span (cand_occurrences c))) cands ->
    greedy_inv st -> greedy_inv (foldl (select_step set_order) st cands).
Proof.
    revert st. induction cands as [|c cands IH]; intros st Hall Hst; [done|].
    apply Forall_cons in Hall as [Hc Hall]. simpl.
    apply IH; [done|]. by apply select_step_inv.
Qed.

Lemma candidates_disjoint seqs :
    Forall (fun c => pairwise_disjoint (map span (cand_occurrences c)))
           (candidates_of seqs).
Proof.
    apply Forall_forall. intros c Hc.
    apply list_elem_of_omap in Hc as ([h occ] & _ & Hc).
    by eapply candidate_disjoint.
Qed.

Lemma rank_perm cands : rank cands ≡ₚ cands.
Proof. apply sort_by_perm. Qed.

Lemma select_disjoint seqs :
    pairwise_disjoint (accepted (select set_order seqs)).
Proof.
    unfold select, greedy.
    apply (greedy_fold_inv (rank (candidates_of seqs)) ([], ∅)).
    - rewrite rank_perm. apply candidates_disjoint.
    - split; simpl; [done|]. intros ln. split; [set_solver|].
      intros (se & []%elem_of_nil & _).
Qed.
End GreedyFacts.

(** C1. Whatever dictionary [collect_sequences] returns for a tree, no
    two occurrences accepted by the greedy loop of [check] share a source
    line: any two entries of the [matches] lists of the selected groups,
    at different positions of one list or in different lists, have
    disjoint inclusive line ranges. *)
Theorem selected_occurrences_share_no_line
    (set_order : list (Z * Z) -> list (Z * Z))
    (set_order_perm : forall l, set_order l ≡ₚ remove_dups l)
    (seqs : Selector.sequences) :
  let all := concat (map Selector.sel_matches (Selector.select set_order seqs)) in
  forall i j a b, i <> j -> all !! i = Some a -> all !! j = Some b ->
    forall ln, ~ (a.1 <= ln <= a.2 /\ b.1 <= ln <= b.2).
Proof.
  intros all i j a b Hij Ha Hb.
  pose proof (select_disjoint set_order set_order_perm seqs) as H.
  exact (proj1 (pairwise_disjoint_lookup _) H i j a b Hij Ha Hb).
Qed.

(** ** Which groups are reported *)

Section ReportFacts.
Import Selector.

Variable set_order : list (Z * Z) -> list (Z * Z).
Hypothesis set_order_perm : forall l, set_order l ≡ₚ remove_dups l.

  (** A step of the greedy loop keeps what was selected and may add one
      group, that of the candidate at hand. *)
Lemma select_step_cases st c :
    select_step set_order st c = st \/
    exists s, (select_step set_order st c).1 = st.1 ++ [s] /\
              sel_hash s = cand_hash c.
Proof.
    destruct st as [selected occupied]. unfold select_step.
    destruct (length _ <? 2)%nat; [by left|].
    destruct (List.filter _ _); [by left|].
    right. eexists. split; [reflexivity|done].
Qed.

Lemma select_step_mono st c s :
    s ∈ st.1 -> s ∈ (select_step set_order st c).1.
Proof.
    intros Hs. destruct (select_step_cases st c) as [->|(s' & -> & _)]; [done|].
    apply elem_of_app. by left.
Qed.

Lemma greedy_fold_mono cands st s :
    s ∈ st.1 -> s ∈ (foldl (select_step set_order) st cands).1.
Proof.
    revert st. induction cands as [|c cands IH]; intros st Hs; [done|].
    simpl. apply IH. by apply select_step_mono.
Qed.

Lemma greedy_fold_hashes cands st s :
    s ∈ (foldl (select_step set_order) st cands).1 ->
    s ∈ st.1 \/ exists c, c ∈ cands /\ sel_hash s = cand_hash c.
Proof.
    revert st. induction cands as [|c cands IH]; intros st Hs; [by left|].
    simpl in Hs. apply IH in Hs as [Hs|(c' & ? & ?)].
    - destruct (select_step_cases st c) as [E|(s' & E & Hh)].
      + rewrite E in Hs. by left.
      + rewrite E in Hs. apply elem_of_app in Hs as [?| ->%list_elem_of_singleton].
        * by left.
        * right. exists c. split; [by left|done].
    - right. exists c'. split; [by right|done].
Qed.

  (** Every reported group stems from an item of [seqs] that made it to
      the candidate list. *)
Lemma select_from_candidate seqs s :
    s ∈ select set_order seqs ->
    exists occ c, (sel_hash s, occ) ∈ seqs /\
                  candidate_of (sel_hash s, occ) = Some c.
Proof.
    unfold select, greedy. intros Hs.
    apply greedy_fold_hashes in Hs as [Hs|(c & Hc & Hh)];
      [by apply elem_of_nil in Hs|].
    rewrite rank_perm in Hc.
    apply list_elem_of_omap in Hc as ([h occ] & Hin & Hc).
    pose proof (candidate_of_Some _ _ _ Hc) as (Hh' & _).
    exists occ, c. rewrite Hh, Hh'. done.
Qed.

Lemma occupied_origin cands st ln :
    ln ∈ (foldl (select_step set_order) st cands).2 ->
    ln ∈ st.2 \/
    exists c se, c ∈ cands /\ se ∈ map span (cand_occurrences c) /\ lines se ln.
Proof.
    revert st. induction cands as [|c cands IH]; intros st Hln; [by left|].
    simpl in Hln. apply IH in Hln as [Hln|(c' & se & ? & ? & ?)].
    - destruct st as [selected occupied]. unfold select_step in Hln.
      destruct (length _ <? 2)%nat; [by left|].
      destruct (List.filter _ _) as [|p r] eqn:Ef; [by left|].
      rewrite <- Ef in Hln. simpl in Hln.
      apply occupy_spec in Hln as [?|(se & Hse & ?)]; [by left|].
      right. exists c, se. split_and!; [by left| |done].
      apply list_elem_of_In, filter_In in Hse as [Hse%list_elem_of_In _].
      by apply (occs_of_elem set_order set_order_perm).
    - right. exists c', se. split_and!; [by right|done|done].
Qed.

Lemma filter_all {A} (f : A -> bool) (l : list A) :
    (forall x, x ∈ l -> f x = true) -> List.filter f l = l.
Proof.
    induction l as [|x l IH]; intros H; simpl; [done|].
    rewrite (H x) by (by left). f_equal. apply IH.
    intros y Hy. apply H. by right.
Qed.

  (** A candidate none of whose lines is occupied is selected with all
      its occurrences. *)
Lemma select_step_accepts st c :
    (2 <= length (occs_of set_order c))%nat ->
    (forall se ln, se ∈ occs_of set_order c -> lines se ln -> ln ∉ st.2) ->
    exists s, s ∈ (select_step set_order st c).1 /\
              sel_hash s = cand_hash c /\
              sel_matches s = occs_of set_order c /\
              sel_count s = length (occs_of set_order c).
Proof.
    intros Hlen Hfree. destruct st as [selected occupied].
    unfold select_step. rewrite filter_all.
    2:{ intros se Hse. apply negb_true_iff, overlaps_false.
        intros ln Hln. by apply (Hfree se ln). }
    destruct (length _ <? 2)%nat eqn:E; [apply Nat.ltb_lt in E; lia|].
    destruct (occs_of set_order c) as [|p r] eqn:Eo; [simpl in Hlen; lia|].
    eexists. split; [apply elem_of_app; right; by apply list_elem_of_singleton|].
    done.
Qed.
End ReportFacts.

(** [ranked_before seqs c' c]: in the order in which the greedy loop
    processes the candidate groups of [seqs], [c'] comes before [c]. *)
Definition ranked_before (seqs : Selector.sequences)
    (c' c : Selector.candidate) : Prop :=
  exists pre post,
    Selector.rank (Selector.candidates_of seqs) = pre ++ c :: post /\ c' ∈ pre.

Section MinimumRepetition.
Import Selector.

Variable set_order : list (Z * Z) -> list (Z * Z).
Hypothesis set_order_perm : forall l, set_order l ≡ₚ remove_dups l.

Lemma occ_unique_length occ :
    length (occ_unique_of occ) = length (remove_dups (map span occ)).
Proof. by rewrite <- (occ_unique_spans occ), length_map. Qed.

Lemma candidate_of_is_Some h occ :
    (3 <= length (occ_unique_of occ))%nat ->
    (forall o0 rest, occ_unique_of occ = o0 :: rest ->
       Filter.is_trivial_dump o0.2 (map span (occ_unique_of occ)) = false) ->
    exists c, candidate_of (h, occ) = Some c.
Proof.
    intros Hlen Hpass. unfold candidate_of.
    destruct (length (occ_unique_of occ) <? 3)%nat eqn:E;
      [apply Nat.ltb_lt in E; lia|].
    destruct (occ_unique_of occ) as [|o0 rest] eqn:Eo; [simpl in Hlen; lia|].
    rewrite (Hpass o0 rest eq_refl). eauto.
Qed.

Lemma dict_unique {V} (seqs : list (string * V)) h v1 v2 :
    NoDup seqs.*1 -> (h, v1) ∈ seqs -> (h, v2) ∈ seqs -> v1 = v2.
Proof.
    induction seqs as [|[k v] seqs IH]; simpl; intros Hnd H1 H2.
    - by apply elem_of_nil in H1.
    - apply NoDup_cons in Hnd as [Hk Hnd].
      apply elem_of_cons in H1 as [H1|H1], H2 as [H2|H2]; simplify_eq.
      + done.
      + exfalso. apply Hk. apply list_elem_of_fmap. by exists (k, v2).
      + exfalso. apply Hk. apply list_elem_of_fmap. by exists (k, v1).
      + by apply IH.
Qed.

Lemma occs_of_candidate h occ c :
    candidate_of (h, occ) = Some c ->
    occs_of set_order c ≡ₚ remove_dups (map span occ).
Proof.
    intros (_ & Ho & _)%candidate_of_Some.
    rewrite (occs_of_perm set_order set_order_perm), Ho.
    apply NoDup_Permutation; [apply NoDup_remove_dups..|].
    intros x. by rewrite !elem_of_remove_dups, occ_unique_spans,
      elem_of_remove_dups.
Qed.
End MinimumRepetition.

(** The selection from a dictionary [seqs] of occurrences. Let
    [(h, occ)] be a group of [seqs]. If it has fewer than three distinct
    [(start, end)] occurrences, no reported group carries its hash. If it
    has three or more, passes [is_trivial_dump], and no group that is
    ranked before it has a line in common with it, it is reported, with
    all its distinct occurrences. *)
Theorem minimum_repetition
    (set_order : list (Z * Z) -> list (Z * Z))
    (set_order_perm : forall l, set_order l ≡ₚ remove_dups l)
    (seqs : Selector.sequences) (h : string) (occ : list Selector.occurrence)
    (Hkeys : NoDup seqs.*1) (Hin : (h, occ) ∈ seqs) :
  ((length (remove_dups (map Selector.span occ)) < 3)%nat ->
   forall s, s ∈ Selector.select set_order seqs -> Selector.sel_hash s <> h)
  /\
  ((3 <= length (remove_dups (map Selector.span occ)))%nat ->
   (forall o0 rest, Selector.occ_unique_of occ = o0 :: rest ->
      Filter.is_trivial_dump o0.2 (map Selector.span (Selector.occ_unique_of occ))
      = false) ->
   (forall c' c se' se ln,
      Selector.cand_hash c = h -> ranked_before seqs c' c ->
      se' ∈ map Selector.span (Selector.cand_occurrences c') ->
      se ∈ map Selector.span occ ->
      ~ (lines se' ln /\ lines se ln)) ->
   exists s, s ∈ Selector.select set_order seqs /\
             Selector.sel_hash s = h /\
             Selector.sel_matches s ≡ₚ remove_dups (map Selector.span occ) /\
             (3 <= Selector.sel_count s)%nat).
Proof.
  split.
  - intros Hlt s Hs Hh.
    apply (select_from_candidate set_order) in Hs as (occ' & c & Hin' & Hc).
    rewrite Hh in Hin', Hc.
    rewrite <- (dict_unique seqs h occ occ' Hkeys Hin Hin') in Hc.
    apply candidate_of_Some in Hc as (_ & _ & _ & Hlen & _).
    rewrite occ_unique_length in Hlen. lia.
  - intros Hlen Hpass Hfree.
    destruct (candidate_of_is_Some h occ) as [c Hc];
      [by rewrite occ_unique_length|done|].
    pose proof (candidate_of_Some _ _ _ Hc) as (Hh & Ho & _).
    assert (c ∈ Selector.rank (Selector.candidates_of seqs)) as Hrank.
    { rewrite rank_perm. apply list_elem_of_omap. by exists (h, occ). }
    apply list_elem_of_split in Hrank as (pre & post & Hrank).
    pose proof (occs_of_candidate set_order set_order_perm h occ c Hc) as Hoccs.
    destruct (select_step_accepts set_order
                (foldl (Selector.select_step set_order) ([], ∅) pre) c)
      as (s & Hs & Hsh & Hsm & Hsc).
    + rewrite Hoccs. lia.
    + intros se ln Hse Hln Hocc.
      apply (occupied_origin set_order set_order_perm) in Hocc
        as [Hocc|(c' & se' & Hc' & Hse' & Hln')]; [set_solver|].
      apply (Hfree c' c se' se ln); try done.
      * by exists pre, post.
      * rewrite Hoccs in Hse. exact (proj1 (elem_of_remove_dups _ _) Hse).
    + exists s. split_and!.
      * unfold Selector.select, Selector.greedy.
        rewrite Hrank, foldl_app. simpl.
        by apply greedy_fold_mono.
      * by rewrite Hsh.
      * by rewrite Hsm.
      * rewrite Hsc, Hoccs. lia.
Qed.


(** ** [repr] is injective *)

Section ReprFacts.
Import Ast Repr.

Lemma repr_int_inj z1 z2 : Py.repr_int z1 = Py.repr_int z2 -> z1 = z2.
Proof.
  unfold Py.repr_int. intros H.
  apply DecimalZ.to_int_inj.
  assert (forall z, NilZero.int_of_string (NilZero.string_of_int (Z.to_int z))
                    = Some (Z.to_int z)) as Hisi.
  { intros z. apply NilZero.isi; destruct z; simpl; try discriminate;
      intros [= E]; by apply DecimalPos.Unsigned.to_uint_nonnil in E. }
  pose proof (Hisi z1) as H1. rewrite H, Hisi in H1. congruence.
Qed.

Definition int_heads : list ascii :=
  ["-"; "0"; "1"; "2"; "3"; "4"; "5"; "6"; "7"; "8"; "9"]%char.

Lemma repr_int_head z :
  exists a r, Py.repr_int z = String a r /\ a ∈ int_heads.
Proof.
  assert (forall d, d <> Decimal.Nil ->
            exists a r, NilZero.string_of_uint d = String a r /\ a ∈ int_heads)
    as Hu.
  { intros d Hd. destruct d; [done|..]; simpl; eexists _, _;
      (split; [reflexivity|]); unfold int_heads; set_solver. }
  unfold Py.repr_int. destruct z as [|p|p]; simpl.
  - eexists _, _. split; [reflexivity|]. unfold int_heads. set_solver.
  - apply Hu, DecimalPos.Unsigned.to_uint_nonnil.
  - eexists _, _. split; [reflexivity|]. unfold int_heads. set_solver.
Qed.

(** A decoder for one character of the text between the quotes. *)
Definition unhex (c : ascii) : N :=
  let n := N_of_ascii c in if (n <? 58)%N then (n - 48)%N else (n - 87)%N.

Definition dec_char (quote : ascii) (s : string) : option (ascii * string) :=
  match s with
  | EmptyString => None
  | String a s1 =>
      if Ascii.eqb a quote then None
      else if Ascii.eqb a backslash then
        match s1 with
        | String b s2 =>
            if Ascii.eqb b "t" then Some ("009"%char, s2)
            else if Ascii.eqb b "n" then Some ("010"%char, s2)
            else if Ascii.eqb b "r" then Some ("013"%char, s2)
            else if Ascii.eqb b "x" then
              match s2 with
              | String h (String l s3) =>
                  Some (ascii_of_N (16 * unhex h + unhex l), s3)
              | _ => None
              end
            else Some (b, s2)
        | EmptyString => None
        end
      else Some (a, s1)
  end.

Lemma dec_repr_str_char q c t :
  q = squote \/ q = dquote ->
  dec_char q (repr_str_char q c ++ t)%string = Some (c, t).
Proof.
  intros [-> | ->]; destruct c as [[] [] [] [] [] [] [] []]; reflexivity.
Qed.

Lemma dec_repr_bytes_char q c t :
  q = squote \/ q = dquote ->
  dec_char q (repr_bytes_char q c ++ t)%string = Some (c, t).
Proof.
  intros [-> | ->]; destruct c as [[] [] [] [] [] [] [] []]; reflexivity.
Qed.

Lemma string_app_nil (t : string) : (EmptyString ++ t)%string = t.
Proof. reflexivity. Qed.

Lemma string_app_cons a (s t : string) :
  (String a s ++ t)%string = String a (s ++ t)%string.
Proof. reflexivity. Qed.

Lemma string_app_assoc (a b c : string) :
  ((a ++ b) ++ c = a ++ (b ++ c))%string.
Proof.
  induction a as [|x a IH]; [done|].
  rewrite !string_app_cons. by rewrite IH.
Qed.

Lemma concat_map_inj q (f : ascii -> string) s1 s2 r1 r2 :
  (forall c t, dec_char q (f c ++ t)%string = Some (c, t)) ->
  (concat_map f s1 ++ String q r1 = concat_map f s2 ++ String q r2)%string ->
  s1 = s2 /\ r1 = r2.
Proof.
  intros Hf. revert s2. induction s1 as [|c1 s1 IH]; intros [|c2 s2]; simpl;
    rewrite ?string_app_nil.
  - by intros [= ->].
  - intros H. apply (f_equal (dec_char q)) in H.
    rewrite string_app_assoc, Hf in H. simpl in H.
    by rewrite Ascii.eqb_refl in H.
  - intros H. apply (f_equal (dec_char q)) in H.
    rewrite string_app_assoc, Hf in H. simpl in H.
    by rewrite Ascii.eqb_refl in H.
  - intros H. apply (f_equal (dec_char q)) in H.
    rewrite !string_app_assoc, !Hf in H. injection H as -> H.
    by destruct (IH _ H) as [-> ->].
Qed.

Lemma quote_for_cases s : quote_for s = squote \/ quote_for s = dquote.
Proof. unfold quote_for. destruct (_ && _); auto. Qed.

Lemma repr_str_inj s1 s2 : repr_str s1 = repr_str s2 -> s1 = s2.
Proof.
  unfold repr_str. intros [= Hq H]. rewrite <- Hq in H.
  eapply concat_map_inj in H as [? _]; [done|].
  intros c t. apply dec_repr_str_char, quote_for_cases.
Qed.

Lemma repr_bytes_inj s1 s2 : repr_bytes s1 = repr_bytes s2 -> s1 = s2.
Proof.
  unfold repr_bytes. intros [= Hq H]. rewrite <- Hq in H.
  eapply concat_map_inj in H as [? _]; [done|].
  intros c t. apply dec_repr_bytes_char, quote_for_cases.
Qed.

(** The first character of [repr c] tells the type of [c]. *)
Definition tag (c : constant) : nat :=
  match c with
  | CNone => 0 | CBool true => 1 | CBool false => 2 | CInt _ => 3
  | CStr _ => 4 | CBytes _ => 5 | CEllipsis => 6
  end%nat.

Definition head_tag (s : string) : nat :=
  match s with
  | String a _ =>
      if Ascii.eqb a "N" then 0
      else if Ascii.eqb a "T" then 1
      else if Ascii.eqb a "F" then 2
      else if existsb (Ascii.eqb a) int_heads then 3
      else if Ascii.eqb a squote || Ascii.eqb a dquote then 4
      else if Ascii.eqb a "b" then 5
      else if Ascii.eqb a "E" then 6
      else 7
  | EmptyString => 7
  end%nat.

Lemma head_tag_repr c : head_tag (repr c) = tag c.
Proof.
  destruct c as [|[]|z|s|s|]; try reflexivity.
  - simpl. destruct (repr_int_head z) as (a & r & -> & Ha).
    unfold int_heads in Ha.
    repeat (apply elem_of_cons in Ha as [->|Ha]; [reflexivity|]).
    by apply elem_of_nil in Ha.
  - simpl. unfold repr_str. by destruct (quote_for_cases s) as [-> | ->].
Qed.

(** Two plain values with the same [repr] are the same value. *)
Lemma repr_inj c1 c2 : repr c1 = repr c2 -> c1 = c2.
Proof.
  intros H. pose proof (f_equal head_tag H) as Ht.
  rewrite !head_tag_repr in Ht.
  destruct c1 as [|[]|z1|s1|s1|], c2 as [|[]|z2|s2|s2|];
    try discriminate Ht; try reflexivity; simpl in H; f_equal.
  - by apply repr_int_inj.
  - by apply repr_str_inj.
  - by apply repr_bytes_inj.
Qed.
End ReprFacts.

(** ** Placeholder numbering *)

(** What a pass asks of its two dictionaries, in the order in which the
    nodes are met: [visit_Name] and [visit_arg] ask for a name,
    [visit_Attribute] for an attribute, [visit_Constant] for a
    constant. Every pass is the service of such a history (lemma
    [pass_is_history]). *)
Inductive request :=
| ReqName (id : string)
| ReqAttr (attr : string)
| ReqConst (value : Ast.constant).

Definition serve (r : request) : Ast.M Canonicalizer.state string :=
  match r with
  | ReqName id => Canonicalizer._map_name id
  | ReqAttr a => Canonicalizer._map_attr a
  | ReqConst c => Canonicalizer._map_const c
  end.

(** The key under which a request is filed in [name_map]. *)
Definition name_key (r : request) : option string :=
  match r with
  | ReqName id => Some id
  | ReqAttr a => Some ("attr::" ++ a)%string
  | ReqConst _ => None
  end.

(** The key under which a request is filed in [const_map]. *)
Definition const_key (r : request) : option string :=
  match r with
  | ReqConst c => Some (Repr.repr c)
  | _ => None
  end.

Section NumberingFacts.
Import Ast Canonicalizer.

Lemma mapM_cons {S A B} (f : A -> M S B) x l s :
  mapM f (x :: l) s =
  match f x s with
  | Ok (y, s') =>
      match mapM f l s' with
      | Ok (ys, s'') => Ok (y :: ys, s'')
      | Raise e => Raise e
      end
  | Raise e => Raise e
  end.
Proof.
  simpl. unfold bind. destruct (f x s) as [[y s']|e]; [|done].
  by destruct (mapM f l s') as [[ys s'']|e].
Qed.

(** The counters count the entries of the dictionaries. *)
Definition counted (st : state) : Prop :=
  _n_name st = Z.of_nat (size (name_map st)) /\
  _n_const st = Z.of_nat (size (const_map st)).

Definition opt_set (o : option string) : gset string :=
  match o with Some k => {[k]} | None => ∅ end.

Lemma serve_counted r st :
  counted st ->
  exists p st', serve r st = Ok (p, st') /\ counted st' /\
    dom (name_map st') = dom (name_map st) ∪ opt_set (name_key r) /\
    dom (const_map st') = dom (const_map st) ∪ opt_set (const_key r).
Proof.
  intros [Hn Hc].
  destruct r as [id|a|c]; simpl; unfold _map_name, _map_attr, _map_const.
  - destruct (name_map st !! id) as [p|] eqn:E.
    + exists p, st. split_and!; try done.
      * apply elem_of_dom_2 in E. set_solver.
      * set_solver.
    + eexists _, _. split; [reflexivity|]. simpl. split_and!.
      * split; simpl; [|done]. rewrite map_size_insert_None by done. lia.
      * rewrite dom_insert_L. set_solver.
      * set_solver.
  - destruct (name_map st !! _) as [p|] eqn:E.
    + exists p, st. split_and!; try done.
      * apply elem_of_dom_2 in E. set_solver.
      * set_solver.
    + eexists _, _. split; [reflexivity|]. simpl. split_and!.
      * split; simpl; [|done]. rewrite map_size_insert_None by done. lia.
      * rewrite dom_insert_L. set_solver.
      * set_solver.
  - destruct (const_map st !! _) as [p|] eqn:E.
    + exists p, st. split_and!; try done.
      * set_solver.
      * apply elem_of_dom_2 in E. set_solver.
    + eexists _, _. split; [reflexivity|]. simpl. split_and!.
      * split; simpl; [done|]. rewrite map_size_insert_None by done. lia.
      * set_solver.
      * rewrite dom_insert_L. set_solver.
Qed.

Lemma history_counted history st :
  counted st ->
  exists ps st', mapM serve history st = Ok (ps, st') /\ counted st' /\
    dom (name_map st') = dom (name_map st) ∪ list_to_set (omap name_key history) /\
    dom (const_map st') = dom (const_map st) ∪ list_to_set (omap const_key history).
Proof.
  revert st. induction history as [|r history IH]; intros st Hst.
  - exists [], st. split_and!; [done|done|set_solver..].
  - destruct (serve_counted r st Hst) as (p & st1 & E1 & H1 & Hd1 & Hc1).
    destruct (IH st1 H1) as (ps & st2 & E2 & H2 & Hd2 & Hc2).
    exists (p :: ps), st2. rewrite mapM_cons, E1, E2. split_and!; [done..| |].
    + rewrite Hd2, Hd1. destruct r; simpl; set_solver.
    + rewrite Hc2, Hc1. destruct r; simpl; set_solver.
Qed.

Lemma size_distinct (l : list string) :
  size (list_to_set l : gset string) = length (remove_dups l).
Proof.
  rewrite <- (size_list_to_set (C := gset string) (remove_dups l))
    by apply NoDup_remove_dups.
  f_equal. apply set_eq. intros x.
  by rewrite !elem_of_list_to_set, elem_of_remove_dups.
Qed.

Lemma init_counted : counted init.
Proof. split; reflexivity. Qed.
End NumberingFacts.


Section ConstantFacts.
Import Ast Canonicalizer.

(** Every entry of [const_map] is [_C<n>] for a number below the
    counter, and no placeholder is entered twice. *)
Definition const_inv (st : state) : Prop :=
  0 <= _n_const st /\
  (forall k p, const_map st !! k = Some p ->
     exists n, 0 <= n < _n_const st /\ p = ("_C" ++ Py.repr_int n)%string) /\
  (forall k1 k2 p, const_map st !! k1 = Some p -> const_map st !! k2 = Some p ->
     k1 = k2).

Lemma placeholder_inj (pre : string) n1 n2 :
  (pre ++ Py.repr_int n1 = pre ++ Py.repr_int n2)%string -> n1 = n2.
Proof. intros H. by apply String.app_inj, repr_int_inj in H. Qed.

Lemma serve_const_inv r st p st' :
  const_inv st -> serve r st = Ok (p, st') ->
  const_inv st' /\ const_map st ⊆ const_map st' /\
  (forall c, r = ReqConst c -> const_map st' !! Repr.repr c = Some p).
Proof.
  intros (Hpos & Hrange & Hinj).
  destruct r as [id|a|c]; simpl; unfold _map_name, _map_attr, _map_const.
  - destruct (name_map st !! id); intros [= <- <-]; by repeat split.
  - destruct (name_map st !! _); intros [= <- <-]; by repeat split.
  - destruct (const_map st !! Repr.repr c) as [q|] eqn:E; intros [= <- <-].
    + repeat split; try done. by intros c' [= <-].
    + simpl. split_and!.
      * split_and!; simpl.
        -- lia.
        -- intros k q [[<- <-]|[Hne Hk]]%lookup_insert_Some.
           ++ exists (_n_const st). split; [lia|done].
           ++ destruct (Hrange k q Hk) as (n & ? & ->). exists n. split; [lia|done].
        -- intros k1 k2 q [[<- <-]|[Hne1 Hk1]]%lookup_insert_Some
                          [[<- E2]|[Hne2 Hk2]]%lookup_insert_Some; try done.
           ++ exfalso. destruct (Hrange k2 _ Hk2) as (n & Hn & Hp).
              apply placeholder_inj in Hp. lia.
           ++ exfalso. subst q. destruct (Hrange k1 _ Hk1) as (n & Hn & Hp).
              apply placeholder_inj in Hp. lia.
           ++ by eapply Hinj.
      * by apply insert_subseteq.
      * intros c' [= <-]. by rewrite lookup_insert_eq.
Qed.

Lemma history_const_inv history st ps st' :
  const_inv st -> mapM serve history st = Ok (ps, st') ->
  const_inv st' /\ const_map st ⊆ const_map st' /\
  (forall i c p, history !! i = Some (ReqConst c) -> ps !! i = Some p ->
     const_map st' !! Repr.repr c = Some p).
Proof.
  revert st ps. induction history as [|r history IH]; intros st ps Hst.
  - intros [= <- <-]. split_and!; [done..|]. intros i c p Hi.
    by rewrite lookup_nil in Hi.
  - rewrite mapM_cons. destruct (serve r st) as [[p1 st1]|e] eqn:E1; [|done].
    destruct (mapM serve history st1) as [[ps1 st2]|e] eqn:E2; [|done].
    intros [= <- <-].
    destruct (serve_const_inv r st p1 st1 Hst E1) as (H1 & Hsub1 & Hres1).
    destruct (IH st1 ps1 H1 E2) as (H2 & Hsub2 & Hres2).
    split_and!; [done|by etrans|].
    intros [|i] c p Hi Hp; simpl in *.
    + injection Hi as ->. injection Hp as <-.
      eapply lookup_weaken; [by apply Hres1|done].
    + by eapply Hres2.
Qed.

Lemma init_const_inv : const_inv init.
Proof.
  split_and!; simpl; [done|..]; intros *; rewrite lookup_empty; done.
Qed.
End ConstantFacts.

(** In a history of requests, two constants are given the same
    placeholder exactly when they are the same value of the embedding:
    the same type and the same content; [1], [True] and the string
    ['1'] are three values. *)
Theorem constant_placeholders_agree_iff_equal
    (history : list request) ps st i j c1 c2 p1 p2 :
  Ast.mapM serve history Canonicalizer.init = Ast.Ok (ps, st) ->
  history !! i = Some (ReqConst c1) -> history !! j = Some (ReqConst c2) ->
  ps !! i = Some p1 -> ps !! j = Some p2 ->
  (p1 = p2 <-> c1 = c2).
Proof.
  intros Hrun Hi Hj Hp1 Hp2.
  destruct (history_const_inv history _ ps st init_const_inv Hrun)
    as ((_ & _ & Hinj) & _ & Hres).
  pose proof (Hres i c1 p1 Hi Hp1) as H1.
  pose proof (Hres j c2 p2 Hj Hp2) as H2.
  split.
  - intros <-. apply repr_inj. by eapply Hinj.
  - intros <-. congruence.
Qed.

(** ** Renaming and relocation of syntax trees *)

(** Structural induction on syntax trees. *)
Section ObjInduction.
Import Ast.
Variable P : obj -> Prop.
Hypothesis HNode : forall cls fields attrs,
  Forall (fun fv => P fv.2) fields -> P (Node cls fields attrs).
Hypothesis HList : forall items, Forall P items -> P (PyList items).
Hypothesis HConst : forall c, P (Const c).
Hypothesis HUnset : P Unset.

Fixpoint obj_induction (o : obj) : P o :=
  match o with
  | Node cls fields attrs =>
      HNode cls fields attrs
        ((fix go (l : list (string * obj)) : Forall (fun fv => P fv.2) l :=
            match l with
            | [] => @List.Forall_nil _ (fun fv => P fv.2)
            | (f, v) :: l' =>
                @List.Forall_cons _ (fun fv => P fv.2) (f, v) l'
                  (obj_induction v) (go l')
            end) fields)
  | PyList items =>
      HList items
        ((fix go (l : list obj) : Forall P l :=
            match l with
            | [] => @List.Forall_nil _ P
            | v :: l' => @List.Forall_cons _ P v l' (obj_induction v) (go l')
            end) items)
  | Const c => HConst c
  | Unset => HUnset
  end.
End ObjInduction.

(** [erase o] forgets every location of [o]: what is left is what two
    copies of one piece of code at different places have in common. *)
Fixpoint erase (o : Ast.obj) : Ast.obj :=
  match o with
  | Ast.Node cls fields _ =>
      Ast.Node cls (map (fun fv => (fv.1, erase fv.2)) fields) None
  | Ast.PyList items => Ast.PyList (map erase items)
  | _ => o
  end.

Section Rename.
Import Ast.
(** A renaming of variable and parameter names, of attribute names, and
    of literal values. *)
Variables (rn ra : string -> string) (rc : constant -> constant).

(** The field [name] of a node, when it holds an identifier, renamed. *)
Definition rename_id (name : string) (r : string -> string)
    (fields : list (string * obj)) : list (string * obj) :=
  match get_field name fields with
  | Const (CStr s) => set_field name (Const (CStr (r s))) fields
  | _ => fields
  end.

Definition rename_value (fields : list (string * obj)) : list (string * obj) :=
  match get_field "value" fields with
  | Const c => set_field "value" (Const (rc c)) fields
  | _ => fields
  end.

(** [rename o] renames the identifier of every [Name], [arg] and
    [Attribute] node and the value of every [Constant] node that the
    canonicalizer visits in [o]; everything else, locations included, is
    kept. *)
Fixpoint rename (o : obj) : obj :=
  match o with
  | Node cls fields attrs =>
      if String.eqb cls "Name" then Node cls (rename_id "id" rn fields) attrs
      else if String.eqb cls "arg" then Node cls (rename_id "arg" rn fields) attrs
      else if String.eqb cls "Constant" then Node cls (rename_value fields) attrs
      else
        let fields' :=
          map (fun fv : string * obj =>
                 let '(f, v) := fv in
                 (f, match v with
                     | PyList items => PyList (map rename items)
                     | _ => rename v
                     end)) fields in
        if String.eqb cls "Attribute"
        then Node cls (rename_id "attr" ra fields') attrs
        else Node cls fields' attrs
  | _ => o
  end.

(** The identifiers of the [Name] and [arg] nodes that the canonicalizer
    visits. *)
Fixpoint names_of (o : obj) : list string :=
  match o with
  | Node cls fields _ =>
      if String.eqb cls "Name" then
        match get_field "id" fields with Const (CStr s) => [s] | _ => [] end
      else if String.eqb cls "arg" then
        match get_field "arg" fields with Const (CStr s) => [s] | _ => [] end
      else if String.eqb cls "Constant" then []
      else
        concat (map (fun fv : string * obj =>
                       let '(f, v) := fv in
                       match v with
                       | PyList items => concat (map names_of items)
                       | _ => names_of v
                       end) fields)
  | _ => []
  end.

(** An identifier that is not of the form [attr::...], before and after
    the renaming. No Python identifier is: a colon is not an identifier
    character. *)
Definition plain_name (n : string) : Prop :=
  String.prefix "attr::" n = false /\ String.prefix "attr::" (rn n) = false.
End Rename.

(** ** Related runs of the canonicalizer *)

Section RelatedRuns.
Import Ast.

(** Two results are related: both raise the same exception, or both
    return, with related values and related states. *)
Definition res_rel {A S} (RA : A -> A -> Prop) (RS : S -> S -> Prop)
    (r1 r2 : res (A * S)) : Prop :=
  match r1, r2 with
  | Ok (a1, s1), Ok (a2, s2) => RA a1 a2 /\ RS s1 s2
  | Raise e1, Raise e2 => e1 = e2
  | _, _ => False
  end.

Lemma mapM_rel {A B S} (RB : B -> B -> Prop) (RS : S -> S -> Prop)
    (f1 f2 : A -> M S B) (l1 l2 : list A) :
  Forall2 (fun x1 x2 => forall s1 s2, RS s1 s2 ->
             res_rel RB RS (f1 x1 s1) (f2 x2 s2)) l1 l2 ->
  forall s1 s2, RS s1 s2 ->
    res_rel (Forall2 RB) RS (mapM f1 l1 s1) (mapM f2 l2 s2).
Proof.
  induction 1 as [|x1 x2 l1 l2 Hx Hl IH]; intros s1 s2 Hs.
  - simpl. by split.
  - rewrite !mapM_cons. specialize (Hx s1 s2 Hs). unfold res_rel in Hx.
    destruct (f1 x1 s1) as [[y1 s1']|e1], (f2 x2 s2) as [[y2 s2']|e2];
      try done.
    destruct Hx as [Hy Hs']. specialize (IH s1' s2' Hs'). unfold res_rel in IH.
    destruct (mapM f1 l1 s1') as [[ys1 s1'']|e1],
             (mapM f2 l2 s2') as [[ys2 s2'']|e2]; try done.
    destruct IH as [Hys Hs'']. split; [by constructor|done].
Qed.

Lemma bind_rel {A B S} (RA : A -> A -> Prop) (RB : B -> B -> Prop)
    (RS : S -> S -> Prop) (m1 m2 : M S A) (k1 k2 : A -> M S B) s1 s2 :
  res_rel RA RS (m1 s1) (m2 s2) ->
  (forall a1 a2 s1' s2', RA a1 a2 -> RS s1' s2' ->
     res_rel RB RS (k1 a1 s1') (k2 a2 s2')) ->
  res_rel RB RS (bind m1 k1 s1) (bind m2 k2 s2).
Proof.
  unfold bind, res_rel. intros Hm Hk.
  destruct (m1 s1) as [[a1 s1']|e1], (m2 s2) as [[a2 s2']|e2]; try done.
  destruct Hm. by apply Hk.
Qed.

Lemma res_rel_impl {A S} (RA RA' : A -> A -> Prop) (RS : S -> S -> Prop)
    (r1 r2 : res (A * S)) :
  res_rel RA RS r1 r2 -> (forall a b, RA a b -> RA' a b) ->
  res_rel RA' RS r1 r2.
Proof.
  unfold res_rel. destruct r1 as [[a1 s1]|e1], r2 as [[a2 s2]|e2]; try done.
  intros [Ha Hs] Himp. split; auto.
Qed.

Lemma get_field_map (g : obj -> obj) name fields :
  g Unset = Unset ->
  get_field name (map (fun fv => (fv.1, g fv.2)) fields)
  = g (get_field name fields).
Proof.
  intros Hg. induction fields as [|[f v] fields IH]; simpl; [done|].
  by destruct (String.eqb f name).
Qed.

Lemma set_field_map (g : obj -> obj) name v fields :
  map (fun fv => (fv.1, g fv.2)) (set_field name v fields)
  = set_field name (g v) (map (fun fv => (fv.1, g fv.2)) fields).
Proof.
  induction fields as [|[f w] fields IH]; simpl; [done|].
  destruct (String.eqb f name); simpl; [done|]. by rewrite IH.
Qed.

Lemma get_set_field_same name v fields :
  get_field name fields <> Unset ->
  get_field name (set_field name v fields) = v.
Proof.
  induction fields as [|[f w] fields IH]; simpl; [done|].
  destruct (String.eqb f name) eqn:E; simpl; rewrite E; auto.
Qed.

Lemma get_set_field_other name name' v fields :
  name <> name' ->
  get_field name' (set_field name v fields) = get_field name' fields.
Proof.
  intros Hne. induction fields as [|[f w] fields IH]; simpl; [done|].
  destruct (String.eqb f name) eqn:E; simpl.
  - apply String.eqb_eq in E as ->.
    destruct (String.eqb name name') eqn:E'; [|done].
    by apply String.eqb_eq in E'.
  - by destruct (String.eqb f name').
Qed.

Lemma erase_idemp o : erase (erase o) = erase o.
Proof.
  induction o as [cls fields attrs IH|items IH| |] using obj_induction;
    simpl; try done.
  - f_equal. rewrite map_map. apply map_ext_Forall.
    eapply Forall_impl; [exact IH|]. intros [f v] H. simpl in *. by rewrite H.
  - f_equal. rewrite map_map. apply map_ext_Forall.
    eapply Forall_impl; [exact IH|]. done.
Qed.
End RelatedRuns.

Section RenameRun.
Import Ast Canonicalizer.

Variables (rn ra : string -> string) (rc : constant -> constant).
Hypothesis rn_inj : Inj (=) (=) rn.
Hypothesis ra_inj : Inj (=) (=) ra.
Hypothesis rc_inj : Inj (=) (=) rc.

Local Abbreviation plain := (plain_name rn).

(** The states of the pass over a tree and of the pass over the renamed
    tree, at corresponding points: the counters agree, and the
    dictionaries agree up to the renaming of the keys. *)
Definition renamed_state (st1 st2 : state) : Prop :=
  _n_name st1 = _n_name st2 /\ _n_const st1 = _n_const st2 /\
  (forall n, plain n -> name_map st2 !! rn n = name_map st1 !! n) /\
  (forall a, name_map st2 !! ("attr::" ++ ra a)%string
             = name_map st1 !! ("attr::" ++ a)%string) /\
  (forall c, const_map st2 !! Repr.repr (rc c) = const_map st1 !! Repr.repr c).

Lemma prefix_attr_key a : String.prefix "attr::" ("attr::" ++ a)%string = true.
Proof. by destruct a. Qed.

Lemma plain_not_attr_key n a :
  String.prefix "attr::" n = false -> n <> ("attr::" ++ a)%string.
Proof. intros H ->. by rewrite prefix_attr_key in H. Qed.

Lemma attr_key_inj a b :
  ("attr::" ++ a)%string = ("attr::" ++ b)%string -> a = b.
Proof. apply String.app_inj. Qed.

Lemma map_name_renamed n st1 st2 :
  plain n -> renamed_state st1 st2 ->
  res_rel eq renamed_state (_map_name n st1) (_map_name (rn n) st2).
Proof.
  intros Hn (Hc1 & Hc2 & Hnames & Hattrs & Hconsts).
  unfold _map_name. rewrite (Hnames n Hn).
  destruct (name_map st1 !! n) as [p|] eqn:E; simpl.
  - by repeat split.
  - rewrite Hc1. split; [done|]. repeat split; simpl; try done; try lia.
    + intros n' Hn'. destruct (decide (n' = n)) as [->|Hne].
      * by rewrite !lookup_insert_eq.
      * rewrite !lookup_insert_ne; [by apply Hnames|done|].
        intros E'. by apply rn_inj in E'.
    + intros a. destruct Hn as [Hn1 Hn2].
      rewrite !lookup_insert_ne; [apply Hattrs|..];
        by apply plain_not_attr_key.
Qed.

Lemma map_attr_renamed a st1 st2 :
  renamed_state st1 st2 ->
  res_rel eq renamed_state (_map_attr a st1) (_map_attr (ra a) st2).
Proof.
  intros (Hc1 & Hc2 & Hnames & Hattrs & Hconsts).
  unfold _map_attr. rewrite (Hattrs a).
  destruct (name_map st1 !! _) as [p|] eqn:E; simpl.
  - by repeat split.
  - rewrite Hc1. split; [done|]. repeat split; simpl; try done; try lia.
    + intros n' [Hn1 Hn2].
      rewrite !lookup_insert_ne; [by apply Hnames|..];
        apply not_eq_sym; by apply plain_not_attr_key.
    + intros a'. destruct (decide (a' = a)) as [->|Hne].
      * by rewrite !lookup_insert_eq.
      * rewrite !lookup_insert_ne; [by apply Hattrs|..].
        -- intros E'%attr_key_inj. done.
        -- intros E'%attr_key_inj%ra_inj. done.
Qed.

Lemma map_const_renamed c st1 st2 :
  renamed_state st1 st2 ->
  res_rel eq renamed_state (_map_const c st1) (_map_const (rc c) st2).
Proof.
  intros (Hc1 & Hc2 & Hnames & Hattrs & Hconsts).
  unfold _map_const. rewrite (Hconsts c).
  destruct (const_map st1 !! _) as [p|] eqn:E; simpl.
  - by repeat split.
  - rewrite Hc2. split; [done|]. repeat split; simpl; try done; try lia.
    intros c'. destruct (decide (Repr.repr c' = Repr.repr c)) as [Heq|Hne].
    + apply repr_inj in Heq as ->. by rewrite !lookup_insert_eq.
    + rewrite !lookup_insert_ne; [by apply Hconsts|..].
      * done.
      * intros E'%repr_inj%rc_inj. by subst.
Qed.
End RenameRun.

Section RenameVisit.
Import Ast Canonicalizer.

Variables (rn ra : string -> string) (rc : constant -> constant).
Hypothesis rn_inj : Inj (=) (=) rn.
Hypothesis ra_inj : Inj (=) (=) ra.
Hypothesis rc_inj : Inj (=) (=) rc.

Local Abbreviation plain := (plain_name rn).
Local Abbreviation ren := (rename rn ra rc).
Local Abbreviation related := (renamed_state rn ra rc).

Definition rename_field (fv : string * obj) : string * obj :=
  let '(f, v) := fv in
  (f, match v with
      | PyList items => PyList (map ren items)
      | _ => ren v
      end).

Definition names_field (fv : string * obj) : list string :=
  let '(f, v) := fv in
  match v with
  | PyList items => concat (map names_of items)
  | _ => names_of v
  end.

Lemma visit_Node cls fields attrs :
  visit (Node cls fields attrs) =
  if String.eqb cls "Name" then visit_Name (Node cls fields attrs)
  else if String.eqb cls "arg" then visit_arg (Node cls fields attrs)
  else if String.eqb cls "FunctionDef" then
    visit_FunctionDef visit cls fields attrs
  else if String.eqb cls "ClassDef" then visit_ClassDef visit cls fields attrs
  else if String.eqb cls "Attribute" then
    visit_Attribute visit cls fields attrs
  else if String.eqb cls "Constant" then visit_Constant (Node cls fields attrs)
  else generic_visit visit cls fields attrs.
Proof. reflexivity. Qed.

Lemma rename_Node cls fields attrs :
  ren (Node cls fields attrs) =
  if String.eqb cls "Name" then Node cls (rename_id "id" rn fields) attrs
  else if String.eqb cls "arg" then Node cls (rename_id "arg" rn fields) attrs
  else if String.eqb cls "Constant" then Node cls (rename_value rc fields) attrs
  else if String.eqb cls "Attribute"
  then Node cls (rename_id "attr" ra (map rename_field fields)) attrs
  else Node cls (map rename_field fields) attrs.
Proof. reflexivity. Qed.

Lemma names_of_Node cls fields attrs :
  names_of (Node cls fields attrs) =
  if String.eqb cls "Name" then
    match get_field "id" fields with Const (CStr s) => [s] | _ => [] end
  else if String.eqb cls "arg" then
    match get_field "arg" fields with Const (CStr s) => [s] | _ => [] end
  else if String.eqb cls "Constant" then []
  else concat (map names_field fields).
Proof. reflexivity. Qed.

Lemma rename_is_node cls fields attrs :
  exists fields', ren (Node cls fields attrs) = Node cls fields' attrs.
Proof. rewrite rename_Node. repeat case_match; eauto. Qed.

(** The claim about one tree, and the same for the members of a list. *)
Definition visit_renamed (o : obj) : Prop :=
  forall st1 st2, Forall plain (names_of o) -> related st1 st2 ->
    res_rel eq related (visit o st1) (visit (ren o) st2).

Lemma visit_item_renamed item :
  visit_renamed item ->
  forall st1 st2, Forall plain (names_of item) -> related st1 st2 ->
    res_rel eq related (visit_item visit item st1)
                       (visit_item visit (ren item) st2).
Proof.
  intros IH st1 st2 Hn Hst. destruct item as [cls fields attrs| | |];
    try (by split).
  destruct (rename_is_node cls fields attrs) as [fields' E].
  specialize (IH st1 st2 Hn Hst). rewrite E in *. exact IH.
Qed.

Lemma Forall2_eq_eq {A} (l1 l2 : list A) : Forall2 eq l1 l2 -> l1 = l2.
Proof. induction 1; by f_equal. Qed.

Lemma visit_field_renamed fv :
  match fv.2 with
  | PyList items => Forall visit_renamed items
  | v => visit_renamed v
  end ->
  forall st1 st2, Forall plain (names_field fv) -> related st1 st2 ->
    res_rel eq related (visit_field visit fv st1)
                       (visit_field visit (rename_field fv) st2).
Proof.
  destruct fv as [f v]. cbn [fst snd names_field rename_field].
  intros IH st1 st2 Hn Hst.
  destruct v as [cls fields attrs|items|c|].
  - destruct (rename_is_node cls fields attrs) as [fields' E].
    unfold visit_field. cbn [fst snd]. rewrite E. rewrite <- E.
    eapply bind_rel; [by apply IH|].
    intros a1 a2 s1 s2 -> Hs. by split.
  - unfold visit_field. cbn [fst snd].
    eapply (bind_rel (Forall2 eq)).
    + apply mapM_rel; [|done].
      apply Forall2_fmap_r, Forall_Forall2_diag.
      apply Forall_concat in Hn. rewrite Forall_fmap in Hn.
      rewrite Forall_forall in IH, Hn. apply Forall_forall.
      intros item Hitem s1 s2 Hs.
      apply visit_item_renamed; [by apply IH|by apply Hn|done].
    + intros a1 a2 s1 s2 ->%Forall2_eq_eq Hs. by split.
  - by split.
  - by split.
Qed.

Lemma fields_renamed fields :
  Forall (fun fv => match fv.2 with
                    | PyList items => Forall visit_renamed items
                    | v => visit_renamed v
                    end) fields ->
  forall st1 st2, Forall plain (concat (map names_field fields)) ->
    related st1 st2 ->
    res_rel eq related (mapM (visit_field visit) fields st1)
                       (mapM (visit_field visit) (map rename_field fields) st2).
Proof.
  intros IH st1 st2 Hn Hst.
  eapply res_rel_impl; [|apply @Forall2_eq_eq].
  apply mapM_rel; [|done].
  apply Forall2_fmap_r, Forall_Forall2_diag.
  apply Forall_concat in Hn. rewrite Forall_fmap in Hn.
  rewrite Forall_forall in IH, Hn. apply Forall_forall.
  intros fv Hfv s1 s2 Hs.
  apply visit_field_renamed; [by apply IH|by apply Hn|done].
Qed.
End RenameVisit.

Section VisitShape.
Import Ast Canonicalizer.

(** A visit hands back a node. *)
Lemma visit_returns_node cls fields attrs st t' st' :
  visit (Node cls fields attrs) st = Ok (t', st') -> is_node t' = true.
Proof.
  rewrite visit_Node.
  unfold visit_Name, visit_arg, visit_FunctionDef, visit_ClassDef,
    visit_Attribute, visit_Constant, generic_visit, attr_str, attr,
    bind, ret, raise.
  repeat (case_match; simplify_eq; try done); intros; simplify_eq; done.
Qed.

(** The kind of value that a field holds. *)
Definition same_kind (v v' : obj) : Prop :=
  match v with
  | Node _ _ _ => is_node v' = true
  | PyList _ => exists l, v' = PyList l
  | _ => v' = v
  end.

Lemma visit_field_kind fv st fv' st' :
  visit_field visit fv st = Ok (fv', st') ->
  fv'.1 = fv.1 /\ same_kind fv.2 fv'.2.
Proof.
  destruct fv as [f v]. unfold visit_field, bind, ret. cbn [fst snd].
  destruct v as [cls fields attrs|items|c|]; cbn [same_kind].
  - destruct (visit _ st) as [[t' s']|e] eqn:E; [|done].
    intros [= <- <-]. split; [done|]. by eapply visit_returns_node.
  - destruct (mapM _ items st) as [[l s']|e]; [|done].
    intros [= <- <-]. split; [done|]. by exists l.
  - by intros [= <- <-].
  - by intros [= <- <-].
Qed.

Lemma visit_fields_kind fields st fs st' name :
  mapM (visit_field visit) fields st = Ok (fs, st') ->
  same_kind (get_field name fields) (get_field name fs).
Proof.
  revert st fs. induction fields as [|[f v] fields IH]; intros st fs.
  - by intros [= <- <-].
  - rewrite mapM_cons.
    destruct (visit_field visit (f, v) st) as [[[f' v'] s1]|e] eqn:E1; [|done].
    destruct (mapM _ fields s1) as [[fs1 s2]|e] eqn:E2; [|done].
    intros [= <- <-]. apply visit_field_kind in E1 as [Hf Hk].
    simpl in *. subst f'. destruct (String.eqb f name); [done|].
    by eapply IH.
Qed.

(** Replacing a plain value by a plain value in a field commutes with
    the visit of the fields. *)
Lemma visit_fields_set name c0 c fields st :
  get_field name fields = Const c0 ->
  mapM (visit_field visit) (set_field name (Const c) fields) st =
  match mapM (visit_field visit) fields st with
  | Ok (fs, st') => Ok (set_field name (Const c) fs, st')
  | Raise e => Raise e
  end.
Proof.
  revert st. induction fields as [|[f v] fields IH]; intros st; [done|].
  simpl get_field. simpl set_field. destruct (String.eqb f name) eqn:E.
  - intros ->. rewrite !mapM_cons.
    change (visit_field visit (f, Const c) st) with (Ok ((f, Const c), st)).
    change (visit_field visit (f, Const c0) st) with (Ok ((f, Const c0), st)).
    cbv beta iota.
    match goal with
    | |- context [mapM ?f fields st] =>
        destruct (mapM f fields st) as [[fs st']|e]; [|done]
    end.
    simpl. by rewrite E.
  - intros Hget. rewrite !mapM_cons.
    destruct (visit_field visit (f, v) st) as [[[f' v'] s1]|e] eqn:E1; [|done].
    rewrite (IH s1 Hget).
    match goal with
    | |- context [mapM ?f fields s1] =>
        destruct (mapM f fields s1) as [[fs st']|e]; [|done]
    end.
    apply visit_field_kind in E1 as [Hf _]. simpl in Hf. subst f'.
    simpl. by rewrite E.
Qed.
End VisitShape.

Section RenameNode.
Import Ast Canonicalizer.

Variables (rn ra : string -> string) (rc : constant -> constant).
Hypothesis rn_inj : Inj (=) (=) rn.
Hypothesis ra_inj : Inj (=) (=) ra.
Hypothesis rc_inj : Inj (=) (=) rc.

Local Abbreviation plain := (plain_name rn).
Local Abbreviation ren := (rename rn ra rc).
Local Abbreviation related := (renamed_state rn ra rc).

Lemma bind_ret_l {S A B} (a : A) (k : A -> M S B) s :
  bind (ret a) k s = k a s.
Proof. reflexivity. Qed.

Lemma bind_raise_l {S A B} e (k : A -> M S B) s :
  bind (raise e) k s = Raise e.
Proof. reflexivity. Qed.

Lemma visit_Name_renamed cls fields attrs st1 st2 :
  Forall plain (match get_field "id" fields with
                | Const (CStr s) => [s] | _ => [] end) ->
  related st1 st2 ->
  res_rel eq related (visit_Name (Node cls fields attrs) st1)
    (visit_Name (Node cls (rename_id "id" rn fields) attrs) st2).
Proof.
  intros Hn Hst. unfold visit_Name, attr_str, attr, rename_id.
  cbn [fields_of].
  destruct (get_field "id" fields) as [c f a|items|c|] eqn:E;
    try (rewrite E; by rewrite !bind_raise_l).
  destruct c as [| | |s| |]; try (rewrite E; by rewrite !bind_raise_l).
  rewrite get_set_field_same by (by rewrite E).
  rewrite get_set_field_other by done.
  rewrite !bind_ret_l. apply Forall_cons in Hn as [Hs _].
  eapply bind_rel; [by apply map_name_renamed|].
  intros p1 p2 s1 s2 -> Hs12.
  destruct (get_field "ctx" fields);
    rewrite ?bind_ret_l, ?bind_raise_l; by split.
Qed.

Lemma visit_arg_renamed cls fields attrs st1 st2 :
  Forall plain (match get_field "arg" fields with
                | Const (CStr s) => [s] | _ => [] end) ->
  related st1 st2 ->
  res_rel eq related (visit_arg (Node cls fields attrs) st1)
    (visit_arg (Node cls (rename_id "arg" rn fields) attrs) st2).
Proof.
  intros Hn Hst. unfold visit_arg, attr_str, rename_id.
  cbn [fields_of].
  destruct (get_field "arg" fields) as [c f a|items|c|] eqn:E;
    try (rewrite E; by rewrite !bind_raise_l).
  destruct c as [| | |s| |]; try (rewrite E; by rewrite !bind_raise_l).
  rewrite get_set_field_same by (by rewrite E).
  rewrite !bind_ret_l. apply Forall_cons in Hn as [Hs _].
  eapply bind_rel; [by apply map_name_renamed|].
  intros p1 p2 s1 s2 -> Hs12. by split.
Qed.

Lemma visit_Constant_renamed cls fields attrs st1 st2 :
  related st1 st2 ->
  res_rel eq related (visit_Constant (Node cls fields attrs) st1)
    (visit_Constant (Node cls (rename_value rc fields) attrs) st2).
Proof.
  intros Hst. unfold visit_Constant, rename_value. cbn [fields_of].
  destruct (get_field "value" fields) as [c f a|items|c|] eqn:E;
    try (by rewrite E).
  rewrite get_set_field_same by (by rewrite E).
  eapply bind_rel; [by apply map_const_renamed|].
  intros p1 p2 s1 s2 -> Hs12. by split.
Qed.
End RenameNode.

Section RenameTree.
Import Ast Canonicalizer.

Variables (rn ra : string -> string) (rc : constant -> constant).
Hypothesis rn_inj : Inj (=) (=) rn.
Hypothesis ra_inj : Inj (=) (=) ra.
Hypothesis rc_inj : Inj (=) (=) rc.

Local Abbreviation plain := (plain_name rn).
Local Abbreviation ren := (rename rn ra rc).
Local Abbreviation related := (renamed_state rn ra rc).
Local Abbreviation renamed := (visit_renamed rn ra rc).
Local Abbreviation ren_field := (rename_field rn ra rc).

Definition fields_hyp (fields : list (string * obj)) : Prop :=
  Forall (fun fv => match fv.2 with
                    | PyList items => Forall renamed items
                    | v => renamed v
                    end) fields.

Lemma generic_visit_renamed cls fields attrs st1 st2 :
  fields_hyp fields ->
  Forall plain (concat (map names_field fields)) -> related st1 st2 ->
  res_rel eq related (generic_visit visit cls fields attrs st1)
    (generic_visit visit cls (map ren_field fields) attrs st2).
Proof.
  intros IH Hn Hst. unfold generic_visit.
  eapply bind_rel; [by apply (fields_renamed rn ra rc)|].
  intros fs1 fs2 s1 s2 -> Hs. by split.
Qed.

Lemma visit_FunctionDef_renamed cls fields attrs st1 st2 :
  fields_hyp fields ->
  Forall plain (concat (map names_field fields)) -> related st1 st2 ->
  res_rel eq related (visit_FunctionDef visit cls fields attrs st1)
    (visit_FunctionDef visit cls (map ren_field fields) attrs st2).
Proof.
  intros IH Hn Hst. unfold visit_FunctionDef.
  eapply bind_rel; [by apply generic_visit_renamed|].
  intros n1 n2 s1 s2 -> Hs. by split.
Qed.

Lemma visit_ClassDef_renamed cls fields attrs st1 st2 :
  fields_hyp fields ->
  Forall plain (concat (map names_field fields)) -> related st1 st2 ->
  res_rel eq related (visit_ClassDef visit cls fields attrs st1)
    (visit_ClassDef visit cls (map ren_field fields) attrs st2).
Proof.
  intros IH Hn Hst. unfold visit_ClassDef.
  eapply bind_rel; [by apply generic_visit_renamed|].
  intros n1 n2 s1 s2 -> Hs. by split.
Qed.

Lemma get_field_rename name fields :
  get_field name (map ren_field fields) =
  match get_field name fields with
  | PyList items => PyList (map ren items)
  | v => ren v
  end.
Proof.
  induction fields as [|[f v] fields IH]; simpl; [done|].
  destruct (String.eqb f name); [|done]. by destruct v.
Qed.

Lemma generic_visit_eq cls fields attrs st :
  generic_visit visit cls fields attrs st =
  match mapM (visit_field visit) fields st with
  | Ok (fs, st') => Ok (Node cls fs attrs, st')
  | Raise e => Raise e
  end.
Proof.
  unfold generic_visit, bind, ret.
  by destruct (mapM (visit_field visit) fields st) as [[fs st']|e].
Qed.

(** What [visit_Attribute] does once [generic_visit] has returned. *)
Definition attribute_tail (node : obj) : M state obj :=
  let* attr_name := attr_str "attr" node in
  let* placeholder := _map_attr attr_name in
  let* value := attr "value" node in
  let* ctx := attr "ctx" node in
  ret (Node "Attribute" [("value", value); ("attr", str placeholder);
                         ("ctx", ctx)] (copy_location node)).

Lemma visit_Attribute_eq cls fields attrs :
  visit_Attribute visit cls fields attrs =
  bind (generic_visit visit cls fields attrs) attribute_tail.
Proof. reflexivity. Qed.

Lemma attribute_tail_renamed cls fs attrs a s1 s2 :
  get_field "attr" fs = Const (CStr a) -> related s1 s2 ->
  res_rel eq related (attribute_tail (Node cls fs attrs) s1)
    (attribute_tail
       (Node cls (set_field "attr" (Const (CStr (ra a))) fs) attrs) s2).
Proof.
  intros E Hs. unfold attribute_tail, attr_str, attr. cbn [fields_of].
  rewrite get_set_field_same by (by rewrite E).
  rewrite !get_set_field_other by done.
  rewrite E, !bind_ret_l.
  eapply bind_rel; [by apply map_attr_renamed|].
  intros p1 p2 s1' s2' -> Hs'.
  destruct (get_field "value" fs); rewrite ?bind_ret_l, ?bind_raise_l;
    try done;
    destruct (get_field "ctx" fs); rewrite ?bind_ret_l, ?bind_raise_l;
    by split.
Qed.

Lemma attribute_tail_raises cls fs attrs s1 s2 :
  (forall a, get_field "attr" fs <> Const (CStr a)) ->
  res_rel eq related (attribute_tail (Node cls fs attrs) s1)
    (attribute_tail (Node cls fs attrs) s2).
Proof.
  intros Hna. unfold attribute_tail, attr_str. cbn [fields_of].
  destruct (get_field "attr" fs) as [? ? ?| |[| | |a| |]|];
    rewrite ?bind_raise_l; try done.
  by destruct (Hna a).
Qed.

Lemma visit_Attribute_renamed cls fields attrs st1 st2 :
  fields_hyp fields ->
  Forall plain (concat (map names_field fields)) -> related st1 st2 ->
  res_rel eq related (visit_Attribute visit cls fields attrs st1)
    (visit_Attribute visit cls (rename_id "attr" ra (map ren_field fields))
       attrs st2).
Proof.
  intros IH Hn Hst.
  pose proof (fields_renamed rn ra rc fields IH st1 st2 Hn Hst) as Hrun.
  rewrite !visit_Attribute_eq. unfold rename_id. rewrite get_field_rename.
  unfold res_rel in Hrun.
  assert ((forall a, get_field "attr" fields <> Const (CStr a)) ->
    res_rel eq related
      (bind (generic_visit visit cls fields attrs) attribute_tail st1)
      (bind (generic_visit visit cls (map ren_field fields) attrs)
            attribute_tail st2)) as Hother.
  { intros Hna. unfold bind. rewrite !generic_visit_eq.
    destruct (mapM (visit_field visit) fields st1) as [[fs s1]|e1] eqn:E1,
      (mapM (visit_field visit) (map ren_field fields) st2) as [[fs2 s2]|e2];
      try done.
    destruct Hrun as [<- Hs]. apply attribute_tail_raises.
    intros a' Ha.
    pose proof (visit_fields_kind _ _ _ _ "attr" E1) as Hk.
    rewrite Ha in Hk. unfold same_kind in Hk.
    destruct (get_field "attr" fields) as [| |c|] eqn:E; try done.
    - by destruct Hk.
    - injection Hk as <-. by destruct (Hna a'). }
  destruct (get_field "attr" fields) as [c f a|items|c|] eqn:E.
  - destruct (rename_is_node rn ra rc c f a) as [f' ->].
    apply Hother. done.
  - apply Hother. done.
  - destruct c as [| | |a| |]; try (apply Hother; solve [done]).
    cbn [rename]. unfold bind. rewrite !generic_visit_eq.
    rewrite (visit_fields_set "attr" (CStr a))
      by (by rewrite get_field_rename, E).
    destruct (mapM (visit_field visit) fields st1) as [[fs s1]|e1] eqn:E1,
      (mapM (visit_field visit) (map ren_field fields) st2) as [[fs2 s2]|e2];
      try done.
    destruct Hrun as [<- Hs]. apply attribute_tail_renamed; [|done].
    pose proof (visit_fields_kind _ _ _ _ "attr" E1) as Hk.
    by rewrite E in Hk.
  - apply Hother. done.
Qed.

(** The pass over a tree and the pass over the renamed tree build the
    same canonical tree. *)
Theorem visit_rename o : renamed o.
Proof.
  enough (renamed o /\
          match o with PyList items => Forall renamed items | _ => True end)
    as [? _] by done.
  induction o as [cls fields attrs IH|items IH|c|] using obj_induction.
  - split; [|done].
    assert (fields_hyp fields) as Hf.
    { eapply Forall_impl; [exact IH|]. intros [f v] [H1 H2]. simpl in *.
      by destruct v. }
    intros st1 st2 Hn Hst.
    rewrite visit_Node. rewrite (rename_Node rn ra rc).
    rewrite names_of_Node in Hn.
    destruct (String.eqb cls "Name") eqn:E1.
    { rewrite visit_Node, E1. by apply visit_Name_renamed. }
    destruct (String.eqb cls "arg") eqn:E2.
    { rewrite visit_Node, E1, E2. by apply visit_arg_renamed. }
    destruct (String.eqb cls "FunctionDef") eqn:E3.
    { assert (String.eqb cls "Constant" = false) as E6
        by (apply String.eqb_eq in E3; by subst).
      assert (String.eqb cls "Attribute" = false) as E5
        by (apply String.eqb_eq in E3; by subst).
      rewrite E6, E5 in *. rewrite visit_Node, E1, E2, E3.
      by apply visit_FunctionDef_renamed. }
    destruct (String.eqb cls "ClassDef") eqn:E4.
    { assert (String.eqb cls "Constant" = false) as E6
        by (apply String.eqb_eq in E4; by subst).
      assert (String.eqb cls "Attribute" = false) as E5
        by (apply String.eqb_eq in E4; by subst).
      rewrite E6, E5 in *. rewrite visit_Node, E1, E2, E3, E4.
      by apply visit_ClassDef_renamed. }
    destruct (String.eqb cls "Attribute") eqn:E5.
    { assert (String.eqb cls "Constant" = false) as E6
        by (apply String.eqb_eq in E5; by subst).
      rewrite E6 in *. rewrite visit_Node, E1, E2, E3, E4, E5.
      by apply visit_Attribute_renamed. }
    destruct (String.eqb cls "Constant") eqn:E6.
    { rewrite visit_Node, E1, E2, E3, E4, E5, E6.
      by apply visit_Constant_renamed. }
    rewrite visit_Node, E1, E2, E3, E4, E5, E6.
    by apply generic_visit_renamed.
  - split.
    + intros st1 st2 _ Hst. by split.
    + eapply Forall_impl; [exact IH|]. by intros v [H _].
  - split; [|done]. intros st1 st2 _ Hst. by split.
  - split; [|done]. intros st1 st2 _ Hst. by split.
Qed.
End RenameTree.

(** ** Locations do not matter to the canonical dump *)

Section EraseVisit.
Import Ast Canonicalizer.

(** Two trees that differ in locations only. *)
Definition same_shape (a b : obj) : Prop := erase a = erase b.

Definition erase_field (fv : string * obj) : string * obj :=
  (fv.1, erase fv.2).

Definition same_fields (fs1 fs2 : list (string * obj)) : Prop :=
  map erase_field fs1 = map erase_field fs2.

Definition visit_erased (o : obj) : Prop :=
  forall st, res_rel same_shape eq (visit o st) (visit (erase o) st).

Lemma erase_Node cls fields attrs :
  erase (Node cls fields attrs) = Node cls (map erase_field fields) None.
Proof. reflexivity. Qed.

Lemma same_shape_kind v1 v2 :
  same_shape v1 v2 ->
  match v1 with
  | Node _ _ _ => is_node v2 = true
  | PyList _ => exists l, v2 = PyList l
  | _ => v2 = v1
  end.
Proof.
  unfold same_shape. destruct v1, v2; simpl; intros H; try done;
    try (by eexists); by injection H as ->.
Qed.

Lemma same_fields_get name fs1 fs2 :
  same_fields fs1 fs2 ->
  same_shape (get_field name fs1) (get_field name fs2).
Proof.
  unfold same_fields, same_shape. intros H.
  pose proof (get_field_map erase name fs1 eq_refl) as H1.
  pose proof (get_field_map erase name fs2 eq_refl) as H2.
  unfold erase_field in H. rewrite <- H1, <- H2. by rewrite H.
Qed.

Lemma same_fields_erase fields : same_fields fields (map erase_field fields).
Proof.
  unfold same_fields. rewrite map_map. apply map_ext. intros [f v].
  unfold erase_field. simpl. by rewrite erase_idemp.
Qed.

Lemma same_fields_set name v1 v2 fs1 fs2 :
  same_shape v1 v2 -> same_fields fs1 fs2 ->
  same_fields (set_field name v1 fs1) (set_field name v2 fs2).
Proof.
  unfold same_fields, same_shape, erase_field. intros Hv Hf.
  rewrite !(set_field_map erase). by rewrite Hv, Hf.
Qed.

Lemma visit_item_erased item :
  visit_erased item ->
  forall st, res_rel same_shape eq (visit_item visit item st)
                                   (visit_item visit (erase item) st).
Proof.
  intros IH st. destruct item as [cls fields attrs|items|c|].
  - apply IH.
  - split; [|done]. unfold same_shape. by rewrite erase_idemp.
  - by split.
  - by split.
Qed.

Lemma Forall2_same_shape l1 l2 :
  Forall2 same_shape l1 l2 -> map erase l1 = map erase l2.
Proof. induction 1 as [|x y l1 l2 H _ IH]; simpl; [done|]. by rewrite H, IH. Qed.

Lemma visit_field_erased fv :
  match fv.2 with
  | PyList items => Forall visit_erased items
  | v => visit_erased v
  end ->
  forall st,
    res_rel (fun a b => erase_field a = erase_field b) eq
      (visit_field visit fv st) (visit_field visit (erase_field fv) st).
Proof.
  destruct fv as [f v]. unfold erase_field. cbn [fst snd]. intros IH st.
  destruct v as [cls fields attrs|items|c|].
  - unfold visit_field. cbn [fst snd erase].
    eapply bind_rel; [apply (IH st)|].
    intros a1 a2 s1 s2 Ha ->. split; [|done]. cbn [fst snd]. by rewrite Ha.
  - unfold visit_field. cbn [fst snd erase].
    eapply (bind_rel (Forall2 same_shape)).
    + apply mapM_rel; [|done].
      apply Forall2_fmap_r, Forall_Forall2_diag.
      eapply Forall_impl; [exact IH|]. intros item Hitem s1 s2 ->.
      by apply visit_item_erased.
    + intros a1 a2 s1 s2 Ha ->. split; [|done]. cbn [fst snd erase].
      by rewrite (Forall2_same_shape _ _ Ha).
  - by split.
  - by split.
Qed.

Definition fields_erased (fields : list (string * obj)) : Prop :=
  Forall (fun fv => match fv.2 with
                    | PyList items => Forall visit_erased items
                    | v => visit_erased v
                    end) fields.

Lemma Forall2_same_fields fs1 fs2 :
  Forall2 (fun a b => erase_field a = erase_field b) fs1 fs2 ->
  same_fields fs1 fs2.
Proof.
  unfold same_fields. induction 1 as [|x y l1 l2 H _ IH]; simpl; [done|].
  by rewrite H, IH.
Qed.

Lemma visit_fields_erased fields :
  fields_erased fields ->
  forall st, res_rel same_fields eq
    (mapM (visit_field visit) fields st)
    (mapM (visit_field visit) (map erase_field fields) st).
Proof.
  intros IH st. eapply res_rel_impl; [|apply Forall2_same_fields].
  apply mapM_rel; [|done].
  apply Forall2_fmap_r, Forall_Forall2_diag.
  eapply Forall_impl; [exact IH|]. intros fv Hfv s1 s2 ->.
  by apply visit_field_erased.
Qed.

Lemma generic_visit_erased cls fields attrs :
  fields_erased fields ->
  forall st, res_rel same_shape eq
    (generic_visit visit cls fields attrs st)
    (generic_visit visit cls (map erase_field fields) None st).
Proof.
  intros IH st. unfold generic_visit.
  eapply bind_rel; [by apply visit_fields_erased|].
  intros fs1 fs2 s1 s2 Hfs ->. split; [|done].
  unfold same_shape. rewrite !erase_Node. by rewrite Hfs.
Qed.
End EraseVisit.

Section EraseNode.
Import Ast Canonicalizer.

Lemma get_field_erase name fields :
  get_field name (map erase_field fields) = erase (get_field name fields).
Proof. apply (get_field_map erase). reflexivity. Qed.

Lemma attr_same_shape name cls1 fs1 a1 cls2 fs2 a2 (st : state) :
  same_fields fs1 fs2 ->
  res_rel same_shape eq (attr name (Node cls1 fs1 a1) st)
                        (attr name (Node cls2 fs2 a2) st).
Proof.
  intros Hfs. unfold attr. cbn [fields_of].
  pose proof (same_fields_get name _ _ Hfs) as Hv.
  pose proof (same_shape_kind _ _ Hv) as Hk.
  destruct (get_field name fs1) as [c f a|items|c|],
           (get_field name fs2) as [c' f' a'|items'|c'|];
    try done; try (by destruct Hk); by split.
Qed.

Lemma attr_str_same_shape name cls1 fs1 a1 cls2 fs2 a2 (st : state) :
  same_fields fs1 fs2 ->
  res_rel eq eq (attr_str name (Node cls1 fs1 a1) st)
                (attr_str name (Node cls2 fs2 a2) st).
Proof.
  intros Hfs. unfold attr_str. cbn [fields_of].
  pose proof (same_shape_kind _ _ (same_fields_get name _ _ Hfs)) as Hk.
  destruct (get_field name fs1) as [c f a|items|c|],
           (get_field name fs2) as [c' f' a'|items'|c'|];
    try done; try (by destruct Hk).
  injection Hk as ->. by destruct c as [| | |s| |].
Qed.

Lemma same_state_run {A} (m : M state A) st : res_rel eq eq (m st) (m st).
Proof. unfold res_rel. by destruct (m st) as [[? ?]|?]. Qed.

Lemma visit_Name_erased cls fields attrs st :
  res_rel same_shape eq (visit_Name (Node cls fields attrs) st)
    (visit_Name (Node cls (map erase_field fields) None) st).
Proof.
  unfold visit_Name.
  eapply bind_rel; [apply attr_str_same_shape, same_fields_erase|].
  intros id1 id2 s1 s2 -> ->.
  eapply bind_rel; [apply same_state_run|].
  intros p1 p2 s1 s2' -> ->.
  eapply bind_rel; [apply attr_same_shape, same_fields_erase|].
  intros c1 c2 s3 s4 Hc ->. split; [|done].
  unfold same_shape in *. rewrite !erase_Node.
  unfold erase_field. cbn [map fst snd]. by rewrite Hc.
Qed.

Lemma visit_arg_erased cls fields attrs st :
  res_rel same_shape eq (visit_arg (Node cls fields attrs) st)
    (visit_arg (Node cls (map erase_field fields) None) st).
Proof.
  unfold visit_arg, attr_str. cbn [fields_of].
  rewrite !get_field_erase.
  destruct (get_field "arg" fields) as [c f a|items|c|];
    cbn [erase]; rewrite ?bind_raise_l; try done.
  destruct c as [| | |s| |]; rewrite ?bind_raise_l; try done.
  rewrite !bind_ret_l.
  eapply (bind_rel eq); [by destruct (_map_name s st) as [[? ?]|?]|].
  intros p1 p2 s1 s2 -> ->. by split.
Qed.

Lemma visit_Constant_erased cls fields attrs st :
  res_rel same_shape eq (visit_Constant (Node cls fields attrs) st)
    (visit_Constant (Node cls (map erase_field fields) None) st).
Proof.
  unfold visit_Constant. cbn [fields_of]. rewrite !get_field_erase.
  destruct (get_field "value" fields) as [c f a|items|c|]; cbn [erase];
    try done.
  eapply (bind_rel eq); [by destruct (_map_const c st) as [[? ?]|?]|].
  intros p1 p2 s1 s2 -> ->. by split.
Qed.

Lemma visit_FunctionDef_erased cls fields attrs st :
  fields_erased fields ->
  res_rel same_shape eq (visit_FunctionDef visit cls fields attrs st)
    (visit_FunctionDef visit cls (map erase_field fields) None st).
Proof.
  intros IH. unfold visit_FunctionDef, generic_visit.
  eapply bind_rel.
  - eapply bind_rel; [by apply visit_fields_erased|].
    intros fs1 fs2 s1 s2 Hfs ->.
    instantiate (1 := fun n1 n2 => same_fields (fields_of n1) (fields_of n2)).
    by split.
  - intros n1 n2 s1 s2 Hn ->. split; [|done].
    unfold same_shape. rewrite !erase_Node. f_equal.
    by repeat apply same_fields_set.
Qed.

Lemma visit_ClassDef_erased cls fields attrs st :
  fields_erased fields ->
  res_rel same_shape eq (visit_ClassDef visit cls fields attrs st)
    (visit_ClassDef visit cls (map erase_field fields) None st).
Proof.
  intros IH. unfold visit_ClassDef, generic_visit.
  eapply bind_rel.
  - eapply bind_rel; [by apply visit_fields_erased|].
    intros fs1 fs2 s1 s2 Hfs ->.
    instantiate (1 := fun n1 n2 => same_fields (fields_of n1) (fields_of n2)).
    by split.
  - intros n1 n2 s1 s2 Hn ->. split; [|done].
    unfold same_shape. rewrite !erase_Node. f_equal.
    by repeat apply same_fields_set.
Qed.

Lemma attribute_tail_erased cls fs1 fs2 a1 a2 st :
  same_fields fs1 fs2 ->
  res_rel same_shape eq (attribute_tail (Node cls fs1 a1) st)
    (attribute_tail (Node cls fs2 a2) st).
Proof.
  intros Hfs. unfold attribute_tail.
  eapply bind_rel; [by apply attr_str_same_shape|].
  intros n1 n2 s1 s2 -> ->.
  eapply bind_rel; [apply same_state_run|].
  intros p1 p2 s1 s2' -> ->.
  eapply bind_rel; [by apply attr_same_shape|].
  intros v1 v2 s3 s4 Hv ->.
  eapply bind_rel; [by apply attr_same_shape|].
  intros c1 c2 s5 s6 Hc ->. split; [|done].
  unfold same_shape in *. rewrite !erase_Node.
  unfold erase_field. cbn [map fst snd]. by rewrite Hv, Hc.
Qed.

Lemma visit_Attribute_erased cls fields attrs st :
  fields_erased fields ->
  res_rel same_shape eq (visit_Attribute visit cls fields attrs st)
    (visit_Attribute visit cls (map erase_field fields) None st).
Proof.
  intros IH. rewrite !visit_Attribute_eq. unfold generic_visit.
  eapply bind_rel.
  - eapply bind_rel; [by apply visit_fields_erased|].
    intros fs1 fs2 s1 s2 Hfs ->.
    instantiate (1 := fun n1 n2 =>
      exists f1 f2 a1 a2, n1 = Node cls f1 a1 /\ n2 = Node cls f2 a2 /\
                          same_fields f1 f2).
    split; [|done]. by eexists _, _, _, _.
  - intros n1 n2 s1 s2 (f1 & f2 & a1 & a2 & -> & -> & Hfs) ->.
    by apply attribute_tail_erased.
Qed.

(** The pass over a tree and the pass over the tree without its
    locations build canonical trees that differ in locations only. *)
Theorem visit_erase o : visit_erased o.
Proof.
  enough (visit_erased o /\
          match o with PyList items => Forall visit_erased items | _ => True end)
    as [? _] by done.
  induction o as [cls fields attrs IH|items IH|c|] using obj_induction.
  - split; [|done].
    assert (fields_erased fields) as Hf.
    { eapply Forall_impl; [exact IH|]. intros [f v] [H1 H2]. simpl in *.
      by destruct v. }
    intros st. rewrite erase_Node, !visit_Node.
    destruct (String.eqb cls "Name"); [apply visit_Name_erased|].
    destruct (String.eqb cls "arg"); [apply visit_arg_erased|].
    destruct (String.eqb cls "FunctionDef");
      [by apply visit_FunctionDef_erased|].
    destruct (String.eqb cls "ClassDef"); [by apply visit_ClassDef_erased|].
    destruct (String.eqb cls "Attribute"); [by apply visit_Attribute_erased|].
    destruct (String.eqb cls "Constant"); [apply visit_Constant_erased|].
    by apply generic_visit_erased.
  - split.
    + intros st. split; [|done]. unfold same_shape. symmetry.
      exact (erase_idemp (PyList items)).
    + eapply Forall_impl; [exact IH|]. by intros v [H _].
  - split; [|done]. intros st. by split.
  - split; [|done]. intros st. by split.
Qed.
End EraseNode.


Section DumpFacts.
Import Ast AstLib.

(** The arguments that [_format] writes for the fields of a node. *)
Fixpoint format_args (keywords : bool) (fs : list (string * obj)) : list string :=
  match fs with
  | [] => []
  | (name, Unset) :: fs' => format_args true fs'
  | (name, value) :: fs' =>
      (if keywords then name ++ "=" ++ _format value
       else _format value)%string :: format_args keywords fs'
  end.

Lemma format_Node cls fields attrs :
  _format (Node cls fields attrs) =
  (cls ++ "(" ++ Py.join ", " (format_args false fields) ++ ")")%string.
Proof. reflexivity. Qed.

Lemma format_args_erase keywords fields :
  Forall (fun fv => _format (erase fv.2) = _format fv.2) fields ->
  format_args keywords (map erase_field fields) = format_args keywords fields.
Proof.
  intros H. revert keywords.
  induction H as [|[f v] fields Hv _ IH]; intros keywords; [done|].
  cbn [map fst snd] in *. change (erase_field (f, v)) with (f, erase v).
  destruct v as [c fs a|items|c|].
  - assert (exists n, erase (Node c fs a) = n /\ is_node n = true) as (n & En & Hn)
      by (by eexists).
    rewrite En in *. destruct n; try done.
    cbn [format_args]. by rewrite Hv, IH.
  - assert (exists l, erase (PyList items) = PyList l) as (l & El)
      by (by eexists).
    rewrite El in *. cbn [format_args]. by rewrite Hv, IH.
  - cbn [erase format_args]. by rewrite IH.
  - cbn [erase format_args]. by rewrite IH.
Qed.

(** The dump does not show locations. *)
Lemma dump_erase o : dump (erase o) = dump o.
Proof.
  unfold dump.
  induction o as [cls fields attrs IH|items IH|c|] using obj_induction;
    try done.
  - rewrite erase_Node, !format_Node. by rewrite format_args_erase.
  - change (erase (PyList items)) with (PyList (map erase items)).
    destruct items as [|x items]; [done|].
    assert (map _format (map erase (x :: items)) = map _format (x :: items))
      as Hm.
    { rewrite map_map. apply map_ext_Forall. exact IH. }
    cbn [map] in *. cbn [_format]. cbn [map]. by rewrite Hm.
Qed.

(** [fix_missing_locations] changes locations only. *)
Lemma fix_erase o ln en : erase (_fix o ln en) = erase o.
Proof.
  enough ((forall ln en, erase (_fix o ln en) = erase o) /\
          match o with
          | PyList items =>
              Forall (fun it => forall ln en, erase (_fix it ln en) = erase it)
                     items
          | _ => True
          end) as [H _] by apply H.
  clear ln en.
  induction o as [cls fields attrs IH|items IH|c|] using obj_induction;
    try done.
  - split; [|done]. intros ln en. cbn [_fix].
    destruct (match attrs with
              | Some l => _
              | None => (None, ln, en)
              end) as [[attrs' ln'] en'].
    rewrite !erase_Node. f_equal. rewrite map_map.
    apply map_ext_Forall. eapply Forall_impl; [exact IH|].
    intros [f v] [Hv Hl]. unfold erase_field. cbn [fst snd] in *.
    destruct v as [c fs a|its|c|]; cbn [fst snd]; try done.
    + f_equal. apply Hv.
    + f_equal. cbn [erase]. f_equal. rewrite map_map.
      apply map_ext_Forall. eapply Forall_impl; [exact Hl|].
      intros it Hit. by destruct it.
  - split; [done|]. eapply Forall_impl; [exact IH|]. by intros v [H _].
Qed.
End DumpFacts.

Section RenamingInvariance.
Import Ast.

Lemma erase_module stmts :
  erase (Block.module_of stmts) =
  Node "Module" [("body", PyList (map erase stmts));
                 ("type_ignores", PyList [])] None.
Proof. reflexivity. Qed.

Lemma res_rel_same_shape_trans (r1 r2 r3 : res (obj * Canonicalizer.state)) :
  res_rel same_shape (fun _ _ => True) r1 r2 ->
  res_rel same_shape (fun _ _ => True) r2 r3 ->
  res_rel same_shape (fun _ _ => True) r1 r3.
Proof.
  unfold res_rel, same_shape.
  destruct r1 as [[? ?]|?], r2 as [[? ?]|?], r3 as [[? ?]|?]; try done.
  - intros [-> _] [-> _]. done.
  - congruence.
Qed.

Lemma res_rel_same_shape_sym (r1 r2 : res (obj * Canonicalizer.state)) :
  res_rel same_shape (fun _ _ => True) r1 r2 ->
  res_rel same_shape (fun _ _ => True) r2 r1.
Proof.
  unfold res_rel, same_shape.
  destruct r1 as [[? ?]|?], r2 as [[? ?]|?]; try done.
  by intros [-> _].
Qed.

Lemma res_rel_weaken {A S} (RA RA' : A -> A -> Prop) (RS RS' : S -> S -> Prop)
    (r1 r2 : res (A * S)) :
  (forall a b, RA a b -> RA' a b) -> (forall a b, RS a b -> RS' a b) ->
  res_rel RA RS r1 r2 -> res_rel RA' RS' r1 r2.
Proof.
  unfold res_rel. destruct r1 as [[? ?]|?], r2 as [[? ?]|?]; try done.
  intros H1 H2 [? ?]. auto.
Qed.

(** Canonical trees that differ in locations only have the same dump
    and the same hash. *)
Lemma canonical_block_dump_shape stmts1 stmts2 :
  res_rel same_shape (fun _ _ => True)
    (Canonicalizer.visit (Block.module_of stmts1) Canonicalizer.init)
    (Canonicalizer.visit (Block.module_of stmts2) Canonicalizer.init) ->
  Block.canonical_block_dump stmts1 = Block.canonical_block_dump stmts2.
Proof.
  unfold Block.canonical_block_dump, Block.canonical_module, res_rel.
  destruct (Canonicalizer.visit (Block.module_of stmts1) _) as [[m1 s1]|e1],
           (Canonicalizer.visit (Block.module_of stmts2) _) as [[m2 s2]|e2];
    try done; [|by intros ->].
  intros [Hm _]. unfold AstLib.fix_missing_locations.
  assert (AstLib.dump (AstLib._fix m1 1 1) = AstLib.dump (AstLib._fix m2 1 1))
    as ->; [|done].
  rewrite <- (dump_erase (AstLib._fix m1 1 1)),
          <- (dump_erase (AstLib._fix m2 1 1)), !fix_erase.
  by rewrite Hm.
Qed.
End RenamingInvariance.


(** ** The recursion bound of the tree walk *)

Section HeightFacts.
Import Ast.
Import BodyWalker.

Definition hmax (fields : list (string * obj)) : nat :=
  foldr Nat.max 0%nat (map (fun fv => height fv.2) fields).

Definition lmax (items : list obj) : nat :=
  foldr Nat.max 0%nat (map height items).

(** [no_deeper a b]: the tree [b] is no deeper than the tree [a]. *)
Definition no_deeper (a b : obj) : Prop := (height b <= height a)%nat.

Definition no_deeper_field (a b : string * obj) : Prop :=
  (height b.2 <= height a.2)%nat.

Lemma height_Node cls fields attrs :
  height (Node cls fields attrs) = S (hmax fields).
Proof. reflexivity. Qed.

Lemma height_PyList items : height (PyList items) = lmax items.
Proof. reflexivity. Qed.

Lemma hmax_cons fv fields :
  hmax (fv :: fields) = Nat.max (height fv.2) (hmax fields).
Proof. reflexivity. Qed.

Lemma lmax_cons v items : lmax (v :: items) = Nat.max (height v) (lmax items).
Proof. reflexivity. Qed.

Lemma lmax_app l1 l2 : lmax (l1 ++ l2) = Nat.max (lmax l1) (lmax l2).
Proof.
  induction l1 as [|x l1 IH]; [done|].
  rewrite <- app_comm_cons, !lmax_cons, IH. lia.
Qed.

Lemma lmax_elem v items : v ∈ items -> (height v <= lmax items)%nat.
Proof.
  induction 1 as [x l|x y l _ IH]; rewrite lmax_cons; lia.
Qed.

Lemma hmax_elem fv fields :
  fv ∈ fields -> (height fv.2 <= hmax fields)%nat.
Proof.
  induction 1 as [x l|x y l _ IH]; rewrite hmax_cons; lia.
Qed.

Lemma height_get_field name fields :
  (height (get_field name fields) <= hmax fields)%nat.
Proof.
  induction fields as [|[f v] fields IH]; [done|].
  rewrite hmax_cons. simpl. destruct (String.eqb f name); lia.
Qed.

Lemma hmax_set_field name v fields k :
  (height v <= k)%nat -> (hmax fields <= k)%nat ->
  (hmax (set_field name v fields) <= k)%nat.
Proof.
  intros Hv. induction fields as [|[f w] fields IH]; [done|].
  rewrite hmax_cons. simpl. intros H.
  destruct (String.eqb f name); rewrite hmax_cons; simpl; [lia|].
  assert (hmax (set_field name v fields) <= k)%nat by (apply IH; lia). lia.
Qed.

Lemma Forall2_lower_lmax l1 l2 :
  Forall2 no_deeper l1 l2 -> (lmax l2 <= lmax l1)%nat.
Proof.
  unfold no_deeper. induction 1 as [|x y l1 l2 H _ IH]; [done|].
  rewrite !lmax_cons. lia.
Qed.

Lemma Forall2_lower_hmax l1 l2 :
  Forall2 no_deeper_field l1 l2 -> (hmax l2 <= hmax l1)%nat.
Proof.
  unfold no_deeper_field. induction 1 as [|x y l1 l2 H _ IH]; [done|].
  rewrite !hmax_cons. lia.
Qed.

Lemma mapM_Forall2 {S A B} (R : A -> B -> Prop) (f : A -> M S B) l :
  Forall (fun x => forall s y s', f x s = Ok (y, s') -> R x y) l ->
  forall s ys s', mapM f l s = Ok (ys, s') -> Forall2 R l ys.
Proof.
  induction 1 as [|x l Hx _ IH]; intros s ys s'.
  - intros [= <- <-]. constructor.
  - rewrite mapM_cons. destruct (f x s) as [[y s1]|e] eqn:E1; [|done].
    destruct (mapM f l s1) as [[ys1 s2]|e] eqn:E2; [|done].
    intros [= <- <-]. constructor; eauto.
Qed.

Lemma fix_height o ln en : height (AstLib._fix o ln en) = height o.
Proof.
  enough ((forall ln en, height (AstLib._fix o ln en) = height o) /\
          match o with
          | PyList items =>
              Forall (fun it => forall ln en,
                        height (AstLib._fix it ln en) = height it) items
          | _ => True
          end) as [H _] by apply H.
  clear ln en.
  induction o as [cls fields attrs IH|items IH|c|] using obj_induction;
    try done.
  - split; [|done]. intros ln en. cbn [AstLib._fix].
    destruct (match attrs with
              | Some l => _
              | None => (None, ln, en)
              end) as [[attrs' ln'] en'].
    rewrite !height_Node. f_equal. unfold hmax. f_equal. rewrite map_map.
    apply map_ext_Forall. eapply Forall_impl; [exact IH|].
    intros [f v] [Hv Hl]. cbn [fst snd] in *.
    destruct v as [c fs a|its|c|]; cbn [fst snd]; try done.
    rewrite !height_PyList. unfold lmax. f_equal. rewrite map_map.
    apply map_ext_Forall. eapply Forall_impl; [exact Hl|].
    intros it Hit. by destruct it.
  - split; [done|]. eapply Forall_impl; [exact IH|]. by intros v [H _].
Qed.
End HeightFacts.

Section CanonHeight.
Import Ast Canonicalizer.

Lemma bind_Ok {S A B} (m : M S A) (k : A -> M S B) s b s' :
  bind m k s = Ok (b, s') ->
  exists a s1, m s = Ok (a, s1) /\ k a s1 = Ok (b, s').
Proof.
  unfold bind. destruct (m s) as [[a s1]|e]; [|done]. eauto.
Qed.

Lemma attr_Ok {S} name node (s : S) v s' :
  attr name node s = Ok (v, s') ->
  v = get_field name (fields_of node) /\ s' = s.
Proof.
  unfold attr, ret, raise. destruct (get_field _ _); by intros [= <- <-].
Qed.

Definition canon_lower (o : obj) : Prop :=
  forall st o' st', visit o st = Ok (o', st') -> no_deeper o o'.

Lemma visit_item_lower item :
  canon_lower item ->
  forall st y st', visit_item visit item st = Ok (y, st') -> no_deeper item y.
Proof.
  intros IH st y st'. destruct item; simpl; try (intros [= <- <-]; by red).
  apply IH.
Qed.

Lemma visit_field_lower fv :
  match fv.2 with
  | PyList items => Forall canon_lower items
  | v => canon_lower v
  end ->
  forall st y st', visit_field visit fv st = Ok (y, st') -> no_deeper_field fv y.
Proof.
  destruct fv as [f v]. cbn [fst snd]. intros IH st y st'.
  unfold visit_field, no_deeper_field. cbn [fst snd].
  destruct v as [cls fields attrs|items|c|].
  - intros (n & s1 & Hn & [= <- <-])%bind_Ok. by apply IH in Hn.
  - intros (l & s1 & Hl & [= <- <-])%bind_Ok. cbn [snd].
    rewrite !height_PyList. apply Forall2_lower_lmax.
    eapply mapM_Forall2; [|exact Hl].
    eapply Forall_impl; [exact IH|]. intros it Hit. by apply visit_item_lower.
  - by intros [= <- <-].
  - by intros [= <- <-].
Qed.

Definition fields_lower (fields : list (string * obj)) : Prop :=
  Forall (fun fv => match fv.2 with
                    | PyList items => Forall canon_lower items
                    | v => canon_lower v
                    end) fields.

Lemma visit_fields_lower fields st fs st' :
  fields_lower fields ->
  mapM (visit_field visit) fields st = Ok (fs, st') ->
  (hmax fs <= hmax fields)%nat.
Proof.
  intros IH Hrun. apply Forall2_lower_hmax.
  eapply mapM_Forall2; [|exact Hrun].
  eapply Forall_impl; [exact IH|]. intros fv Hfv. by apply visit_field_lower.
Qed.

Lemma generic_visit_lower cls fields attrs st o' st' :
  fields_lower fields ->
  generic_visit visit cls fields attrs st = Ok (o', st') ->
  exists fs, o' = Node cls fs attrs /\ (hmax fs <= hmax fields)%nat.
Proof.
  intros IH. rewrite generic_visit_eq.
  destruct (mapM _ fields st) as [[fs s1]|e] eqn:E; [|done].
  intros [= <- <-]. exists fs. split; [done|]. by eapply visit_fields_lower.
Qed.

(** The canonicalizer never makes a tree deeper. *)
Lemma visit_lower o : canon_lower o.
Proof.
  enough (canon_lower o /\
          match o with PyList items => Forall canon_lower items | _ => True end)
    as [? _] by done.
  induction o as [cls fields attrs IH|items IH|c|] using obj_induction.
  - split; [|done].
    assert (fields_lower fields) as Hf.
    { eapply Forall_impl; [exact IH|]. intros [f v] [H1 H2]. simpl in *.
      by destruct v. }
    intros st o' st'. rewrite visit_Node. unfold no_deeper.
    rewrite height_Node.
    destruct (String.eqb cls "Name").
    { unfold visit_Name.
      intros (id & s1 & _ & (p & s2 & _ & (ctx & s3 & Hc & [= <- <-])%bind_Ok
                             )%bind_Ok)%bind_Ok.
      apply attr_Ok in Hc as [-> _]. rewrite height_Node, !hmax_cons.
      unfold str. cbn [fst snd fields_of BodyWalker.height hmax foldr map].
      pose proof (height_get_field "ctx" fields). lia. }
    destruct (String.eqb cls "arg").
    { unfold visit_arg.
      intros (id & s1 & _ & (p & s2 & _ & [= <- <-])%bind_Ok)%bind_Ok.
      rewrite height_Node. cbn. lia. }
    destruct (String.eqb cls "FunctionDef").
    { unfold visit_FunctionDef.
      intros (n & s1 & Hn & [= <- <-])%bind_Ok.
      apply generic_visit_lower in Hn as (fs & -> & Hfs); [|done].
      rewrite height_Node. cbn [fields_of].
      apply le_n_S. repeat apply hmax_set_field; cbn; lia. }
    destruct (String.eqb cls "ClassDef").
    { unfold visit_ClassDef.
      intros (n & s1 & Hn & [= <- <-])%bind_Ok.
      apply generic_visit_lower in Hn as (fs & -> & Hfs); [|done].
      rewrite height_Node. cbn [fields_of].
      apply le_n_S. repeat apply hmax_set_field; cbn; lia. }
    destruct (String.eqb cls "Attribute").
    { rewrite visit_Attribute_eq. unfold attribute_tail.
      intros (n & s1 & Hn & (a & s2 & _ & (p & s3 & _ &
               (v & s4 & Hv & (c & s5 & Hc & [= <- <-])%bind_Ok)%bind_Ok
               )%bind_Ok)%bind_Ok)%bind_Ok.
      apply generic_visit_lower in Hn as (fs & -> & Hfs); [|done].
      apply attr_Ok in Hv as [-> _]. apply attr_Ok in Hc as [-> _].
      rewrite height_Node, !hmax_cons.
      unfold str. cbn [fst snd fields_of BodyWalker.height hmax foldr map].
      pose proof (height_get_field "value" fs).
      pose proof (height_get_field "ctx" fs). lia. }
    destruct (String.eqb cls "Constant").
    { unfold visit_Constant. cbn [fields_of].
      destruct (get_field "value" fields); try done.
      intros (p & s2 & _ & [= <- <-])%bind_Ok.
      rewrite height_Node. cbn. lia. }
    intros Hn. apply generic_visit_lower in Hn as (fs & -> & Hfs); [|done].
    rewrite height_Node. lia.
  - split.
    + intros st o' st' [= <- <-]. by red.
    + eapply Forall_impl; [exact IH|]. by intros v [H _].
  - split; [|done]. intros st o' st' [= <- <-]. by red.
  - split; [|done]. intros st o' st' [= <- <-]. by red.
Qed.
End CanonHeight.

Section WalkHeight.
Import Ast.

Definition fix_item (item : obj) : obj :=
  match item with
  | Node _ _ _ => AstLib._fix item 1 1
  | _ => item
  end.

Lemma visit_module stmts st :
  Canonicalizer.visit (Block.module_of stmts) st =
  match mapM (Canonicalizer.visit_item Canonicalizer.visit) stmts st with
  | Ok (items, s1) =>
      Ok (Node "Module" [("body", PyList items); ("type_ignores", PyList [])]
               None, s1)
  | Raise e => Raise e
  end.
Proof.
  unfold Block.module_of. rewrite visit_Node. cbn [String.eqb Ascii.eqb].
  cbn [Bool.eqb]. rewrite generic_visit_eq, mapM_cons.
  unfold Canonicalizer.visit_field at 1. cbn [fst snd]. unfold bind.
  destruct (mapM _ stmts st) as [[items s1]|e]; [|done].
  unfold ret. rewrite mapM_cons.
  by unfold Canonicalizer.visit_field; cbn.
Qed.

Lemma block_after_eq stmts :
  Block.block_after stmts =
  match mapM (Canonicalizer.visit_item Canonicalizer.visit) stmts
             Canonicalizer.init with
  | Ok (items, _) => map fix_item items
  | Raise _ => stmts
  end.
Proof.
  unfold Block.block_after, Block.canonical_module. rewrite visit_module.
  destruct (mapM _ stmts _) as [[items s1]|e]; [|done].
  reflexivity.
Qed.

Lemma fix_item_height item : BodyWalker.height (fix_item item) = BodyWalker.height item.
Proof. destruct item; try done. apply fix_height. Qed.

Lemma no_deeper_refl o : no_deeper o o.
Proof. by red. Qed.

Lemma no_deeper_trans a b c : no_deeper a b -> no_deeper b c -> no_deeper a c.
Proof. unfold no_deeper. lia. Qed.

Lemma block_after_no_deeper stmts :
  Forall2 no_deeper stmts (Block.block_after stmts).
Proof.
  rewrite block_after_eq.
  destruct (mapM _ stmts _) as [[items s1]|e] eqn:E.
  - apply Forall2_fmap_r.
    eapply Forall2_impl.
    + eapply (mapM_Forall2 no_deeper); [|exact E].
      apply Forall_forall. intros x _ s y s'.
      apply visit_item_lower, visit_lower.
    + intros x y H. unfold no_deeper, compose in *. cbv beta.
      by rewrite fix_item_height.
  - apply Forall_Forall2_diag, Forall_forall. intros; apply no_deeper_refl.
Qed.

Lemma in_place_no_deeper old new :
  no_deeper old new -> no_deeper old (Block.in_place old new).
Proof.
  unfold no_deeper. intros H. destruct old as [cls fields attrs| | |];
    try done.
  unfold Block.in_place.
  destruct (_ || _); [done|]. destruct (String.eqb cls "Attribute"); [|done].
  rewrite !height_Node in *. apply le_n_S.
  assert (forall name, BodyWalker.height (get_field name (fields_of new))
                       <= hmax fields)%nat as Hg.
  { intros name. destruct new as [c fs a| | |]; try (cbn; lia).
    rewrite height_Node in H. cbn [fields_of].
    pose proof (height_get_field name fs). lia. }
  repeat apply hmax_set_field; auto.
Qed.
End WalkHeight.

Section NeverOutOfFuel.
Import Ast Canonicalizer.

(** A run that does not stop at the recursion bound. *)
Definition in_bound {A} (r : res A) : Prop := r <> Raise OutOfFuel.

Lemma bind_in_bound {S A B} (m : M S A) (k : A -> M S B) s :
  in_bound (m s) ->
  (forall a s1, m s = Ok (a, s1) -> in_bound (k a s1)) ->
  in_bound (bind m k s).
Proof.
  unfold bind, in_bound. intros Hm Hk.
  destruct (m s) as [[a s1]|e]; [by apply Hk|].
  intros [= ->]. by apply Hm.
Qed.

Lemma mapM_in_bound {S A B} (f : A -> M S B) l :
  Forall (fun x => forall s, in_bound (f x s)) l ->
  forall s, in_bound (mapM f l s).
Proof.
  induction 1 as [|x l Hx _ IH]; intros s; [done|].
  rewrite mapM_cons. specialize (Hx s). unfold in_bound in *.
  destruct (f x s) as [[y s1]|e]; [|intros [= ->]; by apply Hx].
  specialize (IH s1). destruct (mapM f l s1) as [[ys s2]|e]; [done|].
  intros [= ->]. by apply IH.
Qed.

Lemma attr_in_bound {S} name node (s : S) : in_bound (attr name node s).
Proof. unfold attr, in_bound. by destruct (get_field _ _). Qed.

Lemma attr_str_in_bound {S} name node (s : S) :
  in_bound (attr_str name node s).
Proof.
  unfold attr_str, in_bound.
  by destruct (get_field _ _) as [| |[]|].
Qed.

Lemma map_name_in_bound n st : in_bound (_map_name n st).
Proof. unfold _map_name, in_bound. by destruct (_ !! _). Qed.

Lemma map_attr_in_bound a st : in_bound (_map_attr a st).
Proof. unfold _map_attr, in_bound. by destruct (_ !! _). Qed.

Lemma map_const_in_bound c st : in_bound (_map_const c st).
Proof. unfold _map_const, in_bound. by destruct (_ !! _). Qed.

Lemma ret_in_bound {S A} (a : A) (s : S) : in_bound (ret a s).
Proof. done. Qed.

Definition canon_in_bound (o : obj) : Prop :=
  forall st, in_bound (visit o st).

Ltac in_bound_step :=
  first
    [ apply ret_in_bound | apply attr_in_bound | apply attr_str_in_bound
    | apply map_name_in_bound | apply map_attr_in_bound
    | apply map_const_in_bound
    | apply bind_in_bound; [|intros ? ? _] ].

Lemma visit_fields_in_bound fields :
  Forall (fun fv => match fv.2 with
                    | PyList items => Forall canon_in_bound items
                    | v => canon_in_bound v
                    end) fields ->
  forall st, in_bound (mapM (visit_field visit) fields st).
Proof.
  intros IH. apply mapM_in_bound. eapply Forall_impl; [exact IH|].
  intros [f v] Hv s. unfold visit_field. cbn [fst snd] in *.
  destruct v as [cls fs a|items|c|]; try done.
  - apply bind_in_bound; [apply Hv|done].
  - apply bind_in_bound; [|done]. apply mapM_in_bound.
    eapply Forall_impl; [exact Hv|]. intros it Hit s'.
    destruct it; try done. apply Hit.
Qed.

(** The canonicalizer raises Python exceptions only. *)
Lemma visit_in_bound o : canon_in_bound o.
Proof.
  enough (canon_in_bound o /\
          match o with PyList items => Forall canon_in_bound items | _ => True end)
    as [? _] by done.
  induction o as [cls fields attrs IH|items IH|c|] using obj_induction;
    try (split; done).
  - split; [|done].
    assert (forall st, in_bound (mapM (visit_field visit) fields st)) as Hf.
    { apply visit_fields_in_bound. eapply Forall_impl; [exact IH|].
      intros [f v] [H1 H2]. simpl in *. by destruct v. }
    assert (forall st, in_bound (generic_visit visit cls fields attrs st)) as Hg.
    { intros st. unfold generic_visit. apply bind_in_bound; [apply Hf|done]. }
    intros st. rewrite visit_Node.
    destruct (String.eqb cls "Name").
    { unfold visit_Name. repeat in_bound_step. }
    destruct (String.eqb cls "arg").
    { unfold visit_arg. repeat in_bound_step. }
    destruct (String.eqb cls "FunctionDef").
    { unfold visit_FunctionDef. apply bind_in_bound; [apply Hg|done]. }
    destruct (String.eqb cls "ClassDef").
    { unfold visit_ClassDef. apply bind_in_bound; [apply Hg|done]. }
    destruct (String.eqb cls "Attribute").
    { rewrite visit_Attribute_eq. apply bind_in_bound; [apply Hg|].
      intros n s1 _. unfold attribute_tail. repeat in_bound_step. }
    destruct (String.eqb cls "Constant").
    { unfold visit_Constant. destruct (get_field _ _); try done.
      repeat in_bound_step. }
    apply Hg.
  - split; [done|]. eapply Forall_impl; [exact IH|]. by intros v [H _].
Qed.

Lemma canonical_block_dump_in_bound stmts :
  in_bound (Block.canonical_block_dump stmts).
Proof.
  unfold Block.canonical_block_dump, Block.canonical_module.
  pose proof (visit_in_bound (Block.module_of stmts) init) as H.
  unfold in_bound in *. destruct (visit _ _) as [[? ?]|?]; [done|].
  intros [= ->]. by apply H.
Qed.
End NeverOutOfFuel.

Section WalkerBound.
Import Ast BodyWalker Selector.

Variables min_len max_len : nat.

Lemma Forall2_no_deeper_refl l : Forall2 no_deeper l l.
Proof. apply Forall_Forall2_diag, Forall_forall. intros; apply no_deeper_refl. Qed.

Lemma Forall2_no_deeper_trans l1 l2 l3 :
  Forall2 no_deeper l1 l2 -> Forall2 no_deeper l2 l3 -> Forall2 no_deeper l1 l3.
Proof.
  intros H. revert l3. induction H as [|x y l1 l2 Hxy _ IH]; intros l3 H3.
  - by inversion H3.
  - inversion H3 as [|? z ? l3' Hyz Hl]; subst.
    constructor; [by eapply no_deeper_trans|by apply IH].
Qed.

Lemma zip_in_place_no_deeper block block' :
  Forall2 no_deeper block block' ->
  Forall2 no_deeper block (zip_with Block.in_place block block').
Proof.
  induction 1 as [|x y l1 l2 Hxy _ IH]; simpl; constructor; [|done].
  by apply in_place_no_deeper.
Qed.

(** The statement list after a step is the list before, member by
    member no deeper. *)
Definition shallower (st st' : list obj * sequences) : Prop :=
  Forall2 no_deeper st.1 st'.1.

Lemma window_shallower length_ st i st' :
  window length_ st i = Ok st' -> shallower st st'.
Proof.
  destruct st as [stmts seqs]. unfold window, shallower.
  destruct (take length_ (drop i stmts)) as [|b0 block] eqn:Eb; [done|].
  destruct (negb (has_lineno b0)).
  { intros [= <-]. apply Forall2_no_deeper_refl. }
  destruct (Block.canonical_block_dump _) as [[h dumped]|e]; [|done].
  destruct (head _); [|done]. destruct (last _); [|done].
  destruct (_ ≫= lineno); [|done]. destruct (_ ≫= lineno); [|done].
  intros [= <-]. cbn [fst].
  rewrite <- (take_drop i stmts) at 1.
  apply Forall2_app; [apply Forall2_no_deeper_refl|].
  rewrite <- (take_drop length_ (drop i stmts)) at 1.
  rewrite drop_drop, Eb.
  apply Forall2_app; [|apply Forall2_no_deeper_refl].
  apply (zip_in_place_no_deeper (b0 :: block)
           (Block.block_after (b0 :: block))).
  apply block_after_no_deeper.
Qed.

Lemma window_in_bound length_ st i : in_bound (window length_ st i).
Proof.
  destruct st as [stmts seqs]. unfold window, in_bound.
  destruct (take length_ (drop i stmts)) as [|b0 block] eqn:Eb; [done|].
  destruct (negb (has_lineno b0)); [done|].
  pose proof (canonical_block_dump_in_bound (b0 :: block)) as H.
  destruct (Block.canonical_block_dump _) as [[h dumped]|e].
  - destruct (head _); [|done]. destruct (last _); [|done].
    destruct (_ ≫= lineno); [|done]. by destruct (_ ≫= lineno).
  - intros [= ->]. by apply H.
Qed.

Lemma foldM_shallower {A} (f : list obj * sequences -> A ->
                               res (list obj * sequences)) l :
  (forall st x st', f st x = Ok st' -> shallower st st') ->
  forall st st', foldM f l st = Ok st' -> shallower st st'.
Proof.
  intros Hf. induction l as [|x l IH]; intros st st'; simpl.
  - intros [= <-]. apply Forall2_no_deeper_refl.
  - destruct (f st x) as [st1|e] eqn:E; [|done]. intros H.
    eapply Forall2_no_deeper_trans; [by eapply Hf|by apply IH].
Qed.

Lemma foldM_in_bound {A B} (f : B -> A -> res B) l :
  (forall b x, in_bound (f b x)) -> forall b, in_bound (foldM f l b).
Proof.
  intros Hf. induction l as [|x l IH]; intros b; simpl; [done|].
  specialize (Hf b x). unfold in_bound in *.
  destruct (f b x) as [b1|e]; [apply IH|done].
Qed.

Lemma walk_body_shallower stmts seqs stmts' seqs' :
  _walk_body min_len max_len stmts seqs = Ok (stmts', seqs') ->
  Forall2 no_deeper stmts stmts'.
Proof.
  unfold _walk_body. intros H.
  refine (foldM_shallower _ _ _ (stmts, seqs) (stmts', seqs') H).
  intros st L st'. unfold walk_length. destruct (_ <? _)%nat.
  - intros [= <-]. apply Forall2_no_deeper_refl.
  - apply foldM_shallower. apply window_shallower.
Qed.

Lemma walk_body_in_bound stmts seqs :
  in_bound (_walk_body min_len max_len stmts seqs).
Proof.
  unfold _walk_body. apply foldM_in_bound. intros st L.
  unfold walk_length. destruct (_ <? _)%nat; [done|].
  apply foldM_in_bound. apply window_in_bound.
Qed.
End WalkerBound.

Section VisitBound.
Import Ast BodyWalker Selector.

Variables min_len max_len : nat.

(** A step of the walk on a node of depth at most [k]: it does not stop
    at the recursion bound, and it hands back a node that is no
    deeper. *)
Definition step_ok (T : obj -> M sequences obj) (k : nat) : Prop :=
  forall node seqs, is_node node = true -> (height node <= k)%nat ->
    in_bound (T node seqs) /\
    forall node' seqs', T node seqs = Ok (node', seqs') ->
      is_node node' = true /\ (height node' <= height node)%nat.

Lemma step_ok_bind T1 T2 k :
  step_ok T1 k -> step_ok T2 k ->
  step_ok (fun node => bind (T1 node) T2) k.
Proof.
  intros H1 H2 node seqs Hn Hk. destruct (H1 node seqs Hn Hk) as [Hb1 Hr1].
  split.
  - apply bind_in_bound; [done|]. intros n1 s1 E1.
    destruct (Hr1 n1 s1 E1) as [Hn1 Hh1]. apply H2; [done|lia].
  - intros node' seqs' (n1 & s1 & E1 & E2)%bind_Ok.
    destruct (Hr1 n1 s1 E1) as [Hn1 Hh1].
    destruct (H2 n1 s1 Hn1 ltac:(lia)) as [_ Hr2].
    destruct (Hr2 node' seqs' E2). split; [done|lia].
Qed.

Lemma step_ok_ret k : step_ok ret k.
Proof.
  intros node seqs Hn Hk. split; [done|]. by intros node' seqs' [= <- <-].
Qed.

Lemma walk_field_ok name k : step_ok (walk_field min_len max_len name) k.
Proof.
  intros node seqs Hn Hk. destruct node as [cls fields attrs| | |]; try done.
  unfold walk_field. cbn [cls_of fields_of attrs_of default].
  split.
  - apply bind_in_bound; [apply attr_in_bound|]. intros body s1 _.
    destruct body; try done.
    apply bind_in_bound; [apply walk_body_in_bound|done].
  - intros node' seqs' (body & s1 & Hb & Hrest)%bind_Ok.
    apply attr_Ok in Hb as [-> ->]. cbn [fields_of] in Hrest.
    pose proof (height_get_field name fields) as Hg.
    destruct (get_field name fields) as [| items | |]; try done.
    apply bind_Ok in Hrest as (stmts' & s2 & Hw & [= <- <-]).
    split; [done|]. rewrite !height_Node. apply le_n_S.
    apply hmax_set_field; [|done].
    apply walk_body_shallower, Forall2_lower_lmax in Hw.
    rewrite !height_PyList in *. lia.
Qed.

Lemma walk_handlers_ok k : step_ok (walk_handlers min_len max_len) k.
Proof.
  intros node seqs Hn Hk. destruct node as [cls fields attrs| | |]; try done.
  unfold walk_handlers. cbn [cls_of fields_of attrs_of default].
  assert (forall hs : list obj,
            Forall (fun h => forall s,
              in_bound (walk_field min_len max_len "body" h s)) hs) as Hin.
  { intros hs. apply Forall_forall. intros h _ s.
    destruct h as [c f a| | |]; try done.
    by apply (walk_field_ok "body" (height (Node c f a))). }
  split.
  - apply bind_in_bound; [apply attr_in_bound|]. intros hs s1 _.
    destruct hs; try done.
    apply bind_in_bound; [|done]. by apply mapM_in_bound.
  - intros node' seqs' (hs & s1 & Hb & Hrest)%bind_Ok.
    apply attr_Ok in Hb as [-> ->]. cbn [fields_of] in Hrest.
    pose proof (height_get_field "handlers" fields) as Hg.
    destruct (get_field "handlers" fields) as [| hs | |]; try done.
    apply bind_Ok in Hrest as (hs' & s2 & Hw & [= <- <-]).
    split; [done|]. rewrite !height_Node. apply le_n_S.
    apply hmax_set_field; [|done].
    rewrite !height_PyList in *.
    enough (lmax hs' <= lmax hs)%nat by lia.
    apply Forall2_lower_lmax.
    eapply mapM_Forall2; [|exact Hw].
    apply Forall_forall. intros h _ s h' s' Hh.
    destruct h as [c f a| | |]; try done.
    destruct (walk_field_ok "body" (height (Node c f a)) (Node c f a) s
                eq_refl (le_n _)) as [_ Hr].
    by destruct (Hr h' s' Hh).
Qed.

(** The recursive calls are in order for nodes of depth at most [f]. *)
Definition good (V : obj -> M sequences obj) (f : nat) : Prop :=
  step_ok V f.

Lemma generic_visit_ok V f :
  good V f -> step_ok (generic_visit V) (S f).
Proof.
  intros HV node seqs Hn Hk. destruct node as [cls fields attrs| | |];
    try done.
  rewrite height_Node in Hk. apply le_S_n in Hk.
  assert (forall v, (height v <= f)%nat ->
            (forall s, in_bound (visit_item V v s)) /\
            (forall s y s', visit_item V v s = Ok (y, s') -> no_deeper v y))
    as Hitem.
  { intros v Hv. destruct v as [c fs a| | |];
      try (split; [done|]; intros s y s' [= <- <-]; by red).
    split; [intros s; by apply HV|].
    intros s y s' E. destruct (HV (Node c fs a) s eq_refl Hv) as [_ Hr].
    by destruct (Hr y s' E). }
  assert (forall fv, (height fv.2 <= f)%nat ->
            (forall s, in_bound (visit_field V fv s)) /\
            (forall s y s', visit_field V fv s = Ok (y, s') ->
               no_deeper_field fv y)) as Hfield.
  { intros [fn v] Hv. cbn [fst snd] in *. unfold visit_field, no_deeper_field.
    cbn [fst snd]. destruct v as [c fs a|items| |];
      try (split; [done|]; intros s y s' [= <- <-]; by cbn).
    - destruct (Hitem (Node c fs a) Hv) as [Hb Hr]. split.
      + intros s. apply bind_in_bound; [apply (Hb s)|done].
      + intros s y s' (n & s1 & E & [= <- <-])%bind_Ok. by apply Hr in E.
    - rewrite height_PyList in Hv.
      assert (Forall (fun v => (height v <= f)%nat) items) as Hall.
      { apply Forall_forall. intros v Hin. apply lmax_elem in Hin. lia. }
      split.
      + intros s. apply bind_in_bound; [|done]. apply mapM_in_bound.
        eapply Forall_impl; [exact Hall|]. intros v Hvf. by apply Hitem.
      + intros s y s' (l & s1 & E & [= <- <-])%bind_Ok. cbn [snd].
        rewrite !height_PyList. apply Forall2_lower_lmax.
        eapply mapM_Forall2; [|exact E].
        eapply Forall_impl; [exact Hall|]. intros v Hvf. by apply Hitem. }
  assert (Forall (fun fv => (height fv.2 <= f)%nat) fields) as Hall.
  { apply Forall_forall. intros fv Hin. apply hmax_elem in Hin. lia. }
  unfold generic_visit. split.
  - apply bind_in_bound; [|done]. apply mapM_in_bound.
    eapply Forall_impl; [exact Hall|]. intros fv Hfv. by apply Hfield.
  - intros node' seqs' (fs & s1 & E & [= <- <-])%bind_Ok. split; [done|].
    rewrite !height_Node. apply le_n_S. apply Forall2_lower_hmax.
    eapply mapM_Forall2; [|exact E].
    eapply Forall_impl; [exact Hall|]. intros fv Hfv. by apply Hfield.
Qed.

Lemma dispatch_ok V f : good V f -> step_ok (dispatch min_len max_len V) (S f).
Proof.
  intros HV.
  assert (forall orelse,
            step_ok (fun node => _walk_and_visit min_len max_len V node orelse)
                    (S f)) as Hwv.
  { intros orelse. unfold _walk_and_visit.
    apply step_ok_bind; [apply walk_field_ok|].
    apply (step_ok_bind _ (generic_visit V)); [|by apply generic_visit_ok].
    destruct orelse; [apply walk_field_ok|apply step_ok_ret]. }
  assert (step_ok (visit_Try min_len max_len V) (S f)) as Htry.
  { unfold visit_Try.
    apply step_ok_bind; [apply walk_field_ok|].
    apply step_ok_bind; [apply walk_field_ok|].
    apply step_ok_bind; [apply walk_field_ok|].
    apply step_ok_bind; [apply walk_handlers_ok|].
    by apply generic_visit_ok. }
  intros node seqs Hn Hk. unfold dispatch.
  destruct node as [cls fields attrs| | |]; try done. cbn [cls_of].
  repeat (destruct (String.eqb cls _);
            [exact (Hwv _ _ seqs Hn Hk) || exact (Htry _ seqs Hn Hk)|]).
  exact (generic_visit_ok V f HV _ seqs Hn Hk).
Qed.

Lemma visit_ok fuel : step_ok (visit min_len max_len fuel) fuel.
Proof.
  induction fuel as [|f IH].
  - intros node seqs Hn Hk. destruct node; try done.
    rewrite height_Node in Hk. lia.
  - cbn [visit]. by apply dispatch_ok.
Qed.
End VisitBound.

(** [collect_sequences] never stops at the recursion bound of the tree
    walk: the height of the tree is fuel enough. *)
Lemma collect_sequences_fuel tree min_len max_len :
  BodyWalker.collect_sequences_with tree min_len max_len
  <> Ast.Raise Ast.OutOfFuel.
Proof.
  unfold BodyWalker.collect_sequences_with.
  destruct tree as [cls fields attrs| | |]; try done.
  destruct (visit_ok min_len max_len (S (BodyWalker.height (Ast.Node cls fields attrs)))
              (Ast.Node cls fields attrs) [] eq_refl (Nat.le_succ_diag_r _))
    as [Hb _].
  unfold in_bound in Hb.
  destruct (BodyWalker.visit _ _ _ _ _) as [[? ?]|?]; [done|].
  intros [= ->]. by apply Hb.
Qed.

(** ** Bodies that are walked *)

(** The classes for which [BodyWalker] defines a visit method. *)
Definition body_walking (cls : string) : bool :=
  String.eqb cls "FunctionDef" || String.eqb cls "If" || String.eqb cls "For"
  || String.eqb cls "While" || String.eqb cls "With" || String.eqb cls "Try"
  || String.eqb cls "Module".

(** No node of the tree is of such a class. *)
Fixpoint no_body_walking (o : Ast.obj) : bool :=
  match o with
  | Ast.Node cls fields _ =>
      negb (body_walking cls)
      && forallb (fun fv => no_body_walking fv.2) fields
  | Ast.PyList items => forallb no_body_walking items
  | _ => true
  end.

Section OtherClasses.
Import Ast BodyWalker Selector.

Variables min_len max_len : nat.

Lemma dispatch_other V cls fields attrs :
  body_walking cls = false ->
  dispatch min_len max_len V (Node cls fields attrs)
  = generic_visit V (Node cls fields attrs).
Proof.
  unfold body_walking, dispatch. cbn [cls_of]. intros H.
  repeat (apply orb_false_iff in H as [H ?]).
  by repeat match goal with E : String.eqb _ _ = false |- _ => rewrite E; clear E
            end.
Qed.

Lemma mapM_unchanged {S A} (f : A -> M S A) l :
  Forall (fun x => forall s, f x s = Ok (x, s)) l ->
  forall s, mapM f l s = Ok (l, s).
Proof.
  induction 1 as [|x l Hx _ IH]; intros s; [done|].
  rewrite mapM_cons. unfold bind. rewrite Hx. unfold mapM in IH.
  by rewrite IH.
Qed.

Lemma visit_no_body_walking fuel o seqs :
  is_node o = true -> no_body_walking o = true -> (height o <= fuel)%nat ->
  visit min_len max_len fuel o seqs = Ok (o, seqs).
Proof.
  revert o seqs. induction fuel as [|fuel IH]; intros o seqs Hn Hp Hh.
  { destruct o; try done. rewrite height_Node in Hh. lia. }
  destruct o as [cls fields attrs| | |]; try done.
  cbn [visit]. cbn [no_body_walking] in Hp.
  apply andb_true_iff in Hp as [Hc Hf]. apply negb_true_iff in Hc.
  rewrite dispatch_other by done.
  rewrite height_Node in Hh. apply le_S_n in Hh.
  assert (forall v s, (height v <= fuel)%nat -> no_body_walking v = true ->
            visit_item (visit min_len max_len fuel) v s = Ok (v, s)) as Hitem.
  { intros v s Hv Hpv. destruct v; try done. by apply IH. }
  unfold generic_visit, bind. rewrite mapM_unchanged; [done|].
  apply Forall_forall. intros [fn v] Hin s.
  pose proof (hmax_elem _ _ Hin) as Hv.
  pose proof (proj1 (forallb_forall _ _) Hf _
                (proj1 (list_elem_of_In _ _) Hin)) as Hpv.
  cbn [fst snd] in *. unfold visit_field. cbn [fst snd].
  destruct v as [c fs a|items| |]; try done.
  - unfold bind. rewrite IH; [done..|lia].
  - unfold bind. rewrite mapM_unchanged; [done|].
    apply Forall_forall. intros v Hv' s'. apply Hitem.
    + apply lmax_elem in Hv'. rewrite height_PyList in Hv. lia.
    + cbn [no_body_walking] in Hpv.
      by apply (proj1 (forallb_forall _ _) Hpv), list_elem_of_In.
Qed.
End OtherClasses.

(** [BodyWalker] has no visit method for [AsyncFunctionDef]: the visit
    of such a node is [generic_visit], which visits the children and
    passes no statement list to [_walk_body]. When no node of the seven
    walked classes is below the async definition, the visit adds
    nothing to [sequences]. *)
Theorem async_function_body_not_windowed (min_len max_len fuel : nat)
    (fields : list (string * Ast.obj)) (attrs : option Ast.location)
    (seqs : Selector.sequences) :
  BodyWalker.visit min_len max_len (S fuel)
    (Ast.Node "AsyncFunctionDef" fields attrs) seqs
  = (let* fields' :=
       Ast.mapM (BodyWalker.visit_field
                   (BodyWalker.visit min_len max_len fuel)) fields in
     Ast.ret (Ast.Node "AsyncFunctionDef" fields' attrs)) seqs
  /\ (forallb (fun fv => no_body_walking fv.2) fields = true ->
      (BodyWalker.height (Ast.Node "AsyncFunctionDef" fields attrs)
       <= S fuel)%nat ->
      BodyWalker.visit min_len max_len (S fuel)
        (Ast.Node "AsyncFunctionDef" fields attrs) seqs
      = Ast.Ok (Ast.Node "AsyncFunctionDef" fields attrs, seqs)).
Proof.
  split.
  - cbn [BodyWalker.visit]. by rewrite dispatch_other.
  - intros Hf Hh. by apply visit_no_body_walking.
Qed.

(** *** Examples

    The line ranges of the windows that [collect_sequences] emits, in
    the order of the dictionary. *)
Definition spans (r : Ast.res Selector.sequences) : Ast.res (list (Z * Z)) :=
  match r with
  | Ast.Ok seqs => Ast.Ok (concat (map (fun item => map Selector.span item.2) seqs))
  | Ast.Raise e => Ast.Raise e
  end.

Section AsyncExamples.
Import Ast Syntax.

(** An async function with an [if] in its body:
<<
async def f(c):
    x = 1
    y = [x, c]
    if c:
        a = 1
        b = [a, c]
>>
*)
Definition async_program : Ast.obj :=
  Module_
    [ AsyncFunctionDef_ "f" [arg_ "c" 1 1]
        [ Assign_ [Name_ "x" Store_ 2] (Constant_ (CInt 1) 2 2) 2 2
        ; Assign_ [Name_ "y" Store_ 3] (List_ [Name_ "x" Load_ 3; Name_ "c"
              Load_ 3] Load_ 3 3) 3 3
        ; If_ (Name_ "c" Load_ 4)
            [ Assign_ [Name_ "a" Store_ 5] (Constant_ (CInt 1) 5 5) 5 5
            ; Assign_ [Name_ "b" Store_ 6] (List_ [Name_ "a" Load_ 6; Name_
                  "c" Load_ 6] Load_ 6 6) 6 6
            ]
            [] 4 6
        ] 1 6
    ].

(** The same function, not async:
<<
def f(c):
    x = 1
    y = [x, c]
    if c:
        a = 1
        b = [a, c]
>>
*)
Definition sync_program : Ast.obj :=
  Module_
    [ FunctionDef_ "f" [arg_ "c" 1 1]
        [ Assign_ [Name_ "x" Store_ 2] (Constant_ (CInt 1) 2 2) 2 2
        ; Assign_ [Name_ "y" Store_ 3] (List_ [Name_ "x" Load_ 3; Name_ "c"
              Load_ 3] Load_ 3 3) 3 3
        ; If_ (Name_ "c" Load_ 4)
            [ Assign_ [Name_ "a" Store_ 5] (Constant_ (CInt 1) 5 5) 5 5
            ; Assign_ [Name_ "b" Store_ 6] (List_ [Name_ "a" Load_ 6; Name_
                  "c" Load_ 6] Load_ 6 6) 6 6
            ]
            [] 4 6
        ] 1 6
    ].

(** The body of
<<
async def g(c):
    x = 1
    y = [x, c]
>>
*)
Definition async_plain_body : list obj :=
  [ Assign_ [Name_ "x" Store_ 2] (Constant_ (CInt 1) 2 2) 2 2
  ; Assign_ [Name_ "y" Store_ 3] (List_ [Name_ "x" Load_ 3; Name_ "c" Load_
        3] Load_ 3 3) 3 3
  ].

(** Of the async function only the body of the [if] is cut into
    windows. *)
Example async_program_windows :
  spans (BodyWalker.collect_sequences async_program) = Ok [(5, 6)].
Proof. vm_compute. reflexivity. Qed.

(** The body of the function that is not async is cut into windows as
    well: the three statements, and the two pairs of neighbours. *)
Example sync_program_windows :
  spans (BodyWalker.collect_sequences sync_program)
  = Ok [(2, 6); (2, 3); (5, 6); (3, 6)].
Proof. vm_compute. reflexivity. Qed.
End AsyncExamples.

(** An async function whose body is two assignments: the visit leaves
    [sequences] empty. *)
Lemma async_function_body_not_windowed_witness :
  BodyWalker.visit 2 6 5
    (Syntax.AsyncFunctionDef_ "g" [Syntax.arg_ "c" 1 1] async_plain_body 1 3) []
  = Ast.Ok
      (Syntax.AsyncFunctionDef_ "g" [Syntax.arg_ "c" 1 1] async_plain_body 1 3,
       []).
Proof.
  apply (proj2 (async_function_body_not_windowed 2 6 4
                  (Syntax.def_fields "g" [Syntax.arg_ "c" 1 1] async_plain_body)
                  (Syntax.at_ 1 3) [])).
  - reflexivity.
  - vm_compute. lia.
Defined.

(** ** Statements without a line number *)

Section Unlocated.
Import Ast Syntax.

(** A [Pass] statement built by [ast.Pass()]: no [lineno] is set. *)
Definition unlocated_Pass : obj := Node "Pass" [] (Some (Loc None None)).

(** A module body of three statements, on lines 5 and 7 and, between
    them, one without a line number. *)
Definition unlocated_program : obj :=
  Module_ [Pass_ 5 5; unlocated_Pass; Pass_ 7 7].

(** The same statements with the one without a line number first. *)
Definition unlocated_first_program : obj :=
  Module_ [unlocated_Pass; Pass_ 5 5; Pass_ 7 7].

(** The window of all three statements goes through
    [canonical_block_dump], and [ast.fix_missing_locations] there gives
    the second statement the line number 1. *)
Example unlocated_statement_located :
  BodyWalker.window 3 ([Pass_ 5 5; unlocated_Pass; Pass_ 7 7], []) 0
  = Ok ([Pass_ 5 5; Pass_ 1 1; Pass_ 7 7],
        [("6a6ab1df1f930112b67c8a3e3e831e3fc856460262583e6f559786d16e415876",
          [(5, 7, "Module([Pass(), Pass(), Pass()], [])")])]).
Proof. vm_compute. reflexivity. Qed.
End Unlocated.

(** C9, at a body whose second statement has no line number. The
    window of length 2 that starts at that statement is emitted, as
    lines 1 to 7, and the window of length 2 that ends with it is
    emitted as lines 5 to 1. *)
Theorem window_of_unlocated_statement_emitted :
  spans (BodyWalker.collect_sequences unlocated_program)
  = Ast.Ok [(5, 7); (5, 1); (1, 7)].
Proof. vm_compute. reflexivity. Qed.

(** When the statement without a line number is the first of the body,
    no window on it is evaluated, and the two windows that start at it
    are skipped. *)
Example unlocated_first_statement_skipped :
  spans (BodyWalker.collect_sequences unlocated_first_program)
  = Ast.Ok [(5, 7)].
Proof. vm_compute. reflexivity. Qed.


(** ** The order of the greedy loop *)

Section OrderIndependence.
Import Selector.

Local Abbreviation start_leb := (fun a b : Z * Z => a.1 <=? b.1).

Lemma NoDup_fst_eq {A B} (l : list (A * B)) x y :
  NoDup l.*1 -> x ∈ l -> y ∈ l -> x.1 = y.1 -> x = y.
Proof.
  induction l as [|z l IH]; intros Hnd Hx Hy E.
  - by apply elem_of_nil in Hx.
  - cbn in Hnd. apply NoDup_cons in Hnd as [Hz Hnd].
    apply elem_of_cons in Hx as [->|Hx], Hy as [->|Hy]; [done| | |by apply IH].
    + exfalso. apply Hz. rewrite E. apply list_elem_of_fmap. by exists y.
    + exfalso. apply Hz. rewrite <- E. apply list_elem_of_fmap. by exists x.
Qed.

(** Sorting by start line has one result when no two start lines are
    equal. *)
Lemma sort_by_start_unique (l1 l2 : list (Z * Z)) :
  l1 ≡ₚ l2 -> NoDup l1.*1 ->
  Py.sort_by start_leb l1 = Py.sort_by start_leb l2.
Proof.
  intros Hp Hnd.
  assert (forall x y : Z * Z, start_leb x y = true \/ start_leb y x = true)
    as Htotal by (intros x y; cbn; lia).
  assert (forall x y z : Z * Z, start_leb x y = true -> start_leb y z = true ->
            start_leb x z = true) as Htrans by (intros x y z; cbn; lia).
  apply (StronglySorted_unique_strong (fun a b => start_leb a b = true)).
  - intros x1 x2 H1 H2 H12 H21.
    rewrite sort_by_perm in H1. rewrite sort_by_perm, <- Hp in H2.
    apply (NoDup_fst_eq l1); [done..|]. cbn in *. lia.
  - by apply sort_by_sorted.
  - by apply sort_by_sorted.
  - by rewrite !sort_by_perm.
Qed.

(** The occurrences of a group start on different lines. *)
Definition distinct_starts (c : candidate) : bool :=
  bool_decide (NoDup (map span (cand_occurrences c)).*1).

Lemma occs_of_set_order so1 so2 c :
  (forall l, so1 l ≡ₚ remove_dups l) -> (forall l, so2 l ≡ₚ remove_dups l) ->
  distinct_starts c = true -> occs_of so1 c = occs_of so2 c.
Proof.
  intros H1 H2 Hd%bool_decide_eq_true. unfold occs_of.
  assert (NoDup (map span (cand_occurrences c))) as Hnd.
  { eapply NoDup_fmap_1. exact Hd. }
  assert (remove_dups (map span (cand_occurrences c))
          ≡ₚ map span (cand_occurrences c)) as Hr.
  { apply NoDup_Permutation; [apply NoDup_remove_dups|done|].
    intros x. apply elem_of_remove_dups. }
  apply sort_by_start_unique.
  - by rewrite H1, H2.
  - by rewrite H1, Hr.
Qed.

Lemma greedy_set_order so1 so2 cands st :
  (forall l, so1 l ≡ₚ remove_dups l) -> (forall l, so2 l ≡ₚ remove_dups l) ->
  forallb distinct_starts cands = true ->
  foldl (select_step so1) st cands = foldl (select_step so2) st cands.
Proof.
  intros H1 H2. revert st. induction cands as [|c cands IH]; intros st Hd.
  - done.
  - cbn in Hd. apply andb_true_iff in Hd as [Hc Hd]. cbn [foldl].
    rewrite <- IH by done. f_equal. unfold select_step.
    destruct st as [selected occupied].
    by rewrite (occs_of_set_order so1 so2 c).
Qed.

(** When the occurrences of each candidate group start on different
    lines, [check] returns the same findings whatever the order in
    which the sets of occurrences are iterated. *)
Lemma check_set_order so1 so2 tree file :
  (forall l, so1 l ≡ₚ remove_dups l) -> (forall l, so2 l ≡ₚ remove_dups l) ->
  match BodyWalker.collect_sequences tree with
  | Ast.Ok seqs => forallb distinct_starts (rank (candidates_of seqs))
  | Ast.Raise _ => true
  end = true ->
  check so1 tree file = check so2 tree file.
Proof.
  intros H1 H2 Hd. unfold check.
  destruct (BodyWalker.collect_sequences tree) as [seqs|e]; [|done].
  unfold check_seqs, select, greedy.
  by rewrite (greedy_set_order so1 so2).
Qed.
End OrderIndependence.

Section LongerWindow.
Import Ast Syntax.

(** A module in which the four statements of lines 1 to 4 come three
    times (lines 1, 8 and 15), and the two statements of lines 4 to 6,
    the second of them on two lines, come three times as well (lines 4,
    11 and 20):
<<
a = load(p)
b = a + q
check(b)
c = [b, a]
emit(c,
     b)
del a
d = load(r)
e = d + s
check(e)
f = [e, d]
emit(f,
     e)
pass
g = load(t)
h = g + u
check(h)
i = [h, g]
assert i
j = [k, m]
emit(j,
     k)
import os
del j
assert k
pass
import sys
del m
>>
*)
Definition longer_window_program : Ast.obj :=
  Module_
    [ Assign_ [Name_ "a" Store_ 1] (Call_ (Name_ "load" Load_ 1) [Name_ "p"
          Load_ 1] 1 1) 1 1
    ; Assign_ [Name_ "b" Store_ 2] (BinOp_ (Name_ "a" Load_ 2) Add_ (Name_
          "q" Load_ 2) 2 2) 2 2
    ; Expr_ (Call_ (Name_ "check" Load_ 3) [Name_ "b" Load_ 3] 3 3) 3 3
    ; Assign_ [Name_ "c" Store_ 4] (List_ [Name_ "b" Load_ 4; Name_ "a"
          Load_ 4] Load_ 4 4) 4 4
    ; Expr_ (Call_ (Name_ "emit" Load_ 5) [Name_ "c" Load_ 5; Name_ "b"
          Load_ 6] 5 6) 5 6
    ; Delete_ [Name_ "a" Del_ 7] 7 7
    ; Assign_ [Name_ "d" Store_ 8] (Call_ (Name_ "load" Load_ 8) [Name_ "r"
          Load_ 8] 8 8) 8 8
    ; Assign_ [Name_ "e" Store_ 9] (BinOp_ (Name_ "d" Load_ 9) Add_ (Name_
          "s" Load_ 9) 9 9) 9 9
    ; Expr_ (Call_ (Name_ "check" Load_ 10) [Name_ "e" Load_ 10] 10 10) 10
          10
    ; Assign_ [Name_ "f" Store_ 11] (List_ [Name_ "e" Load_ 11; Name_ "d"
          Load_ 11] Load_ 11 11) 11 11
    ; Expr_ (Call_ (Name_ "emit" Load_ 12) [Name_ "f" Load_ 12; Name_ "e"
          Load_ 13] 12 13) 12 13
    ; Pass_ 14 14
    ; Assign_ [Name_ "g" Store_ 15] (Call_ (Name_ "load" Load_ 15) [Name_
          "t" Load_ 15] 15 15) 15 15
    ; Assign_ [Name_ "h" Store_ 16] (BinOp_ (Name_ "g" Load_ 16) Add_ (Name_
          "u" Load_ 16) 16 16) 16 16
    ; Expr_ (Call_ (Name_ "check" Load_ 17) [Name_ "h" Load_ 17] 17 17) 17
          17
    ; Assign_ [Name_ "i" Store_ 18] (List_ [Name_ "h" Load_ 18; Name_ "g"
          Load_ 18] Load_ 18 18) 18 18
    ; Assert_ (Name_ "i" Load_ 19) 19 19
    ; Assign_ [Name_ "j" Store_ 20] (List_ [Name_ "k" Load_ 20; Name_ "m"
          Load_ 20] Load_ 20 20) 20 20
    ; Expr_ (Call_ (Name_ "emit" Load_ 21) [Name_ "j" Load_ 21; Name_ "k"
          Load_ 22] 21 22) 21 22
    ; Import_ [alias_ "os" 23 23] 23 23
    ; Delete_ [Name_ "j" Del_ 24] 24 24
    ; Assert_ (Name_ "k" Load_ 25) 25 25
    ; Pass_ 26 26
    ; Import_ [alias_ "sys" 27 27] 27 27
    ; Delete_ [Name_ "m" Del_ 28] 28 28
    ].

(** A candidate group as count, [length] and line ranges. *)
Definition summary (c : Selector.candidate) : nat * Z * list (Z * Z) :=
  (Selector.cand_count c, Selector.cand_length c,
   map Selector.span (Selector.cand_occurrences c)).

(** The candidate groups of a tree in the order of the greedy loop. *)
Definition ranked (tree : obj) : res (list (nat * Z * list (Z * Z))) :=
  match BodyWalker.collect_sequences tree with
  | Ok seqs => Ok (map summary (Selector.rank (Selector.candidates_of seqs)))
  | Raise e => Raise e
  end.

Definition msg (s : string) : string :=
  ("repeated block detected (3 occurrences). Consider extracting a "
   ++ "function for the block at lines " ++ s)%string.
End LongerWindow.

(** C8, at [longer_window_program]. The groups that pass the filters
    are the pattern of two statements, the pattern of four statements and
    two patterns of three statements, each with three occurrences. The
    pattern of two statements, three lines an occurrence, is ranked
    first, because its occurrences lie between lines 4 and 22 and
    [length] is 19; the pattern of four statements, four lines an
    occurrence, has [length] 18. The pattern of two statements takes
    lines 4 and 11, the pattern of four statements is left with one
    occurrence and is not reported, and its first three statements are
    reported in its place. *)
Theorem two_statement_pattern_claims_first
    (set_order : list (Z * Z) -> list (Z * Z)) :
  (forall l, set_order l ≡ₚ remove_dups l) ->
  ranked longer_window_program
  = Ast.Ok [(3%nat, 19, [(4, 6); (11, 13); (20, 22)]);
            (3%nat, 18, [(1, 4); (8, 11); (15, 18)]);
            (3%nat, 17, [(1, 3); (8, 10); (15, 17)]);
            (3%nat, 17, [(2, 4); (9, 11); (16, 18)])]
  /\ check set_order longer_window_program "m.py"
     = Ast.Ok
         [ {| Selector.issue_file := "m.py"; Selector.issue_line := 4;
              Selector.issue_col := 1; Selector.issue_code := "Z202";
              Selector.issue_msg := msg "[(4, 6), (11, 13), (20, 22)]" |};
           {| Selector.issue_file := "m.py"; Selector.issue_line := 1;
              Selector.issue_col := 1; Selector.issue_code := "Z202";
              Selector.issue_msg := msg "[(1, 3), (8, 10), (15, 17)]" |} ].
Proof.
  intros Hperm. split; [vm_compute; reflexivity|].
  rewrite (check_set_order set_order remove_dups);
    [vm_compute; reflexivity|done|done|vm_compute; reflexivity].
Qed.

(** The same with the sets iterated in the order of the lists. *)
Lemma two_statement_pattern_claims_first_witness :
  ranked longer_window_program
  = Ast.Ok [(3%nat, 19, [(4, 6); (11, 13); (20, 22)]);
            (3%nat, 18, [(1, 4); (8, 11); (15, 18)]);
            (3%nat, 17, [(1, 3); (8, 10); (15, 17)]);
            (3%nat, 17, [(2, 4); (9, 11); (16, 18)])]
  /\ check remove_dups longer_window_program "m.py"
     = Ast.Ok
         [ {| Selector.issue_file := "m.py"; Selector.issue_line := 4;
              Selector.issue_col := 1; Selector.issue_code := "Z202";
              Selector.issue_msg := msg "[(4, 6), (11, 13), (20, 22)]" |};
           {| Selector.issue_file := "m.py"; Selector.issue_line := 1;
              Selector.issue_col := 1; Selector.issue_code := "Z202";
              Selector.issue_msg := msg "[(1, 3), (8, 10), (15, 17)]" |} ].
Proof.
  apply (two_statement_pattern_claims_first remove_dups). reflexivity.
Defined.

(** ** Instances *)

Section Instances.
Import Ast Syntax.

(** The state of the canonicalizer after a history of requests. *)
Definition state_after (history : list request) : Canonicalizer.state :=
  match mapM serve history Canonicalizer.init with
  | Ok (_, st) => st
  | Raise _ => Canonicalizer.init
  end.

(** [x.foo] on line 1. *)
Definition attribute_of_name : list obj :=
  [Expr_ (Attribute_ (Name_ "x" Load_ 1) "foo" Load_ 1 1) 1 1].

(** [global x] and [x = 1], and the same with [y] for [x]. *)
Definition global_x : list obj :=
  [Global_ ["x"] 1 1; Assign_ [Name_ "x" Store_ 2] (Constant_ (CInt 1) 2 2) 2 2].
Definition global_y : list obj :=
  [Global_ ["y"] 1 1; Assign_ [Name_ "y" Store_ 2] (Constant_ (CInt 1) 2 2) 2 2].

(** [x = 1] and [y = 2], in the two orders. *)
Definition x_then_y : list obj :=
  [Assign_ [Name_ "x" Store_ 1] (Constant_ (CInt 1) 1 1) 1 1;
   Assign_ [Name_ "y" Store_ 2] (Constant_ (CInt 2) 2 2) 2 2].
Definition y_then_x : list obj :=
  [Assign_ [Name_ "y" Store_ 1] (Constant_ (CInt 2) 1 1) 1 1;
   Assign_ [Name_ "x" Store_ 2] (Constant_ (CInt 1) 2 2) 2 2].

(** A function whose body is [pass], plain and under the decorator
    [@cache]. *)
Definition plain_def : list obj := [FunctionDef_ "f" [] [Pass_ 2 2] 1 2].
Definition decorated_def : list obj :=
  [Node "FunctionDef"
        (set_field "decorator_list" (PyList [Name_ "cache" Load_ 1])
                   (def_fields "f" [] [Pass_ 3 3]))
        (at_ 2 3)].

(** [total = price + tax] on line 1, and on line 7 the same with [v]
    put before every name. *)
Definition sum_plain : list obj :=
  [Assign_ [Name_ "total" Store_ 1]
           (BinOp_ (Name_ "price" Load_ 1) Add_ (Name_ "tax" Load_ 1) 1 1) 1 1].
Definition sum_prefixed : list obj :=
  [Assign_ [Name_ "vtotal" Store_ 7]
           (BinOp_ (Name_ "vprice" Load_ 7) Add_ (Name_ "vtax" Load_ 7) 7 7)
           7 7].

(** A dictionary of [collect_sequences] with one group of three
    occurrences, of four lines each. *)
Definition sample_dump : string :=
  "Module([Assign([Name('_N0', Store())], Constant('_C0')), Pass()], [])".
Definition three_occurrences : Selector.sequences :=
  [("h", [(10, 13, sample_dump); (20, 23, sample_dump); (30, 33, sample_dump)])].
End Instances.



(** C4, two sequences with the same variables and literals and the two
    statements in the other order, and two sequences of which one has a
    decorator and the other has not: the hashes are the same. *)
Lemma other_order_same_hash :
  (Block.canonical_block_dump x_then_y
   = Ast.Ok ("dd59f63a2cceeee4ce267f4b10ad171412f5868ce32f177f02c60b102edb858e",
             "Module([Assign([Name('_N0', Store())], Constant('_C0')), Assign([Name('_N1', Store())], Constant('_C1'))], [])")
   /\ Block.canonical_block_dump y_then_x = Block.canonical_block_dump x_then_y)
  /\
  (Block.canonical_block_dump plain_def
   = Ast.Ok ("ab25a1c36aba9234a8c87748a93eb7d960cc1fbdc36b9d23895f81015d89f78f",
             "Module([FunctionDef('_fn', arguments([], [], kwonlyargs=[], kw_defaults=[], defaults=[]), [Pass()], [])], [])")
   /\ Block.canonical_block_dump decorated_def
      = Block.canonical_block_dump plain_def).
Proof. repeat split; vm_compute; reflexivity. Qed.

(** The first two occurrences of the group of [three_occurrences] are
    accepted and share no line. *)
Lemma selected_occurrences_share_no_line_witness :
  concat (map Selector.sel_matches
            (Selector.select remove_dups three_occurrences))
  = [(10, 13); (20, 23); (30, 33)]
  /\ forall ln, ~ (10 <= ln <= 13 /\ 20 <= ln <= 23).
Proof.
  split; [vm_compute; reflexivity|].
  apply (selected_occurrences_share_no_line remove_dups
           (fun l => reflexivity _) three_occurrences 0%nat 1%nat
           (10, 13) (20, 23)).
  - lia.
  - vm_compute. reflexivity.
  - vm_compute. reflexivity.
Defined.

(** The group of [three_occurrences] is reported with its three
    occurrences. *)
Lemma minimum_repetition_witness :
  exists s, s ∈ Selector.select remove_dups three_occurrences /\
            Selector.sel_hash s = "h" /\
            Selector.sel_matches s ≡ₚ [(10, 13); (20, 23); (30, 33)] /\
            (3 <= Selector.sel_count s)%nat.
Proof.
  refine (proj2 (minimum_repetition remove_dups (fun l => reflexivity _)
                   three_occurrences "h"
                   [(10, 13, sample_dump); (20, 23, sample_dump);
                    (30, 33, sample_dump)] _ _) _ _ _).
  - vm_compute. repeat constructor. intros H. inversion H.
  - unfold three_occurrences. set_solver.
  - vm_compute. lia.
  - intros o0 rest [= <- <-]. vm_compute. reflexivity.
  - intros c' c se' se ln Hc [pre [post [Hrank Hpre]]].
    vm_compute in Hrank.
    destruct pre as [|x pre]; [inversion Hpre|].
    injection Hrank as _ Hrank. destruct pre; discriminate Hrank.
Defined.


(** The integer [1] and the string ['1'] are given two placeholders. *)
Lemma constant_placeholders_agree_iff_equal_witness :
  "_C0" = "_C1" <-> Ast.CInt 1 = Ast.CStr "1".
Proof.
  apply (constant_placeholders_agree_iff_equal
           [ReqConst (Ast.CInt 1); ReqConst (Ast.CStr "1"); ReqConst (Ast.CInt 1)]
           ["_C0"; "_C1"; "_C0"]
           (state_after [ReqConst (Ast.CInt 1); ReqConst (Ast.CStr "1");
                         ReqConst (Ast.CInt 1)])
           0%nat 1%nat);
    vm_compute; reflexivity.
Defined.


(** ** The dump as a sequence of tokens *)

(** The pieces of which the text of a dump is made. *)
Inductive token :=
| TId (s : string)
| TOpen
| TClose
| TLBrack
| TRBrack
| TComma
| TEq
| TLit (c : Ast.constant).

Definition text (t : token) : string :=
  match t with
  | TId s => s
  | TOpen => "("
  | TClose => ")"
  | TLBrack => "["
  | TRBrack => "]"
  | TComma => ", "
  | TEq => "="
  | TLit c => Repr.repr c
  end.

Definition render (ts : list token) : string :=
  foldr (fun t acc => (text t ++ acc)%string) EmptyString ts.

(** The characters of names, numbers and keywords. *)
Definition word_char (a : ascii) : bool :=
  let n := N_of_ascii a in
  ((48 <=? n) && (n <=? 57) || (65 <=? n) && (n <=? 90) || (n =? 95)
   || (97 <=? n) && (n <=? 122) || (n =? 45))%N.

Fixpoint word (s : string) : bool :=
  match s with
  | EmptyString => true
  | String a s' => word_char a && word s'
  end.

(** A text at which a word ends. *)
Definition word_end (s : string) : bool :=
  match s with
  | EmptyString => true
  | String a _ => negb (word_char a)
  end.

(** An identifier: a word that is not empty. *)
Definition identifier (s : string) : bool :=
  word s && negb (String.eqb s EmptyString).

(** What may follow a token for the text to be read in one way only: a
    name is followed by a parenthesis or an equals sign, a literal by a
    comma or a closing bracket or nothing. *)
Definition follows (t : token) (next : option token) : Prop :=
  match t with
  | TId s => identifier s = true /\ (next = Some TOpen \/ next = Some TEq)
  | TLit _ =>
      next = None \/ next = Some TComma \/ next = Some TClose
      \/ next = Some TRBrack
  | _ => True
  end.

Fixpoint legible (ts : list token) : Prop :=
  match ts with
  | [] => True
  | t :: rest => follows t (head rest) /\ legible rest
  end.

Section Lexing.
Import Ast Repr.

Lemma word_split a1 a2 d1 d2 :
  word a1 = true -> word a2 = true ->
  word_end d1 = true -> word_end d2 = true ->
  (a1 ++ d1 = a2 ++ d2)%string -> a1 = a2 /\ d1 = d2.
Proof.
  revert a2. induction a1 as [|x a1 IH]; intros [|y a2] H1 H2 E1 E2;
    rewrite ?string_app_nil, ?string_app_cons.
  - done.
  - intros ->. cbn in H2, E1. rewrite ?string_app_cons in E1. cbn in E1.
    by destruct (word_char y).
  - intros <-. cbn in H1, E2. by destruct (word_char x).
  - intros [= -> E]. cbn in H1, H2.
    apply andb_true_iff in H1 as [_ H1], H2 as [_ H2].
    by destruct (IH a2 H1 H2 E1 E2 E) as [-> ->].
Qed.

Lemma word_uint_empty d : word (NilEmpty.string_of_uint d) = true.
Proof.
  induction d; [done|..]; cbn [NilEmpty.string_of_uint word]; rewrite IHd;
    reflexivity.
Qed.

Lemma word_uint d : word (NilZero.string_of_uint d) = true.
Proof. destruct d; [done|..]; apply word_uint_empty. Qed.

Lemma word_repr_int z : word (Py.repr_int z) = true.
Proof.
  unfold Py.repr_int.
  destruct (Z.to_int z); cbn [NilZero.string_of_int word];
    by rewrite word_uint.
Qed.

(** The part of the text of a token that is a word, and the rest. *)
Definition pre (t : token) : string :=
  match t with
  | TId s => s
  | TLit (CStr _) => EmptyString
  | TLit (CBytes _) => "b"
  | TLit c => repr c
  | _ => EmptyString
  end.

Definition post (t : token) : string :=
  match t with
  | TId _ => EmptyString
  | TLit (CStr s) => repr_str s
  | TLit (CBytes s) =>
      let q := quote_for s in
      String q (concat_map (repr_bytes_char q) s ++ String q EmptyString)
  | TLit _ => EmptyString
  | t => text t
  end.

Lemma text_split t : text t = (pre t ++ post t)%string.
Proof.
  destruct t as [s| | | | | | |c]; try reflexivity.
  - cbn. induction s; [done|]. rewrite string_app_cons. by f_equal.
  - destruct c as [|[]|z|s|s|]; try reflexivity.
    cbn -[String.append]. generalize (Py.repr_int z). intros s.
    induction s; [done|]. rewrite string_app_cons. by f_equal.
Qed.

(** A name token holds an identifier. *)
Definition named (t : token) : Prop :=
  match t with TId s => identifier s = true | _ => True end.

Lemma follows_named t next : follows t next -> named t.
Proof. destruct t; cbn; tauto. Qed.

Lemma word_pre t : named t -> word (pre t) = true.
Proof.
  intros Hid. destruct t as [s| | | | | | |c]; try reflexivity.
  - cbn. unfold identifier in Hid. by apply andb_true_iff in Hid as [? _].
  - destruct c as [|[]|z|s|s|]; try reflexivity. apply word_repr_int.
Qed.

Lemma render_cons t ts : render (t :: ts) = (text t ++ render ts)%string.
Proof. reflexivity. Qed.

(** The text of a token is not empty. *)
Lemma text_head t : named t -> exists a r, text t = String a r.
Proof.
  destruct t as [s| | | | | | |c]; cbn; try by eauto.
  - unfold identifier. destruct s; [by rewrite andb_false_r|eauto].
  - intros _. destruct c as [|[]|z|s|s|]; cbn; try by eauto.
    destruct (repr_int_head z) as (a & r & -> & _). eauto.
Qed.

(** The first character of the text of a punctuation or string token,
    and of what follows a name or another literal. *)
Lemma word_end_rest t rest :
  follows t (head rest) -> legible rest ->
  word_end (post t ++ render rest)%string = true.
Proof.
  intros Hf Hrest. destruct t as [s| | | | | | |c]; try reflexivity.
  - cbn in Hf. destruct Hf as [_ [Hn|Hn]];
      destruct rest as [|t rest]; simplify_eq/=; reflexivity.
  - destruct c as [|[]|z|s|s|];
      try (cbn in Hf; rewrite string_app_nil;
           destruct Hf as [Hn|[Hn|[Hn|Hn]]];
           destruct rest as [|t rest]; simplify_eq/=; reflexivity).
    + cbn. unfold repr_str. by destruct (quote_for_cases s) as [-> | ->].
    + cbn. by destruct (quote_for_cases s) as [-> | ->].
Qed.

(** A literal whose text is one word. *)
Definition lit_word (c : constant) : bool :=
  match c with CStr _ | CBytes _ => false | _ => true end.

Lemma lit_word_pre c : lit_word c = true -> pre (TLit c) = repr c.
Proof. by destruct c as [|[]|z|s|s|]. Qed.

Lemma lit_word_post c : lit_word c = true -> post (TLit c) = EmptyString.
Proof. by destruct c as [|[]|z|s|s|]. Qed.

Lemma repr_not_empty c : repr c <> EmptyString.
Proof.
  destruct (text_head (TLit c) I) as (a & r & E). cbn in E. by rewrite E.
Qed.

Lemma repr_not_b c : lit_word c = true -> repr c <> "b".
Proof.
  intros Hc E. apply (f_equal head_tag) in E. rewrite head_tag_repr in E.
  by destruct c as [|[]|z|s|s|].
Qed.

(** What follows a name starts with a parenthesis or an equals sign. *)
Lemma after_name s rest :
  follows (TId s) (head rest) ->
  exists r, render rest = String "(" r \/ render rest = String "=" r.
Proof.
  intros [_ [Hn|Hn]]; destruct rest as [|t rest]; simplify_eq/=; eauto.
Qed.

(** What follows a literal is nothing, or starts with a comma or a
    closing bracket. *)
Lemma after_literal c rest :
  follows (TLit c) (head rest) ->
  render rest = EmptyString \/
  exists r, render rest = String "," r \/ render rest = String ")" r
            \/ render rest = String "]" r.
Proof.
  intros [Hn|[Hn|[Hn|Hn]]]; destruct rest as [|t rest]; simplify_eq/=; eauto.
Qed.

Lemma quoted_inj (f : ascii -> ascii -> string) s1 s2 r1 r2 :
  (forall q c t, q = squote \/ q = dquote ->
                 dec_char q (f q c ++ t)%string = Some (c, t)) ->
  forall q1 q2, (q1 = squote \/ q1 = dquote) ->
  (String q1 (concat_map (f q1) s1 ++ String q1 EmptyString) ++ r1
   = String q2 (concat_map (f q2) s2 ++ String q2 EmptyString) ++ r2)%string ->
  s1 = s2 /\ r1 = r2.
Proof.
  intros Hf q1 q2 Hq. rewrite !string_app_cons, !string_app_assoc.
  intros [= <- E]. rewrite !string_app_cons, !string_app_nil in E.
  eapply concat_map_inj in E; [done|]. intros c t. by apply Hf.
Qed.

Lemma name_not_empty s next : follows (TId s) next -> s <> EmptyString.
Proof. intros [H _] ->. discriminate H. Qed.

(** A literal does not read as a bracket, a comma or an equals sign. *)
Lemma literal_not_punct c t R1 R2 :
  match t with TId _ | TLit _ => False | _ => True end ->
  pre (TLit c) = pre t ->
  (post (TLit c) ++ R1 = post t ++ R2)%string -> False.
Proof.
  intros Ht Epre Epost. destruct (lit_word c) eqn:Hc.
  - rewrite lit_word_pre in Epre by done.
    destruct t; try done; by apply repr_not_empty in Epre.
  - destruct c as [|[]|z|s|s|]; try discriminate Hc.
    + cbn in Epost. unfold repr_str in Epost.
      rewrite !string_app_cons in Epost.
      destruct t; try done; cbn in Epost;
        rewrite ?string_app_cons in Epost;
        destruct (quote_for_cases s) as [Hq|Hq]; rewrite Hq in Epost;
        discriminate Epost.
    + destruct t; try done; discriminate Epre.
Qed.

(** Two tokens with the same text before the same rest are one token. *)
Lemma token_inj t1 t2 rest1 rest2 :
  follows t1 (head rest1) -> follows t2 (head rest2) ->
  pre t1 = pre t2 ->
  (post t1 ++ render rest1 = post t2 ++ render rest2)%string ->
  t1 = t2 /\ render rest1 = render rest2.
Proof.
  intros F1 F2 Epre Epost.
  destruct t1 as [s1| | | | | | |c1], t2 as [s2| | | | | | |c2];
    try (exfalso; by eapply (literal_not_punct c1); [|exact Epre|exact Epost]);
    try (exfalso; symmetry in Epre, Epost;
         by eapply (literal_not_punct c2); [|exact Epre|exact Epost]);
    try (cbn in Epre, Epost; rewrite ?string_app_cons, ?string_app_nil in Epost;
         first [ by simplify_eq | discriminate Epost
               | by apply name_not_empty in F1
               | by apply name_not_empty in F2 ]).
  - (* a name and a literal *)
    destruct (after_name _ _ F1) as [r1 Hr1].
    destruct (lit_word c2) eqn:Hc.
    + rewrite lit_word_post in Epost by done. cbn in Epost.
      rewrite !string_app_nil in Epost.
      destruct (after_literal _ _ F2) as [H2|[r2 H2]]; rewrite Epost in Hr1;
        intuition congruence.
    + destruct c2 as [|[]|z|s|s|]; try discriminate Hc; cbn in Epre, Epost.
      * by apply name_not_empty in F1.
      * rewrite !string_app_cons, string_app_nil in Epost.
        destruct (quote_for_cases s) as [Hq|Hq]; rewrite Hq in Epost;
          destruct Hr1 as [Hr1|Hr1]; rewrite Hr1 in Epost; discriminate Epost.
  - (* a literal and a name *)
    destruct (after_name _ _ F2) as [r2 Hr2].
    destruct (lit_word c1) eqn:Hc.
    + rewrite lit_word_post in Epost by done. cbn in Epost.
      rewrite !string_app_nil in Epost.
      destruct (after_literal _ _ F1) as [H1|[r1 H1]]; rewrite <- Epost in Hr2;
        intuition congruence.
    + destruct c1 as [|[]|z|s|s|]; try discriminate Hc; cbn in Epre, Epost.
      * by apply name_not_empty in F2.
      * rewrite !string_app_cons, string_app_nil in Epost.
        destruct (quote_for_cases s) as [Hq|Hq]; rewrite Hq in Epost;
          destruct Hr2 as [Hr2|Hr2]; rewrite Hr2 in Epost; discriminate Epost.
  - (* two literals *)
    destruct (lit_word c1) eqn:Hc1, (lit_word c2) eqn:Hc2.
    + rewrite !lit_word_pre in Epre by done.
      rewrite !lit_word_post, !string_app_nil in Epost by done.
      by apply repr_inj in Epre as ->.
    + rewrite lit_word_pre in Epre by done.
      destruct c2 as [|[]|z|s|s|]; try discriminate Hc2; cbn in Epre.
      * by apply repr_not_empty in Epre.
      * by apply repr_not_b in Epre.
    + rewrite (lit_word_pre c2) in Epre by done.
      destruct c1 as [|[]|z|s|s|]; try discriminate Hc1; cbn in Epre.
      * symmetry in Epre. by apply repr_not_empty in Epre.
      * symmetry in Epre. by apply repr_not_b in Epre.
    + destruct c1 as [|[]|z1|s1|s1|], c2 as [|[]|z2|s2|s2|];
        try discriminate Hc1; try discriminate Hc2; try discriminate Epre;
        cbn in Epost.
      * unfold repr_str in Epost.
        apply (quoted_inj repr_str_char) in Epost as [-> ->];
          [done|intros; by apply dec_repr_str_char|apply quote_for_cases].
      * apply (quoted_inj repr_bytes_char) in Epost as [-> ->];
          [done|intros; by apply dec_repr_bytes_char|apply quote_for_cases].
Qed.

(** The text of a dump is made of its tokens in one way only. *)
Lemma render_inj ts1 ts2 :
  legible ts1 -> legible ts2 -> render ts1 = render ts2 -> ts1 = ts2.
Proof.
  revert ts2. induction ts1 as [|t1 r1 IH]; intros [|t2 r2] H1 H2 E.
  - done.
  - destruct H2 as [F2 _]. apply follows_named, text_head in F2 as (a & r & Ht).
    rewrite render_cons, Ht in E. discriminate E.
  - destruct H1 as [F1 _]. apply follows_named, text_head in F1 as (a & r & Ht).
    rewrite render_cons, Ht in E. discriminate E.
  - destruct H1 as [F1 L1], H2 as [F2 L2].
    rewrite !render_cons, !text_split, !string_app_assoc in E.
    apply word_split in E as [Epre Epost];
      [|by eapply word_pre, follows_named|by eapply word_pre, follows_named
       |by apply word_end_rest|by apply word_end_rest].
    destruct (token_inj t1 t2 r1 r2 F1 F2 Epre Epost) as [-> Er].
    f_equal. by apply IH.
Qed.
End Lexing.

(** ** What a dump shows of a tree *)

(** The tree that a dump writes out: the class of each node with the
    arguments that are shown, by position or by keyword, the lists and
    the plain values. *)
Inductive sk :=
| SNode (cls : string) (args : list (option string * sk))
| SList (items : list sk)
| SConst (c : Ast.constant).

Section SkInduction.
Variable P : sk -> Prop.
Hypothesis HNode : forall cls args,
  Forall (fun a => P a.2) args -> P (SNode cls args).
Hypothesis HList : forall items, Forall P items -> P (SList items).
Hypothesis HConst : forall c, P (SConst c).

Fixpoint sk_induction (s : sk) : P s :=
  match s with
  | SNode cls args =>
      HNode cls args
        ((fix go (l : list (option string * sk)) : Forall (fun a => P a.2) l :=
            match l with
            | [] => @List.Forall_nil _ (fun a => P a.2)
            | a :: l' =>
                @List.Forall_cons _ (fun a => P a.2) a l'
                                  (sk_induction a.2) (go l')
            end) args)
  | SList items =>
      HList items
        ((fix go (l : list sk) : Forall P l :=
            match l with
            | [] => @List.Forall_nil _ P
            | v :: l' => @List.Forall_cons _ P v l' (sk_induction v) (go l')
            end) items)
  | SConst c => HConst c
  end.
End SkInduction.

(** The arguments of a node as [ast.dump] shows them: a field that is
    not set is left out, and the fields after it are shown by keyword. *)
Fixpoint shown (o : Ast.obj) : sk :=
  match o with
  | Ast.Node cls fields _ =>
      SNode cls
        ((fix go (keywords : bool) (fs : list (string * Ast.obj))
            : list (option string * sk) :=
            match fs with
            | [] => []
            | (name, Ast.Unset) :: fs' => go true fs'
            | (name, value) :: fs' =>
                ((if keywords then Some name else None), shown value)
                :: go keywords fs'
            end) false fields)
  | Ast.PyList items => SList (map shown items)
  | Ast.Const c => SConst c
  | Ast.Unset => SConst Ast.CNone
  end.

Fixpoint shown_args (keywords : bool) (fs : list (string * Ast.obj))
    : list (option string * sk) :=
  match fs with
  | [] => []
  | (name, Ast.Unset) :: fs' => shown_args true fs'
  | (name, value) :: fs' =>
      ((if keywords then Some name else None), shown value)
      :: shown_args keywords fs'
  end.

Definition name_toks (n : option string) : list token :=
  match n with Some n => [TId n; TEq] | None => [] end.

(** The members of a sequence with commas between them and the closing
    bracket after them. *)
Definition tail_seq (xs : list (list token)) (close : token) : list token :=
  foldr (fun y acc => TComma :: y ++ acc) [close] xs.

Definition tseq (xs : list (list token)) (close : token) : list token :=
  match xs with
  | [] => [close]
  | x :: rest => x ++ tail_seq rest close
  end.

Fixpoint toks (s : sk) : list token :=
  match s with
  | SNode cls args =>
      TId cls :: TOpen
      :: tseq (map (fun a => name_toks a.1 ++ toks a.2) args) TClose
  | SList items => TLBrack :: tseq (map toks items) TRBrack
  | SConst c => [TLit c]
  end.

(** Every class name and every keyword is an identifier. *)
Fixpoint well_named (s : sk) : bool :=
  match s with
  | SNode cls args =>
      identifier cls
      && forallb (fun a => match a.1 with
                           | Some n => identifier n
                           | None => true
                           end && well_named a.2) args
  | SList items => forallb well_named items
  | SConst _ => true
  end.

Section Parsing.
Import Ast.

Definition arg_toks (a : option string * sk) : list token :=
  name_toks a.1 ++ toks a.2.

Lemma toks_SNode cls args :
  toks (SNode cls args) = TId cls :: TOpen :: tseq (map arg_toks args) TClose.
Proof. reflexivity. Qed.

Lemma shown_Node cls fields attrs :
  shown (Node cls fields attrs) = SNode cls (shown_args false fields).
Proof. reflexivity. Qed.

(** The first token of a tree is a name, an opening bracket or a
    literal. *)
Definition opening (ts : list token) : Prop :=
  match ts with
  | TId _ :: _ | TLBrack :: _ | TLit _ :: _ => True
  | _ => False
  end.

Lemma toks_opening s r : opening (toks s ++ r).
Proof. by destruct s. Qed.

Lemma arg_toks_opening a r : opening (arg_toks a ++ r).
Proof.
  destruct a as [[n|] s]; unfold arg_toks; cbn [fst snd name_toks];
    [done|apply toks_opening].
Qed.

Lemma tail_seq_nil close : tail_seq [] close = [close].
Proof. reflexivity. Qed.

Lemma tail_seq_cons x xs close :
  tail_seq (x :: xs) close = TComma :: x ++ tail_seq xs close.
Proof. reflexivity. Qed.

Section Sequences.
Context {A : Type} (f : A -> list token) (close : token).
Hypothesis close_closes : close = TClose \/ close = TRBrack.
Hypothesis f_opening : forall a r, opening (f a ++ r).

Lemma tail_seq_inj l1 :
  Forall (fun a => forall b x y, f a ++ x = f b ++ y -> a = b /\ x = y) l1 ->
  forall l2 r1 r2,
    tail_seq (map f l1) close ++ r1 = tail_seq (map f l2) close ++ r2 ->
    l1 = l2 /\ r1 = r2.
Proof.
  induction 1 as [|a l1 Ha _ IH]; intros [|b l2] r1 r2;
    cbn [map]; rewrite ?tail_seq_cons, ?tail_seq_nil; cbn [app].
  - by intros [= ->].
  - intros [= E _]. destruct close_closes; congruence.
  - intros [= E _]. destruct close_closes; congruence.
  - intros [= E]. rewrite <- !app_assoc in E.
    apply Ha in E as [-> E]. by apply IH in E as [-> ->].
Qed.

Lemma tseq_inj l1 :
  Forall (fun a => forall b x y, f a ++ x = f b ++ y -> a = b /\ x = y) l1 ->
  forall l2 r1 r2,
    tseq (map f l1) close ++ r1 = tseq (map f l2) close ++ r2 ->
    l1 = l2 /\ r1 = r2.
Proof.
  intros H l2 r1 r2. destruct H as [|a l1 Ha Hl], l2 as [|b l2]; cbn.
  - by intros [= ->].
  - intros E. pose proof (f_opening b (tail_seq (map f l2) close ++ r2)) as Ho.
    rewrite <- app_assoc in E. rewrite <- E in Ho.
    destruct close_closes as [-> | ->]; done.
  - intros E. pose proof (f_opening a (tail_seq (map f l1) close ++ r1)) as Ho.
    rewrite <- app_assoc in E. rewrite E in Ho.
    destruct close_closes as [-> | ->]; done.
  - rewrite <- !app_assoc. intros E.
    apply Ha in E as [-> E]. by apply tail_seq_inj in E as [-> ->].
Qed.

(** Nothing, or a comma or a closing bracket, comes next. *)
Definition closing (r : list token) : Prop :=
  head r = None \/ head r = Some TComma \/ head r = Some TClose
  \/ head r = Some TRBrack.

Lemma tail_seq_legible l r :
  Forall (fun a => forall r, legible r -> closing r -> legible (f a ++ r)) l ->
  legible r ->
  legible (tail_seq (map f l) close ++ r)
  /\ closing (tail_seq (map f l) close ++ r).
Proof.
  intros H Hr. induction H as [|a l Ha _ [IH1 IH2]].
  - unfold closing. destruct close_closes as [-> | ->]; cbn; auto.
  - cbn [map]. rewrite tail_seq_cons.
    split; [|unfold closing; cbn; auto].
    split; [done|]. rewrite <- app_assoc. by apply Ha.
Qed.

Lemma tseq_legible l r :
  Forall (fun a => forall r, legible r -> closing r -> legible (f a ++ r)) l ->
  legible r -> legible (tseq (map f l) close ++ r).
Proof.
  intros H Hr. destruct H as [|a l Ha Hl]; cbn.
  { by destruct close_closes as [-> | ->]. }
  rewrite <- app_assoc.
  destruct (tail_seq_legible l r Hl Hr) as [H1 H2]. by apply Ha.
Qed.
End Sequences.

(** The tokens of a tree, followed by anything, give the tree back. *)
Lemma toks_inj s1 :
  forall s2 r1 r2, toks s1 ++ r1 = toks s2 ++ r2 -> s1 = s2 /\ r1 = r2.
Proof.
  induction s1 as [cls1 args1 IH|items1 IH|c1] using sk_induction;
    intros [cls2 args2|items2|c2] r1 r2; try discriminate.
  - rewrite !toks_SNode. cbn [app]. intros [= -> E].
    apply (tseq_inj arg_toks TClose) in E as [-> ->];
      [done|by left|apply arg_toks_opening|].
    eapply Forall_impl; [exact IH|]. clear.
    intros [n1 s1] Hs [n2 s2] x y. unfold arg_toks. cbn [fst snd] in *.
    destruct n1 as [n1|], n2 as [n2|]; cbn [name_toks app].
    + intros [= -> E]. by apply Hs in E as [-> ->].
    + destruct s2; discriminate.
    + destruct s1; discriminate.
    + intros E. by apply Hs in E as [-> ->].
  - cbn [toks app]. intros [= E].
    apply (tseq_inj toks TRBrack) in E as [-> ->];
      [done|by right|apply toks_opening|done].
  - by intros [= ->].
Qed.

Lemma toks_legible s :
  well_named s = true ->
  forall r, legible r -> closing r -> legible (toks s ++ r).
Proof.
  induction s as [cls args IH|items IH|c] using sk_induction;
    intros Hw r Hr Hc.
  - cbn [well_named] in Hw. apply andb_true_iff in Hw as [Hcls Hargs].
    rewrite toks_SNode. cbn [app legible head].
    split; [split; [done|by left]|]. split; [done|].
    apply (tseq_legible arg_toks TClose); [by left| |done].
    apply Forall_forall. intros [n s] Hin r' Hr' Hc'.
    pose proof (proj1 (forallb_forall _ _) Hargs _
                  (proj1 (list_elem_of_In _ _) Hin)) as Ha.
    cbn [fst snd] in Ha. apply andb_true_iff in Ha as [Hn Hs].
    pose proof (proj1 (Forall_forall _ _) IH _ Hin Hs r' Hr' Hc') as Hl.
    unfold arg_toks. cbn [fst snd] in *.
    destruct n as [n|]; cbn [name_toks app legible head]; [|done].
    split; [split; [done|by right]|]. by split.
  - cbn [well_named] in Hw. cbn [toks app legible]. split; [done|].
    apply (tseq_legible toks TRBrack); [by right| |done].
    apply Forall_forall. intros s Hin r' Hr' Hc'.
    apply (proj1 (Forall_forall _ _) IH _ Hin); [|done..].
    by apply (proj1 (forallb_forall _ _) Hw), list_elem_of_In.
  - cbn. split; [|done]. exact Hc.
Qed.
End Parsing.

Section Printing.
Import Ast AstLib.

Lemma string_app_nil_r (s : string) : (s ++ EmptyString)%string = s.
Proof. induction s as [|a s IH]; [done|]. by rewrite string_app_cons, IH. Qed.

Lemma render_app ts1 ts2 :
  render (ts1 ++ ts2) = (render ts1 ++ render ts2)%string.
Proof.
  induction ts1 as [|t ts1 IH]; [done|].
  cbn [app]. by rewrite !render_cons, IH, string_app_assoc.
Qed.

Lemma render_tail_seq xs close :
  render (tail_seq xs close)
  = (match xs with
     | [] => EmptyString
     | _ => ", " ++ Py.join ", " (map render xs)
     end ++ text close)%string.
Proof.
  induction xs as [|x xs IH].
  - cbn. by rewrite string_app_nil_r.
  - rewrite tail_seq_cons, render_cons, render_app, IH. cbn [text map].
    destruct xs as [|y xs]; cbn [Py.join map];
      by rewrite ?string_app_assoc, ?string_app_nil.
Qed.

Lemma render_tseq xs close :
  render (tseq xs close)
  = (Py.join ", " (map render xs) ++ text close)%string.
Proof.
  destruct xs as [|x xs]; cbn [tseq].
  - cbn. by rewrite string_app_nil_r.
  - rewrite render_app, render_tail_seq.
    destruct xs as [|y xs]; cbn [Py.join map];
      by rewrite ?string_app_assoc, ?string_app_nil.
Qed.

Lemma render_arg_toks n s :
  render (arg_toks (n, s))
  = (match n with
     | Some n => n ++ "=" ++ render (toks s)
     | None => render (toks s)
     end)%string.
Proof.
  unfold arg_toks. cbn [fst snd]. destruct n as [n|]; [|done].
  cbn [name_toks app]. rewrite !render_cons. cbn [text].
  by rewrite ?string_app_assoc.
Qed.

Lemma format_args_shown keywords fields :
  Forall (fun fv => _format fv.2 = render (toks (shown fv.2))) fields ->
  map render (map arg_toks (shown_args keywords fields))
  = format_args keywords fields.
Proof.
  intros H. revert keywords.
  induction H as [|[f v] fields Hv _ IH]; intros keywords; [done|].
  cbn [fst snd] in Hv.
  destruct v as [c fs a|items|c|]; cbn [shown_args format_args map];
    rewrite ?IH, ?render_arg_toks, <- ?Hv; try done;
    by destruct keywords.
Qed.

(** The dump of a tree is the text of the tokens of what it shows. *)
Lemma format_shown o : _format o = render (toks (shown o)).
Proof.
  induction o as [cls fields attrs IH|items IH|c|] using obj_induction.
  - rewrite format_Node, shown_Node, toks_SNode, !render_cons, render_tseq.
    cbn [text]. by rewrite format_args_shown.
  - cbn [shown toks]. rewrite render_cons, render_tseq. cbn [text].
    assert (map render (map toks (map shown items)) = map _format items) as ->.
    { rewrite !map_map. symmetry. apply map_ext_Forall. exact IH. }
    by destruct items.
  - cbn. by rewrite string_app_nil_r.
  - reflexivity.
Qed.

(** Two trees with the same dump show the same. *)
Lemma dump_inj o1 o2 :
  well_named (shown o1) = true -> well_named (shown o2) = true ->
  dump o1 = dump o2 -> shown o1 = shown o2.
Proof.
  unfold dump. rewrite !format_shown. intros H1 H2 E.
  apply render_inj in E.
  - rewrite <- (app_nil_r (toks (shown o1))) in E.
    rewrite <- (app_nil_r (toks (shown o2))) in E.
    by apply toks_inj in E as [? _].
  - rewrite <- (app_nil_r (toks _)). apply toks_legible; [done..|by left].
  - rewrite <- (app_nil_r (toks _)). apply toks_legible; [done..|by left].
Qed.
End Printing.

(** ** The shape of a statement sequence *)

(** The tree without its plain values. *)
Fixpoint blank (s : sk) : sk :=
  match s with
  | SNode cls args => SNode cls (map (fun a => (a.1, blank a.2)) args)
  | SList items => SList (map blank items)
  | SConst _ => SConst Ast.CNone
  end.

Section Kept.
Import Ast.

(** The tree without what the canonicalizer drops: the decorators, the
    return annotation and the name of a function, the decorators, the
    base classes and the name of a class, the annotation of a parameter
    and the kind of a constant. *)
Fixpoint kept (o : obj) : obj :=
  match o with
  | Node cls fields attrs =>
      if String.eqb cls "Name" then
        Node "Name" [("id", get_field "id" fields);
                     ("ctx", get_field "ctx" fields)] attrs
      else if String.eqb cls "arg" then
        Node "arg" [("arg", get_field "arg" fields); ("annotation", Unset);
                    ("type_comment", Unset)] attrs
      else if String.eqb cls "Constant" then
        Node "Constant" [("value", get_field "value" fields); ("kind", Unset)]
             attrs
      else
        let fields' :=
          map (fun fv : string * obj =>
                 let '(f, v) := fv in
                 (f, match v with
                     | PyList items => PyList (map kept items)
                     | _ => kept v
                     end)) fields in
        if String.eqb cls "FunctionDef" then
          Node cls (set_field "returns" Unset
                     (set_field "decorator_list" (PyList [])
                        (set_field "name" (Const (CStr "_fn")) fields'))) attrs
        else if String.eqb cls "ClassDef" then
          Node cls (set_field "decorator_list" (PyList [])
                     (set_field "bases" (PyList [])
                        (set_field "name" (Const (CStr "_cls")) fields'))) attrs
        else if String.eqb cls "Attribute" then
          Node "Attribute" [("value", get_field "value" fields');
                            ("attr", get_field "attr" fields');
                            ("ctx", get_field "ctx" fields')] attrs
        else Node cls fields' attrs
  | _ => o
  end.
End Kept.

(** The shape of a piece of code: the classes of the nodes that the
    canonicalizer keeps, in their order and nesting, with a blank for
    every identifier and every literal. *)
Definition skeleton (o : Ast.obj) : sk := blank (shown (kept o)).

Section Shape.
Import Ast Canonicalizer.

Definition kept_field (fv : string * obj) : string * obj :=
  (fv.1, match fv.2 with
         | PyList items => PyList (map kept items)
         | v => kept v
         end).

Lemma kept_Node cls fields attrs :
  kept (Node cls fields attrs) =
  if String.eqb cls "Name" then
    Node "Name" [("id", get_field "id" fields); ("ctx", get_field "ctx" fields)]
         attrs
  else if String.eqb cls "arg" then
    Node "arg" [("arg", get_field "arg" fields); ("annotation", Unset);
                ("type_comment", Unset)] attrs
  else if String.eqb cls "Constant" then
    Node "Constant" [("value", get_field "value" fields); ("kind", Unset)] attrs
  else if String.eqb cls "FunctionDef" then
    Node cls (set_field "returns" Unset
               (set_field "decorator_list" (PyList [])
                  (set_field "name" (Const (CStr "_fn"))
                     (map kept_field fields)))) attrs
  else if String.eqb cls "ClassDef" then
    Node cls (set_field "decorator_list" (PyList [])
               (set_field "bases" (PyList [])
                  (set_field "name" (Const (CStr "_cls"))
                     (map kept_field fields)))) attrs
  else if String.eqb cls "Attribute" then
    Node "Attribute" [("value", get_field "value" (map kept_field fields));
                      ("attr", get_field "attr" (map kept_field fields));
                      ("ctx", get_field "ctx" (map kept_field fields))] attrs
  else Node cls (map kept_field fields) attrs.
Proof.
  cbn [kept].
  assert (map (fun fv : string * obj =>
                 let '(f, v) := fv in
                 (f, match v with
                     | PyList items => PyList (map kept items)
                     | _ => kept v
                     end)) fields = map kept_field fields) as ->; [|done].
  apply map_ext. intros [f v]. by destruct v.
Qed.

(** A value after the visit and the value that was kept: both are set or
    both are not, and they have one shape. *)
Definition alike (v' k : obj) : Prop :=
  (v' = Unset <-> k = Unset) /\ blank (shown v') = blank (shown k).

Definition fields_alike (fs' ks : list (string * obj)) : Prop :=
  Forall2 (fun f' k => f'.1 = k.1 /\ alike f'.2 k.2) fs' ks.

Definition blank_arg (a : option string * sk) : option string * sk :=
  (a.1, blank a.2).

Lemma alike_refl v : alike v v.
Proof. by split. Qed.

Lemma shown_args_set keywords name v fs :
  v <> Unset ->
  shown_args keywords ((name, v) :: fs)
  = ((if keywords then Some name else None), shown v)
    :: shown_args keywords fs.
Proof. by destruct v. Qed.

Lemma shown_args_alike keywords fs' ks :
  fields_alike fs' ks ->
  map blank_arg (shown_args keywords fs')
  = map blank_arg (shown_args keywords ks).
Proof.
  intros H. revert keywords.
  induction H as [|[f' v'] [f k] fs' ks [Hf [Hu Hb]] _ IH]; intros keywords;
    [done|].
  cbn [fst snd] in *. subst f'.
  assert (v' = Unset \/ v' <> Unset) as [->|Hv']
    by (destruct v'; [by right|by right|by right|by left]).
  - rewrite (proj1 Hu eq_refl). cbn [shown_args]. apply IH.
  - assert (k <> Unset) as Hk by (intros ?; by apply Hv', Hu).
    rewrite !shown_args_set by done. cbn [map]. rewrite IH.
    unfold blank_arg at 1 3. cbn [fst snd]. by rewrite Hb.
Qed.

Lemma get_field_alike name fs' ks :
  fields_alike fs' ks -> alike (get_field name fs') (get_field name ks).
Proof.
  induction 1 as [|[f' v'] [f k] fs' ks [Hf Ha] _ IH]; [apply alike_refl|].
  cbn [fst snd get_field] in *. subst f'. by destruct (String.eqb f name).
Qed.

Lemma set_field_alike name v' k fs' ks :
  alike v' k -> fields_alike fs' ks ->
  fields_alike (set_field name v' fs') (set_field name k ks).
Proof.
  intros Hv. induction 1 as [|[f' w'] [f w] fs' ks [Hf Ha] H IH]; [constructor|].
  cbn [fst snd set_field] in *. subst f'.
  destruct (String.eqb f name); constructor; try done.
Qed.

Lemma shown_alike_Node cls fs' ks a' a :
  fields_alike fs' ks ->
  alike (Node cls fs' a') (Node cls ks a).
Proof.
  intros H. split; [done|]. rewrite !shown_Node. cbn [blank].
  f_equal. by apply (shown_args_alike false).
Qed.

Lemma attr_str_Ok {S} name node (s : S) v s' :
  attr_str name node s = Ok (v, s') ->
  get_field name (fields_of node) = Const (CStr v) /\ s' = s.
Proof.
  unfold attr_str, ret, raise.
  destruct (get_field _ _) as [| |[]|]; try done. by intros [= <- <-].
Qed.

Lemma mapM_Forall2_map {S A B C} (R : B -> C -> Prop) (f : A -> M S B)
    (g : A -> C) l :
  Forall (fun x => forall s y s', f x s = Ok (y, s') -> R y (g x)) l ->
  forall s ys s', mapM f l s = Ok (ys, s') -> Forall2 R ys (map g l).
Proof.
  induction 1 as [|x l Hx _ IH]; intros s ys s'.
  - intros [= <- <-]. constructor.
  - rewrite mapM_cons. destruct (f x s) as [[y s1]|e] eqn:E1; [|done].
    destruct (mapM f l s1) as [[ys1 s2]|e] eqn:E2; [|done].
    intros [= <- <-]. constructor; eauto.
Qed.

Lemma Forall2_map_eq {A B C} (f : A -> C) (g : B -> C) l k :
  Forall2 (fun x y => f x = g y) l k -> map f l = map g k.
Proof. induction 1; cbn; congruence. Qed.

(** A visit leaves the shape that [kept] describes. *)
Definition visit_keeps (o : obj) : Prop :=
  forall st o' st', visit o st = Ok (o', st') -> alike o' (kept o).

Lemma visit_item_keeps item :
  visit_keeps item ->
  forall st y st', visit_item visit item st = Ok (y, st') -> alike y (kept item).
Proof.
  intros H st y st'. destruct item; cbn [visit_item]; [apply H|..];
    intros [= <- <-]; apply alike_refl.
Qed.

Lemma alike_PyList items' items :
  Forall2 (fun y k => alike y k) items' items ->
  alike (PyList items') (PyList items).
Proof.
  intros H. split; [done|]. cbn [shown blank]. f_equal.
  rewrite !map_map. apply Forall2_map_eq.
  eapply Forall2_impl; [exact H|]. by intros y k [_ ?].
Qed.

Lemma visit_field_keeps fv :
  visit_keeps fv.2 ->
  match fv.2 with PyList items => Forall visit_keeps items | _ => True end ->
  forall st fv' st', visit_field visit fv st = Ok (fv', st') ->
    fv'.1 = (kept_field fv).1 /\ alike fv'.2 (kept_field fv).2.
Proof.
  destruct fv as [f v]. unfold visit_field, kept_field. cbn [fst snd].
  intros Hv Hitems st fv' st'.
  destruct v as [cls fields attrs|items|c|].
  - intros (node' & s1 & E & [= <- <-])%bind_Ok. split; [done|]. by eapply Hv.
  - intros (items' & s1 & E & [= <- <-])%bind_Ok. split; [done|].
    apply alike_PyList.
    eapply (mapM_Forall2_map _ _ kept); [|exact E].
    eapply Forall_impl; [exact Hitems|]. intros it Hit.
    by apply visit_item_keeps.
  - intros [= <- <-]. split; [done|apply alike_refl].
  - intros [= <- <-]. split; [done|apply alike_refl].
Qed.

Lemma visit_fields_keep fields :
  Forall (fun fv => visit_keeps fv.2 /\
            match fv.2 with
            | PyList items => Forall visit_keeps items
            | _ => True
            end) fields ->
  forall st fs' st', mapM (visit_field visit) fields st = Ok (fs', st') ->
    fields_alike fs' (map kept_field fields).
Proof.
  intros H st fs' st' E. unfold fields_alike.
  eapply (mapM_Forall2_map _ _ kept_field); [|exact E].
  eapply Forall_impl; [exact H|]. intros fv [Hv Hitems].
  by apply visit_field_keeps.
Qed.

Lemma alike_Const c' c : alike (Const c') (Const c).
Proof. by split. Qed.

Lemma alike_Const_l c c' k : alike (Const c) k -> alike (Const c') k.
Proof. intros [Hu Hb]. split; [|done]. split; [done|]. intros Hk. by apply Hu in Hk. Qed.

Lemma fields_alike_cons f v' k fs' ks :
  alike v' k -> fields_alike fs' ks ->
  fields_alike ((f, v') :: fs') ((f, k) :: ks).
Proof. intros Hv H. by constructor. Qed.

Lemma visit_keeps_all o :
  visit_keeps o /\
  match o with PyList items => Forall visit_keeps items | _ => True end.
Proof.
  induction o as [cls fields attrs IH|items IH|c|] using obj_induction.
  2: { split; [|by eapply Forall_impl; [exact IH|]; intros ? [? _]].
       intros st o' st' [= <- <-]. apply alike_refl. }
  2,3: split; [|done]; intros st o' st' [= <- <-]; apply alike_refl.
  split; [|done]. intros st o' st'. rewrite visit_Node, kept_Node.
  pose proof (visit_fields_keep fields IH) as Hfields.
  destruct (String.eqb cls "Name") eqn:EName.
  { unfold visit_Name. intros (id & s1 & Hid & H)%bind_Ok.
    apply attr_str_Ok in Hid as [Hid ->].
    apply bind_Ok in H as (new_id & s2 & _ & H).
    apply bind_Ok in H as (ctx & s3 & Hctx & [= <- <-]).
    pose proof Hctx as Hset. apply attr_Ok in Hctx as [-> ->].
    cbn [fields_of] in *. rewrite Hid.
    apply shown_alike_Node.
    apply fields_alike_cons; [apply alike_Const|].
    apply fields_alike_cons; [apply alike_refl|]. constructor. }
  destruct (String.eqb cls "arg") eqn:Earg.
  { unfold visit_arg. intros (id & s1 & Hid & H)%bind_Ok.
    apply attr_str_Ok in Hid as [Hid ->].
    apply bind_Ok in H as (new_id & s2 & _ & [= <- <-]).
    cbn [fields_of] in *. rewrite Hid.
    apply shown_alike_Node.
    apply fields_alike_cons; [apply alike_Const|].
    repeat (apply fields_alike_cons; [apply alike_refl|]). constructor. }
  destruct (String.eqb cls "FunctionDef") eqn:EFun.
  { replace (String.eqb cls "Constant") with false
      by (apply String.eqb_eq in EFun as ->; reflexivity).
    unfold visit_FunctionDef, generic_visit.
    intros (node & s1 & (fs' & s2 & Hfs & [= <- <-])%bind_Ok & [= <- <-])%bind_Ok.
    cbn [fields_of]. apply shown_alike_Node.
    repeat apply set_field_alike; try apply alike_refl.
    by eapply Hfields. }
  destruct (String.eqb cls "ClassDef") eqn:ECls.
  { replace (String.eqb cls "Constant") with false
      by (apply String.eqb_eq in ECls as ->; reflexivity).
    unfold visit_ClassDef, generic_visit.
    intros (node & s1 & (fs' & s2 & Hfs & [= <- <-])%bind_Ok & [= <- <-])%bind_Ok.
    cbn [fields_of]. apply shown_alike_Node.
    repeat apply set_field_alike; try apply alike_refl.
    by eapply Hfields. }
  destruct (String.eqb cls "Attribute") eqn:EAttr.
  { replace (String.eqb cls "Constant") with false
      by (apply String.eqb_eq in EAttr as ->; reflexivity).
    unfold visit_Attribute, generic_visit.
    intros (node & s1 & (fs' & s2 & Hfs & [= <- <-])%bind_Ok & H)%bind_Ok.
    apply bind_Ok in H as (a & s3 & Ha & H).
    apply attr_str_Ok in Ha as [Ha ->].
    apply bind_Ok in H as (p & s4 & _ & H).
    apply bind_Ok in H as (value & s5 & Hvalue & H).
    apply bind_Ok in H as (ctx & s6 & Hctx & [= <- <-]).
    cbn [fields_of] in *.
    specialize (Hfields _ _ _ Hfs).
    pose proof (get_field_alike "value" _ _ Hfields) as Hv.
    pose proof (get_field_alike "attr" _ _ Hfields) as Hat.
    pose proof (get_field_alike "ctx" _ _ Hfields) as Hc.
    apply attr_Ok in Hvalue as [-> ->]. apply attr_Ok in Hctx as [-> ->].
    cbn [fields_of] in *. rewrite Ha in Hat.
    apply shown_alike_Node.
    apply fields_alike_cons; [exact Hv|].
    apply fields_alike_cons; [by eapply alike_Const_l|].
    apply fields_alike_cons; [exact Hc|]. constructor. }
  destruct (String.eqb cls "Constant") eqn:EConst.
  { unfold visit_Constant. cbn [fields_of].
    destruct (get_field "value" fields) as [| |c|] eqn:Hval; try done.
    intros (p & s1 & _ & [= <- <-])%bind_Ok.
    apply shown_alike_Node.
    apply fields_alike_cons; [apply alike_Const|].
    apply fields_alike_cons; [apply alike_refl|]. constructor. }
  unfold generic_visit.
  intros (fs' & s2 & Hfs & [= <- <-])%bind_Ok.
  apply shown_alike_Node. by eapply Hfields.
Qed.
End Shape.

Section ShapeOfDump.
Import Ast AstLib.

Lemma shown_args_erase keywords fields :
  Forall (fun fv => shown (erase fv.2) = shown fv.2) fields ->
  shown_args keywords (map erase_field fields) = shown_args keywords fields.
Proof.
  intros H. revert keywords.
  induction H as [|[f v] fields Hv _ IH]; intros keywords; [done|].
  cbn [map fst snd] in *. change (erase_field (f, v)) with (f, erase v).
  destruct v as [c fs a|items|c|].
  - rewrite !shown_args_set by done. by rewrite Hv, IH.
  - rewrite !shown_args_set by done. by rewrite Hv, IH.
  - cbn [erase shown_args]. by rewrite IH.
  - cbn [erase shown_args]. by rewrite IH.
Qed.

(** What a tree shows does not depend on its locations. *)
Lemma shown_erase o : shown (erase o) = shown o.
Proof.
  induction o as [cls fields attrs IH|items IH|c|] using obj_induction;
    try done.
  - rewrite erase_Node, !shown_Node. by rewrite shown_args_erase.
  - cbn [erase shown]. f_equal. rewrite map_map. by apply map_ext_Forall.
Qed.

Lemma shown_fix o ln en : shown (_fix o ln en) = shown o.
Proof. by rewrite <- (shown_erase (_fix o ln en)), fix_erase, shown_erase. Qed.

Lemma well_named_blank s : well_named (blank s) = well_named s.
Proof.
  induction s as [cls args IH|items IH|c] using sk_induction; try done.
  - cbn [blank well_named]. f_equal.
    induction IH as [|[n a] args Ha _ IHargs]; [done|].
    cbn [map forallb fst snd] in *. by rewrite Ha, IHargs.
  - cbn [blank well_named].
    induction IH as [|a items Ha _ IHitems]; [done|].
    cbn [map forallb]. by rewrite Ha, IHitems.
Qed.

(** The shape of the synthetic module is made of the shapes of the
    statements. *)
Lemma skeleton_module stmts :
  skeleton (Block.module_of stmts)
  = SNode "Module" [(None, SList (map skeleton stmts)); (None, SList [])].
Proof.
  unfold skeleton, Block.module_of. rewrite kept_Node.
  cbn -[kept shown blank kept_field]. unfold kept_field. cbn [fst snd].
  rewrite shown_Node. cbn [shown_args shown blank map fst snd].
  by rewrite !map_map.
Qed.

(** The shape of the module that is dumped. *)
Lemma canonical_module_shape stmts module2 :
  Block.canonical_module stmts = Ok module2 ->
  blank (shown module2) = skeleton (Block.module_of stmts).
Proof.
  unfold Block.canonical_module.
  destruct (Canonicalizer.visit _ _) as [[m st]|e] eqn:E; [|done].
  intros [= <-]. unfold fix_missing_locations. rewrite shown_fix.
  by destruct (proj1 (visit_keeps_all _) _ _ _ E).
Qed.

(** A statement and its shape are of one class. *)
Lemma skeleton_class cls fields attrs :
  exists args, skeleton (Node cls fields attrs) = SNode cls args.
Proof.
  unfold skeleton. rewrite kept_Node.
  repeat (case_match; [match goal with
                       | H : String.eqb _ _ = true |- _ =>
                           apply String.eqb_eq in H; subst
                       end; rewrite shown_Node; by eexists|]).
  rewrite shown_Node. by eexists.
Qed.
End ShapeOfDump.

(** Two sequences of one shape have statements of the same classes at
    the same places. *)
Lemma skeleton_classes (stmts1 stmts2 : list Ast.obj) :
  map skeleton stmts1 = map skeleton stmts2 ->
  map Ast.cls_of stmts1 = map Ast.cls_of stmts2.
Proof.
  revert stmts2. induction stmts1 as [|o1 l1 IH]; intros [|o2 l2]; try done.
  cbn [map]. intros [= E El]. f_equal; [|by apply IH].
  destruct o1 as [c1 f1 a1| | |], o2 as [c2 f2 a2| | |]; try done;
    try (destruct (skeleton_class c1 f1 a1) as [args1 E1]; rewrite E1 in E);
    try (destruct (skeleton_class c2 f2 a2) as [args2 E2]; rewrite E2 in E);
    try discriminate E.
  by injection E as ->.
Qed.

(** C4 (as amended). Two statement sequences on which
    [canonical_block_dump] returns and that differ in shape, that is, in
    the classes, the order or the nesting of the nodes that the
    canonicalizer keeps, never have the same dump; the hash of each is
    the SHA-256 digest of its dump. The class names and the keywords of
    the dump are taken to be identifiers. *)
Theorem shape_sensitivity (stmts1 stmts2 : list Ast.obj)
    (h1 d1 h2 d2 : string) :
  forallb (fun s => well_named (skeleton s)) stmts1 = true ->
  forallb (fun s => well_named (skeleton s)) stmts2 = true ->
  Block.canonical_block_dump stmts1 = Ast.Ok (h1, d1) ->
  Block.canonical_block_dump stmts2 = Ast.Ok (h2, d2) ->
  map skeleton stmts1 <> map skeleton stmts2 ->
  d1 <> d2 /\ h1 = Sha256.sha256_hex d1 /\ h2 = Sha256.sha256_hex d2.
Proof.
  intros Hw1 Hw2. unfold Block.canonical_block_dump.
  destruct (Block.canonical_module stmts1) as [m1|e1] eqn:E1; [|done].
  destruct (Block.canonical_module stmts2) as [m2|e2] eqn:E2; [|done].
  intros [= <- <-] [= <- <-] Hshape. split; [|done].
  intros Hd. apply Hshape.
  apply canonical_module_shape in E1, E2.
  rewrite skeleton_module in E1, E2.
  assert (forall m stmts,
            blank (shown m)
            = SNode "Module" [(None, SList (map skeleton stmts)); (None, SList [])] ->
            forallb (fun s => well_named (skeleton s)) stmts = true ->
            well_named (shown m) = true) as Hnamed.
  { intros m stmts Em Hw. rewrite <- well_named_blank, Em.
    cbn [well_named forallb fst snd].
    assert (forallb well_named (map skeleton stmts) = true) as ->;
      [|reflexivity].
    clear Em. induction stmts as [|s stmts IH]; [done|].
    cbn [forallb map] in *. apply andb_true_iff in Hw as [-> Hw].
    by rewrite IH. }
  apply dump_inj in Hd; [|by eapply Hnamed..].
  rewrite Hd, E2 in E1. by injection E1 as ->.
Qed.

Section ShapeInstances.
Import Ast Syntax.

(** [x = 1] and [pass], in the two orders. *)
Definition assign_then_pass : list obj :=
  [Assign_ [Name_ "x" Store_ 1] (Constant_ (CInt 1) 1 1) 1 1; Pass_ 2 2].
Definition pass_then_assign : list obj :=
  [Pass_ 1 1; Assign_ [Name_ "x" Store_ 2] (Constant_ (CInt 1) 2 2) 2 2].

(** The two orders of [x = 1] and [y = 2] are of one shape, and so are
    the function with and without its decorator. *)
Example same_shape_examples :
  map skeleton x_then_y = map skeleton y_then_x
  /\ map skeleton plain_def = map skeleton decorated_def.
Proof. split; reflexivity. Qed.
End ShapeInstances.

(** [x = 1; pass] and [pass; x = 1] differ in shape and in their
    dumps. *)
Lemma shape_sensitivity_witness :
  "Module([Assign([Name('_N0', Store())], Constant('_C0')), Pass()], [])"
  <> "Module([Pass(), Assign([Name('_N0', Store())], Constant('_C0'))], [])"
  /\ "fe05b5879891fe5d73b08889641f670deb0d41a08d332e04dfb2b5021bbebabb"
     = Sha256.sha256_hex
         "Module([Assign([Name('_N0', Store())], Constant('_C0')), Pass()], [])"
  /\ "988072cd517345d2967dce837134ed4da8f63537c07842a7a0fb2644331ef62d"
     = Sha256.sha256_hex
         "Module([Pass(), Assign([Name('_N0', Store())], Constant('_C0'))], [])".
Proof.
  apply (shape_sensitivity assign_then_pass pass_then_assign).
  - reflexivity.
  - reflexivity.
  - vm_compute. reflexivity.
  - vm_compute. reflexivity.
  - vm_compute. discriminate.
Defined.

(** ** A pass as a history of requests *)

Section Histories.
Import Ast Canonicalizer.

(** [st'] is reached from [st] by serving some requests. *)
Definition serves (st st' : state) : Prop :=
  exists history ps, mapM serve history st = Ok (ps, st').

Lemma serves_refl st : serves st st.
Proof. by exists [], []. Qed.

Lemma serves_trans st1 st2 st3 :
  serves st1 st2 -> serves st2 st3 -> serves st1 st3.
Proof.
  intros (h1 & ps1 & H1) (h2 & ps2 & H2). exists (h1 ++ h2), (ps1 ++ ps2).
  revert st1 ps1 H1. induction h1 as [|r h1 IH]; intros st1 ps1.
  - by intros [= <- <-].
  - rewrite mapM_cons.
    destruct (serve r st1) as [[p s1]|e] eqn:E1; [|done].
    destruct (mapM serve h1 s1) as [[ps s2]|e] eqn:E2; [|done].
    intros [= <- <-]. cbn [app]. rewrite mapM_cons, E1.
    by rewrite (IH _ _ E2).
Qed.

Lemma serves_one r st p st' : serve r st = Ok (p, st') -> serves st st'.
Proof.
  intros H. exists [r], [p]. rewrite mapM_cons, H. reflexivity.
Qed.

Lemma mapM_serves {A B} (f : A -> M state B) l :
  Forall (fun x => forall st y st', f x st = Ok (y, st') -> serves st st') l ->
  forall st ys st', mapM f l st = Ok (ys, st') -> serves st st'.
Proof.
  induction 1 as [|x l Hx _ IH]; intros st ys st'.
  - intros [= <- <-]. apply serves_refl.
  - rewrite mapM_cons. destruct (f x st) as [[y s1]|e] eqn:E1; [|done].
    destruct (mapM f l s1) as [[ys1 s2]|e] eqn:E2; [|done].
    intros [= <- <-]. eapply serves_trans; eauto.
Qed.

Definition visit_serves_at (o : obj) : Prop :=
  forall st o' st', visit o st = Ok (o', st') -> serves st st'.

Lemma visit_fields_serve fields :
  Forall (fun fv => visit_serves_at fv.2 /\
            match fv.2 with
            | PyList items => Forall visit_serves_at items
            | _ => True
            end) fields ->
  forall st fs st', mapM (visit_field visit) fields st = Ok (fs, st') ->
    serves st st'.
Proof.
  intros H. apply mapM_serves. eapply Forall_impl; [exact H|].
  intros [f v] [Hv Hitems] st y st'. unfold visit_field. cbn [fst snd] in *.
  destruct v as [cls fs a|items|c|].
  - intros (n & s1 & E & [= <- <-])%bind_Ok. by eapply Hv.
  - intros (l & s1 & E & [= <- <-])%bind_Ok. revert E. apply mapM_serves.
    eapply Forall_impl; [exact Hitems|]. intros it Hit s y s'.
    destruct it; cbn [visit_item]; [apply Hit|..];
      intros [= <- <-]; apply serves_refl.
  - intros [= <- <-]. apply serves_refl.
  - intros [= <- <-]. apply serves_refl.
Qed.

(** Every pass of the canonicalizer over a tree is the service of a
    history of requests: the state changes through [_map_name],
    [_map_const] and the numbering of attributes, and in no other
    way. *)
Lemma visit_serves o :
  visit_serves_at o /\
  match o with PyList items => Forall visit_serves_at items | _ => True end.
Proof.
  induction o as [cls fields attrs IH|items IH|c|] using obj_induction.
  2: { split; [|by eapply Forall_impl; [exact IH|]; intros ? [? _]].
       intros st o' st' [= <- <-]. apply serves_refl. }
  2,3: split; [|done]; intros st o' st' [= <- <-]; apply serves_refl.
  split; [|done]. intros st o' st'. rewrite visit_Node.
  pose proof (visit_fields_serve fields IH) as Hfields.
  repeat case_match.
  - unfold visit_Name. intros (id & s1 & Hid & K)%bind_Ok.
    apply attr_str_Ok in Hid as [_ ->].
    apply bind_Ok in K as (p & s2 & Hp & K).
    apply bind_Ok in K as (ctx & s3 & Hctx & [= <- <-]).
    apply attr_Ok in Hctx as [_ ->]. by apply (serves_one (ReqName id) _ p).
  - unfold visit_arg. intros (id & s1 & Hid & K)%bind_Ok.
    apply attr_str_Ok in Hid as [_ ->].
    apply bind_Ok in K as (p & s2 & Hp & [= <- <-]).
    by apply (serves_one (ReqName id) _ p).
  - unfold visit_FunctionDef, generic_visit.
    intros (n & s1 & (fs & s2 & Hfs & [= <- <-])%bind_Ok & [= <- <-])%bind_Ok.
    by eapply Hfields.
  - unfold visit_ClassDef, generic_visit.
    intros (n & s1 & (fs & s2 & Hfs & [= <- <-])%bind_Ok & [= <- <-])%bind_Ok.
    by eapply Hfields.
  - unfold visit_Attribute, generic_visit.
    intros (n & s1 & (fs & s2 & Hfs & [= <- <-])%bind_Ok & K)%bind_Ok.
    apply bind_Ok in K as (a & s3 & Ha & K).
    apply attr_str_Ok in Ha as [_ ->].
    apply bind_Ok in K as (p & s4 & Hp & K).
    apply bind_Ok in K as (value & s5 & Hvalue & K).
    apply bind_Ok in K as (ctx & s6 & Hctx & [= <- <-]).
    apply attr_Ok in Hvalue as [_ ->]. apply attr_Ok in Hctx as [_ ->].
    eapply serves_trans; [by eapply Hfields|].
    by apply (serves_one (ReqAttr a) _ p).
  - unfold visit_Constant. cbn [fields_of].
    destruct (get_field "value" fields) as [| |c|]; try done.
    intros (p & s1 & Hp & [= <- <-])%bind_Ok.
    by apply (serves_one (ReqConst c) _ p).
  - unfold generic_visit. intros (fs & s2 & Hfs & [= <- <-])%bind_Ok.
    by eapply Hfields.
Qed.

(** The state in which [canonical_block_dump] leaves its canonicalizer
    is the state after a history of requests. *)
Lemma pass_is_history stmts module2 st :
  visit (Block.module_of stmts) init = Ok (module2, st) ->
  exists history ps, mapM serve history init = Ok (ps, st).
Proof. apply (proj1 (visit_serves _)). Qed.
End Histories.

(** * Further properties *)

(** ** The line-range test *)

Section LineRangeTest.
Import Filter.

Lemma pair_leb_antisym a b :
  Py.pair_leb a b = true -> Py.pair_leb b a = true -> a = b.
Proof.
  destruct a as [a1 a2], b as [b1 b2]. unfold Py.pair_leb. cbn [fst snd].
  intros H1 H2. f_equal; lia.
Qed.

Lemma sorted_perm l1 l2 : l1 ≡ₚ l2 -> Py.sorted l1 = Py.sorted l2.
Proof.
  intros Hp. unfold Py.sorted.
  apply (StronglySorted_unique_strong (fun a b => Py.pair_leb a b = true)).
  - intros x1 x2 _ _. apply pair_leb_antisym.
  - apply sort_by_sorted; [apply pair_leb_total|apply pair_leb_trans].
  - apply sort_by_sorted; [apply pair_leb_total|apply pair_leb_trans].
  - by rewrite !sort_by_perm.
Qed.
End LineRangeTest.

(** X1. The verdict of [_is_trivial_by_line_ranges] does not depend on the
    order in which the occurrences are listed. *)
Theorem line_range_test_order_independent (l1 l2 : list (Z * Z)) :
  l1 ≡ₚ l2 ->
  Filter._is_trivial_by_line_ranges l1 = Filter._is_trivial_by_line_ranges l2.
Proof.
  intros Hp. unfold Filter._is_trivial_by_line_ranges.
  by rewrite (Permutation_length Hp), (sorted_perm l1 l2 Hp).
Qed.

(** The three ranges of the second docstring example in two orders. *)
Lemma line_range_test_order_independent_witness :
  Filter._is_trivial_by_line_ranges [(38, 40); (36, 38); (37, 39)]
  = Filter._is_trivial_by_line_ranges [(36, 38); (37, 39); (38, 40)].
Proof.
  apply line_range_test_order_independent.
  apply (Permutation_cons_append [(36, 38); (37, 39)] (38, 40)).
Defined.

(** X2. A group of two or more ranges that the line-range test lets through
    has no range with [end - start = 1] and no two ranges that share a
    line, in whatever order the ranges are listed. *)
Theorem passed_ranges_share_no_line (l : list (Z * Z)) :
  (2 <= length l)%nat ->
  Filter._is_trivial_by_line_ranges l = false ->
  pairwise_disjoint l /\ Forall (fun se => se.2 - se.1 <> 1) l.
Proof.
  intros Hlen H. split; [by apply not_trivial_disjoint|].
  apply Forall_forall. intros [s e] Hin Hse. cbn [fst snd] in Hse.
  assert (Filter._is_trivial_by_line_ranges l = true) as Ht; [|congruence].
  unfold Filter._is_trivial_by_line_ranges.
  destruct (length l <? 2)%nat eqn:E; [apply Nat.ltb_lt in E; lia|].
  apply scan_true_iff.
  assert ((s, e) ∈ Py.sorted l) as Hs
    by (unfold Py.sorted; by rewrite sort_by_perm).
  apply list_elem_of_lookup in Hs as [i Hi].
  exists i, s, e. split; [done|by left].
Qed.

Lemma passed_ranges_share_no_line_witness :
  pairwise_disjoint [(30, 33); (10, 13); (20, 23)]
  /\ Forall (fun se => se.2 - se.1 <> 1) [(30, 33); (10, 13); (20, 23)].
Proof. apply passed_ranges_share_no_line; [cbn; lia|reflexivity]. Defined.

(** ** Occurrences with the same range *)

Section Dedupe.
Import Selector.

Lemma dict_set_elem {K V} `{EqDecision K} (k k' : K) (v v' : V) d :
  NoDup d.*1 ->
  (k', v') ∈ Py.dict_set k v d ->
  (k' = k /\ v' = v) \/ (k' <> k /\ (k', v') ∈ d).
Proof.
  induction d as [|[k0 v0] d IH]; cbn [Py.dict_set fmap list_fmap fst].
  - intros _ [= -> ->]%list_elem_of_singleton. by left.
  - intros [Hk0 Hnd]%NoDup_cons. destruct (decide (k = k0)) as [->|Hne].
    + intros [[= -> ->]|Hin]%elem_of_cons; [by left|].
      right. split; [|by right]. intros ->. apply Hk0.
      apply list_elem_of_fmap. by exists (k0, v').
    + intros [[= -> ->]|Hin]%elem_of_cons.
      * right. split; [done|by left].
      * destruct (IH Hnd Hin) as [?|[? ?]]; [by left|].
        right. split; [done|by right].
Qed.

Lemma seen_of_snoc occ o :
  seen_of (occ ++ [o]) = Py.dict_set (span o) o.2 (seen_of occ).
Proof. unfold seen_of. by rewrite foldl_app. Qed.

Lemma seen_of_NoDup occ : NoDup (seen_of occ).*1.
Proof. rewrite <- map_span_fst. apply occ_unique_NoDup. Qed.

(** Each entry of [seen] is the last occurrence with its range. *)
Lemma seen_of_last occ o :
  o ∈ seen_of occ ->
  exists pre post, occ = pre ++ o :: post /\ span o ∉ map span post.
Proof.
  revert o. induction occ as [|x occ IH] using rev_ind; intros o.
  - by intros ?%elem_of_nil.
  - rewrite seen_of_snoc. destruct o as [k d]. intros Hin.
    apply dict_set_elem in Hin as [[-> ->]|[Hne Hin]]; [| |apply seen_of_NoDup].
    + exists occ, []. split; [by destruct x as [[? ?] ?]|]. apply not_elem_of_nil.
    + destruct (IH _ Hin) as (pre & post & -> & Hpost).
      exists pre, (post ++ [x]). split; [by rewrite <- app_assoc|].
      rewrite map_app. cbn [map]. rewrite elem_of_app, list_elem_of_singleton.
      intros [?|E]; [done|]. apply Hne.
      destruct k, x as [[? ?] ?]. exact E.
Qed.
End Dedupe.

(** X3. [occ_unique] holds every [(start, end)] range of the group exactly
    once, two ranges with the same start and different ends both, and
    with each range the dump of the last occurrence that has it. *)
Theorem occ_unique_one_per_range (occ : list Selector.occurrence) :
  NoDup (map Selector.span (Selector.occ_unique_of occ))
  /\ (forall se, se ∈ map Selector.span (Selector.occ_unique_of occ)
                 <-> se ∈ map Selector.span occ)
  /\ (forall o, o ∈ Selector.occ_unique_of occ ->
        exists pre post, occ = pre ++ o :: post
                         /\ Selector.span o ∉ map Selector.span post).
Proof.
  split_and!.
  - apply occ_unique_NoDup.
  - intros se. by rewrite occ_unique_spans, elem_of_remove_dups.
  - apply seen_of_last.
Qed.

(** ** The length of a candidate group *)

Section Spread.
Import Selector.

Lemma min_of_spec x l :
  min_of x l ∈ x :: l /\ Forall (fun y => min_of x l <= y) (x :: l).
Proof.
  unfold min_of. revert x. induction l as [|y l IH]; intros x; cbn [foldl].
  - split; [by left|]. constructor; [lia|constructor].
  - destruct (IH (Z.min x y)) as [Hin Hall].
    apply Forall_cons in Hall as [Hm Hall]. split.
    + apply elem_of_cons in Hin as [->|Hin]; [|by do 2 right].
      destruct (Z.min_spec x y) as [[_ ->]|[_ ->]]; [by left|by right; left].
    + constructor; [lia|]. constructor; [lia|done].
Qed.

Lemma max_of_spec x l :
  max_of x l ∈ x :: l /\ Forall (fun y => y <= max_of x l) (x :: l).
Proof.
  unfold max_of. revert x. induction l as [|y l IH]; intros x; cbn [foldl].
  - split; [by left|]. constructor; [lia|constructor].
  - destruct (IH (Z.max x y)) as [Hin Hall].
    apply Forall_cons in Hall as [Hm Hall]. split.
    + apply elem_of_cons in Hin as [->|Hin]; [|by do 2 right].
      destruct (Z.max_spec x y) as [[_ ->]|[_ ->]]; [by right; left|by left].
    + constructor; [lia|]. constructor; [lia|done].
Qed.
End Spread.

(** X4. The [length] of a candidate group, the second key of the ranking,
    is the number of lines from the smallest start line to the largest
    end line among the occurrences of the group, and not the number of
    lines of an occurrence. *)
Theorem candidate_length_is_spread (h : string)
    (occ : list Selector.occurrence) (c : Selector.candidate) :
  Selector.candidate_of (h, occ) = Some c ->
  exists first last_ : Selector.occurrence,
    first ∈ Selector.occ_unique_of occ
    /\ last_ ∈ Selector.occ_unique_of occ
    /\ Selector.cand_length c = last_.1.2 - first.1.1 + 1
    /\ forall o, o ∈ Selector.occ_unique_of occ ->
         first.1.1 <= o.1.1 /\ o.1.2 <= last_.1.2.
Proof.
  unfold Selector.candidate_of.
  destruct (length (Selector.occ_unique_of occ) <? 3)%nat; [done|].
  destruct (Selector.occ_unique_of occ) as [|o0 rest]; [done|].
  destruct (Filter.is_trivial_dump _ _); [done|].
  intros [= <-]. cbn [Selector.cand_length].
  destruct (min_of_spec o0.1.1 (map (fun o : Selector.occurrence => o.1.1) rest))
    as [Hmin Hle].
  destruct (max_of_spec o0.1.2 (map (fun o : Selector.occurrence => o.1.2) rest))
    as [Hmax Hge].
  change (o0.1.1 :: map (fun o : Selector.occurrence => o.1.1) rest)
    with (map (fun o : Selector.occurrence => o.1.1) (o0 :: rest)) in Hmin, Hle.
  change (o0.1.2 :: map (fun o : Selector.occurrence => o.1.2) rest)
    with (map (fun o : Selector.occurrence => o.1.2) (o0 :: rest)) in Hmax, Hge.
  apply list_elem_of_fmap in Hmin as (first & Hf & Hfin).
  apply list_elem_of_fmap in Hmax as (last_ & Hl & Hlin).
  cbn beta in Hf, Hl. unfold Selector.occurrence in *.
  rewrite Hf in Hle |- *. rewrite Hl in Hge |- *.
  exists first, last_. split_and!; [done|done|lia|].
  intros o Ho. split.
  - apply (proj1 (Forall_forall _ _) Hle). apply list_elem_of_fmap. by exists o.
  - apply (proj1 (Forall_forall _ _) Hge). apply list_elem_of_fmap. by exists o.
Qed.

(** ** The ranking and the greedy loop *)

Section Ranking.
Import Selector.

Lemma key_geb_total a b : key_geb a b = true \/ key_geb b a = true.
Proof.
  unfold key_geb.
  destruct (Nat.lt_trichotomy (cand_count a) (cand_count b)) as [H|[H|H]].
  - right. apply orb_true_iff. left. by apply Nat.ltb_lt.
  - destruct (Z.le_gt_cases (cand_length b) (cand_length a)).
    + left. apply orb_true_iff. right. apply andb_true_iff.
      split; [by apply Nat.eqb_eq|by apply Z.leb_le].
    + right. apply orb_true_iff. right. apply andb_true_iff.
      split; [by apply Nat.eqb_eq|apply Z.leb_le; lia].
  - left. apply orb_true_iff. left. by apply Nat.ltb_lt.
Qed.

Lemma key_geb_spec a b :
  key_geb a b = true <->
  (cand_count b < cand_count a)%nat \/
  (cand_count a = cand_count b /\ cand_length b <= cand_length a).
Proof.
  unfold key_geb.
  rewrite orb_true_iff, andb_true_iff, Nat.ltb_lt, Nat.eqb_eq, Z.leb_le.
  tauto.
Qed.

Lemma key_geb_trans a b c :
  key_geb a b = true -> key_geb b c = true -> key_geb a c = true.
Proof. rewrite !key_geb_spec. lia. Qed.

Lemma filter_sorted {A} (R : A -> A -> Prop) (f : A -> bool) l :
  StronglySorted R l -> StronglySorted R (List.filter f l).
Proof.
  induction 1 as [|x l Hs IH Hx]; cbn [List.filter]; [constructor|].
  destruct (f x); [|done]. constructor; [done|].
  apply Forall_forall. intros y Hy.
  apply list_elem_of_In, filter_In in Hy as [Hy _].
  by apply (proj1 (Forall_forall _ _) Hx), list_elem_of_In.
Qed.
(** Insertion of [x] leaves alone the members of a class [p] that [x]
    may stay in front of. *)
Lemma insert_sorted_filter {A} (leb : A -> A -> bool) (p : A -> bool) x l :
  (forall y, p y = true -> leb x y = true) ->
  List.filter p (Py.insert_sorted leb x l)
  = List.filter p [x] ++ List.filter p l.
Proof.
  intros Hx. induction l as [|y l IH]; cbn [Py.insert_sorted]; [by rewrite app_nil_r|].
  destruct (leb x y) eqn:E.
  - cbn [List.filter]. by destruct (p x).
  - cbn [List.filter] in *. destruct (p y) eqn:Ey.
    + rewrite (Hx y Ey) in E. done.
    + exact IH.
Qed.

Lemma insert_sorted_filter_out {A} (leb : A -> A -> bool) (p : A -> bool) x l :
  p x = false ->
  List.filter p (Py.insert_sorted leb x l) = List.filter p l.
Proof.
  intros Hx. induction l as [|y l IH]; cbn [Py.insert_sorted List.filter].
  - by rewrite Hx.
  - destruct (leb x y); cbn [List.filter]; [by rewrite Hx|].
    by rewrite IH.
Qed.

(** The sort is stable: the members of a class of elements that compare
    equal keep their order. *)
Lemma sort_by_stable {A} (leb : A -> A -> bool) (p : A -> bool) l :
  (forall x y, p x = true -> p y = true -> leb x y = true) ->
  List.filter p (Py.sort_by leb l) = List.filter p l.
Proof.
  intros Hp. induction l as [|x l IH]; [done|].
  cbn [Py.sort_by foldr]. fold (Py.sort_by leb l).
  destruct (p x) eqn:Ex.
  - rewrite insert_sorted_filter by (intros y Hy; by apply Hp).
    cbn [List.filter]. by rewrite Ex, IH.
  - rewrite insert_sorted_filter_out by done.
    cbn [List.filter]. by rewrite Ex, IH.
Qed.
End Ranking.

(** The groups with the key [(count, length)]. *)
Definition has_key (count : nat) (length_ : Z) (c : Selector.candidate) : bool :=
  (Selector.cand_count c =? count)%nat && (Selector.cand_length c =? length_).

(** X5. The greedy loop takes the candidate groups in descending order of
    [(count, length)]: every group comes before the groups with a
    smaller count, and before those with its count and a smaller
    [length]; groups with the same count and [length] stay in the order
    of the dictionary; no group is lost or added by the sort. *)
Theorem ranking_is_descending_and_stable (cands : list Selector.candidate) :
  Selector.rank cands ≡ₚ cands
  /\ StronglySorted
       (fun a b =>
          (Selector.cand_count b < Selector.cand_count a)%nat \/
          (Selector.cand_count a = Selector.cand_count b /\
           Selector.cand_length b <= Selector.cand_length a))
       (Selector.rank cands)
  /\ forall count length_,
       List.filter (has_key count length_) (Selector.rank cands)
       = List.filter (has_key count length_) cands.
Proof.
  split_and!; [apply rank_perm| |].
  - pose proof (sort_by_sorted Selector.key_geb key_geb_total key_geb_trans
                  cands) as H.
    unfold Selector.rank.
    induction H as [|x l Hs IH Hx]; constructor; [done|].
    eapply Forall_impl; [exact Hx|]. intros y. apply key_geb_spec.
  - intros count length_. apply sort_by_stable.
    intros x y [Hx1 Hx2]%andb_true_iff [Hy1 Hy2]%andb_true_iff.
    apply key_geb_spec. apply Nat.eqb_eq in Hx1, Hy1. apply Z.eqb_eq in Hx2, Hy2.
    lia.
Qed.

Section Selections.
Import Selector.
Variable set_order : list (Z * Z) -> list (Z * Z).

(** What the greedy loop records of a group. *)
Definition well_formed (s : selection) : Prop :=
  (exists rest, sel_matches s = sel_primary s :: rest /\ rest <> []) /\
  sel_count s = length (sel_matches s) /\
  StronglySorted (fun a b => a.1 <= b.1) (sel_matches s).

Lemma occs_of_sorted c :
  StronglySorted (fun a b => a.1 <= b.1) (occs_of set_order c).
Proof.
  unfold occs_of.
  pose proof (sort_by_sorted (fun a b : Z * Z => a.1 <=? b.1)
                ltac:(intros x y; cbn; lia) ltac:(intros x y z; cbn; lia)
                (set_order (map span (cand_occurrences c)))) as H.
  induction H as [|x l Hs IH Hx]; constructor; [done|].
  eapply Forall_impl; [exact Hx|]. intros y. cbn. lia.
Qed.

Lemma select_step_well_formed st c :
  Forall well_formed st.1 ->
  Forall well_formed (select_step set_order st c).1.
Proof.
  destruct st as [selected occupied]. unfold select_step. cbn [fst].
  intros Hall.
  pose proof (filter_sorted (fun a b : Z * Z => a.1 <= b.1)
                (fun se => negb (range_overlaps_with_occupied occupied se.1 se.2))
                _ (occs_of_sorted c)) as Hsorted.
  destruct (List.filter _ _) as [|primary [|second rest]] eqn:E;
    cbn [length Nat.ltb Nat.leb]; try done.
  cbn [fst]. apply Forall_app. split; [done|].
  apply Forall_singleton. split_and!; cbn; [|done|done].
  by exists (second :: rest).
Qed.

Lemma select_well_formed seqs : Forall well_formed (select set_order seqs).
Proof.
  unfold select, greedy.
  assert (forall cands st, Forall well_formed st.1 ->
            Forall well_formed (foldl (select_step set_order) st cands).1) as H.
  { induction cands as [|c cands IH]; intros st Hst; [done|].
    cbn [foldl]. by apply IH, select_step_well_formed. }
  by apply H.
Qed.

(** The hashes of the groups selected by the loop, in order, are among
    those of the candidates, in order. *)
Lemma greedy_hashes_sublist cands st :
  exists l, map sel_hash (foldl (select_step set_order) st cands).1
            = map sel_hash st.1 ++ l
            /\ sublist l (map cand_hash cands).
Proof.
  revert st. induction cands as [|c cands IH]; intros st.
  - exists []. by rewrite app_nil_r.
  - cbn [foldl]. destruct (IH (select_step set_order st c)) as (l & -> & Hl).
    destruct (select_step_cases set_order st c) as [->|(s & -> & Hs)].
    + exists l. split; [done|]. by apply sublist_cons.
    + exists (sel_hash s :: l). rewrite map_app, <- app_assoc. split; [done|].
      cbn [map]. rewrite Hs. by apply sublist_skip.
Qed.

Lemma candidates_hashes_sublist seqs :
  sublist (map cand_hash (candidates_of seqs)) seqs.*1.
Proof.
  unfold candidates_of. induction seqs as [|[h occ] seqs IH]; [done|].
  cbn [omap list_omap fmap list_fmap fst].
  destruct (candidate_of (h, occ)) as [c|] eqn:E.
  - apply candidate_of_Some in E as [<- _]. cbn [map]. by apply sublist_skip.
  - by apply sublist_cons.
Qed.
(** Where a selected group comes from. *)
Lemma select_step_origin st c :
  select_step set_order st c = st \/
  exists s, (select_step set_order st c).1 = st.1 ++ [s] /\
            sel_hash s = cand_hash c /\ sel_length s = cand_length c /\
            sublist (sel_matches s) (occs_of set_order c).
Proof.
  destruct st as [selected occupied]. unfold select_step.
  destruct (length _ <? 2)%nat; [by left|].
  destruct (List.filter _ _) eqn:E; [by left|].
  right. eexists. split; [reflexivity|]. cbn. split_and!; [done..|].
  rewrite <- E. apply filter_sublist.
Qed.

Lemma greedy_fold_origin cands st s :
  s ∈ (foldl (select_step set_order) st cands).1 ->
  s ∈ st.1 \/
  exists c, c ∈ cands /\ sel_hash s = cand_hash c /\
            sel_length s = cand_length c /\
            sublist (sel_matches s) (occs_of set_order c).
Proof.
  revert st. induction cands as [|c cands IH]; intros st Hs; [by left|].
  cbn [foldl] in Hs. apply IH in Hs as [Hs|(c' & ? & ?)].
  - destruct (select_step_origin st c) as [E|(s' & E & Hh)].
    + rewrite E in Hs. by left.
    + rewrite E in Hs.
      apply elem_of_app in Hs as [?| ->%list_elem_of_singleton]; [by left|].
      right. exists c. split; [by left|done].
  - right. exists c'. split; [by right|done].
Qed.

Hypothesis set_order_perm : forall l, set_order l ≡ₚ remove_dups l.

Lemma select_origin seqs s :
  s ∈ select set_order seqs ->
  exists occ c, (sel_hash s, occ) ∈ seqs
    /\ candidate_of (sel_hash s, occ) = Some c
    /\ sel_length s = cand_length c
    /\ forall se, se ∈ sel_matches s -> se ∈ map span (occ_unique_of occ).
Proof.
  unfold select, greedy. intros Hs.
  apply greedy_fold_origin in Hs as [Hs|(c & Hc & Hh & Hl & Hm)];
    [by apply elem_of_nil in Hs|].
  rewrite rank_perm in Hc.
  apply list_elem_of_omap in Hc as ([h occ] & Hin & Hc).
  pose proof (candidate_of_Some _ _ _ Hc) as (Hh' & Ho & _).
  exists occ, c. rewrite Hh, Hh'. split_and!; [done..|].
  intros se Hse. rewrite <- Ho.
  apply (occs_of_elem set_order set_order_perm).
  by eapply elem_of_sublist.
Qed.

Lemma primaries_distinct (sel : list selection) :
  Forall well_formed sel ->
  pairwise_disjoint (accepted sel) ->
  Forall (fun se => se.1 <= se.2) (accepted sel) ->
  NoDup (map (fun s => (sel_primary s).1) sel).
Proof.
  unfold accepted.
  induction sel as [|s sel IH]; cbn [map concat]; [constructor|].
  intros [((rest & Hm & _) & _) Hwf]%Forall_cons
         (_ & Hd & Hcross)%pairwise_disjoint_app
         [Hle1 Hle2]%Forall_app.
  constructor; [|by apply IH].
  intros Hin. apply list_elem_of_fmap in Hin as (s' & Hst & Hs').
  rewrite Hm in Hcross, Hle1.
  apply Forall_cons in Hcross as [Hcross _].
  apply Forall_cons in Hle1 as [Hle1 _].
  pose proof (proj1 (Forall_forall _ _) Hwf s' Hs') as ((rest' & Hm' & _) & _).
  assert (sel_primary s' ∈ concat (map sel_matches sel)) as Hp.
  { apply list_elem_of_In, in_concat. exists (sel_matches s'). split.
    - apply in_map, list_elem_of_In, Hs'.
    - rewrite Hm'. by left. }
  pose proof (proj1 (Forall_forall _ _) Hcross _ Hp) as Hdis.
  pose proof (proj1 (Forall_forall _ _) Hle2 _ Hp) as Hle.
  cbn beta in Hst, Hle1, Hle. apply (Hdis (sel_primary s).1). unfold lines. lia.
Qed.
End Selections.

(** X6. Every selected group has at least two accepted occurrences, its
    count is their number, they are in ascending order of start line,
    and the primary occurrence is the first of them. *)
Theorem selection_has_two_sorted_matches
    (set_order : list (Z * Z) -> list (Z * Z)) (seqs : Selector.sequences)
    (s : Selector.selection) :
  s ∈ Selector.select set_order seqs ->
  (exists rest, Selector.sel_matches s = Selector.sel_primary s :: rest
                /\ rest <> [])
  /\ Selector.sel_count s = length (Selector.sel_matches s)
  /\ StronglySorted (fun a b => a.1 <= b.1) (Selector.sel_matches s).
Proof.
  intros Hs.
  exact (proj1 (Forall_forall _ _) (select_well_formed set_order seqs) s Hs).
Qed.

(** X7. Every finding of [check] carries the file name, column 1 and the
    code Z202, and its line is the start line of an accepted occurrence
    of its group and the smallest of their start lines. *)
Theorem finding_is_anchored_at_first_match
    (set_order : list (Z * Z) -> list (Z * Z)) (seqs : Selector.sequences)
    (file : string) (i : nat) (finding : Selector.issue) :
  Selector.check_seqs set_order seqs file !! i = Some finding ->
  Selector.issue_file finding = file
  /\ Selector.issue_col finding = 1
  /\ Selector.issue_code finding = "Z202"
  /\ exists s, Selector.select set_order seqs !! i = Some s
      /\ (exists e, (Selector.issue_line finding, e) ∈ Selector.sel_matches s)
      /\ forall m, m ∈ Selector.sel_matches s ->
           Selector.issue_line finding <= m.1.
Proof.
  unfold Selector.check_seqs. rewrite list_lookup_fmap.
  destruct (Selector.select set_order seqs !! i) as [s|] eqn:E; [|done].
  intros [= <-]. split_and!; try done. exists s. split; [done|].
  pose proof (proj1 (Forall_forall _ _) (select_well_formed set_order seqs) s
                (list_elem_of_lookup_2 _ _ _ E))
    as ((rest & Hm & _) & _ & Hsorted).
  cbn [Selector.report Selector.issue_line]. rewrite Hm in Hsorted |- *.
  split.
  - exists (Selector.sel_primary s).2. destruct (Selector.sel_primary s).
    by left.
  - intros m [->|Hin]%elem_of_cons; [lia|].
    apply StronglySorted_inv in Hsorted as [_ Hall].
    by apply (proj1 (Forall_forall _ _) Hall).
Qed.

(** X8. Every reported group stems from an item of the dictionary that has
    three or more distinct ranges, whose first dump has 50 characters or
    more and no [Return] node, and whose ranges pass the line-range
    test; and every accepted occurrence is a range of that item. *)
Theorem reported_group_passed_the_filters
    (set_order : list (Z * Z) -> list (Z * Z)) (seqs : Selector.sequences)
    (s : Selector.selection) :
  (forall l, set_order l ≡ₚ remove_dups l) ->
  s ∈ Selector.select set_order seqs ->
  exists occ o0 rest,
    (Selector.sel_hash s, occ) ∈ seqs
    /\ Selector.occ_unique_of occ = o0 :: rest
    /\ (2 <= length rest)%nat
    /\ (50 <= String.length o0.2)%nat
    /\ Py.str_in "Return(" o0.2 = false
    /\ Filter._is_trivial_by_line_ranges
         (map Selector.span (Selector.occ_unique_of occ)) = false
    /\ forall se, se ∈ Selector.sel_matches s -> se ∈ map Selector.span occ.
Proof.
  intros Hperm Hs.
  apply (select_origin set_order Hperm) in Hs as (occ & c & Hin & Hc & _ & Hm).
  apply candidate_of_Some in Hc as (_ & _ & _ & Hlen & o0 & rest & Ho & Ht).
  exists occ, o0, rest.
  assert (length (Selector.occ_unique_of occ) = S (length rest)) as Hl
    by (by rewrite Ho).
  split_and!; [done|done|lia|..].
  - revert Ht. unfold Filter.is_trivial_dump.
    destruct (String.length o0.2 <? 50)%nat eqn:E; [done|].
    intros _. by apply Nat.ltb_ge.
  - revert Ht. unfold Filter.is_trivial_dump. by repeat case_match.
  - by eapply is_trivial_dump_false.
  - intros se Hse. apply Hm in Hse.
    rewrite occ_unique_spans, elem_of_remove_dups in Hse. done.
Qed.

(** X9. No occurrence with [end - start = 1] is ever reported. *)
Theorem no_two_line_block_reported
    (set_order : list (Z * Z) -> list (Z * Z)) (seqs : Selector.sequences)
    (s : Selector.selection) (se : Z * Z) :
  (forall l, set_order l ≡ₚ remove_dups l) ->
  s ∈ Selector.select set_order seqs ->
  se ∈ Selector.sel_matches s ->
  se.2 - se.1 <> 1.
Proof.
  intros Hperm Hs Hse.
  apply (select_origin set_order Hperm) in Hs as (occ & c & Hin & Hc & _ & Hm).
  apply candidate_of_Some in Hc as (_ & _ & _ & Hlen & o0 & rest & Ho & Ht).
  apply is_trivial_dump_false in Ht. apply Hm in Hse.
  revert Ht. unfold Filter._is_trivial_by_line_ranges.
  rewrite length_map.
  destruct (_ <? 2)%nat eqn:E; [apply Nat.ltb_lt in E; lia|].
  intros Hscan Hd.
  assert (Filter.scan (Py.sorted (map Selector.span (Selector.occ_unique_of occ)))
          = true) as Ht; [|congruence].
  apply scan_true_iff.
  assert (se ∈ Py.sorted (map Selector.span (Selector.occ_unique_of occ))) as Hin'
    by (unfold Py.sorted; by rewrite sort_by_perm).
  apply list_elem_of_lookup in Hin' as [i Hi].
  exists i, se.1, se.2. split; [by destruct se|by left].
Qed.

(** X10. When every occurrence of the dictionary ends no earlier than it
    starts, no two findings are on the same line. *)
Theorem findings_on_distinct_lines
    (set_order : list (Z * Z) -> list (Z * Z)) (seqs : Selector.sequences)
    (file : string) :
  (forall l, set_order l ≡ₚ remove_dups l) ->
  Forall (fun item => Forall (fun o : Selector.occurrence => o.1.1 <= o.1.2)
                             item.2) seqs ->
  NoDup (map Selector.issue_line (Selector.check_seqs set_order seqs file)).
Proof.
  intros Hperm Hle. unfold Selector.check_seqs. rewrite map_map.
  change (fun x => Selector.issue_line (Selector.report file x))
    with (fun s => (Selector.sel_primary s).1).
  apply primaries_distinct.
  - apply select_well_formed.
  - by apply select_disjoint.
  - apply Forall_forall. intros se Hse.
    apply list_elem_of_In, in_concat in Hse as (ms & Hms & Hse).
    apply in_map_iff in Hms as (s & <- & Hs).
    apply list_elem_of_In in Hs, Hse.
    apply (select_origin set_order Hperm) in Hs as (occ & c & Hin & _ & _ & Hm).
    apply Hm in Hse. rewrite occ_unique_spans, elem_of_remove_dups in Hse.
    apply list_elem_of_fmap in Hse as (o & -> & Ho).
    pose proof (proj1 (Forall_forall _ _) Hle _ Hin) as Hocc.
    exact (proj1 (Forall_forall _ _) Hocc o Ho).
Qed.

(** X11. In a dictionary, where no hash comes twice, no hash is reported
    twice, and the groups are reported in the order of the ranking. *)
Theorem each_hash_reported_once
    (set_order : list (Z * Z) -> list (Z * Z)) (seqs : Selector.sequences) :
  NoDup seqs.*1 ->
  NoDup (map Selector.sel_hash (Selector.select set_order seqs))
  /\ sublist (map Selector.sel_hash (Selector.select set_order seqs))
             (map Selector.cand_hash
                (Selector.rank (Selector.candidates_of seqs))).
Proof.
  intros Hnd. unfold Selector.select, Selector.greedy.
  destruct (greedy_hashes_sublist set_order
              (Selector.rank (Selector.candidates_of seqs)) ([], ∅))
    as (l & -> & Hl).
  cbn [fst map app]. split; [|done].
  eapply sublist_NoDup; [|exact Hl].
  rewrite rank_perm.
  eapply sublist_NoDup; [exact Hnd|apply candidates_hashes_sublist].
Qed.

(** X12. At the end of the greedy loop [occupied_lines] holds the lines of
    the accepted occurrences and no other line. *)
Theorem occupied_lines_are_the_accepted_lines
    (set_order : list (Z * Z) -> list (Z * Z)) (seqs : Selector.sequences)
    (ln : Z) :
  (forall l, set_order l ≡ₚ remove_dups l) ->
  let final :=
    Selector.greedy set_order (Selector.rank (Selector.candidates_of seqs)) in
  ln ∈ final.2 <->
  exists s se, s ∈ final.1 /\ se ∈ Selector.sel_matches s
               /\ se.1 <= ln <= se.2.
Proof.
  intros Hperm final.
  assert (greedy_inv final) as [_ Hocc].
  { apply (greedy_fold_inv set_order Hperm).
    - rewrite rank_perm. apply candidates_disjoint.
    - split; cbn; [done|]. intros x. split; [set_solver|].
      intros (se & []%elem_of_nil & _). }
  rewrite Hocc. unfold accepted. split.
  - intros (se & Hse & Hln).
    apply list_elem_of_In, in_concat in Hse as (ms & Hms & Hse).
    apply in_map_iff in Hms as (s & <- & Hs).
    exists s, se. by rewrite !list_elem_of_In.
  - intros (s & se & Hs & Hse & Hln). exists se. split; [|done].
    apply list_elem_of_In, in_concat. exists (Selector.sel_matches s).
    split; [|by apply list_elem_of_In].
    apply in_map_iff. exists s. split; [done|by apply list_elem_of_In].
Qed.

(** ** Instances of the selection *)

(** A dictionary with two groups: one of three occurrences of four
    lines, one of four occurrences of six lines. *)
Definition two_groups : Selector.sequences :=
  [("h1", [(10, 13, sample_dump); (20, 23, sample_dump); (30, 33, sample_dump)]);
   ("h2", [(40, 45, sample_dump); (50, 55, sample_dump); (60, 65, sample_dump);
           (70, 75, sample_dump)])].

(** The two groups that the loop selects from [two_groups], in the order
    of selection. *)
Definition larger_group : Selector.selection :=
  {| Selector.sel_hash := "h2"; Selector.sel_primary := (40, 45);
     Selector.sel_matches := [(40, 45); (50, 55); (60, 65); (70, 75)];
     Selector.sel_count := 4; Selector.sel_length := 36 |}.
Definition smaller_group : Selector.selection :=
  {| Selector.sel_hash := "h1"; Selector.sel_primary := (10, 13);
     Selector.sel_matches := [(10, 13); (20, 23); (30, 33)];
     Selector.sel_count := 3; Selector.sel_length := 24 |}.

Lemma select_two_groups :
  Selector.select remove_dups two_groups = [larger_group; smaller_group].
Proof. vm_compute. reflexivity. Qed.

Lemma remove_dups_order (l : list (Z * Z)) : remove_dups l ≡ₚ remove_dups l.
Proof. reflexivity. Qed.

(** The finding for the group of four occurrences. *)
Definition larger_finding : Selector.issue :=
  {| Selector.issue_file := "a.py"; Selector.issue_line := 40;
     Selector.issue_col := 1; Selector.issue_code := "Z202";
     Selector.issue_msg :=
       "repeated block detected (4 occurrences). Consider extracting a function for the block at lines [(40, 45), (50, 55), (60, 65), (70, 75)]" |}.

Lemma selection_has_two_sorted_matches_witness :
  (exists rest, Selector.sel_matches smaller_group
                = Selector.sel_primary smaller_group :: rest /\ rest <> [])
  /\ Selector.sel_count smaller_group
     = length (Selector.sel_matches smaller_group)
  /\ StronglySorted (fun a b => a.1 <= b.1)
       (Selector.sel_matches smaller_group).
Proof.
  apply (selection_has_two_sorted_matches remove_dups two_groups).
  rewrite select_two_groups. apply list_elem_of_further, list_elem_of_here.
Defined.

Lemma finding_is_anchored_at_first_match_witness :
  Selector.issue_file larger_finding = "a.py"
  /\ Selector.issue_col larger_finding = 1
  /\ Selector.issue_code larger_finding = "Z202"
  /\ exists s, Selector.select remove_dups two_groups !! 0%nat = Some s
      /\ (exists e, (Selector.issue_line larger_finding, e)
                    ∈ Selector.sel_matches s)
      /\ forall m, m ∈ Selector.sel_matches s ->
           Selector.issue_line larger_finding <= m.1.
Proof.
  apply (finding_is_anchored_at_first_match remove_dups two_groups "a.py" 0).
  vm_compute. reflexivity.
Defined.

Lemma reported_group_passed_the_filters_witness :
  exists occ o0 rest,
    (Selector.sel_hash larger_group, occ) ∈ two_groups
    /\ Selector.occ_unique_of occ = o0 :: rest
    /\ (2 <= length rest)%nat
    /\ (50 <= String.length o0.2)%nat
    /\ Py.str_in "Return(" o0.2 = false
    /\ Filter._is_trivial_by_line_ranges
         (map Selector.span (Selector.occ_unique_of occ)) = false
    /\ forall se, se ∈ Selector.sel_matches larger_group ->
                  se ∈ map Selector.span occ.
Proof.
  apply (reported_group_passed_the_filters remove_dups two_groups larger_group
           remove_dups_order).
  rewrite select_two_groups. apply list_elem_of_here.
Defined.

Lemma no_two_line_block_reported_witness :
  (50, 55) ∈ Selector.sel_matches larger_group /\ (50, 55).2 - (50, 55).1 <> 1.
Proof.
  assert ((50, 55) ∈ Selector.sel_matches larger_group) as Hin
    by apply list_elem_of_further, list_elem_of_here.
  split; [exact Hin|].
  apply (no_two_line_block_reported remove_dups two_groups larger_group (50, 55)
           remove_dups_order); [|exact Hin].
  rewrite select_two_groups. apply list_elem_of_here.
Defined.

Lemma each_hash_reported_once_witness :
  NoDup (map Selector.sel_hash (Selector.select remove_dups two_groups))
  /\ sublist (map Selector.sel_hash (Selector.select remove_dups two_groups))
             (map Selector.cand_hash
                (Selector.rank (Selector.candidates_of two_groups))).
Proof.
  apply each_hash_reported_once. vm_compute.
  apply NoDup_cons_2; [|apply NoDup_singleton].
  intros H. apply list_elem_of_singleton in H. discriminate H.
Defined.

Lemma occupied_lines_are_the_accepted_lines_witness :
  (exists s se, s ∈ (Selector.greedy remove_dups
                       (Selector.rank (Selector.candidates_of two_groups))).1
                /\ se ∈ Selector.sel_matches s /\ se.1 <= 21 <= se.2)
  /\ 21 ∈ (Selector.greedy remove_dups
             (Selector.rank (Selector.candidates_of two_groups))).2.
Proof.
  assert (exists s se,
            s ∈ (Selector.greedy remove_dups
                   (Selector.rank (Selector.candidates_of two_groups))).1
            /\ se ∈ Selector.sel_matches s /\ se.1 <= 21 <= se.2) as H.
  { exists smaller_group, (20, 23). split; [|split].
    - change (smaller_group ∈ Selector.select remove_dups two_groups).
      rewrite select_two_groups. apply list_elem_of_further, list_elem_of_here.
    - apply list_elem_of_further, list_elem_of_here.
    - cbn [fst snd]. lia. }
  split; [exact H|].
  by apply (occupied_lines_are_the_accepted_lines remove_dups two_groups 21
              remove_dups_order).
Defined.

Lemma findings_on_distinct_lines_witness :
  NoDup (map Selector.issue_line
           (Selector.check_seqs remove_dups two_groups "a.py")).
Proof.
  apply findings_on_distinct_lines; [exact remove_dups_order|].
  unfold two_groups. repeat constructor; cbn; lia.
Defined.

(** The candidate made of the group of [three_occurrences]. *)
Definition three_candidate : Selector.candidate :=
  {| Selector.cand_hash := "h";
     Selector.cand_occurrences :=
       [(10, 13, sample_dump); (20, 23, sample_dump); (30, 33, sample_dump)];
     Selector.cand_count := 3;
     Selector.cand_length := 24;
     Selector.cand_sample_dump := sample_dump |}.

Lemma candidate_length_is_spread_witness :
  exists first last_ : Selector.occurrence,
    first ∈ Selector.occ_unique_of
              [(10, 13, sample_dump); (20, 23, sample_dump);
               (30, 33, sample_dump)]
    /\ last_ ∈ Selector.occ_unique_of
                 [(10, 13, sample_dump); (20, 23, sample_dump);
                  (30, 33, sample_dump)]
    /\ Selector.cand_length three_candidate = last_.1.2 - first.1.1 + 1
    /\ forall o, o ∈ Selector.occ_unique_of
                       [(10, 13, sample_dump); (20, 23, sample_dump);
                        (30, 33, sample_dump)] ->
         first.1.1 <= o.1.1 /\ o.1.2 <= last_.1.2.
Proof.
  apply (candidate_length_is_spread "h"). vm_compute. reflexivity.
Defined.

(** ** The order of iteration of the sets *)

Section SetOrder.
Import Selector.

(** Ranges that share no line and are not empty start on different
    lines. *)
Lemma disjoint_starts_NoDup (l : list (Z * Z)) :
  pairwise_disjoint l -> Forall (fun se => se.1 <= se.2) l -> NoDup l.*1.
Proof.
  induction l as [|a l IH]; cbn [pairwise_disjoint fmap list_fmap];
    [constructor|].
  intros [Ha Hl] [Hle Hall]%Forall_cons. constructor; [|by apply IH].
  intros Hin. apply list_elem_of_fmap in Hin as (b & Hab & Hb).
  pose proof (proj1 (Forall_forall _ _) Ha b Hb) as Hd.
  pose proof (proj1 (Forall_forall _ _) Hall b Hb) as Hleb.
  cbn beta in Hle, Hleb, Hab. apply (Hd a.1). unfold lines. lia.
Qed.

Lemma candidates_distinct_starts seqs :
  Forall (fun item => Forall (fun o : occurrence => o.1.1 <= o.1.2) item.2)
         seqs ->
  forallb distinct_starts (rank (candidates_of seqs)) = true.
Proof.
  intros Hle. apply forallb_forall. intros c Hc.
  apply list_elem_of_In in Hc. rewrite rank_perm in Hc.
  apply list_elem_of_omap in Hc as ([h occ] & Hin & Hc).
  pose proof (candidate_disjoint _ _ _ Hc) as Hd.
  apply candidate_of_Some in Hc as (_ & Ho & _).
  apply bool_decide_eq_true. apply disjoint_starts_NoDup; [done|].
  rewrite Ho. apply Forall_forall. intros se Hse.
  rewrite occ_unique_spans, elem_of_remove_dups in Hse.
  apply list_elem_of_fmap in Hse as (o & -> & Hoin).
  pose proof (proj1 (Forall_forall _ _) Hle _ Hin) as Hocc.
  exact (proj1 (Forall_forall _ _) Hocc o Hoin).
Qed.
End SetOrder.

(** X18. When every occurrence of the dictionary ends no earlier than it
    starts, the findings do not depend on the order in which Python
    iterates over the sets of occurrences: the occurrences of a
    candidate group start on different lines, so that sorting them by
    start line has one result. *)
Theorem findings_independent_of_set_order
    (so1 so2 : list (Z * Z) -> list (Z * Z)) (seqs : Selector.sequences)
    (file : string) :
  (forall l, so1 l ≡ₚ remove_dups l) -> (forall l, so2 l ≡ₚ remove_dups l) ->
  Forall (fun item => Forall (fun o : Selector.occurrence => o.1.1 <= o.1.2)
                             item.2) seqs ->
  Selector.check_seqs so1 seqs file = Selector.check_seqs so2 seqs file.
Proof.
  intros H1 H2 Hle. unfold Selector.check_seqs, Selector.select, Selector.greedy.
  rewrite (greedy_set_order so1 so2); [done..|].
  by apply candidates_distinct_starts.
Qed.

Lemma findings_independent_of_set_order_witness :
  Selector.check_seqs remove_dups two_groups "a.py"
  = Selector.check_seqs (fun l => rev (remove_dups l)) two_groups "a.py".
Proof.
  apply findings_independent_of_set_order.
  - intros l. reflexivity.
  - intros l. symmetry. apply Permutation_rev.
  - unfold two_groups. repeat constructor; cbn; lia.
Defined.

(** * Further properties of the canonicalizer *)

(** ** Placeholders of names and attributes *)

Section NameFacts.
Import Ast Canonicalizer.

(** Every entry of [name_map] is [_N<n>] or [_A<n>] for a number below
    the counter, and no placeholder is entered twice. *)
Definition name_inv (st : state) : Prop :=
  0 <= _n_name st /\
  (forall k p, name_map st !! k = Some p ->
     exists n, 0 <= n < _n_name st /\
       (p = ("_N" ++ Py.repr_int n)%string \/
        p = ("_A" ++ Py.repr_int n)%string)) /\
  (forall k1 k2 p, name_map st !! k1 = Some p -> name_map st !! k2 = Some p ->
     k1 = k2).

Lemma numbered_inj (pre1 pre2 : string) n1 n2 :
  pre1 = "_N" \/ pre1 = "_A" -> pre2 = "_N" \/ pre2 = "_A" ->
  (pre1 ++ Py.repr_int n1 = pre2 ++ Py.repr_int n2)%string -> n1 = n2.
Proof.
  intros [-> | ->] [-> | ->] H; try (by apply placeholder_inj in H);
    by injection H.
Qed.

Lemma insert_name_inv st k pre :
  name_inv st -> name_map st !! k = None -> pre = "_N" \/ pre = "_A" ->
  name_inv {| name_map := <[k := (pre ++ Py.repr_int (_n_name st))%string]>
                            (name_map st);
              const_map := const_map st;
              _n_name := _n_name st + 1;
              _n_const := _n_const st |}.
Proof.
  intros (Hpos & Hrange & Hinj) Hk Hpre. split_and!; cbn.
  - lia.
  - intros k' q [[<- <-]|[Hne Hk']]%lookup_insert_Some.
    + exists (_n_name st). split; [lia|]. by destruct Hpre as [-> | ->]; [left|right].
    + destruct (Hrange k' q Hk') as (n & ? & Hq). exists n. split; [lia|done].
  - intros k1 k2 q [[<- <-]|[Hne1 Hk1]]%lookup_insert_Some
                    [[<- E2]|[Hne2 Hk2]]%lookup_insert_Some; try done.
    + exfalso. destruct (Hrange k2 _ Hk2) as (n & Hn & Hp).
      assert (_n_name st = n); [|lia].
      destruct Hp as [Hp|Hp]; eapply numbered_inj; try exact Hp; auto.
    + exfalso. subst q. destruct (Hrange k1 _ Hk1) as (n & Hn & Hp).
      assert (_n_name st = n); [|lia].
      destruct Hp as [Hp|Hp]; eapply numbered_inj; try exact Hp; auto.
    + by eapply Hinj.
Qed.

Lemma serve_name_inv r st p st' :
  name_inv st -> serve r st = Ok (p, st') ->
  name_inv st' /\ name_map st ⊆ name_map st' /\
  (forall k, name_key r = Some k -> name_map st' !! k = Some p).
Proof.
  intros Hst.
  destruct r as [id|a|c]; cbn [serve name_key];
    unfold _map_name, _map_attr, _map_const.
  - destruct (name_map st !! id) as [q|] eqn:E; intros [= <- <-].
    + split_and!; [done..|]. by intros k [= <-].
    + split_and!.
      * apply insert_name_inv; auto.
      * by apply insert_subseteq.
      * intros k [= <-]. cbn. by rewrite lookup_insert_eq.
  - destruct (name_map st !! _) as [q|] eqn:E; intros [= <- <-].
    + split_and!; [done..|]. by intros k [= <-].
    + split_and!.
      * apply insert_name_inv; auto.
      * by apply insert_subseteq.
      * intros k [= <-]. cbn. by rewrite lookup_insert_eq.
  - destruct (const_map st !! _); intros [= <- <-]; by split_and!.
Qed.

Lemma history_name_inv history st ps st' :
  name_inv st -> mapM serve history st = Ok (ps, st') ->
  name_inv st' /\ name_map st ⊆ name_map st' /\
  (forall i r k p, history !! i = Some r -> name_key r = Some k ->
     ps !! i = Some p -> name_map st' !! k = Some p).
Proof.
  revert st ps. induction history as [|r history IH]; intros st ps Hst.
  - intros [= <- <-]. split_and!; [done..|]. intros i r k p Hi.
    by rewrite lookup_nil in Hi.
  - rewrite mapM_cons. destruct (serve r st) as [[p1 st1]|e] eqn:E1; [|done].
    destruct (mapM serve history st1) as [[ps1 st2]|e] eqn:E2; [|done].
    intros [= <- <-].
    destruct (serve_name_inv r st p1 st1 Hst E1) as (H1 & Hsub1 & Hres1).
    destruct (IH st1 ps1 H1 E2) as (H2 & Hsub2 & Hres2).
    split_and!; [done|by etrans|].
    intros [|i] r' k p Hi Hk Hp; cbn in Hi, Hp.
    + injection Hi as ->. injection Hp as <-.
      eapply lookup_weaken; [by apply Hres1|done].
    + by eapply Hres2.
Qed.

Lemma init_name_inv : name_inv init.
Proof.
  split_and!; cbn; [done|..]; intros *; rewrite lookup_empty; done.
Qed.
End NameFacts.

(** X13. Within one pass, two requests for a name or an attribute are given
    the same placeholder exactly when they are filed under the same key
    of [name_map]: two names when they are the same identifier, two
    attributes when they are the same attribute name, and a name and an
    attribute only when the name is [attr::] followed by the attribute. *)
Theorem name_placeholders_agree_iff_same_key
    (history : list request) ps st i j r1 r2 k1 k2 p1 p2 :
  Ast.mapM serve history Canonicalizer.init = Ast.Ok (ps, st) ->
  history !! i = Some r1 -> history !! j = Some r2 ->
  name_key r1 = Some k1 -> name_key r2 = Some k2 ->
  ps !! i = Some p1 -> ps !! j = Some p2 ->
  (p1 = p2 <-> k1 = k2).
Proof.
  intros Hrun Hi Hj Hk1 Hk2 Hp1 Hp2.
  destruct (history_name_inv history _ ps st init_name_inv Hrun)
    as ((_ & _ & Hinj) & _ & Hres).
  pose proof (Hres i r1 k1 p1 Hi Hk1 Hp1) as H1.
  pose proof (Hres j r2 k2 p2 Hj Hk2 Hp2) as H2.
  split.
  - intros <-. by eapply Hinj.
  - intros <-. congruence.
Qed.

(** A name and an attribute with the same spelling, and the same name
    again: the first two placeholders differ, the first and the third
    are the same. *)
Lemma name_placeholders_agree_iff_same_key_witness :
  Ast.mapM serve [ReqName "x"; ReqAttr "x"; ReqName "x"] Canonicalizer.init
  = Ast.Ok (["_N0"; "_A1"; "_N0"],
            {| Canonicalizer.name_map := {["x" := "_N0"; "attr::x" := "_A1"]};
               Canonicalizer.const_map := ∅;
               Canonicalizer._n_name := 2;
               Canonicalizer._n_const := 0 |})
  /\ ("_N0" = "_A1" <-> "x" = "attr::x").
Proof.
  assert (Ast.mapM serve [ReqName "x"; ReqAttr "x"; ReqName "x"]
            Canonicalizer.init
          = Ast.Ok (["_N0"; "_A1"; "_N0"],
            {| Canonicalizer.name_map := {["x" := "_N0"; "attr::x" := "_A1"]};
               Canonicalizer.const_map := ∅;
               Canonicalizer._n_name := 2;
               Canonicalizer._n_const := 0 |})) as Hrun.
  { vm_compute. reflexivity. }
  split; [exact Hrun|].
  exact (name_placeholders_agree_iff_same_key _ _ _ 0%nat 1%nat
           (ReqName "x") (ReqAttr "x") "x" "attr::x" "_N0" "_A1"
           Hrun eq_refl eq_refl eq_refl eq_refl eq_refl eq_refl).
Defined.

(** ** What the canonicalizer does not read *)

Section AsRead.
Import Ast.

(** A field that holds a plain value, with the value forgotten. *)
Definition unnamed (v : obj) : obj :=
  match v with Const _ => Const (CStr "_") | _ => v end.

(** A tree as the canonicalizer reads it. [visit_Name] reads [id] and
    [ctx], [visit_arg] reads [arg] and [visit_Constant] reads [value],
    and none of them visits the children of its node; [visit_FunctionDef]
    and [visit_ClassDef] overwrite [name], which [generic_visit] has not
    visited, being a string. Decorators, base classes and the return
    annotation are dropped too, but only after [generic_visit] has
    visited them, so they stay. *)
Fixpoint as_read (o : obj) : obj :=
  match o with
  | Node cls fields attrs =>
      if String.eqb cls "Name" then
        Node cls [("id", get_field "id" fields);
                  ("ctx", get_field "ctx" fields)] attrs
      else if String.eqb cls "arg" then
        Node cls [("arg", get_field "arg" fields)] attrs
      else if String.eqb cls "Constant" then
        Node cls [("value", get_field "value" fields)] attrs
      else
        let fields' :=
          map (fun fv : string * obj =>
                 let '(f, v) := fv in
                 (f, match v with
                     | PyList items => PyList (map as_read items)
                     | _ => as_read v
                     end)) fields in
        if String.eqb cls "FunctionDef" || String.eqb cls "ClassDef" then
          Node cls (set_field "name" (unnamed (get_field "name" fields'))
                              fields') attrs
        else Node cls fields' attrs
  | _ => o
  end.
End AsRead.

Section AsReadFacts.
Import Ast Canonicalizer.

Definition as_read_field (fv : string * obj) : string * obj :=
  (fv.1, match fv.2 with
         | PyList items => PyList (map as_read items)
         | v => as_read v
         end).

Lemma as_read_Node cls fields attrs :
  as_read (Node cls fields attrs) =
  if String.eqb cls "Name" then
    Node cls [("id", get_field "id" fields); ("ctx", get_field "ctx" fields)]
         attrs
  else if String.eqb cls "arg" then
    Node cls [("arg", get_field "arg" fields)] attrs
  else if String.eqb cls "Constant" then
    Node cls [("value", get_field "value" fields)] attrs
  else if String.eqb cls "FunctionDef" || String.eqb cls "ClassDef" then
    Node cls (set_field "name"
                (unnamed (get_field "name" (map as_read_field fields)))
                (map as_read_field fields)) attrs
  else Node cls (map as_read_field fields) attrs.
Proof.
  cbn [as_read].
  assert (map (fun fv : string * obj =>
                 let '(f, v) := fv in
                 (f, match v with
                     | PyList items => PyList (map as_read items)
                     | _ => as_read v
                     end)) fields = map as_read_field fields) as ->; [|done].
  apply map_ext. intros [f v]. by destruct v.
Qed.

Lemma as_read_is_node cls fields attrs :
  is_node (as_read (Node cls fields attrs)) = true.
Proof. rewrite as_read_Node. by repeat case_match. Qed.

Lemma set_field_twice name v w fields :
  set_field name v (set_field name w fields) = set_field name v fields.
Proof.
  induction fields as [|[f u] fields IH]; cbn [set_field]; [done|].
  destruct (String.eqb f name) eqn:E; cbn [set_field]; rewrite E; [done|].
  by rewrite IH.
Qed.

Lemma set_field_get name fields :
  set_field name (get_field name fields) fields = fields.
Proof.
  induction fields as [|[f u] fields IH]; cbn [set_field get_field]; [done|].
  destruct (String.eqb f name); [done|]. by rewrite IH.
Qed.

Lemma mapM_ext {S A B} (f g : A -> M S B) (l1 l2 : list A) :
  Forall2 (fun x y => forall s, f x s = g y s) l1 l2 ->
  forall s, mapM f l1 s = mapM g l2 s.
Proof.
  induction 1 as [|x y l1 l2 Hx _ IH]; intros s; [done|].
  rewrite !mapM_cons, Hx. destruct (g y s) as [[z s1]|e]; [|done].
  by rewrite IH.
Qed.

(** The pass over a tree is the pass over the tree as read. *)
Definition visit_as_read (o : obj) : Prop :=
  forall st, visit (as_read o) st = visit o st.

Lemma visit_field_as_read fv :
  match fv.2 with
  | PyList items => Forall visit_as_read items
  | v => visit_as_read v
  end ->
  forall st, visit_field visit (as_read_field fv) st = visit_field visit fv st.
Proof.
  destruct fv as [f v]. unfold as_read_field. cbn [fst snd]. intros IH st.
  destruct v as [cls fields attrs|items|c|]; try reflexivity.
  - unfold visit_field. cbn [fst snd].
    pose proof (as_read_is_node cls fields attrs) as Hn.
    destruct (as_read (Node cls fields attrs)) as [c' fs' a'| | |] eqn:E;
      try done.
    unfold bind. rewrite <- E. by rewrite (IH st).
  - unfold visit_field. cbn [fst snd]. unfold bind.
    assert (mapM (visit_item visit) (map as_read items) st
            = mapM (visit_item visit) items st) as ->; [|done].
    apply mapM_ext. apply Forall2_fmap_l, Forall_Forall2_diag.
    eapply Forall_impl; [exact IH|]. intros item Hitem s.
    destruct item as [c fs a|its|c|]; try reflexivity.
    pose proof (as_read_is_node c fs a) as Hn.
    unfold visit_item.
    destruct (as_read (Node c fs a)) as [c' fs' a'| | |] eqn:E; try done.
    rewrite <- E. apply Hitem.
Qed.

Lemma visit_fields_as_read fields :
  Forall (fun fv => match fv.2 with
                    | PyList items => Forall visit_as_read items
                    | v => visit_as_read v
                    end) fields ->
  forall st, mapM (visit_field visit) (map as_read_field fields) st
             = mapM (visit_field visit) fields st.
Proof.
  intros IH. apply mapM_ext. apply Forall2_fmap_l, Forall_Forall2_diag.
  eapply Forall_impl; [exact IH|]. intros fv Hfv s.
  by apply visit_field_as_read.
Qed.

Lemma visit_fields_unnamed fields st :
  mapM (visit_field visit)
       (set_field "name" (unnamed (get_field "name" fields)) fields) st
  = match mapM (visit_field visit) fields st with
    | Ok (fs, st') =>
        Ok (set_field "name" (unnamed (get_field "name" fields)) fs, st')
    | Raise e => Raise e
    end
  \/ set_field "name" (unnamed (get_field "name" fields)) fields = fields.
Proof.
  destruct (get_field "name" fields) as [c f a|items|c|] eqn:E;
    try (right; cbn [unnamed]; rewrite <- E; apply set_field_get).
  left. cbn [unnamed]. by apply (visit_fields_set "name" c).
Qed.

Lemma visit_reads o : visit_as_read o.
Proof.
  enough (visit_as_read o /\
          match o with PyList items => Forall visit_as_read items | _ => True end)
    as [? _] by done.
  induction o as [cls fields attrs IH|items IH|c|] using obj_induction.
  - split; [|done].
    assert (Forall (fun fv => match fv.2 with
                              | PyList items => Forall visit_as_read items
                              | v => visit_as_read v
                              end) fields) as Hf.
    { eapply Forall_impl; [exact IH|]. intros [f v] [H1 H2]. cbn [fst snd] in *.
      by destruct v. }
    intros st. rewrite as_read_Node.
    destruct (String.eqb cls "Name") eqn:E1.
    { rewrite !visit_Node, E1. unfold visit_Name, attr_str, attr.
      cbn [fields_of get_field String.eqb Ascii.eqb Bool.eqb]. done. }
    destruct (String.eqb cls "arg") eqn:E2.
    { rewrite !visit_Node, E1, E2. unfold visit_arg, attr_str.
      cbn [fields_of get_field String.eqb Ascii.eqb Bool.eqb]. done. }
    destruct (String.eqb cls "Constant") eqn:E3.
    { rewrite !visit_Node, E1, E2, E3.
      destruct (String.eqb cls "FunctionDef") eqn:E4;
        [apply String.eqb_eq in E4; by subst cls|].
      destruct (String.eqb cls "ClassDef") eqn:E5;
        [apply String.eqb_eq in E5; by subst cls|].
      destruct (String.eqb cls "Attribute") eqn:E6;
        [apply String.eqb_eq in E6; by subst cls|].
      unfold visit_Constant.
      cbn [fields_of get_field String.eqb Ascii.eqb Bool.eqb]. done. }
    destruct (String.eqb cls "FunctionDef") eqn:E4.
    { cbn [orb]. rewrite !visit_Node, E1, E2, E4.
      unfold visit_FunctionDef, bind. rewrite !generic_visit_eq.
      destruct (visit_fields_unnamed (map as_read_field fields) st) as [-> | ->];
        rewrite (visit_fields_as_read fields Hf st);
        destruct (mapM (visit_field visit) fields st) as [[fs st']|e]; try done.
      cbn [fields_of ret]. by rewrite set_field_twice. }
    destruct (String.eqb cls "ClassDef") eqn:E5.
    { cbn [orb]. rewrite !visit_Node, E1, E2, E4, E5.
      unfold visit_ClassDef, bind. rewrite !generic_visit_eq.
      destruct (visit_fields_unnamed (map as_read_field fields) st) as [-> | ->];
        rewrite (visit_fields_as_read fields Hf st);
        destruct (mapM (visit_field visit) fields st) as [[fs st']|e]; try done.
      cbn [fields_of ret]. by rewrite set_field_twice. }
    cbn [orb]. rewrite !visit_Node, E1, E2, E4, E5.
    destruct (String.eqb cls "Attribute") eqn:E6.
    { rewrite !visit_Attribute_eq. unfold bind. rewrite !generic_visit_eq.
      by rewrite (visit_fields_as_read fields Hf st). }
    rewrite E3, !generic_visit_eq.
    by rewrite (visit_fields_as_read fields Hf st).
  - split; [done|]. eapply Forall_impl; [exact IH|]. by intros v [H _].
  - by split.
  - by split.
Qed.

Lemma as_read_module stmts :
  as_read (Block.module_of stmts) = Block.module_of (map as_read stmts).
Proof. unfold Block.module_of. by rewrite as_read_Node. Qed.
End AsReadFacts.

(** X14. The dump and the hash of a statement sequence depend on the
    sequence as the canonicalizer reads it, less its locations: the name
    of a [FunctionDef] or of a [ClassDef], the annotation of a
    parameter, the kind of a constant and the line numbers never change
    them. The name of an [AsyncFunctionDef] is not among these: the
    canonicalizer has no visit method for the class, and the name is
    kept in the dump. *)
Theorem unread_parts_do_not_matter (stmts1 stmts2 : list Ast.obj) :
  map (fun s => erase (as_read s)) stmts1
  = map (fun s => erase (as_read s)) stmts2 ->
  Block.canonical_block_dump stmts1 = Block.canonical_block_dump stmts2.
Proof.
  intros H. apply canonical_block_dump_shape.
  assert (forall stmts,
            res_rel same_shape (fun _ _ => True)
              (Canonicalizer.visit (Block.module_of stmts) Canonicalizer.init)
              (Canonicalizer.visit
                 (erase (Block.module_of (map as_read stmts)))
                 Canonicalizer.init)) as Hone.
  { intros stmts.
    rewrite <- (visit_reads (Block.module_of stmts) Canonicalizer.init).
    rewrite as_read_module.
    eapply res_rel_weaken; [| |apply visit_erase]; done. }
  eapply res_rel_same_shape_trans; [apply Hone|].
  apply res_rel_same_shape_sym.
  rewrite !erase_module, !map_map, H, <- map_map, <- erase_module.
  apply Hone.
Qed.

Section UnreadInstances.
Import Ast Syntax.

(** [def total(price: int): u'a'] on lines 1 and 2, and
    [def sum_up(price): 'a'] on lines 11 and 12. *)
Definition annotated_def : list obj :=
  [FunctionDef_ "total"
     [Node "arg" [("arg", Const (CStr "price"));
                  ("annotation", Name_ "int" Load_ 1);
                  ("type_comment", Unset)] (at_ 1 1)]
     [Expr_ (Node "Constant" [("value", Const (CStr "a"));
                              ("kind", Const (CStr "u"))] (at_ 2 2)) 2 2]
     1 2].
Definition bare_def : list obj :=
  [FunctionDef_ "sum_up" [arg_ "price" 11 11]
     [Expr_ (Constant_ (CStr "a") 12 12) 12 12] 11 12].
End UnreadInstances.

Lemma unread_parts_do_not_matter_witness :
  Block.canonical_block_dump annotated_def
  = Block.canonical_block_dump bare_def.
Proof. apply unread_parts_do_not_matter. vm_compute. reflexivity. Defined.

(** * Further properties of the tree walk *)

(** ** Bodies of located statements *)

Section Located.
Import Ast BodyWalker Selector.

(** The first and the last line of a statement that carries both. *)
Definition position (o : obj) : option (Z * Z) :=
  match attrs_of o with
  | Some (Loc (Some a) (Some b)) => Some (a, b)
  | _ => None
  end.

(** The offsets of the windows of [_walk_body] on a body of [n]
    statements, as pairs [(length, i)], in the order of the two loops. *)
Definition windows (min_len max_len n : nat) : list (nat * nat) :=
  flat_map (fun length_ =>
              if (n <? length_)%nat then []
              else map (fun i => (length_, i)) (seq 0 (n - length_ + 1)))
           (lengths min_len max_len).

(** The lines of the window [(length, i)] of a body whose statements
    have the positions [pos]: from the first line of its first statement
    to the last line of its last. *)
Definition window_range (pos : list (Z * Z)) (w : nat * nat)
    : option (Z * Z) :=
  match pos !! w.2, pos !! (w.2 + w.1 - 1)%nat with
  | Some first, Some last_ => Some (first.1, last_.2)
  | _, _ => None
  end.

(** [sequences.setdefault(h, []).append(o)] for a list of records
    [(h, o)], one after the other. *)
Definition record_all (recs : list (string * occurrence)) (seqs : sequences)
    : sequences :=
  foldl (fun acc r => setdefault_append r.1 r.2 acc) seqs recs.
End Located.

Section LocatedFacts.
Import Ast BodyWalker Selector.

Lemma foldM_app {A B} (f : B -> A -> res B) l1 l2 b :
  foldM f (l1 ++ l2) b =
  match foldM f l1 b with
  | Ok b' => foldM f l2 b'
  | Raise e => Raise e
  end.
Proof.
  revert b. induction l1 as [|x l1 IH]; intros b; cbn [foldM app]; [done|].
  destruct (f b x) as [b1|e]; [apply IH|done].
Qed.

Lemma foldM_map {A B C} (f : B -> A -> res B) (g : C -> A) l b :
  foldM f (map g l) b = foldM (fun b c => f b (g c)) l b.
Proof.
  revert b. induction l as [|x l IH]; intros b; cbn [foldM map]; [done|].
  destruct (f b (g x)) as [b1|e]; [apply IH|done].
Qed.

(** The two loops of [_walk_body] as one loop over [windows]. *)
Lemma walk_body_windows min_len max_len stmts seqs :
  _walk_body min_len max_len stmts seqs
  = foldM (fun st w => window w.1 st w.2)
          (windows min_len max_len (length stmts)) (stmts, seqs).
Proof.
  unfold _walk_body, windows.
  generalize (stmts, seqs) as st. generalize (length stmts) as n.
  intros n. induction (lengths min_len max_len) as [|L ls IH]; intros st;
    cbn [foldM flat_map]; [done|].
  rewrite foldM_app. unfold walk_length at 1.
  destruct (n <? L)%nat.
  - cbn [foldM]. apply IH.
  - rewrite foldM_map. cbn [fst snd].
    destruct (foldM (window L) _ st) as [st1|e]; [apply IH|done].
Qed.

Lemma position_node o p : position o = Some p -> is_node o = true.
Proof. by destruct o. Qed.

Lemma position_has_lineno o p : position o = Some p -> has_lineno o = true.
Proof.
  unfold position, has_lineno.
  destruct (attrs_of o) as [[[a|] [b|]]|]; done.
Qed.

(** The canonicalizer hands back a node with the location of the node it
    was given. *)
Lemma visit_keeps_location cls fields l st o' st' :
  Canonicalizer.visit (Node cls fields (Some l)) st = Ok (o', st') ->
  attrs_of o' = Some l.
Proof.
  rewrite visit_Node.
  unfold Canonicalizer.visit_Name, Canonicalizer.visit_arg,
    Canonicalizer.visit_FunctionDef, Canonicalizer.visit_ClassDef,
    Canonicalizer.visit_Attribute, Canonicalizer.visit_Constant,
    Canonicalizer.generic_visit, Canonicalizer.copy_location,
    attr_str, attr, bind, ret, raise.
  repeat (case_match; simplify_eq; try done); intros; simplify_eq; done.
Qed.

Lemma fix_item_position y p :
  position y = Some p -> position (fix_item y) = Some p.
Proof.
  destruct y as [cls fields [[[a|] [b|]]|]| | |]; try done.
Qed.

Lemma visit_item_position x p st y st' :
  position x = Some p ->
  Canonicalizer.visit_item Canonicalizer.visit x st = Ok (y, st') ->
  position (fix_item y) = Some p.
Proof.
  intros Hp E. apply fix_item_position.
  destruct x as [cls fields [l|]| | |]; try done.
  apply visit_keeps_location in E. unfold position in *. by rewrite E.
Qed.

Lemma block_after_positions block pos :
  map position block = map Some pos ->
  map position (Block.block_after block) = map Some pos.
Proof.
  rewrite block_after_eq.
  destruct (mapM _ block _) as [[items s1]|e] eqn:E; [|done].
  revert E. generalize Canonicalizer.init as st. revert items pos.
  induction block as [|x block IH]; intros items pos st.
  - intros [= <- <-]. done.
  - rewrite mapM_cons.
    destruct (Canonicalizer.visit_item _ x st) as [[y st1]|e] eqn:E1; [|done].
    destruct (mapM _ block st1) as [[ys st2]|e] eqn:E2; [|done].
    intros [= <- <-]. destruct pos as [|p pos]; [done|].
    cbn [map]. intros [= Hx Hl]. f_equal.
    + by eapply visit_item_position.
    + by eapply IH.
Qed.

Lemma in_place_position old new :
  position new = position old ->
  position (Block.in_place old new) = position old.
Proof.
  intros H. destruct old as [cls fields attrs| | |]; try done.
  unfold Block.in_place. by repeat case_match.
Qed.

Lemma zip_in_place_positions block block' pos :
  map position block = map Some pos ->
  map position block' = map Some pos ->
  map position (zip_with Block.in_place block block') = map Some pos.
Proof.
  revert block block'. induction pos as [|p pos IH];
    intros [|x block] [|y block']; try done.
  cbn [map zip_with]. intros [= Hx Hl] [= Hy Hl']. f_equal.
  - rewrite in_place_position; congruence.
  - by apply IH.
Qed.

Lemma map_Some_lookup {A} (f : A -> option (Z * Z)) l pos i x :
  map f l = map Some pos -> l !! i = Some x -> f x = pos !! i.
Proof.
  intros H Hi.
  assert (map f l !! i = Some (f x)) as E
    by (by rewrite list_lookup_fmap, Hi).
  rewrite H, list_lookup_fmap in E.
  destruct (pos !! i); cbn in E; by simplify_eq.
Qed.

Lemma position_lines o p :
  position o = Some p ->
  attrs_of o ≫= lineno = Some p.1 /\ attrs_of o ≫= end_lineno = Some p.2.
Proof.
  unfold position. destruct (attrs_of o) as [[[a|] [b|]]|]; try done.
  by intros [= <-].
Qed.

Lemma canonical_block_dump_hash block h d :
  Block.canonical_block_dump block = Ok (h, d) -> h = Sha256.sha256_hex d.
Proof.
  unfold Block.canonical_block_dump.
  destruct (Block.canonical_module block); [|done]. by intros [= <- <-].
Qed.

Lemma positions_take_drop stmts pos i n :
  map position stmts = map Some pos ->
  map position (take n (drop i stmts)) = map Some (take n (drop i pos)).
Proof.
  intros H. by rewrite <- firstn_map, <- skipn_map, H, skipn_map, firstn_map.
Qed.

(** One window over a body of located statements: the positions stay,
    and one occurrence is recorded, under the hash of its dump. *)
Lemma window_located length_ stmts seqs i stmts' seqs' pos :
  map position stmts = map Some pos ->
  (i + length_ <= length stmts)%nat ->
  window length_ (stmts, seqs) i = Ok (stmts', seqs') ->
  map position stmts' = map Some pos /\
  exists d se,
    window_range pos (length_, i) = Some se /\
    seqs' = setdefault_append (Sha256.sha256_hex d) (se.1, se.2, d) seqs.
Proof.
  intros Hpos Hlen. unfold window.
  pose proof (positions_take_drop stmts pos i length_ Hpos) as Hb.
  assert (length pos = length stmts) as Hlp.
  { rewrite <- (length_map Some pos), <- Hpos. by rewrite length_map. }
  destruct (take length_ (drop i stmts)) as [|b0 block] eqn:Eb; [done|].
  assert (length (b0 :: block) = length_) as Hbl.
  { rewrite <- Eb, length_take, length_drop. lia. }
  destruct (take length_ (drop i pos)) as [|p0 posb] eqn:Ep; [done|].
  assert (pos !! i = Some p0) as Hp0.
  { assert ((take length_ (drop i pos)) !! 0%nat = Some p0) as E
      by (by rewrite Ep).
    rewrite lookup_take_lt, lookup_drop in E by (cbn in Hbl; lia).
    by rewrite Nat.add_0_r in E. }
  pose proof Hb as [= Hb0 _]. cbn [map] in Hb.
  rewrite (position_has_lineno b0 p0 Hb0). cbn [negb].
  destruct (Block.canonical_block_dump (b0 :: block)) as [[h d]|e] eqn:Ed;
    [|done].
  apply canonical_block_dump_hash in Ed as ->.
  pose proof (block_after_positions (b0 :: block) (p0 :: posb) Hb) as Ha.
  destruct (Block.block_after (b0 :: block)) as [|y0 ys] eqn:Ey; [done|].
  cbn [head].
  assert (exists yl pl, last (y0 :: ys) = Some yl /\ position yl = Some pl /\
                        pos !! (i + length_ - 1)%nat = Some pl)
    as (yl & pl & -> & Hyl & Hpl).
  { assert (length (y0 :: ys) = length_) as Hyl.
    { rewrite <- (length_map position), Ha, length_map, <- Ep, length_take,
        length_drop. lia. }
    rewrite last_lookup.
    destruct ((y0 :: ys) !! pred (length (y0 :: ys))) as [yl|] eqn:El.
    2:{ apply lookup_ge_None in El. cbn [length] in *. lia. }
    exists yl. pose proof (map_Some_lookup position _ _ _ _ Ha El) as Hx.
    rewrite <- Ep in Hx.
    rewrite lookup_take_lt, lookup_drop in Hx by (cbn [length] in *; lia).
    replace (i + pred (length (y0 :: ys)))%nat with (i + length_ - 1)%nat in Hx
      by (cbn [length] in *; lia).
    destruct (pos !! (i + length_ - 1)%nat) as [pl|] eqn:Epl.
    - by exists pl.
    - apply lookup_ge_None in Epl. cbn [length] in *. lia. }
  pose proof Ha as [= Hy0 _].
  destruct (position_lines y0 p0 Hy0) as [-> _].
  destruct (position_lines yl pl Hyl) as [-> ->]. cbn [default].
  intros [= <- <-]. split.
  - change (Block.in_place b0 y0 :: zip_with Block.in_place block ys
              ++ drop (i + length_) stmts)
      with (zip_with Block.in_place (b0 :: block) (y0 :: ys)
              ++ drop (i + length_) stmts).
    rewrite !map_app.
    rewrite (zip_in_place_positions (b0 :: block) (y0 :: ys) (p0 :: posb) Hb Ha).
    rewrite <- Ep, <- firstn_map, <- skipn_map, Hpos.
    rewrite <- !firstn_map, <- !skipn_map.
    rewrite <- (drop_drop (map Some pos) length_ i) at 1.
    by rewrite !take_drop.
  - exists d, (p0.1, pl.2). split; [|done].
    unfold window_range. cbn [fst snd]. by rewrite Hp0, Hpl.
Qed.

Lemma windows_in_body min_len max_len n :
  Forall (fun w => (w.2 + w.1 <= n)%nat) (windows min_len max_len n).
Proof.
  unfold windows. apply Forall_forall. intros [L i] Hw.
  apply list_elem_of_In, in_flat_map in Hw as (L' & _ & Hw).
  destruct (n <? L')%nat eqn:E; [done|]. apply Nat.ltb_ge in E.
  apply in_map_iff in Hw as (i' & [= <- <-] & Hi).
  apply in_seq in Hi. cbn [fst snd]. lia.
Qed.

Lemma windows_located ws stmts seqs stmts' seqs' pos :
  map position stmts = map Some pos ->
  Forall (fun w => (w.2 + w.1 <= length pos)%nat) ws ->
  foldM (fun st w => window w.1 st w.2) ws (stmts, seqs) = Ok (stmts', seqs') ->
  map position stmts' = map Some pos /\
  exists recs : list (string * occurrence),
    seqs' = record_all recs seqs /\
    Forall (fun r => r.1 = Sha256.sha256_hex r.2.2) recs /\
    map (fun r => Some (span r.2)) recs = map (window_range pos) ws.
Proof.
  intros Hpos Hws. revert stmts seqs Hpos.
  induction Hws as [|[L i] ws Hw _ IH]; intros stmts seqs Hpos; cbn [foldM].
  - intros [= <- <-]. split; [done|]. by exists [].
  - cbn [fst snd] in *.
    destruct (window L (stmts, seqs) i) as [[stmts1 seqs1]|e] eqn:E; [|done].
    assert (length pos = length stmts) as Hlp.
    { rewrite <- (length_map Some pos), <- Hpos. by rewrite length_map. }
    apply (window_located L stmts seqs i stmts1 seqs1 pos Hpos) in E
      as (Hpos1 & d & se & Hse & ->); [|lia].
    intros Hrest. apply (IH _ _ Hpos1) in Hrest as (Hpos' & recs & -> & Hh & Hr).
    split; [done|].
    exists ((Sha256.sha256_hex d, (se.1, se.2, d)) :: recs).
    split_and!; [done|by constructor|].
    cbn [map]. rewrite Hr, Hse. by destruct se.
Qed.
End LocatedFacts.


(** X16. A body shorter than [min_len] is left alone: nothing is recorded and
    no statement is canonicalized. *)
Theorem short_body_left_alone (min_len max_len : nat)
    (stmts : list Ast.obj) (seqs : Selector.sequences) :
  (length stmts < min_len)%nat ->
  BodyWalker._walk_body min_len max_len stmts seqs = Ast.Ok (stmts, seqs).
Proof.
  intros Hlen. rewrite walk_body_windows.
  assert (windows min_len max_len (length stmts) = []) as ->; [|done].
  unfold windows, BodyWalker.lengths.
  assert (Forall (fun L => (min_len <= L)%nat)
            (rev (seq min_len (S max_len - min_len)))) as H.
  { apply Forall_forall. intros L HL.
    apply list_elem_of_In, in_rev, in_seq in HL. lia. }
  induction H as [|L ls HL _ IH]; cbn [flat_map]; [done|].
  rewrite IH. destruct (length stmts <? L)%nat eqn:E; [done|].
  apply Nat.ltb_ge in E. lia.
Qed.

(** ** What the dictionary holds *)

Section Collected.
Import Ast BodyWalker Selector.

Variables min_len max_len : nat.

(** An occurrence filed under [h] holds the dump of a run of between
    [min_len] and [max_len] statements whose hash is [h]. *)
Definition dumped_run (h : string) (o : occurrence) : Prop :=
  exists block : list obj,
    (min_len <= length block <= max_len)%nat /\
    Block.canonical_block_dump block = Ok (h, o.2).

(** No key comes twice, no group is empty and every occurrence is filed
    under the hash of its dump. *)
Definition filed (seqs : sequences) : Prop :=
  NoDup seqs.*1 /\
  Forall (fun item => item.2 <> [] /\ Forall (dumped_run item.1) item.2) seqs.

Lemma dict_get_elem {K V} `{EqDecision K} (k : K) (v : V) d :
  Py.dict_get k d = Some v -> (k, v) ∈ d.
Proof.
  induction d as [|[k' v'] d IH]; cbn [Py.dict_get]; [done|].
  destruct (decide (k = k')) as [->|Hne].
  - intros [= ->]. by left.
  - intros H. right. by apply IH.
Qed.

Lemma setdefault_append_filed h o seqs :
  filed seqs -> dumped_run h o -> filed (setdefault_append h o seqs).
Proof.
  intros [Hnd Hall] Ho. unfold setdefault_append. split.
  - by apply dict_set_keys_NoDup.
  - apply Forall_forall. intros [h' occ'] Hin.
    apply dict_set_elem in Hin as [[-> ->]|[_ Hin]]; [| |done].
    + cbn [fst snd]. split; [by destruct (default _ _)|].
      apply Forall_app. split; [|by constructor].
      destruct (Py.dict_get h seqs) as [v|] eqn:E; [|by constructor].
      apply dict_get_elem in E.
      by destruct (proj1 (Forall_forall _ _) Hall _ E).
    + by apply (proj1 (Forall_forall _ _) Hall).
Qed.

Lemma lengths_bounds L :
  L ∈ lengths min_len max_len -> (min_len <= L <= max_len)%nat.
Proof.
  unfold lengths. intros HL. apply list_elem_of_In, in_rev, in_seq in HL. lia.
Qed.

Lemma window_filed L stmts seqs i stmts' seqs' :
  (min_len <= L <= max_len)%nat -> (i + L <= length stmts)%nat ->
  window L (stmts, seqs) i = Ok (stmts', seqs') ->
  filed seqs -> filed seqs' /\ length stmts' = length stmts.
Proof.
  intros HL Hi E Hseqs. split.
  2:{ apply window_shallower in E. symmetry. exact (Forall2_length _ _ _ E). }
  revert E. unfold window.
  destruct (take L (drop i stmts)) as [|b0 block] eqn:Eb; [done|].
  destruct (negb (has_lineno b0)); [by intros [= <- <-]|].
  destruct (Block.canonical_block_dump _) as [[h dumped]|e] eqn:Ed; [|done].
  destruct (head _); [|done]. destruct (last _); [|done].
  destruct (_ ≫= lineno); [|done]. destruct (_ ≫= lineno); [|done].
  intros [= <- <-]. apply setdefault_append_filed; [done|].
  exists (b0 :: block). split; [|done].
  rewrite <- Eb, length_take, length_drop. lia.
Qed.

Lemma walk_body_filed stmts seqs stmts' seqs' :
  _walk_body min_len max_len stmts seqs = Ok (stmts', seqs') ->
  filed seqs -> filed seqs'.
Proof.
  rewrite walk_body_windows. intros E Hseqs.
  pose proof (windows_in_body min_len max_len (length stmts)) as Hin.
  assert (Forall (fun w => (min_len <= w.1 <= max_len)%nat)
            (windows min_len max_len (length stmts))) as Hb.
  { apply Forall_forall. intros [L i] Hw. cbn [fst].
    apply list_elem_of_In, in_flat_map in Hw as (L' & HL & Hw).
    apply list_elem_of_In, lengths_bounds in HL.
    destruct (_ <? _)%nat; [done|].
    by apply in_map_iff in Hw as (i' & [= <- <-] & _). }
  revert E Hseqs Hin Hb. generalize (windows min_len max_len (length stmts)).
  intros ws. revert stmts seqs.
  induction ws as [|[L i] ws IH]; intros stmts seqs; cbn [foldM].
  - by intros [= <- <-].
  - cbn [fst snd].
    destruct (window L (stmts, seqs) i) as [[stmts1 seqs1]|e] eqn:E1; [|done].
    intros E Hseqs [Hi Hin]%Forall_cons [HL Hb]%Forall_cons.
    cbn [fst snd] in *.
    destruct (window_filed L stmts seqs i stmts1 seqs1 HL Hi E1 Hseqs)
      as [Hseqs1 Hlen].
    apply (IH stmts1 seqs1 E Hseqs1); [by rewrite Hlen|done].
Qed.

(** A step of the walk that keeps the dictionary in order. *)
Definition keeps_filed {A B} (T : A -> M sequences B) : Prop :=
  forall x seqs y seqs', T x seqs = Ok (y, seqs') -> filed seqs -> filed seqs'.

Lemma keeps_filed_bind {A B C} (T1 : A -> M sequences B)
    (T2 : B -> M sequences C) :
  keeps_filed T1 -> keeps_filed T2 ->
  keeps_filed (fun x => bind (T1 x) T2).
Proof.
  intros H1 H2 x seqs y seqs' (b & s1 & E1 & E2)%bind_Ok Hs.
  eapply H2; [exact E2|]. by eapply H1.
Qed.

Lemma keeps_filed_mapM {A B} (T : A -> M sequences B) :
  keeps_filed T -> keeps_filed (mapM T).
Proof.
  intros HT l. induction l as [|x l IH]; intros seqs ys seqs'.
  - by intros [= <- <-].
  - rewrite mapM_cons. destruct (T x seqs) as [[y s1]|e] eqn:E1; [|done].
    destruct (mapM T l s1) as [[ys1 s2]|e] eqn:E2; [|done].
    intros [= <- <-] Hs. eapply IH; [exact E2|]. by eapply HT.
Qed.

Lemma walk_field_filed name : keeps_filed (walk_field min_len max_len name).
Proof.
  intros node seqs node' seqs'. unfold walk_field.
  intros (body & s1 & Hb & Hrest)%bind_Ok Hs.
  apply attr_Ok in Hb as [-> ->].
  destruct (get_field name (fields_of node)) as [|stmts| |]; try done.
  apply bind_Ok in Hrest as (stmts' & s2 & Hw & [= <- <-]).
  by eapply walk_body_filed.
Qed.

Lemma walk_handlers_filed : keeps_filed (walk_handlers min_len max_len).
Proof.
  intros node seqs node' seqs'. unfold walk_handlers.
  intros (hs & s1 & Hb & Hrest)%bind_Ok Hs.
  apply attr_Ok in Hb as [-> ->].
  destruct (get_field "handlers" (fields_of node)) as [|hs| |]; try done.
  apply bind_Ok in Hrest as (hs' & s2 & Hw & [= <- <-]).
  eapply (keeps_filed_mapM (walk_field min_len max_len "body")); [|exact Hw|done].
  apply walk_field_filed.
Qed.

Lemma generic_visit_filed V :
  keeps_filed V -> keeps_filed (generic_visit V).
Proof.
  intros HV node seqs node' seqs'. destruct node as [cls fields attrs| | |];
    try done.
  unfold generic_visit. intros (fs & s1 & E & [= <- <-])%bind_Ok Hs.
  eapply (keeps_filed_mapM (visit_field V)); [|exact E|done].
  intros [f v] s [f' v'] s'. unfold visit_field. cbn [fst snd].
  assert (keeps_filed (visit_item V)) as Hitem.
  { intros item s0 y s0'. destruct item; try (by intros [= <- <-]).
    apply HV. }
  destruct v as [c fs0 a|items| |]; try (by intros [= <- <- <-]).
  - intros (n & s2 & E2 & [= <- <- <-])%bind_Ok. by eapply HV.
  - intros (l & s2 & E2 & [= <- <- <-])%bind_Ok.
    by eapply (keeps_filed_mapM (visit_item V)).
Qed.

Lemma dispatch_filed V :
  keeps_filed V -> keeps_filed (dispatch min_len max_len V).
Proof.
  intros HV.
  assert (forall orelse,
            keeps_filed (fun node =>
              _walk_and_visit min_len max_len V node orelse)) as Hwv.
  { intros orelse. unfold _walk_and_visit.
    apply (keeps_filed_bind (walk_field min_len max_len "body"));
      [apply walk_field_filed|].
    apply (keeps_filed_bind
             (fun node => if orelse then walk_field min_len max_len "orelse" node
                          else ret node)).
    - destruct orelse; [apply walk_field_filed|].
      by intros x s y s' [= <- <-].
    - by apply generic_visit_filed. }
  assert (keeps_filed (visit_Try min_len max_len V)) as Htry.
  { unfold visit_Try.
    repeat (apply (keeps_filed_bind (walk_field min_len max_len _));
              [apply walk_field_filed|]).
    apply (keeps_filed_bind (walk_handlers min_len max_len));
      [apply walk_handlers_filed|].
    by apply generic_visit_filed. }
  intros node seqs node' seqs'. unfold dispatch.
  destruct (cls_of node) as [cls|]; [|done].
  repeat case_match; try apply Hwv; try apply Htry.
  by apply generic_visit_filed.
Qed.

Lemma visit_filed fuel : keeps_filed (visit min_len max_len fuel).
Proof.
  induction fuel as [|fuel IH]; [done|]. cbn [visit]. by apply dispatch_filed.
Qed.
End Collected.


(** ** Instances of the walk *)

Section WalkInstances.
Import Ast Syntax.

(** [x = 1], [y = 2] and a [pass] on two lines. *)
Definition three_located : list obj :=
  [Assign_ [Name_ "x" Store_ 1] (Constant_ (CInt 1) 1 1) 1 1;
   Assign_ [Name_ "y" Store_ 2] (Constant_ (CInt 2) 2 2) 2 2;
   Pass_ 3 4].

(** The statements and the dictionary after the walk over
    [three_located]. *)
Definition three_walked : list obj * Selector.sequences :=
  Eval vm_compute in
    match BodyWalker._walk_body 2 6 three_located [] with
    | Ok r => r
    | Raise _ => ([], [])
    end.
End WalkInstances.


Lemma short_body_left_alone_witness :
  BodyWalker._walk_body 2 6 [Syntax.Pass_ 1 1] []
  = Ast.Ok ([Syntax.Pass_ 1 1], []).
Proof. apply short_body_left_alone. cbn. lia. Defined.


(** ** What the walk leaves of the caller's tree *)

Section Rewritten.
Import Ast.

(** A placeholder: a prefix and a number. *)
Definition numbered (pre s : string) : Prop :=
  exists n : Z, s = (pre ++ Py.repr_int n)%string.

Definition name_placeholder (v : obj) : Prop :=
  exists s, v = Const (CStr s) /\ (numbered "_N" s \/ numbered "_A" s).

Definition const_placeholder (v : obj) : Prop :=
  exists s, v = Const (CStr s) /\ numbered "_C" s.

(** The classes of the nodes that [Canonicalizer] replaces by a node of
    its own making. *)
Definition replaced_class (cls : string) : bool :=
  String.eqb cls "Name" || String.eqb cls "arg" || String.eqb cls "Constant"
  || String.eqb cls "Attribute".

(** A tree in which the canonicalizer has left no identifier and no
    literal: every [Name] and [arg] carries a placeholder, every
    [Attribute] a placeholder for its attribute name and every
    [Constant] a placeholder for its value. The context of a [Name] is
    not looked into, as the canonicalizer does not visit it. *)
Fixpoint canonical (o : obj) : Prop :=
  match o with
  | Node cls fields _ =>
      if String.eqb cls "Name" then name_placeholder (get_field "id" fields)
      else if String.eqb cls "arg" then
        name_placeholder (get_field "arg" fields)
      else if String.eqb cls "Constant" then
        const_placeholder (get_field "value" fields)
      else
        (String.eqb cls "Attribute" = true ->
         name_placeholder (get_field "attr" fields)) /\
        foldr and True
          (map (fun fv : string * obj =>
                  let '(f, v) := fv in
                  match v with
                  | PyList items => foldr and True (map canonical items)
                  | _ => canonical v
                  end) fields)
  | _ => True
  end.

(** A statement of a body: a node of a class that the canonicalizer
    changes in place. *)
Definition statement (o : obj) : Prop :=
  match o with
  | Node cls _ _ => replaced_class cls = false
  | _ => False
  end.
End Rewritten.

Section RewrittenFacts.
Import Ast Canonicalizer.

Definition canonical_value (v : obj) : Prop :=
  match v with
  | PyList items => Forall canonical items
  | _ => canonical v
  end.

Lemma foldr_and_Forall {A} (P : A -> Prop) l :
  foldr and True (map P l) <-> Forall P l.
Proof.
  induction l as [|x l IH]; cbn [foldr map].
  - split; [constructor|done].
  - rewrite Forall_cons, IH. done.
Qed.

Lemma canonical_Node cls fields attrs :
  canonical (Node cls fields attrs) <->
  if String.eqb cls "Name" then name_placeholder (get_field "id" fields)
  else if String.eqb cls "arg" then name_placeholder (get_field "arg" fields)
  else if String.eqb cls "Constant" then
    const_placeholder (get_field "value" fields)
  else
    (String.eqb cls "Attribute" = true ->
     name_placeholder (get_field "attr" fields)) /\
    Forall (fun fv => canonical_value fv.2) fields.
Proof.
  cbn [canonical]. repeat case_match; try done.
  rewrite foldr_and_Forall.
  assert (forall l, Forall (fun fv : string * obj =>
                              let '(f, v) := fv in
                              match v with
                              | PyList items =>
                                  foldr and True (map canonical items)
                              | _ => canonical v
                              end) l
                    <-> Forall (fun fv => canonical_value fv.2) l) as ->; [|done].
  intros l. apply Forall_proper; [|done]. intros [f v]. cbn [snd].
  destruct v; cbn [canonical_value]; try done. apply foldr_and_Forall.
Qed.

(** The state of a pass holds placeholders only. *)
Definition placeholders_only (st : state) : Prop := name_inv st /\ const_inv st.

Lemma init_placeholders_only : placeholders_only init.
Proof. split; [apply init_name_inv|apply init_const_inv]. Qed.

Lemma serves_placeholders_only st st' :
  serves st st' -> placeholders_only st -> placeholders_only st'.
Proof.
  intros (history & ps & H) [Hn Hc]. split.
  - by destruct (history_name_inv history st ps st' Hn H).
  - by destruct (history_const_inv history st ps st' Hc H).
Qed.

Lemma map_name_placeholder id st p st' :
  name_inv st -> _map_name id st = Ok (p, st') ->
  numbered "_N" p \/ numbered "_A" p.
Proof.
  intros (_ & Hrange & _). unfold _map_name.
  destruct (name_map st !! id) as [q|] eqn:E; intros [= <- <-].
  - destruct (Hrange id q E) as (n & _ & [-> | ->]); [left|right]; by exists n.
  - left. by eexists.
Qed.

Lemma map_attr_placeholder a st p st' :
  name_inv st -> _map_attr a st = Ok (p, st') ->
  numbered "_N" p \/ numbered "_A" p.
Proof.
  intros (_ & Hrange & _). unfold _map_attr.
  destruct (name_map st !! _) as [q|] eqn:E; intros [= <- <-].
  - destruct (Hrange _ q E) as (n & _ & [-> | ->]); [left|right]; by exists n.
  - right. by eexists.
Qed.

Lemma map_const_placeholder c st p st' :
  const_inv st -> _map_const c st = Ok (p, st') -> numbered "_C" p.
Proof.
  intros (_ & Hrange & _). unfold _map_const.
  destruct (const_map st !! _) as [q|] eqn:E; intros [= <- <-].
  - destruct (Hrange _ q E) as (n & _ & ->). by exists n.
  - by eexists.
Qed.

(** A loop over a list that keeps an invariant of the state. *)
Lemma mapM_invariant {S A B} (I : S -> Prop) (R : B -> Prop)
    (f : A -> M S B) l :
  Forall (fun x => forall st y st', I st -> f x st = Ok (y, st') ->
                                    R y /\ I st') l ->
  forall st ys st', I st -> mapM f l st = Ok (ys, st') -> Forall R ys /\ I st'.
Proof.
  induction 1 as [|x l Hx _ IH]; intros st ys st' Hst.
  - intros [= <- <-]. by split.
  - rewrite mapM_cons. destruct (f x st) as [[y s1]|e] eqn:E1; [|done].
    destruct (mapM f l s1) as [[ys1 s2]|e] eqn:E2; [|done].
    intros [= <- <-]. destruct (Hx st y s1 Hst E1) as [Hy H1].
    destruct (IH s1 ys1 s2 H1 E2) as [Hys H2]. split; [by constructor|done].
Qed.

Lemma canonical_value_get name fields :
  Forall (fun fv => canonical_value fv.2) fields ->
  canonical_value (get_field name fields).
Proof.
  induction 1 as [|[f v] fields Hv _ IH]; cbn [get_field]; [done|].
  by destruct (String.eqb f name).
Qed.

Lemma canonical_value_set name v fields :
  canonical_value v ->
  Forall (fun fv => canonical_value fv.2) fields ->
  Forall (fun fv => canonical_value fv.2) (set_field name v fields).
Proof.
  intros Hv. induction 1 as [|[f w] fields Hw Hall IH]; cbn [set_field];
    [constructor|].
  destruct (String.eqb f name); constructor; done.
Qed.

(** What the canonicalizer hands back for a tree, in a state that holds
    placeholders only, is canonical. *)
Definition canonical_out (o : obj) : Prop :=
  forall st o' st', placeholders_only st -> visit o st = Ok (o', st') ->
    canonical o'.

Lemma visit_item_out item st y st' :
  canonical_out item -> placeholders_only st ->
  visit_item visit item st = Ok (y, st') ->
  canonical y /\ placeholders_only st'.
Proof.
  intros Hitem Hst E. destruct item as [c fs a|its|c|];
    try (injection E as <- <-; by split).
  split; [by eapply Hitem|].
  eapply serves_placeholders_only; [|exact Hst].
  by eapply (proj1 (visit_serves (Node c fs a))).
Qed.

Lemma visit_fields_out fields :
  Forall (fun fv => canonical_out fv.2 /\
            match fv.2 with
            | PyList items => Forall canonical_out items
            | _ => True
            end) fields ->
  forall st fs st', placeholders_only st ->
    mapM (visit_field visit) fields st = Ok (fs, st') ->
    Forall (fun fv => canonical_value fv.2) fs /\ placeholders_only st'.
Proof.
  intros H. apply mapM_invariant. eapply Forall_impl; [exact H|].
  intros [f v] [Hv Hitems] st y st' Hst. unfold visit_field. cbn [fst snd] in *.
  destruct v as [cls fs a|items|c|].
  - intros (n & s1 & E & [= <- <-])%bind_Ok. cbn [snd].
    pose proof (visit_returns_node _ _ _ _ _ _ E) as Hn.
    destruct (visit_item_out (Node cls fs a) st n s1 Hv Hst E) as [Hc H1].
    split; [|done]. by destruct n.
  - intros (l & s1 & E & [= <- <-])%bind_Ok. cbn [snd canonical_value].
    revert E. apply mapM_invariant; [|done].
    eapply Forall_impl; [exact Hitems|]. intros it Hit s y s' Hs.
    by apply visit_item_out.
  - intros [= <- <-]. by split.
  - intros [= <- <-]. by split.
Qed.

Lemma visit_out o :
  canonical_out o /\
  match o with PyList items => Forall canonical_out items | _ => True end.
Proof.
  induction o as [cls fields attrs IH|items IH|c|] using obj_induction.
  2: { split; [|by eapply Forall_impl; [exact IH|]; intros ? [? _]].
       by intros st o' st' _ [= <- <-]. }
  2,3: split; [|done]; by intros st o' st' _ [= <- <-].
  split; [|done]. intros st o' st' Hst. rewrite visit_Node.
  pose proof (visit_fields_out fields IH) as Hfields.
  destruct (String.eqb cls "Name") eqn:E1.
  { unfold visit_Name. intros (id & s1 & Hid & K)%bind_Ok.
    apply attr_str_Ok in Hid as [_ ->].
    apply bind_Ok in K as (p & s2 & Hp & K).
    apply bind_Ok in K as (ctx & s3 & Hctx & [= <- <-]).
    apply canonical_Node. cbn [String.eqb Ascii.eqb Bool.eqb get_field].
    exists p. split; [done|]. eapply map_name_placeholder; [apply Hst|exact Hp]. }
  destruct (String.eqb cls "arg") eqn:E2.
  { unfold visit_arg. intros (id & s1 & Hid & K)%bind_Ok.
    apply attr_str_Ok in Hid as [_ ->].
    apply bind_Ok in K as (p & s2 & Hp & [= <- <-]).
    apply canonical_Node. cbn [String.eqb Ascii.eqb Bool.eqb get_field].
    exists p. split; [done|]. eapply map_name_placeholder; [apply Hst|exact Hp]. }
  destruct (String.eqb cls "FunctionDef") eqn:E3.
  { unfold visit_FunctionDef, generic_visit.
    intros (n & s1 & (fs & s2 & Hfs & [= <- <-])%bind_Ok & [= <- <-])%bind_Ok.
    apply String.eqb_eq in E3 as ->. apply canonical_Node.
    cbn [String.eqb Ascii.eqb Bool.eqb]. split; [done|].
    destruct (Hfields st fs _ Hst Hfs) as [Hall _]. cbn [fields_of].
    repeat apply canonical_value_set; try done. by constructor. }
  destruct (String.eqb cls "ClassDef") eqn:E4.
  { unfold visit_ClassDef, generic_visit.
    intros (n & s1 & (fs & s2 & Hfs & [= <- <-])%bind_Ok & [= <- <-])%bind_Ok.
    apply String.eqb_eq in E4 as ->. apply canonical_Node.
    cbn [String.eqb Ascii.eqb Bool.eqb]. split; [done|].
    destruct (Hfields st fs _ Hst Hfs) as [Hall _]. cbn [fields_of].
    repeat apply canonical_value_set; try done; by constructor. }
  destruct (String.eqb cls "Attribute") eqn:E5.
  { unfold visit_Attribute, generic_visit.
    intros (n & s1 & (fs & s2 & Hfs & [= <- <-])%bind_Ok & K)%bind_Ok.
    apply bind_Ok in K as (a & s3 & Ha & K).
    apply attr_str_Ok in Ha as [_ ->].
    apply bind_Ok in K as (p & s4 & Hp & K).
    apply bind_Ok in K as (value & s5 & Hvalue & K).
    apply bind_Ok in K as (ctx & s6 & Hctx & [= <- <-]).
    apply attr_Ok in Hvalue as [-> ->]. apply attr_Ok in Hctx as [-> ->].
    destruct (Hfields st fs _ Hst Hfs) as [Hall H1]. cbn [fields_of].
    apply canonical_Node. cbn [String.eqb Ascii.eqb Bool.eqb get_field].
    split.
    - intros _. exists p. split; [done|].
      eapply map_attr_placeholder; [apply H1|exact Hp].
    - repeat constructor; cbn [snd]; try by apply canonical_value_get. }
  destruct (String.eqb cls "Constant") eqn:E6.
  { unfold visit_Constant. cbn [fields_of].
    destruct (get_field "value" fields) as [| |c|]; try done.
    intros (p & s1 & Hp & [= <- <-])%bind_Ok.
    apply canonical_Node. cbn [String.eqb Ascii.eqb Bool.eqb get_field].
    exists p. split; [done|]. eapply map_const_placeholder; [apply Hst|exact Hp]. }
  unfold generic_visit. intros (fs & s2 & Hfs & [= <- <-])%bind_Ok.
  apply canonical_Node. rewrite E1, E2, E6, E5. split; [done|].
  by destruct (Hfields st fs _ Hst Hfs).
Qed.
End RewrittenFacts.

Section RewrittenWalk.
Import Ast BodyWalker Selector.

Lemma erase_Const_iff v c : erase v = Const c <-> v = Const c.
Proof. destruct v; cbn [erase]; split; done. Qed.

Lemma name_placeholder_erase v :
  name_placeholder (erase v) <-> name_placeholder v.
Proof.
  unfold name_placeholder. split; intros (s & Hs & Hn); exists s;
    (split; [by apply erase_Const_iff|done]).
Qed.

Lemma const_placeholder_erase v :
  const_placeholder (erase v) <-> const_placeholder v.
Proof.
  unfold const_placeholder. split; intros (s & Hs & Hn); exists s;
    (split; [by apply erase_Const_iff|done]).
Qed.

Lemma Forall_pointwise_iff {A} (P Q : A -> Prop) l :
  Forall (fun x => P x <-> Q x) l -> (Forall P l <-> Forall Q l).
Proof.
  induction 1 as [|x l Hx _ IH]; [done|]. by rewrite !Forall_cons, Hx, IH.
Qed.

(** Whether a tree is canonical does not depend on its locations. *)
Lemma canonical_erase o : canonical (erase o) <-> canonical o.
Proof.
  enough ((canonical (erase o) <-> canonical o) /\
          match o with
          | PyList items =>
              Forall (fun it => canonical (erase it) <-> canonical it) items
          | _ => True
          end) as [H _] by done.
  induction o as [cls fields attrs IH|items IH|c|] using obj_induction;
    try done.
  - split; [|done]. rewrite erase_Node, !canonical_Node, !get_field_erase.
    assert (Forall (fun fv => canonical_value fv.2) (map erase_field fields)
            <-> Forall (fun fv => canonical_value fv.2) fields) as Hf.
    { rewrite Forall_map. apply Forall_pointwise_iff.
      eapply Forall_impl; [exact IH|]. intros [f v] [Hv Hl].
      unfold erase_field. cbn [fst snd] in *.
      destruct v as [c fs a|its|c|]; try done.
      cbn [erase canonical_value]. rewrite Forall_map.
      by apply Forall_pointwise_iff. }
    destruct (String.eqb cls "Name"); [apply name_placeholder_erase|].
    destruct (String.eqb cls "arg"); [apply name_placeholder_erase|].
    destruct (String.eqb cls "Constant"); [apply const_placeholder_erase|].
    by rewrite name_placeholder_erase, Hf.
  - split; [done|]. eapply Forall_impl; [exact IH|]. by intros v [H _].
Qed.

Lemma canonical_fix_item y : canonical y -> canonical (fix_item y).
Proof.
  destruct y as [c fs a| | |]; try done. unfold fix_item.
  intros H. apply canonical_erase. rewrite fix_erase. by apply canonical_erase.
Qed.

(** The statements that a pass of [canonical_block_dump] leaves are
    canonical. *)
Lemma block_after_canonical block h d :
  Block.canonical_block_dump block = Ok (h, d) ->
  Forall canonical (Block.block_after block).
Proof.
  unfold Block.canonical_block_dump, Block.canonical_module.
  rewrite block_after_eq, visit_module.
  destruct (mapM _ block Canonicalizer.init) as [[items s1]|e] eqn:E; [|done].
  intros _. apply Forall_map.
  assert (Forall canonical items /\ placeholders_only s1) as [Hall _].
  { eapply (mapM_invariant placeholders_only canonical);
      [|apply init_placeholders_only|exact E].
    apply Forall_forall. intros item _ st y st' Hst.
    apply visit_item_out; [|done]. apply visit_out. }
  eapply Forall_impl; [exact Hall|]. apply canonical_fix_item.
Qed.

(** A statement stays a node of its class. *)
Lemma visit_keeps_class cls fields attrs st y st' :
  replaced_class cls = false ->
  Canonicalizer.visit (Node cls fields attrs) st = Ok (y, st') ->
  cls_of y = Some cls.
Proof.
  unfold replaced_class. intros H.
  apply orb_false_iff in H as [H E4]. apply orb_false_iff in H as [H E3].
  apply orb_false_iff in H as [E1 E2].
  rewrite visit_Node, E1, E2, E4, E3.
  unfold Canonicalizer.visit_FunctionDef, Canonicalizer.visit_ClassDef,
    Canonicalizer.generic_visit, bind, ret.
  repeat case_match; intros; simplify_eq; done.
Qed.

Lemma fix_item_class y : cls_of (fix_item y) = cls_of y.
Proof.
  destruct y as [c fs [l|]| | |]; try done.
Qed.

Lemma block_after_statements block h d :
  Block.canonical_block_dump block = Ok (h, d) ->
  Forall statement block ->
  Forall2 (fun old new => statement new /\ Block.in_place old new = new)
          block (Block.block_after block).
Proof.
  unfold Block.canonical_block_dump, Block.canonical_module.
  rewrite block_after_eq, visit_module.
  destruct (mapM _ block Canonicalizer.init) as [[items s1]|e] eqn:E; [|done].
  intros _ Hst. apply Forall2_fmap_r.
  eapply (mapM_Forall2 _ _ block); [|exact E].
  eapply Forall_impl; [exact Hst|]. intros old Hold s y s'.
  destruct old as [cls fs a| | |]; try done. cbn [statement] in Hold.
  cbn [Canonicalizer.visit_item]. intros Hy. unfold compose.
  apply (visit_keeps_class _ _ _ _ _ _ Hold) in Hy.
  pose proof (fix_item_class y) as Hc. rewrite Hy in Hc.
  destruct (fix_item y) as [c' fs' a'| | |]; try done.
  injection Hc as ->. split; [done|].
  unfold Block.in_place. unfold replaced_class in Hold.
  apply orb_false_iff in Hold as [Hold ->]. by rewrite Hold.
Qed.

Lemma zip_in_place_new block block' :
  Forall2 (fun old new => statement new /\ Block.in_place old new = new)
          block block' ->
  zip_with Block.in_place block block' = block' /\ Forall statement block'.
Proof.
  induction 1 as [|old new block block' [Hs Hn] _ [IH1 IH2]]; [done|].
  cbn [zip_with]. rewrite Hn, IH1. split; [done|by constructor].
Qed.

(** One window over a body of located statements: the statements of the
    window are canonical afterwards, the others are as before. *)
Lemma window_rewrites L stmts seqs j stmts1 seqs1 pos :
  map position stmts = map Some pos ->
  Forall statement stmts ->
  (j + L <= length stmts)%nat ->
  window L (stmts, seqs) j = Ok (stmts1, seqs1) ->
  Forall statement stmts1 /\ length stmts1 = length stmts /\
  forall i s1, stmts1 !! i = Some s1 ->
    ((j <= i < j + L)%nat -> canonical s1) /\
    (~ (j <= i < j + L)%nat -> stmts !! i = Some s1).
Proof.
  intros Hpos Hst Hlen. unfold window.
  pose proof (positions_take_drop stmts pos j L Hpos) as Hb.
  destruct (take L (drop j stmts)) as [|b0 block] eqn:Eb; [done|].
  assert (length (b0 :: block) = L) as Hbl.
  { rewrite <- Eb, length_take, length_drop. lia. }
  destruct (take L (drop j pos)) as [|p0 posb]; [done|].
  pose proof Hb as [= Hb0 _].
  rewrite (position_has_lineno b0 p0 Hb0). cbn [negb].
  destruct (Block.canonical_block_dump (b0 :: block)) as [[h d]|e] eqn:Ed;
    [|done].
  assert (Forall statement (b0 :: block)) as Hbst.
  { rewrite <- Eb. by apply Forall_take, Forall_drop. }
  destruct (zip_in_place_new _ _ (block_after_statements _ _ _ Ed Hbst))
    as [Hzip Hnew].
  pose proof (block_after_canonical _ _ _ Ed) as Hcan.
  assert (length (Block.block_after (b0 :: block)) = L) as Hal.
  { rewrite <- Hbl. symmetry.
    exact (Forall2_length _ _ _ (block_after_statements _ _ _ Ed Hbst)). }
  destruct (head _); [|done]. destruct (last _); [|done].
  destruct (_ ≫= lineno); [|done]. destruct (_ ≫= lineno); [|done].
  rewrite Hzip. intros [= <- <-].
  assert (length (take j stmts) = j) as Htl by (rewrite length_take; lia).
  split_and!.
  - apply Forall_app. split; [by apply Forall_take|].
    apply Forall_app. split; [done|by apply Forall_drop].
  - rewrite !length_app, Htl, Hal, length_drop. lia.
  - intros i s1 Hi. split.
    + intros Hin. rewrite lookup_app_r in Hi by lia.
      rewrite lookup_app_l in Hi by lia.
      by apply (proj1 (Forall_lookup _ _) Hcan (i - length (take j stmts))%nat).
    + intros Hout. destruct (decide (i < j)%nat) as [Hlt|Hge].
      * rewrite lookup_app_l in Hi by lia. by rewrite lookup_take_lt in Hi.
      * rewrite lookup_app_r in Hi by lia. rewrite lookup_app_r in Hi by lia.
        rewrite lookup_drop in Hi. rewrite <- Hi. f_equal. lia.
Qed.

(** The offsets that a list of windows covers. *)
Definition covered (ws : list (nat * nat)) (i : nat) : Prop :=
  exists w, w ∈ ws /\ (w.2 <= i < w.2 + w.1)%nat.

Lemma windows_rewrite ws stmts seqs stmts' seqs' pos :
  map position stmts = map Some pos ->
  Forall statement stmts ->
  Forall (fun w => (w.2 + w.1 <= length pos)%nat) ws ->
  foldM (fun st w => window w.1 st w.2) ws (stmts, seqs) = Ok (stmts', seqs') ->
  forall i s', stmts' !! i = Some s' ->
    covered ws i \/ (exists s, stmts !! i = Some s /\ canonical s) ->
    canonical s'.
Proof.
  intros Hpos Hst Hws. revert stmts seqs Hpos Hst.
  induction Hws as [|[L j] ws Hw _ IH]; intros stmts seqs Hpos Hst; cbn [foldM].
  - intros [= <- <-] i s' Hi [(w & []%elem_of_nil & _)|(s & Hs & Hc)].
    by simplify_eq.
  - cbn [fst snd] in *.
    destruct (window L (stmts, seqs) j) as [[stmts1 seqs1]|e] eqn:E; [|done].
    assert (length pos = length stmts) as Hlp.
    { rewrite <- (length_map Some pos), <- Hpos. by rewrite length_map. }
    pose proof (window_located L stmts seqs j stmts1 seqs1 pos Hpos
                  ltac:(lia) E) as [Hpos1 _].
    destruct (window_rewrites L stmts seqs j stmts1 seqs1 pos Hpos Hst
                ltac:(lia) E) as (Hst1 & Hlen1 & Hw1).
    intros Hrest i s' Hi Hcov.
    apply (IH stmts1 seqs1 Hpos1 Hst1 Hrest i s' Hi).
    assert (forall s1, stmts1 !! i = Some s1 -> (j <= i < j + L)%nat ->
              exists s, stmts1 !! i = Some s /\ canonical s) as Hin.
    { intros s1 H1 Hr. exists s1. split; [done|]. by apply (Hw1 i s1 H1). }
    destruct Hcov as [(w & [->|Hwin]%elem_of_cons & Hr)|(s & Hs & Hc)].
    + cbn [fst snd] in Hr.
      destruct (stmts1 !! i) as [s1|] eqn:E1.
      * right. by apply (Hin s1).
      * apply lookup_ge_None in E1. lia.
    + left. by exists w.
    + assert (i < length stmts)%nat as Hlt by (by eapply lookup_lt_Some).
      destruct (stmts1 !! i) as [s1|] eqn:E1.
      2:{ apply lookup_ge_None in E1. lia. }
      right. destruct (decide (j <= i < j + L)%nat) as [Hr|Hr].
      * by apply (Hin s1).
      * exists s1. split; [done|].
        destruct (Hw1 i s1 E1) as [_ Hsame]. rewrite (Hsame Hr) in Hs.
        by simplify_eq.
Qed.

Lemma windows_cover min_len max_len n i :
  (1 <= min_len <= max_len)%nat -> (min_len <= n)%nat -> (i < n)%nat ->
  covered (windows min_len max_len n) i.
Proof.
  intros Hm Hn Hi. exists (min_len, Nat.min i (n - min_len)). split.
  - unfold windows. apply list_elem_of_In, in_flat_map. exists min_len. split.
    + unfold lengths. apply (proj1 (in_rev _ _)), in_seq. lia.
    + destruct (n <? min_len)%nat eqn:E; [apply Nat.ltb_lt in E; lia|].
      apply in_map, in_seq. lia.
  - cbn [fst snd]. lia.
Qed.
End RewrittenWalk.

(** X19. The walk overwrites the tree it is given. For a body of at
    least [min_len] statements that all carry [lineno] and
    [end_lineno], a call of [_walk_body] that returns leaves every
    statement canonical: every [Name] and [arg] node of the body then
    carries a placeholder in place of its identifier, every
    [Attribute] node a placeholder in place of its attribute name and
    every [Constant] node a placeholder in place of its value. *)
Theorem walked_body_is_rewritten (min_len max_len : nat)
    (stmts stmts' : list Ast.obj) (seqs seqs' : Selector.sequences)
    (pos : list (Z * Z)) :
  (1 <= min_len <= max_len)%nat -> (min_len <= length stmts)%nat ->
  map position stmts = map Some pos ->
  Forall statement stmts ->
  BodyWalker._walk_body min_len max_len stmts seqs = Ast.Ok (stmts', seqs') ->
  Forall canonical stmts'.
Proof.
  intros Hm Hn Hpos Hst. rewrite walk_body_windows. intros Hw.
  assert (length pos = length stmts) as Hlp.
  { rewrite <- (length_map Some pos), <- Hpos. by rewrite length_map. }
  assert (length stmts' = length stmts) as Hlen.
  { apply windows_located with (pos := pos) in Hw as [Hpos' _]; [|done|].
    - rewrite <- (length_map position stmts'), Hpos', length_map. done.
    - rewrite Hlp. apply windows_in_body. }
  apply Forall_lookup. intros i s' Hi.
  eapply (windows_rewrite _ stmts seqs stmts' seqs' pos Hpos Hst); [|exact Hw|exact Hi|].
  - rewrite Hlp. apply windows_in_body.
  - left. apply windows_cover; [done..|].
    rewrite <- Hlen. by eapply lookup_lt_Some.
Qed.

(** After the walk over [three_located], [x = 1] reads [_N0 = _C0]. *)
Lemma walked_body_is_rewritten_witness :
  BodyWalker._walk_body 2 6 three_located [] = Ast.Ok three_walked
  /\ three_walked.1 !! 0%nat
     = Some (Syntax.Assign_ [Syntax.Name_ "_N0" Syntax.Store_ 1]
               (Syntax.Constant_ (Ast.CStr "_C0") 1 1) 1 1)
  /\ Forall canonical three_walked.1.
Proof.
  assert (BodyWalker._walk_body 2 6 three_located [] = Ast.Ok three_walked)
    as E by (vm_compute; reflexivity).
  split; [exact E|]. split; [vm_compute; reflexivity|].
  apply (walked_body_is_rewritten 2 6 three_located three_walked.1 []
           three_walked.2 [(1, 1); (2, 2); (3, 4)]); [lia|cbn; lia|done| |exact E].
  unfold three_located. repeat constructor.
Defined.

(** * The canonical tree, read off the dictionaries *)

Section ApplyMaps.
Import Ast Canonicalizer.

(** The placeholder filed under a key. *)
Definition placeholder_of (m : gmap string string) (k : string) : string :=
  default EmptyString (m !! k).

(** What a pass that ends in the state [st] makes of a tree: every
    [Name], [arg], [Attribute] and [Constant] node that the pass visits
    is replaced by a node that carries the placeholder which the
    dictionaries of [st] hold for it; the rest is as in the visit
    methods. *)
Fixpoint apply_maps (st : state) (o : obj) : obj :=
  match o with
  | Node cls fields attrs =>
      if String.eqb cls "Name" then
        match get_field "id" fields with
        | Const (CStr id) =>
            Node "Name" [("id", str (placeholder_of (name_map st) id));
                         ("ctx", get_field "ctx" fields)] (copy_location o)
        | _ => o
        end
      else if String.eqb cls "arg" then
        match get_field "arg" fields with
        | Const (CStr a) =>
            Node "arg" [("arg", str (placeholder_of (name_map st) a));
                        ("annotation", Unset); ("type_comment", Unset)]
                 (copy_location o)
        | _ => o
        end
      else if String.eqb cls "Constant" then
        match get_field "value" fields with
        | Const c =>
            Node "Constant"
                 [("value", str (placeholder_of (const_map st) (Repr.repr c)));
                  ("kind", Unset)] (copy_location o)
        | _ => o
        end
      else
        let fields' :=
          map (fun fv : string * obj =>
                 let '(f, v) := fv in
                 (f, match v with
                     | PyList items => PyList (map (apply_maps st) items)
                     | _ => apply_maps st v
                     end)) fields in
        if String.eqb cls "FunctionDef" then
          Node cls (set_field "returns" Unset
                     (set_field "decorator_list" (PyList [])
                        (set_field "name" (str "_fn") fields'))) attrs
        else if String.eqb cls "ClassDef" then
          Node cls (set_field "decorator_list" (PyList [])
                     (set_field "bases" (PyList [])
                        (set_field "name" (str "_cls") fields'))) attrs
        else if String.eqb cls "Attribute" then
          match get_field "attr" fields' with
          | Const (CStr a) =>
              Node "Attribute"
                   [("value", get_field "value" fields');
                    ("attr", str (placeholder_of (name_map st)
                                    ("attr::" ++ a)%string));
                    ("ctx", get_field "ctx" fields')]
                   (copy_location o)
          | _ => o
          end
        else Node cls fields' attrs
  | _ => o
  end.

(** The values of the [Constant] nodes that a pass over a tree visits.
    The children of a [Name], an [arg] and a [Constant] are not
    visited. *)
Fixpoint constants_of (o : obj) : list constant :=
  match o with
  | Node cls fields _ =>
      if String.eqb cls "Name" then []
      else if String.eqb cls "arg" then []
      else if String.eqb cls "Constant" then
        match get_field "value" fields with Const c => [c] | _ => [] end
      else
        concat (map (fun fv : string * obj =>
                       let '(f, v) := fv in
                       match v with
                       | PyList items => concat (map constants_of items)
                       | _ => constants_of v
                       end) fields)
  | _ => []
  end.
End ApplyMaps.

Section ApplyMapsFacts.
Import Ast Canonicalizer.

Definition apply_field (st : state) (fv : string * obj) : string * obj :=
  (fv.1, match fv.2 with
         | PyList items => PyList (map (apply_maps st) items)
         | v => apply_maps st v
         end).

Definition constants_of_field (fv : string * obj) : list constant :=
  match fv.2 with
  | PyList items => concat (map constants_of items)
  | v => constants_of v
  end.

Lemma apply_maps_Node st cls fields attrs :
  apply_maps st (Node cls fields attrs) =
  let o := Node cls fields attrs in
  if String.eqb cls "Name" then
    match get_field "id" fields with
    | Const (CStr id) =>
        Node "Name" [("id", str (placeholder_of (name_map st) id));
                     ("ctx", get_field "ctx" fields)] (copy_location o)
    | _ => o
    end
  else if String.eqb cls "arg" then
    match get_field "arg" fields with
    | Const (CStr a) =>
        Node "arg" [("arg", str (placeholder_of (name_map st) a));
                    ("annotation", Unset); ("type_comment", Unset)]
             (copy_location o)
    | _ => o
    end
  else if String.eqb cls "Constant" then
    match get_field "value" fields with
    | Const c =>
        Node "Constant"
             [("value", str (placeholder_of (const_map st) (Repr.repr c)));
              ("kind", Unset)] (copy_location o)
    | _ => o
    end
  else if String.eqb cls "FunctionDef" then
    Node cls (set_field "returns" Unset
               (set_field "decorator_list" (PyList [])
                  (set_field "name" (str "_fn")
                     (map (apply_field st) fields)))) attrs
  else if String.eqb cls "ClassDef" then
    Node cls (set_field "decorator_list" (PyList [])
               (set_field "bases" (PyList [])
                  (set_field "name" (str "_cls")
                     (map (apply_field st) fields)))) attrs
  else if String.eqb cls "Attribute" then
    match get_field "attr" (map (apply_field st) fields) with
    | Const (CStr a) =>
        Node "Attribute"
             [("value", get_field "value" (map (apply_field st) fields));
              ("attr", str (placeholder_of (name_map st)
                              ("attr::" ++ a)%string));
              ("ctx", get_field "ctx" (map (apply_field st) fields))]
             (copy_location o)
    | _ => o
    end
  else Node cls (map (apply_field st) fields) attrs.
Proof.
  cbn [apply_maps].
  assert (map (fun fv : string * obj =>
                 let '(f, v) := fv in
                 (f, match v with
                     | PyList items => PyList (map (apply_maps st) items)
                     | _ => apply_maps st v
                     end)) fields = map (apply_field st) fields) as ->; [|done].
  apply map_ext. intros [f v]. by destruct v.
Qed.

Lemma constants_of_Node cls fields attrs :
  constants_of (Node cls fields attrs) =
  if String.eqb cls "Name" then []
  else if String.eqb cls "arg" then []
  else if String.eqb cls "Constant" then
    match get_field "value" fields with Const c => [c] | _ => [] end
  else concat (map constants_of_field fields).
Proof.
  cbn [constants_of].
  assert (map (fun fv : string * obj =>
                 let '(f, v) := fv in
                 match v with
                 | PyList items => concat (map constants_of items)
                 | _ => constants_of v
                 end) fields = map constants_of_field fields) as ->; [|done].
  apply map_ext. intros [f v]. by destruct v.
Qed.

(** The dictionaries of [st'] hold what those of [st] hold. *)
Definition extends (st st' : state) : Prop :=
  name_map st ⊆ name_map st' /\ const_map st ⊆ const_map st'.

Lemma extends_refl st : extends st st.
Proof. by split. Qed.

Lemma extends_trans st1 st2 st3 :
  extends st1 st2 -> extends st2 st3 -> extends st1 st3.
Proof. intros [? ?] [? ?]. split; by etrans. Qed.

Lemma serve_extends r st p st' : serve r st = Ok (p, st') -> extends st st'.
Proof.
  destruct r as [id|a|c]; cbn [serve];
    unfold _map_name, _map_attr, _map_const; case_match;
    intros [= <- <-]; split; cbn; try done; by apply insert_subseteq.
Qed.

Lemma serves_extends st st' : serves st st' -> extends st st'.
Proof.
  intros (history & ps & H). revert st ps H.
  induction history as [|r history IH]; intros st ps.
  - intros [= <- <-]. apply extends_refl.
  - rewrite mapM_cons. destruct (serve r st) as [[p s1]|e] eqn:E1; [|done].
    destruct (mapM serve history s1) as [[ps1 s2]|e] eqn:E2; [|done].
    intros [= <- <-]. eapply extends_trans; [by eapply serve_extends|].
    by eapply IH.
Qed.

Lemma visit_extends o st o' st' : visit o st = Ok (o', st') -> extends st st'.
Proof. intros H. eapply serves_extends, (proj1 (visit_serves o)), H. Qed.

Lemma map_name_filed id st p st' st'' :
  _map_name id st = Ok (p, st') -> extends st' st'' ->
  name_map st'' !! id = Some p.
Proof.
  unfold _map_name. intros H [Hn _].
  assert (name_map st' !! id = Some p) as E.
  { destruct (name_map st !! id) as [q|] eqn:E; injection H as <- <-; [done|].
    cbn. by rewrite lookup_insert_eq. }
  exact (lookup_weaken _ _ _ _ E Hn).
Qed.

Lemma map_attr_filed a st p st' st'' :
  _map_attr a st = Ok (p, st') -> extends st' st'' ->
  name_map st'' !! ("attr::" ++ a)%string = Some p.
Proof.
  unfold _map_attr. intros H [Hn _].
  assert (name_map st' !! ("attr::" ++ a)%string = Some p) as E.
  { destruct (name_map st !! _) as [q|] eqn:E; injection H as <- <-; [done|].
    cbn. by rewrite lookup_insert_eq. }
  exact (lookup_weaken _ _ _ _ E Hn).
Qed.

Lemma map_const_filed c st p st' st'' :
  _map_const c st = Ok (p, st') -> extends st' st'' ->
  const_map st'' !! (Repr.repr c) = Some p.
Proof.
  unfold _map_const. intros H [_ Hc].
  assert (const_map st' !! Repr.repr c = Some p) as E.
  { destruct (const_map st !! _) as [q|] eqn:E; injection H as <- <-; [done|].
    cbn. by rewrite lookup_insert_eq. }
  exact (lookup_weaken _ _ _ _ E Hc).
Qed.

(** What a pass leaves behind holds for every later state of the
    dictionaries. *)
Lemma mapM_final {A B} (Q : state -> A -> B -> Prop) (f : A -> M state B) l :
  Forall (fun x => forall st y st', f x st = Ok (y, st') ->
            extends st st' /\
            forall st'', extends st' st'' -> Q st'' x y) l ->
  forall st ys st', mapM f l st = Ok (ys, st') ->
    extends st st' /\ forall st'', extends st' st'' -> Forall2 (Q st'') l ys.
Proof.
  induction 1 as [|x l Hx _ IH]; intros st ys st'.
  - intros [= <- <-]. split; [apply extends_refl|]. constructor.
  - rewrite mapM_cons. destruct (f x st) as [[y s1]|e] eqn:E1; [|done].
    destruct (mapM f l s1) as [[ys1 s2]|e] eqn:E2; [|done].
    intros [= <- <-]. destruct (Hx _ _ _ E1) as [Hx1 Hx2].
    destruct (IH _ _ _ E2) as [Hl1 Hl2].
    split; [by eapply extends_trans|]. intros st'' Hst. constructor.
    + apply Hx2. by eapply extends_trans.
    + by apply Hl2.
Qed.

(** The tree returned by a pass is the tree read off the dictionaries,
    and every constant of the tree is a key of [const_map]. *)
Definition final (st : state) (o o' : obj) : Prop :=
  o' = apply_maps st o /\
  forall c, c ∈ constants_of o -> is_Some (const_map st !! Repr.repr c).

Definition final_field (st : state) (fv fv' : string * obj) : Prop :=
  fv' = apply_field st fv /\
  forall c, c ∈ constants_of_field fv ->
            is_Some (const_map st !! Repr.repr c).

Definition visit_final (o : obj) : Prop :=
  forall st o' st', visit o st = Ok (o', st') ->
    forall st'', extends st' st'' -> final st'' o o'.

Lemma final_items st l l' :
  Forall2 (final st) l l' ->
  l' = map (apply_maps st) l /\
  forall c, c ∈ concat (map constants_of l) ->
            is_Some (const_map st !! Repr.repr c).
Proof.
  induction 1 as [|x y l l' [-> Hx] _ [-> IH]]; cbn [map concat].
  - split; [done|]. by intros c Hc%elem_of_nil.
  - split; [done|]. intros c [Hc|Hc]%elem_of_app; auto.
Qed.

Lemma final_fields st l l' :
  Forall2 (final_field st) l l' ->
  l' = map (apply_field st) l /\
  forall c, c ∈ concat (map constants_of_field l) ->
            is_Some (const_map st !! Repr.repr c).
Proof.
  induction 1 as [|x y l l' [-> Hx] _ [-> IH]]; cbn [map concat].
  - split; [done|]. by intros c Hc%elem_of_nil.
  - split; [done|]. intros c [Hc|Hc]%elem_of_app; auto.
Qed.

Lemma visit_item_final it :
  visit_final it ->
  forall st y st', visit_item visit it st = Ok (y, st') ->
    extends st st' /\ forall st'', extends st' st'' -> final st'' it y.
Proof.
  intros Hit st y st'. destruct it as [cls fs a|items|c|]; cbn [visit_item].
  - intros H. split; [by eapply visit_extends|]. by eapply Hit.
  - intros [= <- <-]. split; [apply extends_refl|]. intros st'' _.
    split; [done|]. cbn. by intros c Hc%elem_of_nil.
  - intros [= <- <-]. split; [apply extends_refl|]. intros st'' _.
    split; [done|]. cbn. by intros c' Hc%elem_of_nil.
  - intros [= <- <-]. split; [apply extends_refl|]. intros st'' _.
    split; [done|]. cbn. by intros c Hc%elem_of_nil.
Qed.

Lemma visit_field_final fv :
  match fv.2 with
  | PyList items => Forall visit_final items
  | v => visit_final v
  end ->
  forall st y st', visit_field visit fv st = Ok (y, st') ->
    extends st st' /\ forall st'', extends st' st'' -> final_field st'' fv y.
Proof.
  destruct fv as [f v]. unfold visit_field, final_field, apply_field,
    constants_of_field. cbn [fst snd]. intros IH st y st'.
  destruct v as [cls fs a|items|c|].
  - intros (n & s1 & E & [= <- <-])%bind_Ok.
    split; [by eapply visit_extends|]. intros st'' Hst.
    destruct (IH _ _ _ E st'' Hst) as [-> Hc]. by split.
  - intros (l & s1 & E & [= <- <-])%bind_Ok.
    apply (mapM_final final) in E as [Hext Hl].
    2: { eapply Forall_impl; [exact IH|]. intros it Hit.
         by apply visit_item_final. }
    split; [done|]. intros st'' Hst.
    destruct (final_items _ _ _ (Hl st'' Hst)) as [-> Hc]. by split.
  - intros [= <- <-]. split; [apply extends_refl|]. intros st'' _.
    split; [done|]. by intros c' Hc%elem_of_nil.
  - intros [= <- <-]. split; [apply extends_refl|]. intros st'' _.
    split; [done|]. by intros c Hc%elem_of_nil.
Qed.

Lemma visit_fields_final fields :
  Forall (fun fv => visit_final fv.2 /\
            match fv.2 with
            | PyList items => Forall visit_final items
            | _ => True
            end) fields ->
  forall st fs st', mapM (visit_field visit) fields st = Ok (fs, st') ->
    forall st'', extends st' st'' ->
      fs = map (apply_field st'') fields /\
      forall c, c ∈ concat (map constants_of_field fields) ->
                is_Some (const_map st'' !! Repr.repr c).
Proof.
  intros H st fs st' E st'' Hst.
  apply (mapM_final final_field) in E as [_ Hl].
  - by apply final_fields, Hl.
  - eapply Forall_impl; [exact H|]. intros fv [Hv Hitems].
    apply visit_field_final. by destruct fv.2.
Qed.

Lemma placeholder_of_lookup (m : gmap string string) k p :
  m !! k = Some p -> placeholder_of m k = p.
Proof. unfold placeholder_of. by intros ->. Qed.

Lemma visit_is_final o :
  visit_final o /\
  match o with PyList items => Forall visit_final items | _ => True end.
Proof.
  induction o as [cls fields attrs IH|items IH|c|] using obj_induction.
  2: { split; [|by eapply Forall_impl; [exact IH|]; intros ? [? _]].
       intros st o' st' [= <- <-] st'' _. split; [done|].
       by intros c Hc%elem_of_nil. }
  2,3: split; [|done]; intros st o' st' [= <- <-] st'' _; (split; [done|]);
       by intros ? Hc%elem_of_nil.
  split; [|done]. intros st o' st' Hv st'' Hst. revert Hv.
  rewrite visit_Node. unfold final. rewrite apply_maps_Node, constants_of_Node.
  pose proof (visit_fields_final fields IH) as Hfields. cbn zeta.
  destruct (String.eqb cls "Name") eqn:E1.
  { unfold visit_Name. intros (id & s1 & Hid & K)%bind_Ok.
    apply attr_str_Ok in Hid as [Hid ->]. cbn [fields_of] in Hid.
    apply bind_Ok in K as (p & s2 & Hp & K).
    apply bind_Ok in K as (ctx & s3 & Hctx & [= <- <-]).
    apply attr_Ok in Hctx as [-> ->].
    rewrite Hid, (placeholder_of_lookup _ _ _ (map_name_filed _ _ _ _ _ Hp Hst)).
    split; [done|]. by intros c Hc%elem_of_nil. }
  destruct (String.eqb cls "arg") eqn:E2.
  { unfold visit_arg. intros (id & s1 & Hid & K)%bind_Ok.
    apply attr_str_Ok in Hid as [Hid ->]. cbn [fields_of] in Hid.
    apply bind_Ok in K as (p & s2 & Hp & [= <- <-]).
    rewrite Hid, (placeholder_of_lookup _ _ _ (map_name_filed _ _ _ _ _ Hp Hst)).
    split; [done|]. by intros c Hc%elem_of_nil. }
  destruct (String.eqb cls "FunctionDef") eqn:E3.
  { unfold visit_FunctionDef, generic_visit.
    intros (n & s1 & (fs & s2 & Hfs & [= <- <-])%bind_Ok & [= <- <-])%bind_Ok.
    destruct (Hfields _ _ _ Hfs st'' Hst) as [-> Hc].
    apply String.eqb_eq in E3 as ->. split; [done|]. exact Hc. }
  destruct (String.eqb cls "ClassDef") eqn:E4.
  { unfold visit_ClassDef, generic_visit.
    intros (n & s1 & (fs & s2 & Hfs & [= <- <-])%bind_Ok & [= <- <-])%bind_Ok.
    destruct (Hfields _ _ _ Hfs st'' Hst) as [-> Hc].
    apply String.eqb_eq in E4 as ->. split; [done|]. exact Hc. }
  destruct (String.eqb cls "Attribute") eqn:E5.
  { unfold visit_Attribute, generic_visit.
    intros (n & s1 & (fs & s2 & Hfs & [= <- <-])%bind_Ok & K)%bind_Ok.
    apply bind_Ok in K as (a & s3 & Ha & K).
    apply attr_str_Ok in Ha as [Ha ->]. cbn [fields_of] in Ha.
    apply bind_Ok in K as (p & s4 & Hp & K).
    apply bind_Ok in K as (value & s5 & Hvalue & K).
    apply bind_Ok in K as (ctx & s6 & Hctx & [= <- <-]).
    apply attr_Ok in Hvalue as [-> ->]. apply attr_Ok in Hctx as [-> ->].
    apply String.eqb_eq in E5 as ->. cbn [String.eqb Ascii.eqb Bool.eqb].
    assert (extends s2 st'') as Hs1.
    { eapply extends_trans; [|exact Hst].
      by eapply serve_extends with (r := ReqAttr a). }
    destruct (Hfields _ _ _ Hfs st'' Hs1) as [-> Hc]. cbn [fields_of] in *.
    rewrite Ha, (placeholder_of_lookup _ _ _ (map_attr_filed _ _ _ _ _ Hp Hst)).
    split; [done|]. exact Hc. }
  destruct (String.eqb cls "Constant") eqn:E6.
  { unfold visit_Constant. cbn [fields_of].
    destruct (get_field "value" fields) as [| |c|]; try done.
    intros (p & s1 & Hp & [= <- <-])%bind_Ok.
    pose proof (map_const_filed _ _ _ _ _ Hp Hst) as Hf.
    rewrite (placeholder_of_lookup _ _ _ Hf). split; [done|].
    intros c' ->%list_elem_of_singleton. by rewrite Hf. }
  unfold generic_visit. intros (fs & s2 & Hfs & [= <- <-])%bind_Ok.
  destruct (Hfields _ _ _ Hfs st'' Hst) as [-> Hc]. by split.
Qed.

Lemma visit_items_final items st items' st' :
  mapM (visit_item visit) items st = Ok (items', st') ->
  items' = map (apply_maps st') items.
Proof.
  intros E. apply (mapM_final final) in E as [_ Hl].
  - by apply final_items, Hl, extends_refl.
  - apply Forall_forall. intros it _.
    apply visit_item_final, visit_is_final.
Qed.
End ApplyMapsFacts.

(** Python's [==] on the values of constants: [bool] is a subclass of
    [int], so that [True == 1] and [False == 0]; values of other
    different types are unequal. *)
Definition py_eq (c1 c2 : Ast.constant) : bool :=
  match c1, c2 with
  | Ast.CNone, Ast.CNone | Ast.CEllipsis, Ast.CEllipsis => true
  | Ast.CBool a, Ast.CBool b => Bool.eqb a b
  | Ast.CInt m, Ast.CInt n => Z.eqb m n
  | Ast.CBool b, Ast.CInt n | Ast.CInt n, Ast.CBool b => Z.eqb n (Z.b2z b)
  | Ast.CStr s, Ast.CStr t => String.eqb s t
  | Ast.CBytes s, Ast.CBytes t => String.eqb s t
  | _, _ => false
  end.

Section ConstantInstances.
Import Ast Syntax.

(** [x = 1; y = True; z = 1]. *)
Definition one_true_one : list obj :=
  [Assign_ [Name_ "x" Store_ 1] (Constant_ (CInt 1) 1 1) 1 1;
   Assign_ [Name_ "y" Store_ 2] (Constant_ (CBool true) 2 2) 2 2;
   Assign_ [Name_ "z" Store_ 3] (Constant_ (CInt 1) 3 3) 3 3].
End ConstantInstances.

(** The tree and the state that a pass over [o] with a new
    canonicalizer returns. *)
Definition pass_of (o : Ast.obj) : Ast.obj * Canonicalizer.state :=
  match Canonicalizer.visit o Canonicalizer.init with
  | Ast.Ok r => r
  | Ast.Raise _ => (o, Canonicalizer.init)
  end.

(** C7, two constants that are equal in Python and are given different
    placeholders: [1 == True], and in the dump of [x = 1; y = True;
    z = 1] the two [1] are [_C0] and [True] is [_C1]. *)
Lemma equal_values_different_placeholders :
  py_eq (Ast.CInt 1) (Ast.CBool true) = true
  /\ Block.canonical_block_dump one_true_one
     = Ast.Ok ("a0eb654ba5f248ba2ff49b2f17f7a0521a42c7f1adda210b05bcd01a52138c66",
               "Module([Assign([Name('_N0', Store())], Constant('_C0')), Assign([Name('_N1', Store())], Constant('_C1')), Assign([Name('_N2', Store())], Constant('_C0'))], [])").
Proof. split; vm_compute; reflexivity. Qed.

(** C7 (as amended). A pass of a new canonicalizer over a tree returns
    the tree in which every [Constant] node that it visits carries the
    entry of [const_map] under the [repr] string of its value
    ([apply_maps]); the entries of two constants of the tree are [_C<n1>]
    and [_C<n2>], and the numbers are the same exactly when the [repr]
    strings are, which for the values of the embedding ([None],
    booleans, integers, strings, bytes and [Ellipsis]) is when the two
    values have the same type and the same content. *)
Theorem constants_share_placeholder_iff_same_repr
    (o o' : Ast.obj) (st : Canonicalizer.state) :
  Canonicalizer.visit o Canonicalizer.init = Ast.Ok (o', st) ->
  o' = apply_maps st o /\
  forall c1 c2, c1 ∈ constants_of o -> c2 ∈ constants_of o ->
    exists n1 n2,
      Canonicalizer.const_map st !! Repr.repr c1
        = Some ("_C" ++ Py.repr_int n1)%string /\
      Canonicalizer.const_map st !! Repr.repr c2
        = Some ("_C" ++ Py.repr_int n2)%string /\
      (n1 = n2 <-> Repr.repr c1 = Repr.repr c2) /\
      (Repr.repr c1 = Repr.repr c2 <-> c1 = c2).
Proof.
  intros Hv.
  destruct (proj1 (visit_is_final o) _ _ _ Hv st (extends_refl st)) as [Ho Hc].
  split; [exact Ho|]. intros c1 c2 H1 H2.
  destruct (proj1 (visit_serves o) _ _ _ Hv) as (history & ps & Hrun).
  destruct (history_const_inv history _ ps st init_const_inv Hrun)
    as ((_ & Hrange & Hinj) & _ & _).
  destruct (Hc c1 H1) as [p1 E1]. destruct (Hc c2 H2) as [p2 E2].
  destruct (Hrange _ _ E1) as (n1 & _ & ->).
  destruct (Hrange _ _ E2) as (n2 & _ & ->).
  exists n1, n2. split_and!; [done|done|split|split].
  - intros <-. by eapply Hinj.
  - intros E. rewrite E, E2 in E1. injection E1 as E1.
    by apply placeholder_inj in E1.
  - apply repr_inj.
  - by intros ->.
Qed.

(** In [x = 1; y = True; z = 1] the two [1] have one entry and [True]
    has another. *)
Lemma constants_share_placeholder_iff_same_repr_witness :
  let m := Block.module_of one_true_one in
  let st := (pass_of m).2 in
  (pass_of m).1 = apply_maps st m /\
  forall c1 c2, c1 ∈ constants_of m -> c2 ∈ constants_of m ->
    exists n1 n2,
      Canonicalizer.const_map st !! Repr.repr c1
        = Some ("_C" ++ Py.repr_int n1)%string /\
      Canonicalizer.const_map st !! Repr.repr c2
        = Some ("_C" ++ Py.repr_int n2)%string /\
      (n1 = n2 <-> Repr.repr c1 = Repr.repr c2) /\
      (Repr.repr c1 = Repr.repr c2 <-> c1 = c2).
Proof.
  apply (constants_share_placeholder_iff_same_repr
           (Block.module_of one_true_one)).
  vm_compute. reflexivity.
Defined.

(** The constants of [x = 1; y = True; z = 1], in the order of the
    visits. *)
Example constants_of_one_true_one :
  constants_of (Block.module_of one_true_one)
  = [Ast.CInt 1; Ast.CBool true; Ast.CInt 1].
Proof. reflexivity. Qed.

(** * Which bodies are cut into windows *)

Section WalkedBodies.
Import Ast BodyWalker Selector.

Variables min_len max_len : nat.

(** The fields that the visit method of a class passes to [_walk_body],
    in the order of the calls: [visit_FunctionDef], [visit_With] and
    [visit_Module] walk [body]; [visit_If], [visit_For] and
    [visit_While] walk [body] and [orelse]; [visit_Try] walks [body],
    [orelse] and [finalbody]. No other class has a visit method. *)
Definition walked (cls : string) : list string :=
  if String.eqb cls "FunctionDef" then ["body"]
  else if String.eqb cls "If" then ["body"; "orelse"]
  else if String.eqb cls "For" then ["body"; "orelse"]
  else if String.eqb cls "While" then ["body"; "orelse"]
  else if String.eqb cls "With" then ["body"]
  else if String.eqb cls "Try" then ["body"; "orelse"; "finalbody"]
  else if String.eqb cls "Module" then ["body"]
  else [].

(** The handlers whose bodies [visit_Try] walks after the three lists
    of the [Try] itself. *)
Definition handlers_of (cls : string) (fields : list (string * obj))
    : list obj :=
  if String.eqb cls "Try" then
    match get_field "handlers" fields with PyList hs => hs | _ => [] end
  else [].

(** The line ranges of the windows of one statement list, in the order
    of the two loops of [_walk_body]. *)
Definition body_spans (v : obj) : list (option (Z * Z)) :=
  match v with
  | PyList stmts =>
      map (window_range (omap position stmts))
          (windows min_len max_len (length stmts))
  | _ => []
  end.

(** The line ranges of the windows that the visit of a tree emits, in
    the order in which they are emitted: first the windows of the
    lists that the visit method of the node walks, then what the visits
    of the children emit ([generic_visit]). *)
Fixpoint ranges (o : obj) : list (option (Z * Z)) :=
  match o with
  | Node cls fields _ =>
      concat (map (fun name => body_spans (get_field name fields))
                  (walked cls))
      ++ concat (map (fun h => body_spans (get_field "body" (fields_of h)))
                     (handlers_of cls fields))
      ++ concat (map (fun fv : string * obj =>
                        let '(f, v) := fv in
                        match v with
                        | PyList items => concat (map ranges items)
                        | _ => ranges v
                        end) fields)
  | _ => []
  end.

Definition ranges_value (v : obj) : list (option (Z * Z)) :=
  match v with
  | PyList items => concat (map ranges items)
  | _ => ranges v
  end.

(** Every statement of the list carries [lineno] and [end_lineno]. *)
Definition located (v : obj) : bool :=
  match v with
  | PyList stmts =>
      forallb (fun s => match position s with Some _ => true | None => false end)
              stmts
  | _ => true
  end.

(** The classes of which the canonicalizer builds a new node. *)
Definition rebuilt (cls : string) : bool :=
  String.eqb cls "Name" || String.eqb cls "arg" || String.eqb cls "Constant"
  || String.eqb cls "Attribute".

(** The fields that the canonicalizer overwrites. *)
Definition dropped (cls : string) : list string :=
  if String.eqb cls "FunctionDef" then ["name"; "decorator_list"; "returns"]
  else if String.eqb cls "ClassDef" then ["name"; "bases"; "decorator_list"]
  else [].

Definition handler_ok (h : obj) : bool :=
  match cls_of h with
  | Some cls => String.eqb cls "ExceptHandler"
  | None => false
  end && located (get_field "body" (fields_of h)).

(** The trees of [ast.parse], as far as the walk depends on them: the
    statements of the lists that are walked carry their lines, the
    handlers of a [Try] are [ExceptHandler] nodes, and statements are
    found in statement lists only: no node of a walked class is below a
    [Name], an [arg], a [Constant] or an [Attribute], nor in the name,
    the decorators, the return annotation or the bases of a function or
    class definition. *)
Fixpoint well_formed_tree (o : obj) : bool :=
  match o with
  | Node cls fields attrs =>
      no_body_walking (Node cls fields attrs)
      || (negb (rebuilt cls)
          && forallb (fun name => no_body_walking (get_field name fields))
                     (dropped cls)
          && forallb (fun name => located (get_field name fields)) (walked cls)
          && forallb handler_ok (handlers_of cls fields)
          && forallb (fun fv : string * obj =>
                        let '(f, v) := fv in
                        match v with
                        | PyList items => forallb well_formed_tree items
                        | _ => well_formed_tree v
                        end) fields)
  | _ => true
  end.

Definition well_formed_value (v : obj) : bool :=
  match v with
  | PyList items => forallb well_formed_tree items
  | _ => well_formed_tree v
  end.

(** [recorded seqs seqs' rs]: [seqs'] is [seqs] with one more occurrence
    for each line range of [rs], in this order, each filed under the
    hash of its dump. *)
Definition recorded (seqs seqs' : sequences) (rs : list (option (Z * Z)))
    : Prop :=
  exists recs : list (string * occurrence),
    seqs' = record_all recs seqs /\
    Forall (fun r => r.1 = Sha256.sha256_hex r.2.2) recs /\
    map (fun r => Some (span r.2)) recs = rs.

Lemma ranges_Node cls fields attrs :
  ranges (Node cls fields attrs) =
  concat (map (fun name => body_spans (get_field name fields)) (walked cls))
  ++ concat (map (fun h => body_spans (get_field "body" (fields_of h)))
                 (handlers_of cls fields))
  ++ concat (map (fun fv => ranges_value fv.2) fields).
Proof.
  cbn [ranges]. do 3 f_equal. apply map_ext. by intros [f v].
Qed.

Lemma well_formed_Node cls fields attrs :
  well_formed_tree (Node cls fields attrs) =
  no_body_walking (Node cls fields attrs)
  || (negb (rebuilt cls)
      && forallb (fun name => no_body_walking (get_field name fields))
                 (dropped cls)
      && forallb (fun name => located (get_field name fields)) (walked cls)
      && forallb handler_ok (handlers_of cls fields)
      && forallb (fun fv => well_formed_value fv.2) fields).
Proof.
  cbn [well_formed_tree]. do 2 f_equal.
  induction fields as [|[f v] fields IH]; cbn [forallb]; [done|].
  by rewrite IH.
Qed.

Lemma recorded_refl seqs : recorded seqs seqs [].
Proof. by exists []. Qed.

Lemma recorded_app seqs1 seqs2 seqs3 rs1 rs2 :
  recorded seqs1 seqs2 rs1 -> recorded seqs2 seqs3 rs2 ->
  recorded seqs1 seqs3 (rs1 ++ rs2).
Proof.
  intros (r1 & -> & H1 & <-) (r2 & -> & H2 & <-). exists (r1 ++ r2).
  split_and!.
  - unfold record_all. by rewrite foldl_app.
  - by apply Forall_app.
  - by rewrite map_app.
Qed.

(** ** Trees without a walked class *)

Lemma walked_other cls : body_walking cls = false -> walked cls = [].
Proof.
  unfold body_walking, walked. intros H.
  repeat (apply orb_false_iff in H as [H ?]).
  by repeat match goal with E : String.eqb _ _ = false |- _ => rewrite E; clear E
            end.
Qed.

Lemma handlers_other cls fields :
  body_walking cls = false -> handlers_of cls fields = [].
Proof.
  unfold body_walking, handlers_of. intros H.
  repeat (apply orb_false_iff in H as [H ?]).
  by repeat match goal with E : String.eqb _ _ = false |- _ => rewrite E; clear E
            end.
Qed.

Lemma nbw_get_field name fields :
  forallb (fun fv => no_body_walking fv.2) fields = true ->
  no_body_walking (get_field name fields) = true.
Proof.
  induction fields as [|[f v] fields IH]; cbn [forallb get_field fst snd];
    [done|].
  intros [Hv Hf]%andb_true_iff. destruct (String.eqb f name); auto.
Qed.

Lemma forallb_set_field (P : obj -> bool) name v fields :
  P v = true -> forallb (fun fv => P fv.2) fields = true ->
  forallb (fun fv => P fv.2) (set_field name v fields) = true.
Proof.
  intros Hv. induction fields as [|[f w] fields IH];
    cbn [forallb set_field fst snd]; [done|].
  intros [Hw Hf]%andb_true_iff. destruct (String.eqb f name);
    cbn [forallb fst snd]; apply andb_true_iff; auto.
Qed.

Lemma nbw_ranges o :
  no_body_walking o = true -> ranges o = [] /\ ranges_value o = [].
Proof.
  induction o as [cls fields attrs IH|items IH|c|] using obj_induction;
    try done.
  - cbn [no_body_walking ranges_value]. rewrite ranges_Node.
    intros [Hc Hf]%andb_true_iff. apply negb_true_iff in Hc.
    rewrite walked_other, handlers_other by done. cbn [map concat app].
    enough (concat (map (fun fv => ranges_value fv.2) fields) = []) by done.
    induction IH as [|[f v] fields Hv _ IHf]; cbn [map concat]; [done|].
    cbn [forallb fst snd] in *. apply andb_true_iff in Hf as [Hfv Hf].
    by rewrite (proj2 (Hv Hfv)), IHf.
  - cbn [no_body_walking ranges_value ranges]. intros Hf. split; [done|].
    induction IH as [|v items Hv _ IHf]; cbn [map concat]; [done|].
    cbn [forallb] in Hf. apply andb_true_iff in Hf as [Hfv Hf].
    by rewrite (proj1 (Hv Hfv)), IHf.
Qed.

Lemma nbw_well_formed o : no_body_walking o = true -> well_formed_tree o = true.
Proof. destruct o; try done. cbn [well_formed_tree]. by intros ->. Qed.

Lemma nbw_well_formed_value v :
  no_body_walking v = true -> well_formed_value v = true.
Proof.
  destruct v as [cls fields attrs|items|c|]; try done.
  - apply nbw_well_formed.
  - cbn [no_body_walking well_formed_value]. intros H.
    apply forallb_forall. intros x Hx. apply nbw_well_formed.
    by apply (proj1 (forallb_forall _ _) H).
Qed.

(** ** Trees that the walk cannot tell apart *)

Definition same_body (v v' : obj) : Prop :=
  located v = true -> located v' = true /\ body_spans v' = body_spans v.

(** [same x x']: [x'] has the class of [x] and its position, if [x]
    has one; it is well formed if [x] is, and then the visit of the one
    emits the line ranges of the other. *)
Definition same (x x' : obj) : Prop :=
  cls_of x' = cls_of x /\
  (forall p, position x = Some p -> position x' = Some p) /\
  (no_body_walking x = true -> no_body_walking x' = true) /\
  (cls_of x = Some "ExceptHandler" ->
   same_body (get_field "body" (fields_of x)) (get_field "body" (fields_of x')))
  /\ (well_formed_tree x = true -> well_formed_tree x' = true /\ ranges x' = ranges x).

Definition value_same (v v' : obj) : Prop :=
  match v with
  | PyList l => exists l', v' = PyList l' /\ Forall2 same l l'
  | Node _ _ _ => same v v'
  | _ => v' = v
  end.

Definition fields_same (fs fs' : list (string * obj)) : Prop :=
  Forall2 (fun fv fv' => fv'.1 = fv.1 /\ value_same fv.2 fv'.2) fs fs'.

Lemma same_refl x : same x x.
Proof. by repeat split. Qed.

Lemma same_trans x y z : same x y -> same y z -> same x z.
Proof.
  intros (C1 & P1 & N1 & H1 & W1) (C2 & P2 & N2 & H2 & W2). split_and!.
  - congruence.
  - auto.
  - auto.
  - intros Hx Hl. destruct (H1 Hx Hl) as [Hl1 E1].
    destruct (H2 ltac:(congruence) Hl1) as [Hl2 E2]. split; congruence.
  - intros Hx. destruct (W1 Hx) as [Hy E1]. destruct (W2 Hy) as [Hz E2].
    split; congruence.
Qed.

Lemma Forall2_same_refl l : Forall2 same l l.
Proof. apply Forall_Forall2_diag, Forall_forall. intros; apply same_refl. Qed.

Lemma Forall2_same_trans l1 l2 l3 :
  Forall2 same l1 l2 -> Forall2 same l2 l3 -> Forall2 same l1 l3.
Proof.
  intros H. revert l3. induction H as [|x y l1 l2 Hxy _ IH]; intros l3 H3.
  - by inversion H3.
  - inversion H3 as [|? z ? l3' Hyz Hl]; subst.
    constructor; [by eapply same_trans|by apply IH].
Qed.

Lemma value_same_refl v : value_same v v.
Proof.
  destruct v as [cls fields attrs|items|c|]; cbn [value_same];
    [apply same_refl| |done..].
  exists items. split; [done|]. apply Forall2_same_refl.
Qed.

Lemma fields_same_refl fs : fields_same fs fs.
Proof.
  apply Forall_Forall2_diag, Forall_forall. intros fv _.
  split; [done|]. apply value_same_refl.
Qed.

Lemma same_is_node x x' : same x x' -> is_node x' = is_node x.
Proof. intros (C & _). destruct x, x'; done. Qed.

Lemma Forall2_same_nbw l l' :
  Forall2 same l l' ->
  forallb no_body_walking l = true -> forallb no_body_walking l' = true.
Proof.
  induction 1 as [|x y l l' (_ & _ & N & _) _ IH]; cbn [forallb]; [done|].
  intros [Hx Hl]%andb_true_iff. apply andb_true_iff. auto.
Qed.

Lemma Forall2_same_well_formed l l' :
  Forall2 same l l' ->
  forallb well_formed_tree l = true ->
  forallb well_formed_tree l' = true /\
  concat (map ranges l') = concat (map ranges l).
Proof.
  induction 1 as [|x y l l' (_ & _ & _ & _ & W) _ IH]; cbn [forallb map concat];
    [done|].
  intros [Hx Hl]%andb_true_iff. destruct (W Hx) as [Hy ->].
  destruct (IH Hl) as [Hl' ->]. by rewrite Hy, Hl'.
Qed.

Lemma Forall2_same_positions l l' :
  Forall2 same l l' -> located (PyList l) = true ->
  located (PyList l') = true /\ omap position l' = omap position l.
Proof.
  cbn [located].
  induction 1 as [|x y l l' (_ & P & _) _ IH]; [done|].
  cbn [forallb omap list_omap].
  destruct (position x) as [p|] eqn:E; [|done].
  rewrite (P p eq_refl). cbn [andb]. intros Hl.
  destruct (IH Hl) as [Hl' Ho]. split; [done|]. by rewrite Ho.
Qed.

Lemma Forall2_same_body l l' :
  Forall2 same l l' -> same_body (PyList l) (PyList l').
Proof.
  intros H Hl. destruct (Forall2_same_positions l l' H Hl) as [Hl' Ho].
  split; [done|]. cbn [body_spans].
  by rewrite Ho, (Forall2_length _ _ _ H).
Qed.

Lemma value_same_nbw v v' :
  value_same v v' -> no_body_walking v = true -> no_body_walking v' = true.
Proof.
  destruct v as [cls fields attrs|items|c|]; cbn [value_same].
  - by intros (_ & _ & N & _).
  - intros (l' & -> & H). cbn [no_body_walking]. by apply Forall2_same_nbw.
  - by intros ->.
  - by intros ->.
Qed.

Lemma value_same_well_formed v v' :
  value_same v v' -> well_formed_value v = true ->
  well_formed_value v' = true /\ ranges_value v' = ranges_value v.
Proof.
  destruct v as [cls fields attrs|items|c|]; cbn [value_same].
  - intros H. pose proof (same_is_node _ _ H) as Hn.
    destruct H as (_ & _ & _ & _ & W). by destruct v'.
  - intros (l' & -> & H). cbn [well_formed_value ranges_value].
    by apply Forall2_same_well_formed.
  - by intros ->.
  - by intros ->.
Qed.

Lemma value_same_body v v' : value_same v v' -> same_body v v'.
Proof.
  destruct v as [cls fields attrs|items|c|]; cbn [value_same].
  - intros H%same_is_node. by destruct v'.
  - intros (l' & -> & H). by apply Forall2_same_body.
  - by intros ->.
  - by intros ->.
Qed.

Lemma get_field_same name fs fs' :
  fields_same fs fs' -> value_same (get_field name fs) (get_field name fs').
Proof.
  induction 1 as [|[f v] [f' v'] fs fs' [Hf Hv] _ IH]; cbn [get_field]; [done|].
  cbn [fst snd] in *. subst f'. by destruct (String.eqb f name).
Qed.

Lemma handlers_same cls fs fs' :
  fields_same fs fs' -> Forall2 same (handlers_of cls fs) (handlers_of cls fs').
Proof.
  intros H. unfold handlers_of. destruct (String.eqb cls "Try"); [|constructor].
  pose proof (get_field_same "handlers" fs fs' H) as Hh.
  destruct (get_field "handlers" fs) as [c f a|hs|c|]; cbn [value_same] in Hh.
  - apply same_is_node in Hh. destruct (get_field _ fs'); try done; constructor.
  - by destruct Hh as (hs' & -> & Hh).
  - rewrite Hh. constructor.
  - rewrite Hh. constructor.
Qed.

Lemma handlers_ok_same hs hs' :
  Forall2 same hs hs' -> forallb handler_ok hs = true ->
  forallb handler_ok hs' = true /\
  concat (map (fun h => body_spans (get_field "body" (fields_of h))) hs')
  = concat (map (fun h => body_spans (get_field "body" (fields_of h))) hs).
Proof.
  induction 1 as [|h h' hs hs' (C & _ & _ & H & _) _ IH];
    cbn [forallb map concat]; [done|].
  intros [Hh Hl]%andb_true_iff. destruct (IH Hl) as [Hl' ->].
  unfold handler_ok in *. rewrite C.
  destruct (cls_of h) as [c|]; [|done].
  apply andb_true_iff in Hh as [Hc Hb]. rewrite Hc.
  apply String.eqb_eq in Hc as ->.
  destruct (H eq_refl Hb) as [-> ->]. by rewrite Hl'.
Qed.

Lemma fields_same_nbw fs fs' :
  fields_same fs fs' ->
  forallb (fun fv => no_body_walking fv.2) fs = true ->
  forallb (fun fv => no_body_walking fv.2) fs' = true.
Proof.
  induction 1 as [|fv fv' fs fs' [_ Hv] _ IH]; cbn [forallb]; [done|].
  intros [Hx Hl]%andb_true_iff. apply andb_true_iff.
  split; [by eapply value_same_nbw|auto].
Qed.

Lemma fields_same_well_formed fs fs' :
  fields_same fs fs' ->
  forallb (fun fv => well_formed_value fv.2) fs = true ->
  forallb (fun fv => well_formed_value fv.2) fs' = true /\
  concat (map (fun fv => ranges_value fv.2) fs')
  = concat (map (fun fv => ranges_value fv.2) fs).
Proof.
  induction 1 as [|fv fv' fs fs' [_ Hv] _ IH]; cbn [forallb map concat];
    [done|].
  intros [Hx Hl]%andb_true_iff.
  destruct (value_same_well_formed _ _ Hv Hx) as [-> ->].
  by destruct (IH Hl) as [-> ->].
Qed.

(** A node whose fields have been replaced by fields that the walk
    cannot tell apart. *)
Lemma same_Node cls fields fields' attrs attrs' :
  fields_same fields fields' ->
  (forall p, position (Node cls fields attrs) = Some p ->
             position (Node cls fields' attrs') = Some p) ->
  same (Node cls fields attrs) (Node cls fields' attrs').
Proof.
  intros Hf Hp.
  assert (no_body_walking (Node cls fields attrs) = true ->
          no_body_walking (Node cls fields' attrs') = true) as Hn.
  { cbn [no_body_walking]. intros [Hc Hl]%andb_true_iff.
    apply andb_true_iff. split; [done|]. by eapply fields_same_nbw. }
  split_and!; [done|exact Hp|exact Hn| |].
  - intros _. cbn [fields_of]. apply value_same_body, get_field_same, Hf.
  - rewrite !well_formed_Node, !ranges_Node.
    intros [Hw|Hw]%orb_true_iff.
    { rewrite (Hn Hw). split; [done|].
      pose proof (proj1 (nbw_ranges _ Hw)) as E1.
      pose proof (proj1 (nbw_ranges _ (Hn Hw))) as E2.
      rewrite ranges_Node in E1, E2. congruence. }
    apply andb_true_iff in Hw as [Hw Hchildren].
    apply andb_true_iff in Hw as [Hw Hhandlers].
    apply andb_true_iff in Hw as [Hw Hwalked].
    apply andb_true_iff in Hw as [Hcls Hdropped].
    destruct (fields_same_well_formed _ _ Hf Hchildren) as [-> ->].
    destruct (handlers_ok_same _ _ (handlers_same cls _ _ Hf) Hhandlers)
      as [-> ->].
    rewrite Hcls.
    assert (forallb (fun name => no_body_walking (get_field name fields'))
                    (dropped cls) = true) as ->.
    { apply forallb_forall. intros name Hin.
      eapply value_same_nbw; [apply get_field_same, Hf|].
      by apply (proj1 (forallb_forall _ _) Hdropped). }
    assert (forall name, In name (walked cls) ->
              located (get_field name fields') = true /\
              body_spans (get_field name fields')
              = body_spans (get_field name fields)) as Hspans.
    { intros name Hin.
      apply (value_same_body _ _ (get_field_same name _ _ Hf)).
      by apply (proj1 (forallb_forall _ _) Hwalked). }
    assert (forallb (fun name => located (get_field name fields'))
                    (walked cls) = true) as ->.
    { apply forallb_forall. intros name Hin. by apply Hspans. }
    split; [by rewrite orb_true_r|]. do 2 f_equal.
    apply map_ext_in. intros name Hin. by apply Hspans.
Qed.

(** A node of a class that the canonicalizer builds anew. *)
Lemma same_rebuilt cls fields fields' attrs attrs' :
  rebuilt cls = true ->
  (forall p, position (Node cls fields attrs) = Some p ->
             position (Node cls fields' attrs') = Some p) ->
  (no_body_walking (Node cls fields attrs) = true ->
   no_body_walking (Node cls fields' attrs') = true) ->
  same (Node cls fields attrs) (Node cls fields' attrs').
Proof.
  intros Hr Hp Hn. split_and!; [done|exact Hp|exact Hn| |].
  - intros [= ->]. done.
  - rewrite well_formed_Node, Hr. cbn [negb andb]. rewrite orb_false_r.
    intros Hw. split; [by apply nbw_well_formed, Hn|].
    by rewrite (proj1 (nbw_ranges _ Hw)), (proj1 (nbw_ranges _ (Hn Hw))).
Qed.

Lemma fields_same_set_field name v fields :
  value_same (get_field name fields) v ->
  fields_same fields (set_field name v fields).
Proof.
  induction fields as [|[f w] fields IH]; cbn [get_field set_field];
    [constructor|].
  destruct (String.eqb f name).
  - intros Hv. constructor; [by split|apply fields_same_refl].
  - intros Hv. constructor; [|by apply IH]. split; [done|].
    apply value_same_refl.
Qed.

Lemma get_set_field_cases name name' v fields :
  get_field name' (set_field name v fields) = v \/
  get_field name' (set_field name v fields) = get_field name' fields.
Proof.
  induction fields as [|[f w] fields IH]; cbn [get_field set_field]; [by right|].
  destruct (String.eqb f name) eqn:E; cbn [get_field].
  - destruct (String.eqb f name'); [by left|by right].
  - destruct (String.eqb f name'); [by right|exact IH].
Qed.

Lemma concat_set_field {B} (G : obj -> list B) name v fields :
  G v = G (get_field name fields) ->
  concat (map (fun fv => G fv.2) (set_field name v fields))
  = concat (map (fun fv => G fv.2) fields).
Proof.
  induction fields as [|[f w] fields IH]; cbn [get_field set_field map concat];
    [done|].
  destruct (String.eqb f name); cbn [map concat fst snd].
  - by intros ->.
  - intros Hv. by rewrite IH.
Qed.

Lemma dropped_not_walked cls name :
  In name (dropped cls) ->
  ~ In name (walked cls) /\ name <> "handlers" /\ name <> "body" /\
  body_walking cls = String.eqb cls "FunctionDef" /\
  cls <> "ExceptHandler".
Proof.
  unfold dropped, walked.
  destruct (String.eqb cls "FunctionDef") eqn:E1.
  { apply String.eqb_eq in E1 as ->. cbn. intros [<-|[<-|[<-|[]]]];
      split_and!; try done; by intros [|[]]. }
  destruct (String.eqb cls "ClassDef") eqn:E2; [|done].
  apply String.eqb_eq in E2 as ->. cbn. intros [<-|[<-|[<-|[]]]];
    split_and!; try done; by intros [].
Qed.

(** A function or class definition of which the canonicalizer has
    overwritten a field. *)
Lemma same_dropped cls fields attrs name v :
  In name (dropped cls) -> no_body_walking v = true ->
  same (Node cls fields attrs) (Node cls (set_field name v fields) attrs).
Proof.
  intros Hin Hv.
  destruct (dropped_not_walked cls name Hin) as (Hnw & Hnh & Hnb & _ & Hne).
  assert (no_body_walking (Node cls fields attrs) = true ->
          no_body_walking (Node cls (set_field name v fields) attrs) = true)
    as Hn.
  { cbn [no_body_walking]. intros [Hc Hl]%andb_true_iff.
    apply andb_true_iff. split; [done|]. by apply forallb_set_field. }
  split_and!; [done|done|exact Hn| |].
  - intros [= ->]. done.
  - rewrite !well_formed_Node, !ranges_Node.
    intros [Hw|Hw]%orb_true_iff.
    { rewrite (Hn Hw). split; [done|].
      pose proof (proj1 (nbw_ranges _ Hw)) as E1.
      pose proof (proj1 (nbw_ranges _ (Hn Hw))) as E2.
      rewrite ranges_Node in E1, E2. congruence. }
    apply andb_true_iff in Hw as [Hw Hchildren].
    apply andb_true_iff in Hw as [Hw Hhandlers].
    apply andb_true_iff in Hw as [Hw Hwalked].
    apply andb_true_iff in Hw as [Hcls Hdropped].
    assert (handlers_of cls (set_field name v fields) = handlers_of cls fields)
      as ->.
    { unfold handlers_of. by rewrite get_set_field_other. }
    assert (map (fun w => body_spans (get_field w (set_field name v fields)))
                (walked cls)
            = map (fun w => body_spans (get_field w fields)) (walked cls)) as ->.
    { apply map_ext_in. intros w Hw. rewrite get_set_field_other; [done|].
      by intros ->. }
    assert (forallb (fun w => located (get_field w (set_field name v fields)))
                    (walked cls) = true) as ->.
    { apply forallb_forall. intros w Hw. rewrite get_set_field_other.
      - by apply (proj1 (forallb_forall _ _) Hwalked).
      - by intros ->. }
    assert (forallb (fun d => no_body_walking
                                (get_field d (set_field name v fields)))
                    (dropped cls) = true) as ->.
    { apply forallb_forall. intros d Hd.
      destruct (get_set_field_cases name d v fields) as [->| ->]; [done|].
      by apply (proj1 (forallb_forall _ _) Hdropped). }
    rewrite Hcls, Hhandlers.
    rewrite (forallb_set_field well_formed_value)
      by (done || by apply nbw_well_formed_value).
    split; [by rewrite orb_true_r|]. do 2 f_equal.
    apply concat_set_field.
    rewrite (proj2 (nbw_ranges v Hv)). symmetry. apply nbw_ranges.
    by apply (proj1 (forallb_forall _ _) Hdropped).
Qed.

(** ** The canonicalizer leaves the walk as it was *)

Lemma copy_location_position cls fields fields' attrs p :
  position (Node cls fields attrs) = Some p ->
  position (Node cls fields'
              (Canonicalizer.copy_location (Node cls fields attrs))) = Some p.
Proof.
  unfold position, Canonicalizer.copy_location. cbn [attrs_of].
  by destruct attrs as [[[a|] [b|]]|].
Qed.

Lemma apply_fields_same st fields :
  Forall (fun fv => (forall st, same fv.2 (apply_maps st fv.2)) /\
            match fv.2 with
            | PyList items => Forall (fun it => forall st, same it (apply_maps st it)) items
            | _ => True
            end) fields ->
  fields_same fields (map (apply_field st) fields).
Proof.
  intros H. apply Forall2_fmap_r, Forall_Forall2_diag.
  eapply Forall_impl; [exact H|]. intros [f v] [Hv Hitems].
  unfold apply_field. cbn [fst snd] in *. split; [done|].
  destruct v as [cls fs a|items|c|]; cbn [value_same];
    [apply Hv| |done..].
  exists (map (apply_maps st) items). split; [done|].
  apply Forall2_fmap_r, Forall_Forall2_diag.
  eapply Forall_impl; [exact Hitems|]. intros it Hit. apply Hit.
Qed.

Lemma apply_maps_same o :
  (forall st, same o (apply_maps st o)) /\
  match o with
  | PyList items => Forall (fun it => forall st, same it (apply_maps st it)) items
  | _ => True
  end.
Proof.
  induction o as [cls fields attrs IH|items IH|c|] using obj_induction.
  2: { split; [intros; apply same_refl|].
       eapply Forall_impl; [exact IH|]. by intros ? [? _]. }
  2,3: split; [intros; apply same_refl|done].
  split; [|done]. intros st. rewrite apply_maps_Node. cbn zeta.
  pose proof (apply_fields_same st fields IH) as Hfields.
  assert (no_body_walking (Node cls fields attrs) = true ->
          forall name,
            no_body_walking (get_field name fields) = true /\
            no_body_walking (get_field name (map (apply_field st) fields)) = true)
    as Hget.
  { cbn [no_body_walking]. intros [_ Hn]%andb_true_iff name.
    split; apply nbw_get_field; [done|by eapply fields_same_nbw]. }
  destruct (String.eqb cls "Name") eqn:E1.
  { apply String.eqb_eq in E1 as ->.
    destruct (get_field "id" fields) as [| |[]|]; try apply same_refl.
    apply same_rebuilt; [done|apply copy_location_position|].
    intros Hn. cbn [no_body_walking forallb fst snd]. cbn.
    by rewrite (proj1 (Hget Hn "ctx")). }
  destruct (String.eqb cls "arg") eqn:E2.
  { apply String.eqb_eq in E2 as ->.
    destruct (get_field "arg" fields) as [| |[]|]; try apply same_refl.
    apply same_rebuilt; [done|apply copy_location_position|done]. }
  destruct (String.eqb cls "Constant") eqn:E3.
  { apply String.eqb_eq in E3 as ->.
    destruct (get_field "value" fields) as [| |c|]; try apply same_refl.
    apply same_rebuilt; [done|apply copy_location_position|done]. }
  destruct (String.eqb cls "FunctionDef") eqn:E4.
  { apply String.eqb_eq in E4 as ->.
    eapply same_trans; [apply (same_Node _ _ _ attrs attrs Hfields); done|].
    eapply same_trans;
      [apply (same_dropped _ _ _ "name" (Canonicalizer.str "_fn"));
       [cbn; auto|done]|].
    eapply same_trans;
      [apply (same_dropped _ _ _ "decorator_list" (PyList []));
       [cbn; auto|done]|].
    apply (same_dropped _ _ _ "returns"); [cbn; auto|done]. }
  destruct (String.eqb cls "ClassDef") eqn:E5.
  { apply String.eqb_eq in E5 as ->.
    eapply same_trans; [apply (same_Node _ _ _ attrs attrs Hfields); done|].
    eapply same_trans;
      [apply (same_dropped _ _ _ "name" (Canonicalizer.str "_cls"));
       [cbn; auto|done]|].
    eapply same_trans;
      [apply (same_dropped _ _ _ "bases" (PyList [])); [cbn; auto|done]|].
    apply (same_dropped _ _ _ "decorator_list"); [cbn; auto|done]. }
  destruct (String.eqb cls "Attribute") eqn:E6.
  { apply String.eqb_eq in E6 as ->.
    destruct (get_field "attr" _) as [| |[]|]; try apply same_refl.
    apply same_rebuilt; [done|apply copy_location_position|].
    intros Hn. cbn [no_body_walking forallb fst snd]. cbn.
    by rewrite (proj2 (Hget Hn "value")), (proj2 (Hget Hn "ctx")). }
  by apply same_Node.
Qed.

Lemma fix_same o :
  (forall ln en, same o (AstLib._fix o ln en)) /\
  match o with
  | PyList items =>
      Forall (fun it => forall ln en, same it (AstLib._fix it ln en)) items
  | _ => True
  end.
Proof.
  induction o as [cls fields attrs IH|items IH|c|] using obj_induction.
  2: { split; [intros; apply same_refl|].
       eapply Forall_impl; [exact IH|]. by intros ? [? _]. }
  2,3: split; [intros; apply same_refl|done].
  split; [|done]. intros ln en. cbn [AstLib._fix].
  destruct (match attrs with
            | Some l => _
            | None => (None, ln, en)
            end) as [[attrs' ln'] en'] eqn:Ea.
  apply same_Node.
  - apply Forall2_fmap_r, Forall_Forall2_diag.
    eapply Forall_impl; [exact IH|]. intros [f v] [Hv Hitems].
    cbn [fst snd] in *.
    destruct v as [c fs a|its|c|]; cbn [fst snd];
      (split; [done|]); cbn [value_same]; try done.
    + apply Hv.
    + eexists. split; [reflexivity|].
      apply Forall2_fmap_r, Forall_Forall2_diag.
      eapply Forall_impl; [exact Hitems|]. intros it Hit.
      destruct it; try apply same_refl. apply Hit.
  - intros p. unfold position. cbn [attrs_of].
    destruct attrs as [[[a|] [b|]]|]; cbn in Ea; by simplify_eq.
Qed.

Lemma fix_item_same y : same y (fix_item y).
Proof. destruct y; try apply same_refl. apply fix_same. Qed.

Lemma in_place_same old new :
  same old new -> same old (Block.in_place old new).
Proof.
  intros H. destruct old as [cls fields attrs| | |]; try apply same_refl.
  unfold Block.in_place.
  destruct (_ || _); [apply same_refl|].
  destruct (String.eqb cls "Attribute") eqn:E; [|exact H].
  apply String.eqb_eq in E as ->.
  apply same_rebuilt; [done|done|].
  intros Hn. destruct H as (_ & _ & N & _). specialize (N Hn).
  cbn [no_body_walking] in *. apply andb_true_iff in Hn as [_ Hn].
  apply andb_true_iff. split; [done|].
  assert (forall name, no_body_walking (get_field name (fields_of new)) = true)
    as Hg.
  { intros name. destruct new as [c fs a| | |]; try done.
    cbn [no_body_walking fields_of] in *.
    apply andb_true_iff in N as [_ N]. by apply nbw_get_field. }
  by repeat apply forallb_set_field.
Qed.

Lemma block_after_same block : Forall2 same block (Block.block_after block).
Proof.
  rewrite block_after_eq.
  destruct (mapM _ block _) as [[items s1]|e] eqn:E;
    [|apply Forall2_same_refl].
  apply visit_items_final in E as ->.
  apply Forall2_fmap_r, Forall2_fmap_r, Forall_Forall2_diag, Forall_forall.
  intros x _. eapply same_trans; [apply apply_maps_same|apply fix_item_same].
Qed.

Lemma zip_in_place_same block block' :
  Forall2 same block block' ->
  Forall2 same block (zip_with Block.in_place block block').
Proof.
  induction 1 as [|x y l1 l2 Hxy _ IH]; cbn [zip_with]; constructor; [|done].
  by apply in_place_same.
Qed.

Lemma window_same length_ stmts seqs i stmts' seqs' :
  window length_ (stmts, seqs) i = Ok (stmts', seqs') ->
  Forall2 same stmts stmts'.
Proof.
  unfold window.
  destruct (take length_ (drop i stmts)) as [|b0 block] eqn:Eb; [done|].
  destruct (negb (has_lineno b0)).
  { intros [= <- <-]. apply Forall2_same_refl. }
  destruct (Block.canonical_block_dump _) as [[h dumped]|e]; [|done].
  destruct (head _); [|done]. destruct (last _); [|done].
  destruct (_ ≫= lineno); [|done]. destruct (_ ≫= lineno); [|done].
  intros [= <- <-].
  rewrite <- (take_drop i stmts) at 1.
  apply Forall2_app; [apply Forall2_same_refl|].
  rewrite <- (take_drop length_ (drop i stmts)) at 1.
  rewrite drop_drop, Eb.
  apply Forall2_app; [|apply Forall2_same_refl].
  apply (zip_in_place_same (b0 :: block) (Block.block_after (b0 :: block))).
  apply block_after_same.
Qed.

Lemma windows_same ws stmts seqs stmts' seqs' :
  foldM (fun st w => window w.1 st w.2) ws (stmts, seqs) = Ok (stmts', seqs') ->
  Forall2 same stmts stmts'.
Proof.
  revert stmts seqs. induction ws as [|[L i] ws IH]; intros stmts seqs;
    cbn [foldM fst snd].
  - intros [= <- <-]. apply Forall2_same_refl.
  - destruct (window L (stmts, seqs) i) as [[stmts1 seqs1]|e] eqn:E; [|done].
    intros H. eapply Forall2_same_trans; [by eapply window_same|by eapply IH].
Qed.

Lemma located_positions stmts :
  located (PyList stmts) = true ->
  map position stmts = map Some (omap position stmts).
Proof.
  cbn [located]. induction stmts as [|x stmts IH];
    cbn [forallb map omap list_omap]; [done|].
  destruct (position x); [|done]. cbn [andb map]. intros H. by rewrite IH.
Qed.

(** The walk of a list of located statements: the windows of the list
    are recorded, and the statements are left such that the walk cannot
    tell them from what they were. *)
Lemma walk_body_recorded stmts seqs stmts' seqs' :
  located (PyList stmts) = true ->
  _walk_body min_len max_len stmts seqs = Ok (stmts', seqs') ->
  Forall2 same stmts stmts' /\ recorded seqs seqs' (body_spans (PyList stmts)).
Proof.
  intros Hl. rewrite walk_body_windows. intros H.
  split; [by eapply windows_same|].
  pose proof (located_positions stmts Hl) as Hpos.
  eapply windows_located in H as (_ & recs & Hr); [|exact Hpos|].
  - by exists recs.
  - assert (length (omap position stmts) = length stmts) as ->.
    { rewrite <- (length_map Some), <- Hpos. by rewrite length_map. }
    apply windows_in_body.
Qed.

Lemma value_same_trans v1 v2 v3 :
  value_same v1 v2 -> value_same v2 v3 -> value_same v1 v3.
Proof.
  destruct v1 as [cls fields attrs|items|c|]; cbn [value_same].
  - intros H12. pose proof (same_is_node _ _ H12) as Hn.
    destruct v2; try done. cbn [value_same]. by apply same_trans.
  - intros (l2 & -> & H12). cbn [value_same]. intros (l3 & -> & H23).
    exists l3. split; [done|]. by eapply Forall2_same_trans.
  - by intros ->.
  - by intros ->.
Qed.

Lemma fields_same_trans fs1 fs2 fs3 :
  fields_same fs1 fs2 -> fields_same fs2 fs3 -> fields_same fs1 fs3.
Proof.
  unfold fields_same. intros H. revert fs3.
  induction H as [|x y l1 l2 [Hf Hv] _ IH]; intros l3 H3.
  - done.
  - inversion H3 as [|? z ? l3' [Hf' Hv'] Hl]; subst.
    constructor; [|by apply IH].
    split; [congruence|by eapply value_same_trans].
Qed.

(** ** The steps of the visit methods *)

Lemma walk_field_step name cls fields attrs seqs node1 seqs1 :
  located (get_field name fields) = true ->
  walk_field min_len max_len name (Node cls fields attrs) seqs
  = Ok (node1, seqs1) ->
  exists fields1,
    node1 = Node cls fields1 attrs /\ fields_same fields fields1 /\
    recorded seqs seqs1 (body_spans (get_field name fields)).
Proof.
  intros Hl. unfold walk_field. cbn [cls_of fields_of attrs_of default].
  intros (body & s1 & Hb & Hrest)%bind_Ok.
  apply attr_Ok in Hb as [-> ->]. cbn [fields_of] in Hrest.
  destruct (get_field name fields) as [|stmts| |] eqn:Eb; try done.
  apply bind_Ok in Hrest as (stmts' & s2 & Hw & [= <- <-]).
  apply walk_body_recorded in Hw as [Hs Hr]; [|done].
  eexists. split; [reflexivity|]. split; [|done].
  apply fields_same_set_field. rewrite Eb. cbn [value_same]. eauto.
Qed.

Lemma mapM_recorded {A B} (f : A -> M sequences B) (R : A -> B -> Prop)
    (g : A -> list (option (Z * Z))) l :
  Forall (fun x => forall s y s', f x s = Ok (y, s') ->
                                  R x y /\ recorded s s' (g x)) l ->
  forall s ys s', mapM f l s = Ok (ys, s') ->
    Forall2 R l ys /\ recorded s s' (concat (map g l)).
Proof.
  induction 1 as [|x l Hx _ IH]; intros s ys s'.
  - intros [= <- <-]. split; [constructor|apply recorded_refl].
  - rewrite mapM_cons. destruct (f x s) as [[y s1]|e] eqn:E1; [|done].
    destruct (mapM f l s1) as [[ys1 s2]|e] eqn:E2; [|done].
    intros [= <- <-]. destruct (Hx _ _ _ E1) as [Hy Hr1].
    destruct (IH _ _ _ E2) as [Hys Hr2].
    split; [by constructor|]. cbn [map concat]. by eapply recorded_app.
Qed.

Lemma walk_handlers_step cls fields attrs seqs node1 seqs1 :
  forallb handler_ok (handlers_of "Try" fields) = true ->
  walk_handlers min_len max_len (Node cls fields attrs) seqs
  = Ok (node1, seqs1) ->
  exists fields1,
    node1 = Node cls fields1 attrs /\ fields_same fields fields1 /\
    recorded seqs seqs1
      (concat (map (fun h => body_spans (get_field "body" (fields_of h)))
                   (handlers_of "Try" fields))).
Proof.
  unfold handlers_of, walk_handlers.
  cbn [String.eqb Ascii.eqb Bool.eqb cls_of fields_of attrs_of default].
  intros Hok (hs & s1 & Hb & Hrest)%bind_Ok.
  apply attr_Ok in Hb as [-> ->]. cbn [fields_of] in Hrest.
  destruct (get_field "handlers" fields) as [|hs| |] eqn:Eh; try done.
  apply bind_Ok in Hrest as (hs' & s2 & Hw & [= <- <-]).
  apply (mapM_recorded _ same
           (fun h => body_spans (get_field "body" (fields_of h)))) in Hw
    as [Hs Hr].
  - eexists. split; [reflexivity|]. split; [|done].
    apply fields_same_set_field. rewrite Eh. cbn [value_same]. eauto.
  - apply Forall_forall. intros h Hin s h' s' Hh.
    apply list_elem_of_In in Hin.
    pose proof (proj1 (forallb_forall _ _) Hok h Hin) as Hhok.
    unfold handler_ok in Hhok. destruct h as [c fs a| | |]; try done.
    apply andb_true_iff in Hhok as [_ Hloc]. cbn [fields_of] in *.
    apply walk_field_step in Hh as (fs1 & -> & Hfs & Hrec); [|done].
    split; [|done]. by apply same_Node.
Qed.

(** What a visit emits on a well-formed tree. *)
Definition records_ok (T : obj -> M sequences obj) : Prop :=
  forall node seqs node' seqs',
    well_formed_tree node = true -> T node seqs = Ok (node', seqs') ->
    recorded seqs seqs' (ranges node).

Lemma generic_visit_records V cls fields attrs seqs node' seqs' :
  records_ok V ->
  forallb (fun fv => well_formed_value fv.2) fields = true ->
  generic_visit V (Node cls fields attrs) seqs = Ok (node', seqs') ->
  recorded seqs seqs' (concat (map (fun fv => ranges_value fv.2) fields)).
Proof.
  intros HV Hwf. unfold generic_visit.
  intros (fs & s1 & Hfs & [= <- <-])%bind_Ok.
  apply (mapM_recorded _ (fun _ _ => True) (fun fv => ranges_value fv.2))
    in Hfs as [_ Hr]; [done|].
  apply Forall_forall. intros [f v] Hin s y s'.
  apply list_elem_of_In in Hin.
  pose proof (proj1 (forallb_forall _ _) Hwf _ Hin) as Hv.
  unfold visit_field. cbn [fst snd] in *.
  destruct v as [c fs' a|items|c|].
  - intros (n & s2 & E & [= <- <-])%bind_Ok. split; [done|]. by eapply HV.
  - intros (l & s2 & E & [= <- <-])%bind_Ok. split; [done|].
    cbn [ranges_value well_formed_value] in *.
    apply (mapM_recorded _ (fun _ _ => True) ranges) in E as [_ Hr]; [done|].
    apply Forall_forall. intros it Hit s0 y0 s0'.
    apply list_elem_of_In in Hit.
    pose proof (proj1 (forallb_forall _ _) Hv _ Hit) as Hwit.
    destruct it as [c fs' a| | |]; cbn [visit_item].
    + intros E'. split; [done|]. by eapply HV.
    + intros [= <- <-]. split; [done|apply recorded_refl].
    + intros [= <- <-]. split; [done|apply recorded_refl].
    + intros [= <- <-]. split; [done|apply recorded_refl].
  - intros [= <- <-]. split; [done|apply recorded_refl].
  - intros [= <- <-]. split; [done|apply recorded_refl].
Qed.

Lemma well_formed_parts cls fields attrs :
  well_formed_tree (Node cls fields attrs) = true ->
  forallb (fun name => located (get_field name fields)) (walked cls) = true /\
  forallb handler_ok (handlers_of cls fields) = true /\
  forallb (fun fv => well_formed_value fv.2) fields = true.
Proof.
  rewrite well_formed_Node. intros [Hn|Hw]%orb_true_iff.
  - cbn [no_body_walking] in Hn. apply andb_true_iff in Hn as [Hc Hf].
    apply negb_true_iff in Hc. rewrite walked_other, handlers_other by done.
    split_and!; [done..|]. apply forallb_forall. intros fv Hin.
    apply nbw_well_formed_value.
    by apply (proj1 (forallb_forall _ _) Hf).
  - apply andb_true_iff in Hw as [Hw Hchildren].
    apply andb_true_iff in Hw as [Hw Hhandlers].
    by apply andb_true_iff in Hw as [Hw Hwalked].
Qed.

Lemma located_same name fields fields1 :
  fields_same fields fields1 -> located (get_field name fields) = true ->
  located (get_field name fields1) = true /\
  body_spans (get_field name fields1) = body_spans (get_field name fields).
Proof. intros H. apply value_same_body, get_field_same, H. Qed.

Lemma walk_and_visit_records V cls fields attrs orelse seqs node' seqs' :
  records_ok V ->
  located (get_field "body" fields) = true ->
  (orelse = true -> located (get_field "orelse" fields) = true) ->
  forallb (fun fv => well_formed_value fv.2) fields = true ->
  _walk_and_visit min_len max_len V (Node cls fields attrs) orelse seqs
  = Ok (node', seqs') ->
  recorded seqs seqs'
    (body_spans (get_field "body" fields)
     ++ (if orelse then body_spans (get_field "orelse" fields) else [])
     ++ concat (map (fun fv => ranges_value fv.2) fields)).
Proof.
  intros HV Hbody Horelse Hwf. unfold _walk_and_visit.
  intros (node1 & s1 & H1 & Hrest)%bind_Ok.
  apply walk_field_step in H1 as (fields1 & -> & Hf1 & Hr1); [|done].
  apply bind_Ok in Hrest as (node2 & s2 & H2 & H3).
  assert (exists fields2,
            node2 = Node cls fields2 attrs /\ fields_same fields fields2 /\
            recorded s1 s2 (if orelse then body_spans (get_field "orelse" fields)
                            else [])) as (fields2 & -> & Hf2 & Hr2).
  { destruct orelse.
    - destruct (located_same "orelse" _ _ Hf1 (Horelse eq_refl)) as [Hl <-].
      apply walk_field_step in H2 as (fields2 & -> & Hf2 & Hr2); [|done].
      exists fields2. split_and!; [done| |done].
      by eapply fields_same_trans.
    - injection H2 as <- <-. exists fields1. split_and!; [done..|].
      apply recorded_refl. }
  destruct (fields_same_well_formed _ _ Hf2 Hwf) as [Hwf2 <-].
  apply (generic_visit_records V) in H3; [|done..].
  eapply recorded_app; [exact Hr1|]. by eapply recorded_app.
Qed.

Lemma visit_Try_records V cls fields attrs seqs node' seqs' :
  records_ok V ->
  located (get_field "body" fields) = true ->
  located (get_field "orelse" fields) = true ->
  located (get_field "finalbody" fields) = true ->
  forallb handler_ok (handlers_of "Try" fields) = true ->
  forallb (fun fv => well_formed_value fv.2) fields = true ->
  visit_Try min_len max_len V (Node cls fields attrs) seqs = Ok (node', seqs') ->
  recorded seqs seqs'
    ((body_spans (get_field "body" fields)
      ++ body_spans (get_field "orelse" fields)
      ++ body_spans (get_field "finalbody" fields) ++ [])
     ++ concat (map (fun h => body_spans (get_field "body" (fields_of h)))
                    (handlers_of "Try" fields))
     ++ concat (map (fun fv => ranges_value fv.2) fields)).
Proof.
  intros HV Hbody Horelse Hfinal Hhandlers Hwf. unfold visit_Try.
  intros (node1 & s1 & H1 & Hrest)%bind_Ok.
  apply walk_field_step in H1 as (fields1 & -> & Hf1 & Hr1); [|done].
  apply bind_Ok in Hrest as (node2 & s2 & H2 & Hrest).
  destruct (located_same "orelse" _ _ Hf1 Horelse) as [Hl2 <-].
  apply walk_field_step in H2 as (fields2 & -> & Hf2 & Hr2); [|done].
  pose proof (fields_same_trans _ _ _ Hf1 Hf2) as Hf12.
  apply bind_Ok in Hrest as (node3 & s3 & H3 & Hrest).
  destruct (located_same "finalbody" _ _ Hf12 Hfinal) as [Hl3 <-].
  apply walk_field_step in H3 as (fields3 & -> & Hf3 & Hr3); [|done].
  pose proof (fields_same_trans _ _ _ Hf12 Hf3) as Hf13.
  apply bind_Ok in Hrest as (node4 & s4 & H4 & H5).
  destruct (handlers_ok_same _ _ (handlers_same "Try" _ _ Hf13) Hhandlers)
    as [Hh3 <-].
  apply walk_handlers_step in H4 as (fields4 & -> & Hf4 & Hr4); [|done].
  pose proof (fields_same_trans _ _ _ Hf13 Hf4) as Hf14.
  destruct (fields_same_well_formed _ _ Hf14 Hwf) as [Hwf4 <-].
  apply (generic_visit_records V) in H5; [|done..].
  rewrite app_nil_r, <- !app_assoc.
  eapply recorded_app; [exact Hr1|]. eapply recorded_app; [exact Hr2|].
  eapply recorded_app; [exact Hr3|]. by eapply recorded_app.
Qed.

Lemma dispatch_records V :
  records_ok V -> records_ok (dispatch min_len max_len V).
Proof.
  intros HV node seqs node' seqs' Hwf.
  destruct node as [cls fields attrs| | |]; try done.
  destruct (well_formed_parts _ _ _ Hwf) as (Hwalked & Hhandlers & Hchildren).
  rewrite ranges_Node. unfold dispatch. cbn [cls_of].
  unfold walked, handlers_of in *.
  destruct (String.eqb cls "FunctionDef") eqn:E1.
  { apply String.eqb_eq in E1 as ->. cbn in Hwalked |- *.
    apply andb_true_iff in Hwalked as [Hb _]. rewrite app_nil_r.
    by apply (walk_and_visit_records V _ _ _ false). }
  destruct (String.eqb cls "If") eqn:E2.
  { apply String.eqb_eq in E2 as ->. cbn in Hwalked |- *.
    apply andb_true_iff in Hwalked as [Hb [Ho _]%andb_true_iff].
    rewrite app_nil_r, <- app_assoc.
    by apply (walk_and_visit_records V _ _ _ true). }
  destruct (String.eqb cls "For") eqn:E3.
  { apply String.eqb_eq in E3 as ->. cbn in Hwalked |- *.
    apply andb_true_iff in Hwalked as [Hb [Ho _]%andb_true_iff].
    rewrite app_nil_r, <- app_assoc.
    by apply (walk_and_visit_records V _ _ _ true). }
  destruct (String.eqb cls "While") eqn:E4.
  { apply String.eqb_eq in E4 as ->. cbn in Hwalked |- *.
    apply andb_true_iff in Hwalked as [Hb [Ho _]%andb_true_iff].
    rewrite app_nil_r, <- app_assoc.
    by apply (walk_and_visit_records V _ _ _ true). }
  destruct (String.eqb cls "With") eqn:E5.
  { apply String.eqb_eq in E5 as ->. cbn in Hwalked |- *.
    apply andb_true_iff in Hwalked as [Hb _]. rewrite app_nil_r.
    by apply (walk_and_visit_records V _ _ _ false). }
  destruct (String.eqb cls "Try") eqn:E6.
  { apply String.eqb_eq in E6 as ->.
    cbn [map concat forallb] in Hwalked |- *.
    apply andb_true_iff in Hwalked as [Hb [Ho [Hf _]%andb_true_iff]%andb_true_iff].
    by apply (visit_Try_records V). }
  destruct (String.eqb cls "Module") eqn:E7.
  { apply String.eqb_eq in E7 as ->. cbn in Hwalked |- *.
    apply andb_true_iff in Hwalked as [Hb _]. rewrite app_nil_r.
    by apply (walk_and_visit_records V _ _ _ false). }
  cbn [map concat app]. by apply generic_visit_records.
Qed.

(** On a well-formed tree, a visit that returns has emitted the line
    ranges of [ranges], in this order, and nothing else. *)
Lemma visit_records fuel : records_ok (visit min_len max_len fuel).
Proof.
  induction fuel as [|fuel IH]; [done|]. cbn [visit]. by apply dispatch_records.
Qed.
End WalkedBodies.

Section WalkInstancesAsync.
Import Ast Syntax.

(** The async function of [async_program]:
<<
async def f(c):
    x = 1
    y = [x, c]
    if c:
        a = 1
        b = [a, c]
>>
*)
Definition async_with_if : list (string * obj) :=
  def_fields "f" [arg_ "c" 1 1]
    [ Assign_ [Name_ "x" Store_ 2] (Constant_ (CInt 1) 2 2) 2 2
    ; Assign_ [Name_ "y" Store_ 3] (List_ [Name_ "x" Load_ 3; Name_ "c"
          Load_ 3] Load_ 3 3) 3 3
    ; If_ (Name_ "c" Load_ 4)
        [ Assign_ [Name_ "a" Store_ 5] (Constant_ (CInt 1) 5 5) 5 5
        ; Assign_ [Name_ "b" Store_ 6] (List_ [Name_ "a" Load_ 6; Name_
              "c" Load_ 6] Load_ 6 6) 6 6
        ]
        [] 4 6
    ].

(** The node and the dictionary that the visit of a tree with the
    default window lengths returns, from an empty dictionary. *)
Definition walk_of (fuel : nat) (o : obj) : obj * Selector.sequences :=
  match BodyWalker.visit 2 6 fuel o [] with
  | Ok r => r
  | Raise _ => (o, [])
  end.
End WalkInstancesAsync.



(** The visit of the async function [f] records one window, the body of
    the [if] on lines 5 and 6. *)
Example async_with_if_walk :
  (walk_of 6 (Ast.Node "AsyncFunctionDef" async_with_if (Syntax.at_ 1 6))).2
  = [("a218043e35b304c9c1b6e36edf58028cf954b2ade08e869cd61757f5a8ee19cc",
      [(5, 6,
        "Module([Assign([Name('_N0', Store())], Constant('_C0')), Assign([Name('_N1', Store())], List([Name('_N0', Load()), Name('_N2', Load())], Load()))], [])")])]
  /\ map (fun fv => ranges_value 2 6 fv.2) async_with_if
     = [[]; []; [Some (5, 6)]; []; []; []]
  /\ ranges 2 6 (Ast.Node "FunctionDef" async_with_if (Syntax.at_ 1 6))
     = [Some (2, 6); Some (2, 3); Some (3, 6); Some (5, 6)].
Proof. split_and!; vm_compute; reflexivity. Qed.


(** * Three copies of one block *)

Section ThreeCopies.
Import Ast Syntax.

(** The module
<<
a = load(p)
b = a + q
check(b)
>>
    written three times, on lines 1 to 9. *)
Definition copy_at (ln : Z) : list obj :=
  [ Assign_ [Name_ "a" Store_ ln] (Call_ (Name_ "load" Load_ ln) [Name_ "p"
        Load_ ln] ln ln) ln ln
  ; Assign_ [Name_ "b" Store_ (ln + 1)] (BinOp_ (Name_ "a" Load_ (ln + 1)) Add_
        (Name_ "q" Load_ (ln + 1)) (ln + 1) (ln + 1)) (ln + 1) (ln + 1)
  ; Expr_ (Call_ (Name_ "check" Load_ (ln + 2)) [Name_ "b" Load_ (ln + 2)]
        (ln + 2) (ln + 2)) (ln + 2) (ln + 2)
  ].

Definition three_copies : obj := Module_ (copy_at 1 ++ copy_at 4 ++ copy_at 7).

(** The hashes under which the dictionary holds an occurrence on the
    lines [se]. *)
Definition hashes_at (se : Z * Z) (r : res Selector.sequences)
    : list string :=
  match r with
  | Ok seqs =>
      map fst (List.filter
                 (fun item : string * list Selector.occurrence =>
                    existsb (fun o => Z.eqb o.1.1 se.1 && Z.eqb o.1.2 se.2)
                            item.2) seqs)
  | Raise _ => []
  end.

End ThreeCopies.

(** C2, at a module that is one block of three statements written
    three times. Each copy, taken alone, has the same dump and the same
    hash, and the three line ranges pass the triviality filter. In the
    walk, the windows of six, five and four statements are canonicalized
    first and rewrite the statements in place, so that the three windows
    of three statements are filed under two different hashes; no group
    of the dictionary has three occurrences, and [check] reports
    nothing. *)
Theorem three_verbatim_copies_not_reported :
  (Block.canonical_block_dump (copy_at 1)
   = Ast.Ok ("e344bdf4efe68a19c3d693bd3529e7d95996f34c058cd44b5d24ba4f74a0732d",
             "Module([Assign([Name('_N0', Store())], Call(Name('_N1', Load()), [Name('_N2', Load())], [])), Assign([Name('_N3', Store())], BinOp(Name('_N0', Load()), Add(), Name('_N4', Load()))), Expr(Call(Name('_N5', Load()), [Name('_N3', Load())], []))], [])")
   /\ Block.canonical_block_dump (copy_at 4) = Block.canonical_block_dump (copy_at 1)
   /\ Block.canonical_block_dump (copy_at 7) = Block.canonical_block_dump (copy_at 1))
  /\ Filter.is_trivial_dump
       "Module([Assign([Name('_N0', Store())], Call(Name('_N1', Load()), [Name('_N2', Load())], [])), Assign([Name('_N3', Store())], BinOp(Name('_N0', Load()), Add(), Name('_N4', Load()))), Expr(Call(Name('_N5', Load()), [Name('_N3', Load())], []))], [])"
       [(1, 3); (4, 6); (7, 9)] = false
  /\ (hashes_at (1, 3) (BodyWalker.collect_sequences three_copies)
      = ["bdc4d6b1b1cd4efb239b0b2f415f9871315ea25c755411d1dd5eb15605551fae"]
      /\ hashes_at (4, 6) (BodyWalker.collect_sequences three_copies)
         = ["bdc4d6b1b1cd4efb239b0b2f415f9871315ea25c755411d1dd5eb15605551fae"]
      /\ hashes_at (7, 9) (BodyWalker.collect_sequences three_copies)
         = ["4870c37ab61d3b10d9c7dafa485a66f97a7ab9fb92b0faa82c5927acd054bb40"])
  /\ forall set_order file, check set_order three_copies file = Ast.Ok [].
Proof.
  split_and!; try (vm_compute; reflexivity).
Qed.
